(** * VAGUE: peer-to-peer networking core

    A shallow embedding of the networking core of the VAGUE party game
    (utils.js, network.js, game.js) together with the ECMAScript and
    browser built-ins its codec relies on, and the properties of the
    design document checked against it.  The rules of the game
    (game.js), the handlers of app.js that start an online game, apply a
    snapshot and clean up, and the keyboard and gamepad handlers of
    input.js follow, with the properties the code itself shows.

    Conventions.
    - A JavaScript string is the list of its UTF-16 code units, each an
      integer in [0, 65535].
    - 32-bit integer operators ([<<], [|], [>>>]) are written on [Z] with the
      wrap-around of ToInt32 / ToUint32 spelled out.
    - A function that may throw returns a [result]; a method of the
      manager is a state transformer that also lists what it sends and
      which callbacks it calls.
    - The manager's fields are a record; its [Map]s are [gmap]s keyed by
      strings.  A [Map] is visited in the order its keys were inserted,
      which a [gmap] does not record: a loop over [peers] runs here over
      the enumeration of the [gmap], and what is proved of such a loop
      is stated for an enumeration that is left open (every peer once),
      so that it does not depend on the order.
    - What the environment decides (the id drawn by [generateId()], the
      outcome of the browser's negotiation promises, the reading of
      [Date.now()], the [iceConnectionState] at an event, the values of
      [Math.floor(Math.random() * n)]) is an argument of the method or
      handler concerned.
    - The game state is a record with typed fields; [toLowerCase] and
      the word database are variables of the section that holds the
      rules.  What touches the document (render.js, the rest of app.js)
      is not embedded. *)

From Stdlib Require Import ZArith Lia List Ascii String.
From stdpp Require Import base option list gmap.

Local Open Scope Z_scope.

(* ================================================================== *)
(** * Part I: definitions                                              *)
(* ================================================================== *)

(** ** JavaScript strings *)

Definition jsstring : Type := list Z.

Definition is_code_unit (c : Z) : Prop := 0 <= c < 65536.
Definition wf_string (s : jsstring) : Prop := Forall is_code_unit s.

(** Code unit of an ASCII character, and the string of a literal. *)
Definition cu (a : ascii) : Z := Z.of_N (N_of_ascii a).
Definition js (s : string) : jsstring := map cu (list_ascii_of_string s).

(** ** 32-bit integer conversions (ECMAScript ToInt32, ToUint32) *)

Definition two32 : Z := 4294967296.
Definition two31 : Z := 2147483648.

Definition ToUint32 (z : Z) : Z := z mod two32.
Definition ToInt32 (z : Z) : Z :=
  let m := z mod two32 in if two31 <=? m then m - two32 else m.

(** [a << n], [a | b] and [a >>> n] on numbers holding integers. *)
Definition js_shl (a n : Z) : Z := ToInt32 (Z.shiftl (ToInt32 a) (ToUint32 n mod 32)).
Definition js_or (a b : Z) : Z := ToInt32 (Z.lor (ToInt32 a) (ToInt32 b)).
Definition js_ushr (a n : Z) : Z := ToUint32 (Z.shiftr (ToUint32 a) (ToUint32 n mod 32)).

(** ** Rendering a non-negative integer in a radix
    (Number.prototype.toString on an integral value) *)

Definition digit_char (d : Z) : Z := if d <? 10 then 48 + d else 87 + d.

Fixpoint digits_rev (radix : Z) (fuel : nat) (z : Z) : list Z :=
  match fuel with
  | O => []
  | S f => if z <? radix then [digit_char z]
           else digit_char (z mod radix) :: digits_rev radix f (z / radix)
  end.

Definition nat_toString (radix z : Z) : jsstring :=
  rev (digits_rev radix (S (Z.to_nat (Z.log2 z))) z).

(** ** Errors and results

    [Throw e] is an exception propagating out of the call.  [Unsupported]
    marks an input outside the fragment of JavaScript the embedding covers
    (arithmetic and printing of numbers that are not safe integers, and JSON
    nested more deeply than the parser's recursion budget, which the budget
    computed by [JSON.parse] never is). *)

Inductive error :=
| SyntaxError
| TypeError
| URIError
| InvalidCharacterError
| Error (message : jsstring).

Inductive result (A : Type) :=
| Ret (a : A)
| Throw (e : error)
| Unsupported.
Arguments Ret {A} a.
Arguments Throw {A} e.
Arguments Unsupported {A}.

#[global] Instance result_ret : MRet result := @Ret.
#[global] Instance result_bind : MBind result := fun A B k r =>
  match r with
  | Ret a => k a
  | Throw e => Throw e
  | Unsupported => Unsupported
  end.

(** ** Values

    Numbers: every number the protocol carries is an integer of magnitude
    at most 2^53 (timestamps of [Date.now()], indices, counters, the
    protocol version); on these IEEE-754 double arithmetic is exact and is
    written on [Z].  Any other numeric literal read by [JSON.parse] is kept
    as the text that was read ([Lit]); computing with it is [Unsupported]. *)

Inductive number :=
| Int (z : Z)
| Lit (lexeme : jsstring).

#[warnings="-register-all"] Inductive value :=
| VUndefined
| VNull
| VBool (b : bool)
| VNum (n : number)
| VStr (s : jsstring)
| VArr (elems : list value)
| VObj (props : list (jsstring * value)).

Definition safe_integer (z : Z) : bool := Z.abs z <=? 2 ^ 53.

(** *** Ordinary objects: own properties in enumeration order

    Array-index keys come first in ascending numeric order, then the other
    string keys in creation order (OrdinaryOwnPropertyKeys). *)

Definition is_digit (c : Z) : bool := (48 <=? c) && (c <=? 57).

Definition decimal_value (ds : jsstring) : Z :=
  fold_left (fun acc d => acc * 10 + (d - 48)) ds 0.

Definition array_index (k : jsstring) : option Z :=
  match k with
  | [] => None
  | c :: r =>
      if forallb is_digit k && ((c =? 48) && bool_decide (r = []) || negb (c =? 48))
         && (Z.of_nat (length k) <=? 10) && (decimal_value k <? two32 - 1)
      then Some (decimal_value k) else None
  end.

Fixpoint obj_get (k : jsstring) (props : list (jsstring * value)) : option value :=
  match props with
  | [] => None
  | (k', v) :: r => if bool_decide (k' = k) then Some v else obj_get k r
  end.

Fixpoint obj_replace (k : jsstring) (v : value) (props : list (jsstring * value))
  : list (jsstring * value) :=
  match props with
  | [] => []
  | (k', v') :: r =>
      if bool_decide (k' = k) then (k, v) :: r else (k', v') :: obj_replace k v r
  end.

(** Insert a new array-index key [i] before the first key that is not a
    smaller array index. *)
Fixpoint obj_insert_index (i : Z) (k : jsstring) (v : value)
    (props : list (jsstring * value)) : list (jsstring * value) :=
  match props with
  | [] => [(k, v)]
  | (k', v') :: r =>
      match array_index k' with
      | Some j => if j <? i then (k', v') :: obj_insert_index i k v r
                  else (k, v) :: props
      | None => (k, v) :: props
      end
  end.

(** CreateDataProperty on an ordinary object. *)
Definition obj_define (k : jsstring) (v : value) (props : list (jsstring * value))
  : list (jsstring * value) :=
  match obj_get k props with
  | Some _ => obj_replace k v props
  | None =>
      match array_index k with
      | Some i => obj_insert_index i k v props
      | None => props ++ [(k, v)]
      end
  end.

(** Property read [v.k] for the property names the code uses ([type],
    [sdp], [ts], [name]), none of which is inherited from a prototype:
    TypeError on [null] and [undefined], the own property of an object, and
    [undefined] otherwise. *)
Definition get_prop (v : value) (k : jsstring) : result value :=
  match v with
  | VUndefined | VNull => Throw TypeError
  | VObj props => Ret (default VUndefined (obj_get k props))
  | _ => Ret VUndefined
  end.

(** ** Hexadecimal digits *)

Definition hex_upper (d : Z) : Z := if d <? 10 then 48 + d else 55 + d.
Definition hex_lower (d : Z) : Z := if d <? 10 then 48 + d else 87 + d.

Definition is_hex (c : Z) : bool :=
  is_digit c || ((65 <=? c) && (c <=? 70)) || ((97 <=? c) && (c <=? 102)).

Definition hex_val (c : Z) : Z :=
  if is_digit c then c - 48
  else if (65 <=? c) && (c <=? 70) then c - 55
  else c - 87.

(** ** JSON.stringify (no replacer, no indentation) *)

Module JSON.

Definition is_high_surrogate (c : Z) : bool := (55296 <=? c) && (c <=? 56319).
Definition is_low_surrogate (c : Z) : bool := (56320 <=? c) && (c <=? 57343).

(** UnicodeEscape: [\uXXXX] with lowercase hexadecimal digits. *)
Definition UnicodeEscape (c : Z) : jsstring :=
  [92; 117; hex_lower (c / 4096); hex_lower (c / 256 mod 16);
   hex_lower (c / 16 mod 16); hex_lower (c mod 16)].

(** The text of one code point that is not part of a surrogate pair. *)
Definition quote_unit (c : Z) : jsstring :=
  if c =? 8 then [92; 98]
  else if c =? 9 then [92; 116]
  else if c =? 10 then [92; 110]
  else if c =? 12 then [92; 102]
  else if c =? 13 then [92; 114]
  else if c =? 34 then [92; 34]
  else if c =? 92 then [92; 92]
  else if (c <? 32) || is_high_surrogate c || is_low_surrogate c
       then UnicodeEscape c
  else [c].

(** The body of QuoteJSONString: the string is read by code points, a
    well-formed surrogate pair is copied, a lone surrogate is escaped. *)
Fixpoint quote_chars (s : jsstring) : jsstring :=
  match s with
  | [] => []
  | c :: r =>
      if is_high_surrogate c then
        match r with
        | d :: r' =>
            if is_low_surrogate d then c :: d :: quote_chars r'
            else quote_unit c ++ quote_chars r
        | [] => quote_unit c
        end
      else quote_unit c ++ quote_chars r
  end.

Definition QuoteJSONString (s : jsstring) : jsstring :=
  34 :: quote_chars s ++ [34].

(** Number::toString for a safe integer. *)
Definition number_toString (n : number) : result jsstring :=
  match n with
  | Int z =>
      if safe_integer z then
        Ret (if z <? 0 then 45 :: nat_toString 10 (- z) else nat_toString 10 z)
      else Unsupported
  | Lit _ => Unsupported
  end.

Definition join_comma (parts : list jsstring) : jsstring :=
  match parts with
  | [] => []
  | p :: ps => p ++ flat_map (fun q => 44 :: q) ps
  end.

(** SerializeJSONProperty: [None] is the result [undefined]. *)
Fixpoint serialize (v : value) : result (option jsstring) :=
  match v with
  | VUndefined => Ret None
  | VNull => Ret (Some (js "null"))
  | VBool true => Ret (Some (js "true"))
  | VBool false => Ret (Some (js "false"))
  | VNum n => t ← number_toString n; Ret (Some t)
  | VStr s => Ret (Some (QuoteJSONString s))
  | VArr elems =>
      parts ← (fix elements (l : list value) : result (list jsstring) :=
                 match l with
                 | [] => Ret []
                 | e :: l' =>
                     t ← serialize e;
                     ts ← elements l';
                     Ret (default (js "null") t :: ts)
                 end) elems;
      Ret (Some (91 :: join_comma parts ++ [93]))
  | VObj props =>
      parts ← (fix members (l : list (jsstring * value)) : result (list jsstring) :=
                 match l with
                 | [] => Ret []
                 | (k, e) :: l' =>
                     t ← serialize e;
                     ts ← members l';
                     Ret (match t with
                          | Some str => (QuoteJSONString k ++ 58 :: str) :: ts
                          | None => ts
                          end)
                 end) props;
      Ret (Some (123 :: join_comma parts ++ [125]))
  end.

Definition stringify (v : value) : result (option jsstring) := serialize v.

(** *** JSON.parse (no reviver) *)

Definition is_ws (c : Z) : bool :=
  (c =? 9) || (c =? 10) || (c =? 13) || (c =? 32).

Fixpoint skip_ws (s : jsstring) : jsstring :=
  match s with
  | c :: r => if is_ws c then skip_ws r else s
  | [] => []
  end.

Fixpoint take_digits (s : jsstring) : jsstring * jsstring :=
  match s with
  | c :: r => if is_digit c then let '(ds, rest) := take_digits r in (c :: ds, rest)
              else ([], s)
  | [] => ([], [])
  end.

(** The character after a backslash in a simple escape. *)
Definition simple_escape (e : Z) : option Z :=
  if e =? 34 then Some 34
  else if e =? 92 then Some 92
  else if e =? 47 then Some 47
  else if e =? 98 then Some 8
  else if e =? 102 then Some 12
  else if e =? 110 then Some 10
  else if e =? 114 then Some 13
  else if e =? 116 then Some 9
  else None.

Definition hex4 (a b c d : Z) : Z :=
  hex_val a * 4096 + hex_val b * 256 + hex_val c * 16 + hex_val d.

(** The characters of a string literal after its opening quote, up to and
    including the closing quote; returns the string value and what follows. *)
Fixpoint parse_chars (s : jsstring) : result (jsstring * jsstring) :=
  match s with
  | [] => Throw SyntaxError
  | c :: r =>
      if c =? 34 then Ret ([], r)
      else if c =? 92 then
        match r with
        | [] => Throw SyntaxError
        | e :: r1 =>
            if e =? 117 then
              match r1 with
              | h1 :: h2 :: h3 :: h4 :: r2 =>
                  if is_hex h1 && is_hex h2 && is_hex h3 && is_hex h4 then
                    '(str, rest) ← parse_chars r2;
                    Ret (hex4 h1 h2 h3 h4 :: str, rest)
                  else Throw SyntaxError
              | _ => Throw SyntaxError
              end
            else
              match simple_escape e with
              | Some ch => '(str, rest) ← parse_chars r1; Ret (ch :: str, rest)
              | None => Throw SyntaxError
              end
        end
      else if c <? 32 then Throw SyntaxError
      else '(str, rest) ← parse_chars r; Ret (c :: str, rest)
  end.

(** A number literal: an optional minus sign; an integer part that is a
    single 0 or starts with a non-zero digit; an optional fraction (a dot
    and at least one digit); an optional exponent (e or E, an optional
    sign, at least one digit). *)
Definition scan_fraction (s : jsstring) : result (jsstring * jsstring) :=
  match s with
  | c :: r =>
      if c =? 46 then
        match take_digits r with
        | ([], _) => Throw SyntaxError
        | (ds, rest) => Ret (46 :: ds, rest)
        end
      else Ret ([], s)
  | [] => Ret ([], s)
  end.

Definition scan_exponent (s : jsstring) : result (jsstring * jsstring) :=
  match s with
  | e :: r =>
      if (e =? 101) || (e =? 69) then
        let '(sign, r1) :=
          match r with
          | g :: r' => if (g =? 43) || (g =? 45) then ([g], r') else ([], r)
          | [] => ([], r)
          end in
        match take_digits r1 with
        | ([], _) => Throw SyntaxError
        | (ds, rest) => Ret (e :: sign ++ ds, rest)
        end
      else Ret ([], s)
  | [] => Ret ([], s)
  end.

Definition scan_integer (s : jsstring) : result (jsstring * jsstring) :=
  match s with
  | c :: r =>
      if c =? 48 then Ret ([48], r)
      else if is_digit c then Ret (take_digits s)
      else Throw SyntaxError
  | [] => Throw SyntaxError
  end.

Definition parse_number (s : jsstring) : result (value * jsstring) :=
  let '(neg, s1) := match s with
                    | c :: r => if c =? 45 then (true, r) else (false, s)
                    | [] => (false, s)
                    end in
  '(ip, s2) ← scan_integer s1;
  '(fp, s3) ← scan_fraction s2;
  '(ep, s4) ← scan_exponent s3;
  let z := decimal_value ip in
  let lexeme := (if neg then [45] else []) ++ ip ++ fp ++ ep in
  if bool_decide (fp = []) && bool_decide (ep = []) && negb (neg && (z =? 0))
     && safe_integer z
  then Ret (VNum (Int (if neg then - z else z)), s4)
  else Ret (VNum (Lit lexeme), s4).

Fixpoint starts_with (kw s : jsstring) : option jsstring :=
  match kw with
  | [] => Some s
  | k :: kw' =>
      match s with
      | c :: r => if c =? k then starts_with kw' r else None
      | [] => None
      end
  end.

Definition parse_keyword (s : jsstring) : result (value * jsstring) :=
  match starts_with (js "true") s with
  | Some r => Ret (VBool true, r)
  | None =>
      match starts_with (js "false") s with
      | Some r => Ret (VBool false, r)
      | None =>
          match starts_with (js "null") s with
          | Some r => Ret (VNull, r)
          | None => Throw SyntaxError
          end
      end
  end.

(** Recursive descent on the JSON grammar.  [fuel] bounds the number of
    nested calls. *)
Fixpoint parse_value (fuel : nat) (s : jsstring) : result (value * jsstring) :=
  match fuel with
  | O => Unsupported
  | S f =>
      match skip_ws s with
      | [] => Throw SyntaxError
      | c :: r =>
          if c =? 123 then
            match skip_ws r with
            | d :: r' => if d =? 125 then Ret (VObj [], r')
                         else parse_members f (d :: r') []
            | [] => Throw SyntaxError
            end
          else if c =? 91 then
            match skip_ws r with
            | d :: r' => if d =? 93 then Ret (VArr [], r')
                         else parse_elements f (d :: r') []
            | [] => Throw SyntaxError
            end
          else if c =? 34 then
            '(str, rest) ← parse_chars r; Ret (VStr str, rest)
          else if (c =? 45) || is_digit c then parse_number (c :: r)
          else parse_keyword (c :: r)
      end
  end
with parse_elements (fuel : nat) (s : jsstring) (acc : list value)
  : result (value * jsstring) :=
  match fuel with
  | O => Unsupported
  | S f =>
      '(v, r) ← parse_value f s;
      match skip_ws r with
      | d :: r' =>
          if d =? 44 then parse_elements f r' (acc ++ [v])
          else if d =? 93 then Ret (VArr (acc ++ [v]), r')
          else Throw SyntaxError
      | [] => Throw SyntaxError
      end
  end
with parse_members (fuel : nat) (s : jsstring) (acc : list (jsstring * value))
  : result (value * jsstring) :=
  match fuel with
  | O => Unsupported
  | S f =>
      match skip_ws s with
      | q :: r =>
          if q =? 34 then
            '(k, r1) ← parse_chars r;
            match skip_ws r1 with
            | d :: r2 =>
                if d =? 58 then
                  '(v, r3) ← parse_value f r2;
                  match skip_ws r3 with
                  | e :: r4 =>
                      if e =? 44 then parse_members f r4 (obj_define k v acc)
                      else if e =? 125 then Ret (VObj (obj_define k v acc), r4)
                      else Throw SyntaxError
                  | [] => Throw SyntaxError
                  end
                else Throw SyntaxError
            | [] => Throw SyntaxError
            end
          else Throw SyntaxError
      | [] => Throw SyntaxError
      end
  end.

(** [JSON.parse(text)]: one value, surrounded by optional white space. *)
Definition parse (text : jsstring) : result value :=
  '(v, rest) ← parse_value (2 * length text + 2) text;
  match skip_ws rest with
  | [] => Ret v
  | _ => Throw SyntaxError
  end.

End JSON.

(** ToString of the result of [JSON.stringify] where the code passes it on
    as a string. *)
Definition string_or_undefined (o : option jsstring) : jsstring :=
  default (js "undefined") o.

(** ** URI coding: encodeURIComponent, decodeURIComponent, escape, unescape *)

Module URI.

Definition is_alpha (c : Z) : bool :=
  ((65 <=? c) && (c <=? 90)) || ((97 <=? c) && (c <=? 122)).

(** Characters [encodeURIComponent] copies: letters, digits and [-_.!~*'()]. *)
Definition uri_unreserved (c : Z) : bool :=
  is_alpha c || is_digit c
  || (c =? 45) || (c =? 95) || (c =? 46) || (c =? 33) || (c =? 126)
  || (c =? 42) || (c =? 39) || (c =? 40) || (c =? 41).

(** Characters [escape] copies: letters, digits and [@*_+-./]. *)
Definition escape_unreserved (c : Z) : bool :=
  is_alpha c || is_digit c
  || (c =? 64) || (c =? 42) || (c =? 95) || (c =? 43) || (c =? 45)
  || (c =? 46) || (c =? 47).

(** [%XX] with uppercase hexadecimal digits. *)
Definition pct (b : Z) : jsstring := [37; hex_upper (b / 16); hex_upper (b mod 16)].

Definition utf8_octets (cp : Z) : list Z :=
  if cp <? 128 then [cp]
  else if cp <? 2048 then [192 + cp / 64; 128 + cp mod 64]
  else if cp <? 65536 then
    [224 + cp / 4096; 128 + cp / 64 mod 64; 128 + cp mod 64]
  else [240 + cp / 262144; 128 + cp / 4096 mod 64;
        128 + cp / 64 mod 64; 128 + cp mod 64].

Definition code_point_of_pair (hi lo : Z) : Z :=
  (hi - 55296) * 1024 + (lo - 56320) + 65536.

(** Encode(string, unreserved): a copied character, or the percent-escaped
    UTF-8 octets of the code point at this position; URIError on a
    surrogate that is not part of a pair. *)
Fixpoint Encode (s : jsstring) : result jsstring :=
  match s with
  | [] => Ret []
  | c :: r =>
      if uri_unreserved c then t ← Encode r; Ret (c :: t)
      else if JSON.is_low_surrogate c then Throw URIError
      else if JSON.is_high_surrogate c then
        match r with
        | d :: r' =>
            if JSON.is_low_surrogate d then
              t ← Encode r';
              Ret (flat_map pct (utf8_octets (code_point_of_pair c d)) ++ t)
            else Throw URIError
        | [] => Throw URIError
        end
      else t ← Encode r; Ret (flat_map pct (utf8_octets c) ++ t)
  end.

Definition encodeURIComponent (s : jsstring) : result jsstring := Encode s.

(** [unescape]: [%uXXXX] and [%XX] become the code unit they name, every
    other character is copied. *)
Fixpoint unescape (s : jsstring) : jsstring :=
  match s with
  | [] => []
  | c :: r =>
      if c =? 37 then
        match r with
        | h1 :: h2 :: r2 =>
            if h1 =? 117 then
              match r2 with
              | h3 :: h4 :: h5 :: r5 =>
                  if is_hex h2 && is_hex h3 && is_hex h4 && is_hex h5
                  then JSON.hex4 h2 h3 h4 h5 :: unescape r5
                  else c :: unescape r
              | _ => c :: unescape r
              end
            else if is_hex h1 && is_hex h2
            then (hex_val h1 * 16 + hex_val h2) :: unescape r2
            else c :: unescape r
        | _ => c :: unescape r
        end
      else c :: unescape r
  end.

(** [escape]: a copied character, [%XX] below 256, [%uXXXX] otherwise. *)
Definition escape_unit (c : Z) : jsstring :=
  if escape_unreserved c then [c]
  else if c <? 256 then pct c
  else [37; 117; hex_upper (c / 4096); hex_upper (c / 256 mod 16);
        hex_upper (c / 16 mod 16); hex_upper (c mod 16)].

Definition escape (s : jsstring) : jsstring := flat_map escape_unit s.

(** Progress through one UTF-8 sequence while decoding: nothing pending, or
    [more] continuation octets still to come for the value [acc] of a
    sequence of [len] octets. *)
Inductive utf8_state :=
| Idle
| Pending (len : Z) (more : nat) (acc : Z).

(** A decoded value is a code point with a shortest-form encoding. *)
Definition utf8_valid (len v : Z) : bool :=
  if len =? 2 then 128 <=? v
  else if len =? 3 then (2048 <=? v) && negb ((55296 <=? v) && (v <=? 57343))
  else (65536 <=? v) && (v <=? 1114111).

Definition utf16_units (cp : Z) : jsstring :=
  if cp <? 65536 then [cp]
  else [55296 + (cp - 65536) / 1024; 56320 + (cp - 65536) mod 1024].

(** Decode(string, reserved = none): a character other than [%] is copied;
    [%XX] starts or continues a UTF-8 sequence; URIError on a truncated or
    malformed escape and on octets that are not valid UTF-8. *)
Fixpoint Decode_from (st : utf8_state) (s : jsstring) : result jsstring :=
  match st with
  | Idle =>
      match s with
      | [] => Ret []
      | c :: r =>
          if c =? 37 then
            match r with
            | h1 :: h2 :: r1 =>
                if is_hex h1 && is_hex h2 then
                  let b := hex_val h1 * 16 + hex_val h2 in
                  if b <? 128 then t ← Decode_from Idle r1; Ret (b :: t)
                  else if b <? 192 then Throw URIError
                  else if b <? 224 then Decode_from (Pending 2 0 (b - 192)) r1
                  else if b <? 240 then Decode_from (Pending 3 1 (b - 224)) r1
                  else if b <? 248 then Decode_from (Pending 4 2 (b - 240)) r1
                  else Throw URIError
                else Throw URIError
            | _ => Throw URIError
            end
          else t ← Decode_from Idle r; Ret (c :: t)
      end
  | Pending len more acc =>
      match s with
      | c :: h1 :: h2 :: r1 =>
          if (c =? 37) && is_hex h1 && is_hex h2 then
            let b := hex_val h1 * 16 + hex_val h2 in
            if (128 <=? b) && (b <? 192) then
              let v := acc * 64 + (b - 128) in
              match more with
              | S m => Decode_from (Pending len m v) r1
              | O =>
                  if utf8_valid len v then
                    t ← Decode_from Idle r1; Ret (utf16_units v ++ t)
                  else Throw URIError
              end
            else Throw URIError
          else Throw URIError
      | _ => Throw URIError
      end
  end.

Definition decodeURIComponent (s : jsstring) : result jsstring :=
  Decode_from Idle s.

End URI.

(** ** Base64: btoa and atob (the forgiving-base64 algorithms of HTML) *)

Module Base64.

Definition b64_char (v : Z) : Z :=
  if v <? 26 then 65 + v
  else if v <? 52 then 71 + v
  else if v <? 62 then v - 4
  else if v =? 62 then 43
  else 47.

Definition b64_val (c : Z) : option Z :=
  if (65 <=? c) && (c <=? 90) then Some (c - 65)
  else if (97 <=? c) && (c <=? 122) then Some (c - 71)
  else if is_digit c then Some (c + 4)
  else if c =? 43 then Some 62
  else if c =? 47 then Some 63
  else None.

Fixpoint b64_encode (l : list Z) : jsstring :=
  match l with
  | [] => []
  | [a] => [b64_char (a / 4); b64_char (a mod 4 * 16); 61; 61]
  | [a; b] =>
      [b64_char (a / 4); b64_char (a mod 4 * 16 + b / 16);
       b64_char (b mod 16 * 4); 61]
  | a :: b :: c :: r =>
      b64_char (a / 4) :: b64_char (a mod 4 * 16 + b / 16)
      :: b64_char (b mod 16 * 4 + c / 64) :: b64_char (c mod 64)
      :: b64_encode r
  end.

(** [btoa(data)]: InvalidCharacterError if a code unit exceeds 255. *)
Definition btoa (data : jsstring) : result jsstring :=
  if forallb (fun c => c <? 256) data then Ret (b64_encode data)
  else Throw InvalidCharacterError.

Definition is_ascii_ws (c : Z) : bool :=
  (c =? 9) || (c =? 10) || (c =? 12) || (c =? 13) || (c =? 32).

(** If the length is a multiple of four, one or two trailing [=] go. *)
Definition strip_padding (s : jsstring) : jsstring :=
  if Z.of_nat (length s) mod 4 =? 0 then
    match rev s with
    | p :: r =>
        if p =? 61 then
          match r with
          | q :: r' => if q =? 61 then rev r' else rev r
          | [] => rev r
          end
        else s
    | [] => s
    end
  else s.

(** Four characters give three octets; a final group of two or three
    characters gives one or two octets, its spare bits dropped; a final
    group of one character, or a character outside the alphabet, fails. *)
Fixpoint b64_decode (s : jsstring) : option (list Z) :=
  match s with
  | [] => Some []
  | [a] => None
  | [a; b] =>
      va ← b64_val a; vb ← b64_val b;
      Some [va * 4 + vb / 16]
  | [a; b; c] =>
      va ← b64_val a; vb ← b64_val b; vc ← b64_val c;
      Some [va * 4 + vb / 16; vb mod 16 * 16 + vc / 4]
  | a :: b :: c :: d :: r =>
      va ← b64_val a; vb ← b64_val b; vc ← b64_val c; vd ← b64_val d;
      t ← b64_decode r;
      Some (va * 4 + vb / 16 :: vb mod 16 * 16 + vc / 4 :: vc mod 4 * 64 + vd :: t)
  end.

(** [atob(data)]: ASCII white space is ignored. *)
Definition atob (data : jsstring) : result jsstring :=
  let d := strip_padding (List.filter (fun c => negb (is_ascii_ws c)) data) in
  match b64_decode d with
  | Some octets => Ret octets
  | None => Throw InvalidCharacterError
  end.

End Base64.

(** ** Vocabulary of the codec properties *)

Module Codec.
Import JSON URI Base64.

Definition is_byte (b : Z) : Prop := 0 <= b < 256.
Definition is_ascii (c : Z) : Prop := 0 <= c < 128.

(** Prefixing the result of a parser or decoder. *)
Definition then_cons (c : Z) (r : result (jsstring * jsstring))
  : result (jsstring * jsstring) :=
  '(str, rest) ← r; Ret (c :: str, rest).

Definition then_app (u : jsstring) (r : result jsstring) : result jsstring :=
  t ← r; Ret (u ++ t).

(** The UTF-8 octets of a string whose surrogates are all paired. *)
Fixpoint utf8_of (s : jsstring) : option (list Z) :=
  match s with
  | [] => Some []
  | c :: r =>
      if is_high_surrogate c then
        match r with
        | d :: r' =>
            if is_low_surrogate d then
              bs ← utf8_of r'; Some (utf8_octets (code_point_of_pair c d) ++ bs)
            else None
        | [] => None
        end
      else if is_low_surrogate c then None
      else bs ← utf8_of r; Some (utf8_octets c ++ bs)
  end.

(** What [encodeURIComponent] writes for one octet. *)
Definition uri_byte (b : Z) : jsstring := if uri_unreserved b then [b] else pct b.

(** [b64_encode] without its padding, and the padding. *)
Fixpoint b64_body (l : list Z) : jsstring :=
  match l with
  | [] => []
  | [a] => [b64_char (a / 4); b64_char (a mod 4 * 16)]
  | [a; b] =>
      [b64_char (a / 4); b64_char (a mod 4 * 16 + b / 16); b64_char (b mod 16 * 4)]
  | a :: b :: c :: r =>
      b64_char (a / 4) :: b64_char (a mod 4 * 16 + b / 16)
      :: b64_char (b mod 16 * 4 + c / 64) :: b64_char (c mod 64)
      :: b64_body r
  end.

Fixpoint b64_pad (l : list Z) : jsstring :=
  match l with
  | [] => []
  | [a] => [61; 61]
  | [a; b] => [61]
  | a :: b :: c :: r => b64_pad r
  end.

(** A character [atob] accepts somewhere in its input: a letter of the
    alphabet, the padding sign, or ASCII white space. *)
Definition base64_symbol (c : Z) : bool :=
  match b64_val c with Some _ => true | None => false end
  || (c =? 61) || is_ascii_ws c.

(** A parser result on input [s]: what is left is shorter than [s], the
    only exception is SyntaxError, and the recursion budget is not
    exhausted when [enough] holds. *)
Definition consumes {A} (s : jsstring) (enough : Prop) (r : result (A * jsstring)) : Prop :=
  match r with
  | Ret (_, rest) => (length rest < length s)%nat
  | Throw e => e = SyntaxError
  | Unsupported => ~ enough
  end.

(** The value a parser returned is not [undefined]. *)
Definition defined {A} (r : result (value * A)) : Prop :=
  match r with
  | Ret (v, _) => v <> VUndefined
  | _ => True
  end.

(** The JSON text of the object [{type: t, sdp: s}]. *)
Definition descriptor_text (t s : jsstring) : jsstring :=
  [123; 34] ++ js "type" ++ [34; 58; 34] ++ quote_chars t ++
  [34; 44; 34] ++ js "sdp" ++ [34; 58; 34] ++ quote_chars s ++ [34; 125].

End Codec.

(** ** utils.js: checksum, encodeSDP, decodeSDP *)

Module Utils.

(** One turn of the loop body: [h = ((h << 5) - h + str.charCodeAt(i)) | 0]. *)
Definition checksum_step (h c : Z) : Z := js_or (js_shl h 5 - h + c) 0.

(** [checksum(str)]: the loop runs over the code units in order from
    [h = 0]; the result is [(h >>> 0).toString(16)]. *)
Definition checksum (str : jsstring) : jsstring :=
  let h := fold_left checksum_step str 0 in
  nat_toString 16 (js_ushr h 0).

(** [encodeSDP(desc)]:
    [btoa(unescape(encodeURIComponent(JSON.stringify({type: desc.type, sdp: desc.sdp}))))]. *)
Definition encodeSDP (desc : value) : result jsstring :=
  ty ← get_prop desc (js "type");
  sdp ← get_prop desc (js "sdp");
  let obj := VObj [(js "type", ty); (js "sdp", sdp)] in
  text ← JSON.stringify obj;
  enc ← URI.encodeURIComponent (string_or_undefined text);
  Base64.btoa (URI.unescape enc).

(** [decodeSDP(encoded)]:
    [JSON.parse(decodeURIComponent(escape(atob(encoded))))]. *)
Definition decodeSDP (encoded : jsstring) : result value :=
  bin ← Base64.atob encoded;
  text ← URI.decodeURIComponent (URI.escape bin);
  JSON.parse text.

End Utils.

(** The checksum as the design document words it: fold
    [h := (h*31 + charCode) mod 2^32] from 0, rendered in lowercase hex. *)
Module UtilsSpec.

Definition rolling_step (h c : Z) : Z := (h * 31 + c) mod 2 ^ 32.
Definition rolling_hash (s : jsstring) : Z := fold_left rolling_step s 0.
Definition checksum_spec (s : jsstring) : jsstring :=
  nat_toString 16 (rolling_hash s).

End UtilsSpec.

(** ** network.js: NetworkManager *)

Module Net.
Import Utils.

Definition PROTOCOL_VERSION : Z := 1.
Definition CHANNEL_LABEL : jsstring := js "vague-game".

(** *** Browser objects

    Only what the manager reads or writes is kept: a data channel's label
    and [readyState], a connection's local and remote descriptions
    ([null] until set). *)

Inductive ReadyState := connecting | open | closing | closed.
Inductive IceConnectionState :=
| ice_new | ice_checking | ice_connected | ice_completed
| ice_disconnected | ice_failed | ice_closed.

Record RTCDataChannel := {
  label : jsstring;
  readyState : ReadyState;
}.

Record RTCPeerConnection := {
  localDescription : value;
  remoteDescription : value;
}.

(** An entry of [this.peers]: [{ pc, ch, name }]. *)
Record PeerRecord := {
  pc : RTCPeerConnection;
  ch : RTCDataChannel;
  name : value;
}.

(** The fields of a [NetworkManager].  A callback field holds [true] when
    the application has installed a function and [false] when it is
    [null]; a timer field holds [true] while an interval is armed. *)
Record NetworkManager := {
  peers : gmap jsstring PeerRecord;
  pendingPeerId : option jsstring;
  hostPc : option RTCPeerConnection;
  hostChannel : option RTCDataChannel;
  isHost : bool;
  localName : jsstring;
  _closed : bool;
  onMessage : bool;
  onPeerConnected : bool;
  onPeerDisconnected : bool;
  onConnectedToHost : bool;
  onError : bool;
  _pingTimer : bool;
  _syncTimer : bool;
  _latency : gmap jsstring number;
}.

(** [new NetworkManager()]. *)
Definition constructor : NetworkManager := {|
  peers := ∅; pendingPeerId := None; hostPc := None; hostChannel := None;
  isHost := false; localName := []; _closed := false;
  onMessage := false; onPeerConnected := false; onPeerDisconnected := false;
  onConnectedToHost := false; onError := false;
  _pingTimer := false; _syncTimer := false; _latency := ∅;
|}.

Definition set_peers (f : gmap jsstring PeerRecord -> gmap jsstring PeerRecord)
    (m : NetworkManager) : NetworkManager := {|
  peers := f (peers m); pendingPeerId := pendingPeerId m; hostPc := hostPc m;
  hostChannel := hostChannel m; isHost := isHost m; localName := localName m;
  _closed := _closed m; onMessage := onMessage m;
  onPeerConnected := onPeerConnected m; onPeerDisconnected := onPeerDisconnected m;
  onConnectedToHost := onConnectedToHost m; onError := onError m;
  _pingTimer := _pingTimer m; _syncTimer := _syncTimer m; _latency := _latency m;
|}.

Definition set_pendingPeerId (id : option jsstring) (m : NetworkManager)
  : NetworkManager := {|
  peers := peers m; pendingPeerId := id; hostPc := hostPc m;
  hostChannel := hostChannel m; isHost := isHost m; localName := localName m;
  _closed := _closed m; onMessage := onMessage m;
  onPeerConnected := onPeerConnected m; onPeerDisconnected := onPeerDisconnected m;
  onConnectedToHost := onConnectedToHost m; onError := onError m;
  _pingTimer := _pingTimer m; _syncTimer := _syncTimer m; _latency := _latency m;
|}.

Definition set_host (p : option RTCPeerConnection) (c : option RTCDataChannel)
    (m : NetworkManager) : NetworkManager := {|
  peers := peers m; pendingPeerId := pendingPeerId m; hostPc := p;
  hostChannel := c; isHost := isHost m; localName := localName m;
  _closed := _closed m; onMessage := onMessage m;
  onPeerConnected := onPeerConnected m; onPeerDisconnected := onPeerDisconnected m;
  onConnectedToHost := onConnectedToHost m; onError := onError m;
  _pingTimer := _pingTimer m; _syncTimer := _syncTimer m; _latency := _latency m;
|}.

Definition set_latency (f : gmap jsstring number -> gmap jsstring number)
    (m : NetworkManager) : NetworkManager := {|
  peers := peers m; pendingPeerId := pendingPeerId m; hostPc := hostPc m;
  hostChannel := hostChannel m; isHost := isHost m; localName := localName m;
  _closed := _closed m; onMessage := onMessage m;
  onPeerConnected := onPeerConnected m; onPeerDisconnected := onPeerDisconnected m;
  onConnectedToHost := onConnectedToHost m; onError := onError m;
  _pingTimer := _pingTimer m; _syncTimer := _syncTimer m; _latency := f (_latency m);
|}.

Definition set_timers (ping sync closed_flag : bool) (m : NetworkManager)
  : NetworkManager := {|
  peers := peers m; pendingPeerId := pendingPeerId m; hostPc := hostPc m;
  hostChannel := hostChannel m; isHost := isHost m; localName := localName m;
  _closed := closed_flag; onMessage := onMessage m;
  onPeerConnected := onPeerConnected m; onPeerDisconnected := onPeerDisconnected m;
  onConnectedToHost := onConnectedToHost m; onError := onError m;
  _pingTimer := ping; _syncTimer := sync; _latency := _latency m;
|}.

(** The application installs its callbacks (app.js assigns the fields
    after [new NetworkManager()]). *)
Definition set_callbacks (message connected disconnected toHost error_ : bool)
    (m : NetworkManager) : NetworkManager := {|
  peers := peers m; pendingPeerId := pendingPeerId m; hostPc := hostPc m;
  hostChannel := hostChannel m; isHost := isHost m; localName := localName m;
  _closed := _closed m; onMessage := message;
  onPeerConnected := connected; onPeerDisconnected := disconnected;
  onConnectedToHost := toHost; onError := error_;
  _pingTimer := _pingTimer m; _syncTimer := _syncTimer m; _latency := _latency m;
|}.

(** [net.isHost = ...; net.localName = ...] *)
Definition set_identity (host : bool) (who : jsstring) (m : NetworkManager)
  : NetworkManager := {|
  peers := peers m; pendingPeerId := pendingPeerId m; hostPc := hostPc m;
  hostChannel := hostChannel m; isHost := host; localName := who;
  _closed := _closed m; onMessage := onMessage m;
  onPeerConnected := onPeerConnected m; onPeerDisconnected := onPeerDisconnected m;
  onConnectedToHost := onConnectedToHost m; onError := onError m;
  _pingTimer := _pingTimer m; _syncTimer := _syncTimer m; _latency := _latency m;
|}.

(** *** What the manager does to the outside

    Frames handed to a channel, channels and connections closed, and
    calls of the application's callbacks, in the order they happen.  A
    host-side channel or connection is named by the peer id its handlers
    were set up with.  A callback is the application's code: its call is
    recorded, and whatever it does to the manager in turn is a method call
    of its own. *)
Inductive effect :=
| PeerChannelSend (peerId : jsstring) (data : jsstring)
| HostChannelSend (data : jsstring)
| ChannelClose (peerId : jsstring)
| ConnectionClose (peerId : jsstring)
| HostChannelClose
| HostConnectionClose
| Call_onMessage (from : jsstring) (msg : value)
| Call_onPeerConnected (peerId : jsstring) (peerName : value)
| Call_onPeerDisconnected (peerId : jsstring)
| Call_onConnectedToHost
| Call_onError (err : jsstring).

(** *** The monad of the manager's methods: the fields are threaded
    through, effects are appended, and an exception keeps the fields as
    they were when it was thrown. *)
Record run (A : Type) := Run {
  res : result A;
  final : NetworkManager;
  effects : list effect;
}.
Arguments Run {A} res final effects.
Arguments res {A} r.
Arguments final {A} r.
Arguments effects {A} r.

Definition M (A : Type) : Type := NetworkManager -> run A.

#[global] Instance M_ret : MRet M := fun A a m => Run (Ret a) m [].
#[global] Instance M_bind : MBind M := fun A B k c m =>
  let r := c m in
  match res r with
  | Ret a => let r' := k a (final r) in
             Run (res r') (final r') (effects r ++ effects r')
  | Throw e => Run (Throw e) (final r) (effects r)
  | Unsupported => Run Unsupported (final r) (effects r)
  end.

Definition get : M NetworkManager := fun m => Run (Ret m) m [].
Definition modify (f : NetworkManager -> NetworkManager) : M unit :=
  fun m => Run (Ret tt) (f m) [].
Definition emit (e : effect) : M unit := fun m => Run (Ret tt) m [e].
Definition throw {A} (e : error) : M A := fun m => Run (Throw e) m [].
Definition lift {A} (r : result A) : M A := fun m => Run r m [].
Definition skip : M unit := mret tt.

(** [try { body } catch { }] *)
Definition try_catch (body : M unit) : M unit := fun m =>
  let r := body m in
  match res r with
  | Throw _ => Run (Ret tt) (final r) (effects r)
  | _ => r
  end.

(** *** Messaging *)

Definition channel_open (c : RTCDataChannel) : bool :=
  match readyState c with open => true | _ => false end.

(** [ch.send(JSON.stringify(msg))] *)
Definition frame_of (msg : value) : result jsstring :=
  t ← JSON.stringify msg; Ret (string_or_undefined t).

(** [sendToPeer(peerId, msg)] *)
Definition sendToPeer (peerId : jsstring) (msg : value) : M unit :=
  m ← get;
  match peers m !! peerId with
  | Some peer =>
      if channel_open (ch peer) then
        data ← lift (frame_of msg); emit (PeerChannelSend peerId data)
      else skip
  | None => skip
  end.

(** [broadcast(msg)]: the frame is built once, then handed to every open
    channel.  The peers are visited in the enumeration order of the
    [gmap], every peer once; the code visits them in insertion order. *)
Definition broadcast (msg : value) : M unit :=
  data ← lift (frame_of msg);
  m ← get;
  fold_right
    (fun (entry : jsstring * PeerRecord) (k : M unit) =>
       (if channel_open (ch entry.2)
        then emit (PeerChannelSend entry.1 data) else skip) ≫= fun _ => k)
    skip (map_to_list (peers m)).

(** [sendToHost(msg)] *)
Definition sendToHost (msg : value) : M unit :=
  m ← get;
  match hostChannel m with
  | Some c =>
      if channel_open c then
        data ← lift (frame_of msg); emit (HostChannelSend data)
      else skip
  | None => skip
  end.

(** *** Queries *)

Definition getConnectedPeerCount (m : NetworkManager) : nat :=
  length (List.filter (fun entry : jsstring * PeerRecord => channel_open (ch entry.2))
                      (map_to_list (peers m))).

Definition isConnected (m : NetworkManager) : bool :=
  if isHost m then bool_decide (getConnectedPeerCount m ≠ 0%nat)
  else match hostChannel m with
       | Some c => channel_open c
       | None => false
       end.

Definition getLatency (peerId : jsstring) (m : NetworkManager) : option number :=
  _latency m !! peerId.

(** *** Host: offer and answer

    [createOffer] draws the peer id from [generateId()] and asks the
    browser for an offer ([pc.createOffer()], [pc.setLocalDescription],
    the wait for ICE gathering); both are inputs here: [peerId], and
    [negotiated], the local description the connection ends up with or
    the rejection of one of the awaited promises.  The method body runs
    without interleaving of other events. *)
Definition createOffer (peerId : jsstring) (negotiated : result value)
  : M (jsstring * jsstring) :=
  let channel := {| label := CHANNEL_LABEL; readyState := connecting |} in
  desc ← lift negotiated;
  let conn := {| localDescription := desc; remoteDescription := VNull |} in
  modify (set_peers (insert peerId {| pc := conn; ch := channel; name := VNull |}));;
  modify (set_pendingPeerId (Some peerId));;
  offerCode ← lift (encodeSDP desc);
  mret (peerId, offerCode).

Definition with_remote (desc : value) (p : PeerRecord) : PeerRecord :=
  {| pc := {| localDescription := localDescription (pc p);
              remoteDescription := desc |};
     ch := ch p; name := name p |}.

(** [this.peers.get(this.pendingPeerId)]: [get(null)] finds nothing, the
    keys being strings. *)
Definition pending_record (m : NetworkManager) : option PeerRecord :=
  pendingPeerId m ≫= fun i => peers m !! i.

(** [acceptAnswer(answerCode)].  [setRemoteDescription] is the browser's
    verdict on the decoded description: it resolves, and the connection
    then holds the description, or it rejects. *)
Definition acceptAnswer (answerCode : jsstring)
    (setRemoteDescription : value -> result unit) : M unit :=
  m ← get;
  let id := pendingPeerId m in
  match pending_record m with
  | None => throw (Error (js "No pending peer connection."))
  | Some peer =>
      desc ← lift (decodeSDP answerCode);
      lift (setRemoteDescription desc);;
      modify (set_peers (fun ps =>
        match id with
        | Some i => alter (with_remote desc) i ps
        | None => ps
        end))
  end.

(** *** Peer: join a host *)

Definition createAnswer (offerCode : jsstring)
    (setRemoteDescription : value -> result unit) (negotiated : result value)
  : M jsstring :=
  modify (fun m => set_host (Some {| localDescription := VNull;
                                     remoteDescription := VNull |})
                            (hostChannel m) m);;
  desc ← lift (decodeSDP offerCode);
  lift (setRemoteDescription desc);;
  modify (fun m => set_host (Some {| localDescription := VNull;
                                     remoteDescription := desc |})
                            (hostChannel m) m);;
  answer ← lift negotiated;
  modify (fun m => set_host (Some {| localDescription := answer;
                                     remoteDescription := desc |})
                            (hostChannel m) m);;
  lift (encodeSDP answer).

(** *** Disconnect (host side): [_handlePeerDisconnect(peerId)] *)
Definition _handlePeerDisconnect (peerId : jsstring) : M unit :=
  m ← get;
  match peers m !! peerId with
  | None => skip
  | Some peer =>
      emit (ChannelClose peerId);;
      emit (ConnectionClose peerId);;
      modify (set_peers (delete peerId));;
      if onPeerDisconnected m then emit (Call_onPeerDisconnected peerId) else skip
  end.

(** *** Message handling *)

(** [msg.ts ?? 0] *)
Definition nullish_zero (v : value) : value :=
  match v with
  | VUndefined | VNull => VNum (Int 0)
  | _ => v
  end.

(** [Date.now() - v] for the clock reading [now]: exact on safe integers
    with a safe difference. *)
Definition minus_from (now : Z) (v : value) : result number :=
  match v with
  | VNum (Int z) =>
      if safe_integer now && safe_integer z && safe_integer (now - z)
      then Ret (Int (now - z)) else Unsupported
  | VBool b =>
      let z := if b then 1 else 0 in
      if safe_integer now && safe_integer (now - z)
      then Ret (Int (now - z)) else Unsupported
  | _ => Unsupported
  end.

Definition type_is (ty : value) (s : string) : bool :=
  match ty with
  | VStr t => bool_decide (t = js s)
  | _ => false
  end.

(** [_handleHostMessage(peerId, msg)]; [now] is what [Date.now()] reads. *)
Definition _handleHostMessage (now : Z) (peerId : jsstring) (msg : value) : M unit :=
  ty ← lift (get_prop msg (js "type"));
  if type_is ty "hello" then
    peerName ← lift (get_prop msg (js "name"));
    modify (set_peers (alter (fun p => {| pc := pc p; ch := ch p; name := peerName |})
                             peerId));;
    sendToPeer peerId
      (VObj [(js "type", VStr (js "welcome"));
             (js "version", VNum (Int PROTOCOL_VERSION));
             (js "peerId", VStr peerId)]);;
    m ← get;
    if onPeerConnected m then emit (Call_onPeerConnected peerId peerName) else skip
  else if type_is ty "pong" then
    ts ← lift (get_prop msg (js "ts"));
    latency ← lift (minus_from now (nullish_zero ts));
    modify (set_latency (insert peerId latency))
  else if type_is ty "ping" then
    ts ← lift (get_prop msg (js "ts"));
    sendToPeer peerId (VObj [(js "type", VStr (js "pong")); (js "ts", ts)])
  else
    m ← get;
    if onMessage m then emit (Call_onMessage peerId msg) else skip.

(** [_handlePeerMessage(msg)] *)
Definition _handlePeerMessage (now : Z) (msg : value) : M unit :=
  ty ← lift (get_prop msg (js "type"));
  if type_is ty "welcome" then
    m ← get;
    if onConnectedToHost m then emit Call_onConnectedToHost else skip
  else if type_is ty "ping" then
    ts ← lift (get_prop msg (js "ts"));
    sendToHost (VObj [(js "type", VStr (js "pong")); (js "ts", ts)])
  else if type_is ty "pong" then
    ts ← lift (get_prop msg (js "ts"));
    latency ← lift (minus_from now (nullish_zero ts));
    modify (set_latency (insert (js "host") latency))
  else
    m ← get;
    if onMessage m then emit (Call_onMessage (js "host") msg) else skip.

(** *** Event handlers installed on the browser objects

    Host side, [_setupHostChannel(ch, peerId)] and the handler installed by
    [createOffer]; the captured [peerId] is the argument. *)

Definition host_ch_onopen (peerId : jsstring) : M unit := skip.

Definition host_ch_onmessage (now : Z) (peerId : jsstring) (data : jsstring) : M unit :=
  try_catch (msg ← lift (JSON.parse data); _handleHostMessage now peerId msg).

Definition host_ch_onclose (peerId : jsstring) : M unit := _handlePeerDisconnect peerId.
Definition host_ch_onerror (peerId : jsstring) : M unit := _handlePeerDisconnect peerId.

Definition ice_lost (s : IceConnectionState) : bool :=
  match s with
  | ice_disconnected | ice_failed => true
  | _ => false
  end.

(** [pc.oniceconnectionstatechange], [s] being [pc.iceConnectionState]. *)
Definition host_pc_oniceconnectionstatechange (peerId : jsstring)
    (s : IceConnectionState) : M unit :=
  if ice_lost s then _handlePeerDisconnect peerId else skip.

(** Peer side, [_setupPeerChannel(ch)] and the handlers installed by
    [createAnswer]. *)

Definition peer_pc_ondatachannel (channel : RTCDataChannel) : M unit :=
  modify (fun m => set_host (hostPc m) (Some channel) m).

Definition peer_pc_oniceconnectionstatechange (s : IceConnectionState) : M unit :=
  if ice_lost s then
    m ← get;
    if onPeerDisconnected m then emit (Call_onPeerDisconnected (js "host")) else skip
  else skip.

Definition peer_ch_onopen : M unit :=
  m ← get;
  sendToHost (VObj [(js "type", VStr (js "hello"));
                    (js "version", VNum (Int PROTOCOL_VERSION));
                    (js "name", VStr (localName m))]).

Definition peer_ch_onmessage (now : Z) (data : jsstring) : M unit :=
  try_catch (msg ← lift (JSON.parse data); _handlePeerMessage now msg).

Definition peer_ch_onclose : M unit :=
  m ← get;
  if onPeerDisconnected m then emit (Call_onPeerDisconnected (js "host")) else skip.

Definition peer_ch_onerror : M unit :=
  m ← get;
  if onError m then emit (Call_onError (js "Connection error with host.")) else skip.

(** The browser moves a channel to another [readyState] (before it
    dispatches the matching event). *)
Definition browser_sets_readyState (peerId : jsstring) (s : ReadyState) : M unit :=
  modify (set_peers (alter (fun p => {| pc := pc p;
                                        ch := {| label := label (ch p); readyState := s |};
                                        name := name p |}) peerId)).

(** *** Timers *)

(** One tick of the interval armed by [startPingLoop()]. *)
Definition ping_tick (now : Z) : M unit :=
  let msg := VObj [(js "type", VStr (js "ping")); (js "ts", VNum (Int now))] in
  m ← get;
  if isHost m then broadcast msg else sendToHost msg.

(** One tick of the interval armed by [startSyncLoop(getStateFn)], [s]
    being what [getStateFn()] returned. *)
Definition sync_tick (s : value) : M unit :=
  text ← lift (JSON.stringify s);
  match text with
  | None => throw TypeError
  | Some t =>
      broadcast (VObj [(js "type", VStr (js "sync"));
                       (js "version", VNum (Int PROTOCOL_VERSION));
                       (js "state", s);
                       (js "checksum", VStr (checksum t))])
  end.

Definition startPingLoop : M unit :=
  modify (fun m => set_timers true (_syncTimer m) (_closed m) m).
Definition stopPingLoop : M unit :=
  modify (fun m => set_timers false (_syncTimer m) (_closed m) m).
Definition startSyncLoop : M unit :=
  modify (fun m => set_timers (_pingTimer m) true (_closed m) m).
Definition stopSyncLoop : M unit :=
  modify (fun m => set_timers (_pingTimer m) false (_closed m) m).

(** [close()].  The peers are closed in the enumeration order of the
    [gmap], every peer once; the code closes them in insertion order. *)
Definition close : M unit :=
  modify (fun m => set_timers false false true m);;
  m ← get;
  fold_right
    (fun (entry : jsstring * PeerRecord) (k : M unit) =>
       emit (ChannelClose entry.1) ≫= fun _ =>
       emit (ConnectionClose entry.1) ≫= fun _ => k)
    skip (map_to_list (peers m));;
  modify (set_peers (fun _ => ∅));;
  modify (set_pendingPeerId None);;
  match hostChannel m with Some _ => emit HostChannelClose | None => skip end;;
  match hostPc m with Some _ => emit HostConnectionClose | None => skip end;;
  modify (set_host None None).

(** *** Vocabulary of the properties *)

(** A record as [createOffer] leaves it: no answer applied, channel not
    open, no name announced. *)
Definition not_yet_connected (p : PeerRecord) : Prop :=
  remoteDescription (pc p) = VNull /\ readyState (ch p) = connecting /\ name p = VNull.

(** The events through which a loss of connectivity reaches the manager. *)
Inductive loss_event :=
| IceStateChange (s : IceConnectionState)
| ChannelClosed
| ChannelError.

Definition host_loss_handler (peerId : jsstring) (e : loss_event) : M unit :=
  match e with
  | IceStateChange s => host_pc_oniceconnectionstatechange peerId s
  | ChannelClosed => host_ch_onclose peerId
  | ChannelError => host_ch_onerror peerId
  end.

Definition peer_loss_handler (e : loss_event) : M unit :=
  match e with
  | IceStateChange s => peer_pc_oniceconnectionstatechange s
  | ChannelClosed => peer_ch_onclose
  | ChannelError => peer_ch_onerror
  end.

(** The handlers of a list of events, one after the other. *)
Fixpoint dispatch (handlers : list (M unit)) : M unit :=
  match handlers with
  | [] => skip
  | h :: hs => h ;; dispatch hs
  end.

(** An event that reports a lost connection: the ICE state became
    [disconnected] or [failed], or the channel closed or failed. *)
Definition reports_loss (e : loss_event) : bool :=
  match e with
  | IceStateChange s => ice_lost s
  | _ => true
  end.

Definition is_disconnect_of (peerId : jsstring) (e : effect) : bool :=
  match e with
  | Call_onPeerDisconnected i => bool_decide (i = peerId)
  | _ => false
  end.

Definition disconnect_notifications (peerId : jsstring) (es : list effect) : nat :=
  length (List.filter (is_disconnect_of peerId) es).

(** The message envelope of the protocol: a JSON object that carries a
    string [type]. *)
Definition is_envelope (v : value) : bool :=
  match v with
  | VObj props =>
      match obj_get (js "type") props with
      | Some (VStr _) => true
      | _ => false
      end
  | _ => false
  end.

(** A frame that parses as a message envelope. *)
Definition parses_as_envelope (data : jsstring) : bool :=
  match JSON.parse data with
  | Ret v => is_envelope v
  | _ => false
  end.

End Net.

(** ** game.js: the shared state and its snapshot *)

Module Game.

Inductive GameMode := LOCAL | ONLINE_HOST | ONLINE_PEER.
Inductive Phase := MENU | SETUP | REVEAL | CLUES | DEBATE | RESULTS.

Definition Phase_string (p : Phase) : jsstring :=
  match p with
  | MENU => js "MENU"
  | SETUP => js "SETUP"
  | REVEAL => js "REVEAL"
  | CLUES => js "CLUES"
  | DEBATE => js "DEBATE"
  | RESULTS => js "RESULTS"
  end.

(** An entry of the word database: [{ word, hint }]. *)
Record Word := { word : jsstring; hint : jsstring }.

(** An entry of [onlinePeers]: [{ id, name, ready }]. *)
Record OnlinePeer := { id : jsstring; peer_name : jsstring; ready : bool }.

(** The module-level [state] object. *)
Record State := {
  mode : GameMode;
  players : list jsstring;
  category : jsstring;
  currentWord : option Word;
  imposterIndex : Z;
  currentPlayerIndex : Z;
  isRoleRevealed : bool;
  currentPhase : Phase;
  round : Z;
  usedWords : list jsstring;
  cluePlayerIndex : Z;
  startingPlayerIndex : Z;
  timerSeconds : Z;
  timerRunning : bool;
  localPlayerName : jsstring;
  isHost : bool;
  onlinePeers : list OnlinePeer;
  _localIsImposter : bool;
  _localWord : option jsstring;
  _localHint : option jsstring;
  _hostReady : bool;
}.

(** [serialiseForSync()]: an object literal of nine properties read from
    the state. *)
Definition serialiseForSync (state : State) : value :=
  VObj [(js "players", VArr (map VStr (players state)));
        (js "category", VStr (category state));
        (js "currentPhase", VStr (Phase_string (currentPhase state)));
        (js "round", VNum (Int (round state)));
        (js "currentPlayerIndex", VNum (Int (currentPlayerIndex state)));
        (js "cluePlayerIndex", VNum (Int (cluePlayerIndex state)));
        (js "startingPlayerIndex", VNum (Int (startingPlayerIndex state)));
        (js "timerSeconds", VNum (Int (timerSeconds state)));
        (js "timerRunning", VBool (timerRunning state))].

(** Two states agree on the nine fields the snapshot reads. *)
Definition same_public_fields (a b : State) : Prop :=
  players a = players b /\
  category a = category b /\
  currentPhase a = currentPhase b /\
  round a = round b /\
  currentPlayerIndex a = currentPlayerIndex b /\
  cluePlayerIndex a = cluePlayerIndex b /\
  startingPlayerIndex a = startingPlayerIndex b /\
  timerSeconds a = timerSeconds b /\
  timerRunning a = timerRunning b.

(** The tick of the sync loop as app.js arms it:
    [net.startSyncLoop(() => serialiseForSync())]. *)
Definition sync_broadcast (state : State) : Net.M unit :=
  Net.sync_tick (serialiseForSync state).

End Game.

(** ** Concrete inputs used by the examples below *)

Module Sample.
Import Utils Net.

Definition offer : value :=
  VObj [(js "type", VStr (js "offer")); (js "sdp", VStr (js "v=0"))].
Definition answer : value :=
  VObj [(js "type", VStr (js "answer")); (js "sdp", VStr (js "v=0"))].

Definition offer_code : jsstring :=
  js "eyJ0eXBlIjoib2ZmZXIiLCJzZHAiOiJ2PTAifQ==".
Definition answer_code : jsstring :=
  js "eyJ0eXBlIjoiYW5zd2VyIiwic2RwIjoidj0wIn0=".

(** A description with a line break, accented and non-BMP characters,
    a quote and a lone surrogate in its body. *)
Definition odd_offer : value :=
  VObj [(js "type", VStr (js "offer"));
        (js "sdp", VStr (js "v=0" ++ [13; 10; 233; 8364; 55357; 56832; 34; 55296; 0]));
        (js "extra", VBool true)].

Definition idA : jsstring := js "k3x9q1a".
Definition idB : jsstring := js "p0m7z2c".

(** A browser that accepts every description. *)
Definition accepting : value -> result unit := fun _ => Ret tt.

(** A host as app.js sets it up, after one call of [createOffer]. *)
Definition host : NetworkManager :=
  set_callbacks true true true false true
    (set_identity true (js "Ada") constructor).
Definition host_pending_B : NetworkManager :=
  final (createOffer idB (Ret offer) host).

(** The same host once the browser has opened B's channel. *)
Definition host_open_B : NetworkManager :=
  final (browser_sets_readyState idB open host_pending_B).

(** A joining side as app.js sets it up, its channel to the host open. *)
Definition joiner : NetworkManager :=
  set_host (Some {| localDescription := answer; remoteDescription := offer |})
           (Some {| label := CHANNEL_LABEL; readyState := open |})
           (set_callbacks true false true true true
              (set_identity false (js "Bob") constructor)).

(** Two rounds that look alike from outside: another imposter, another
    word, other role fields. *)
Definition round_a : Game.State := {|
  Game.mode := Game.ONLINE_HOST;
  Game.players := [js "Ada"; js "Bob"; js "Cy"];
  Game.category := js "household";
  Game.currentWord := Some {| Game.word := js "kettle"; Game.hint := js "kitchen" |};
  Game.imposterIndex := 0;
  Game.currentPlayerIndex := 0;
  Game.isRoleRevealed := false;
  Game.currentPhase := Game.CLUES;
  Game.round := 1;
  Game.usedWords := [js "kettle"];
  Game.cluePlayerIndex := 1;
  Game.startingPlayerIndex := 2;
  Game.timerSeconds := 17;
  Game.timerRunning := true;
  Game.localPlayerName := js "Ada";
  Game.isHost := true;
  Game.onlinePeers := [{| Game.id := idA; Game.peer_name := js "Bob"; Game.ready := true |};
                       {| Game.id := idB; Game.peer_name := js "Cy"; Game.ready := true |}];
  Game._localIsImposter := true;
  Game._localWord := None;
  Game._localHint := Some (js "kitchen");
  Game._hostReady := true;
|}.

Definition round_b : Game.State := {|
  Game.mode := Game.ONLINE_HOST;
  Game.players := [js "Ada"; js "Bob"; js "Cy"];
  Game.category := js "household";
  Game.currentWord := Some {| Game.word := js "ladder"; Game.hint := js "garage" |};
  Game.imposterIndex := 2;
  Game.currentPlayerIndex := 0;
  Game.isRoleRevealed := true;
  Game.currentPhase := Game.CLUES;
  Game.round := 1;
  Game.usedWords := [js "ladder"];
  Game.cluePlayerIndex := 1;
  Game.startingPlayerIndex := 2;
  Game.timerSeconds := 17;
  Game.timerRunning := true;
  Game.localPlayerName := js "Ada";
  Game.isHost := true;
  Game.onlinePeers := [{| Game.id := idA; Game.peer_name := js "Bob"; Game.ready := true |};
                       {| Game.id := idB; Game.peer_name := js "Cy"; Game.ready := true |}];
  Game._localIsImposter := false;
  Game._localWord := Some (js "ladder");
  Game._localHint := None;
  Game._hostReady := true;
|}.

End Sample.

(** ** Vocabulary of the properties of the wire format *)

Module Wire.
Import JSON.

(** The value of a digit string read from its last character. *)
Definition value_rev (ds : list Z) : Z :=
  fold_right (fun d acc => acc * 10 + (d - 48)) 0 ds.

(** What may follow a number literal for the literal to end there. *)
Definition ends_number (rest : jsstring) : bool :=
  match rest with
  | [] => true
  | c :: _ => negb (is_digit c || (c =? 46) || (c =? 101) || (c =? 69))
  end.

(** What [parse_number] does once it has read the sign. *)
Definition number_after (neg : bool) (s1 : jsstring) : result (value * jsstring) :=
  '(ip, s2) ← scan_integer s1;
  '(fp, s3) ← scan_fraction s2;
  '(ep, s4) ← scan_exponent s3;
  let z := decimal_value ip in
  let lexeme := (if neg then [45] else []) ++ ip ++ fp ++ ep in
  if bool_decide (fp = []) && bool_decide (ep = []) && negb (neg && (z =? 0))
     && safe_integer z
  then Ret (VNum (Int (if neg then - z else z)), s4)
  else Ret (VNum (Lit lexeme), s4).

(** [is_code_unit] as a test. *)
Definition code_unitb (c : Z) : bool := (0 <=? c) && (c <? 65536).

(** A property key the protocol uses: a string that is no array index. *)
Definition plain_key (k : jsstring) : bool :=
  forallb code_unitb k && match array_index k with None => true | Some _ => false end.

Fixpoint distinct (ks : list jsstring) : bool :=
  match ks with
  | [] => true
  | k :: r => negb (existsb (fun k' => bool_decide (k' = k)) r) && distinct r
  end.

(** The values that travel in messages: [null], booleans, safe integers,
    strings, arrays of such values, and objects whose keys are distinct
    and no array indices, in creation order. *)
Fixpoint wire_ok (v : value) : bool :=
  match v with
  | VUndefined => false
  | VNull => true
  | VBool _ => true
  | VNum (Int z) => safe_integer z
  | VNum (Lit _) => false
  | VStr s => forallb code_unitb s
  | VArr l => forallb wire_ok l
  | VObj ps =>
      forallb (fun '(k, v) => plain_key k && wire_ok v) ps && distinct (map fst ps)
  end.

(** The two loops of [serialize], named. *)
Fixpoint serialize_elements (l : list value) : result (list jsstring) :=
  match l with
  | [] => Ret []
  | e :: l' =>
      t ← serialize e;
      ts ← serialize_elements l';
      Ret (default (js "null") t :: ts)
  end.

Fixpoint serialize_members (l : list (jsstring * value)) : result (list jsstring) :=
  match l with
  | [] => Ret []
  | (k, e) :: l' =>
      t ← serialize e;
      ts ← serialize_members l';
      Ret (match t with
           | Some str => (QuoteJSONString k ++ 58 :: str) :: ts
           | None => ts
           end)
  end.

(** A text begins a JSON value: its first character is no white space
    and closes no array or object. *)
Definition starts_value (t : jsstring) : Prop :=
  exists c r, t = c :: r /\ is_ws c = false /\ c <> 93 /\ c <> 125.

(** [t] is read back as [v] by [parse_value], whatever follows it that
    does not continue a number, once the budget reaches [f0]. *)
Definition reads_back (v : value) (t : jsstring) : Prop :=
  starts_value t /\
  exists f0 : nat, forall f rest, (f0 <= f)%nat -> ends_number rest = true ->
    parse_value f (t ++ rest) = Ret (v, rest).

(** A message as app.js sends it to a joining player when a game starts. *)
Definition sample_message : value :=
  VObj [(js "type", VStr (js "game_start"));
        (js "version", VNum (Int 1));
        (js "players", VArr [VStr (js "Ada"); VStr (js "Bob"); VStr (js "Cy")]);
        (js "category", VStr (js "household"));
        (js "role", VObj [(js "isImposter", VBool false);
                          (js "word", VStr (js "kettle"));
                          (js "hint", VNull)])].

(** The members of an object literal, defined in source order. *)
Definition define_all (l acc : list (jsstring * value)) : list (jsstring * value) :=
  fold_left (fun a kv => obj_define kv.1 kv.2 a) l acc.

End Wire.

(** ** Vocabulary for the properties of the message link *)

Module Link.
Import Net Wire.

(** The entries of [peers] whose channel is open, in the enumeration
    order of the [gmap]. *)
Definition open_peers (m : NetworkManager) : list (jsstring * PeerRecord) :=
  List.filter (fun entry : jsstring * PeerRecord => channel_open (ch entry.2))
              (map_to_list (peers m)).

(** The message types the host's router handles itself. *)
Definition host_builtin (ty : value) : bool :=
  type_is ty "hello" || type_is ty "pong" || type_is ty "ping".

(** The message types the joining side's router handles itself. *)
Definition peer_builtin (ty : value) : bool :=
  type_is ty "welcome" || type_is ty "ping" || type_is ty "pong".

(** The object literals of the handshake and of the probes. *)
Definition hello_message (who : jsstring) : value :=
  VObj [(js "type", VStr (js "hello"));
        (js "version", VNum (Int PROTOCOL_VERSION));
        (js "name", VStr who)].

Definition welcome_message (peerId : jsstring) : value :=
  VObj [(js "type", VStr (js "welcome"));
        (js "version", VNum (Int PROTOCOL_VERSION));
        (js "peerId", VStr peerId)].

Definition ping_message (now : Z) : value :=
  VObj [(js "type", VStr (js "ping")); (js "ts", VNum (Int now))].

Definition pong_message (ts : value) : value :=
  VObj [(js "type", VStr (js "pong")); (js "ts", ts)].

(** What [close()] leaves of the manager's fields. *)
Definition closed_state (m : NetworkManager) : NetworkManager :=
  set_host None None
    (set_pendingPeerId None
       (set_peers (fun _ => ∅) (set_timers false false true m))).

(** The record of a peer once its [hello] has been handled. *)
Definition named (who : value) (p : PeerRecord) : PeerRecord :=
  {| pc := pc p; ch := ch p; name := who |}.

(** The effects by which [close()] and [_handlePeerDisconnect] tear
    connections down. *)
Definition is_teardown (e : effect) : bool :=
  match e with
  | ChannelClose _ | ConnectionClose _ | HostChannelClose | HostConnectionClose => true
  | _ => false
  end.

(** What [close()] does to the channel and the connection of one peer. *)
Definition peer_teardown (peerId : jsstring) : list effect :=
  [ChannelClose peerId; ConnectionClose peerId].

(** What [close()] does to the link to the host, where there is one. *)
Definition host_teardown (m : NetworkManager) : list effect :=
  match hostChannel m with Some _ => [HostChannelClose] | None => [] end
  ++ match hostPc m with Some _ => [HostConnectionClose] | None => [] end.

(** The descriptor [{type, sdp}] that [decodeSDP] yields for a code of
    [encodeSDP]. *)
Definition descriptor (t s : jsstring) : value :=
  VObj [(js "type", VStr t); (js "sdp", VStr s)].

(** A chat-like application message. *)
Definition sample_ready : value :=
  VObj [(js "type", VStr (js "ready")); (js "name", VStr (js "Bob"))].

End Link.

(** ** utils.js: formatTime and shuffleArray *)

Module Display.

(** Number::toString of an integer. *)
Definition int_toString (z : Z) : jsstring :=
  if z <? 0 then 45 :: nat_toString 10 (- z) else nat_toString 10 z.

(** [s.padStart(targetLength, filler)] for a filler of one character. *)
Definition padStart (targetLength : nat) (filler : Z) (s : jsstring) : jsstring :=
  repeat filler (targetLength - length s) ++ s.

(** [formatTime(totalSeconds)] for an integral argument: [Math.floor] of
    the quotient is the floor division of [Z], which double arithmetic
    computes exactly on safe integers; [%] takes the sign of the dividend,
    and a remainder of [-0] prints as [0]. *)
Definition formatTime (totalSeconds : Z) : result jsstring :=
  if safe_integer totalSeconds then
    let mins := totalSeconds / 60 in
    let secs := Z.rem totalSeconds 60 in
    Ret (padStart 2 48 (int_toString mins) ++ 58 :: padStart 2 48 (int_toString secs))
  else Unsupported.

(** [[a[i], a[j]] = [a[j], a[i]]] with both indices inside the array:
    the right-hand side is read first, then [a[i]] and [a[j]] are
    written in that order. *)
Definition swap {A} (i j : nat) (a : list A) : option (list A) :=
  x ← a !! i; y ← a !! j; Some (<[j := x]> (<[i := y]> a)).

(** The loop of [shuffleArray] from index [i] down to 1.  [picks] are the
    values of [Math.floor(Math.random() * (i + 1))] in the order they are
    drawn; a value above [i], which [Math.random() < 1] excludes, or a
    missing one, gives [None]. *)
Fixpoint shuffle_from {A} (i : nat) (picks : list nat) (a : list A)
  : option (list A) :=
  match i with
  | O => Some a
  | S i' =>
      match picks with
      | j :: rest =>
          if (j <=? i)%nat then a' ← swap i j a; shuffle_from i' rest a'
          else None
      | [] => None
      end
  end.

(** [shuffleArray(arr)]: the copy [[...arr]] is what the loop works on. *)
Definition shuffleArray {A} (picks : list nat) (arr : list A) : option (list A) :=
  shuffle_from (length arr - 1) picks arr.

(** The picks are as many as the loop has turns and each lies in its
    range: the [k]-th is drawn for index [n - 1 - k]. *)
Fixpoint picks_ok (i : nat) (picks : list nat) : bool :=
  match i, picks with
  | O, [] => true
  | S i', j :: rest => (j <=? i)%nat && picks_ok i' rest
  | _, _ => false
  end.

(** A character of a signalling code: a letter of the base64 alphabet or
    the padding sign. *)
Definition code_char (c : Z) : bool :=
  match Base64.b64_val c with Some _ => true | None => c =? 61 end.

(** What is left of a pasted text once ASCII white space is dropped. *)
Definition without_space (s : jsstring) : jsstring :=
  List.filter (fun c => negb (Base64.is_ascii_ws c)) s.

End Display.

(** ** game.js: the rules of the game *)

Module Play.
Import Game.

(** *** Assignments to the fields of [state] *)

Definition set_mode (v : GameMode) (st : State) : State := {|
  mode := v; players := players st; category := category st;
  currentWord := currentWord st; imposterIndex := imposterIndex st;
  currentPlayerIndex := currentPlayerIndex st;
  isRoleRevealed := isRoleRevealed st; currentPhase := currentPhase st;
  round := round st; usedWords := usedWords st;
  cluePlayerIndex := cluePlayerIndex st;
  startingPlayerIndex := startingPlayerIndex st;
  timerSeconds := timerSeconds st; timerRunning := timerRunning st;
  localPlayerName := localPlayerName st; isHost := isHost st;
  onlinePeers := onlinePeers st; _localIsImposter := _localIsImposter st;
  _localWord := _localWord st; _localHint := _localHint st;
  _hostReady := _hostReady st
|}.

Definition set_players (v : list jsstring) (st : State) : State := {|
  mode := mode st; players := v; category := category st;
  currentWord := currentWord st; imposterIndex := imposterIndex st;
  currentPlayerIndex := currentPlayerIndex st;
  isRoleRevealed := isRoleRevealed st; currentPhase := currentPhase st;
  round := round st; usedWords := usedWords st;
  cluePlayerIndex := cluePlayerIndex st;
  startingPlayerIndex := startingPlayerIndex st;
  timerSeconds := timerSeconds st; timerRunning := timerRunning st;
  localPlayerName := localPlayerName st; isHost := isHost st;
  onlinePeers := onlinePeers st; _localIsImposter := _localIsImposter st;
  _localWord := _localWord st; _localHint := _localHint st;
  _hostReady := _hostReady st
|}.

Definition set_category (v : jsstring) (st : State) : State := {|
  mode := mode st; players := players st; category := v;
  currentWord := currentWord st; imposterIndex := imposterIndex st;
  currentPlayerIndex := currentPlayerIndex st;
  isRoleRevealed := isRoleRevealed st; currentPhase := currentPhase st;
  round := round st; usedWords := usedWords st;
  cluePlayerIndex := cluePlayerIndex st;
  startingPlayerIndex := startingPlayerIndex st;
  timerSeconds := timerSeconds st; timerRunning := timerRunning st;
  localPlayerName := localPlayerName st; isHost := isHost st;
  onlinePeers := onlinePeers st; _localIsImposter := _localIsImposter st;
  _localWord := _localWord st; _localHint := _localHint st;
  _hostReady := _hostReady st
|}.

Definition set_currentWord (v : option Word) (st : State) : State := {|
  mode := mode st; players := players st; category := category st;
  currentWord := v; imposterIndex := imposterIndex st;
  currentPlayerIndex := currentPlayerIndex st;
  isRoleRevealed := isRoleRevealed st; currentPhase := currentPhase st;
  round := round st; usedWords := usedWords st;
  cluePlayerIndex := cluePlayerIndex st;
  startingPlayerIndex := startingPlayerIndex st;
  timerSeconds := timerSeconds st; timerRunning := timerRunning st;
  localPlayerName := localPlayerName st; isHost := isHost st;
  onlinePeers := onlinePeers st; _localIsImposter := _localIsImposter st;
  _localWord := _localWord st; _localHint := _localHint st;
  _hostReady := _hostReady st
|}.

Definition set_imposterIndex (v : Z) (st : State) : State := {|
  mode := mode st; players := players st; category := category st;
  currentWord := currentWord st; imposterIndex := v;
  currentPlayerIndex := currentPlayerIndex st;
  isRoleRevealed := isRoleRevealed st; currentPhase := currentPhase st;
  round := round st; usedWords := usedWords st;
  cluePlayerIndex := cluePlayerIndex st;
  startingPlayerIndex := startingPlayerIndex st;
  timerSeconds := timerSeconds st; timerRunning := timerRunning st;
  localPlayerName := localPlayerName st; isHost := isHost st;
  onlinePeers := onlinePeers st; _localIsImposter := _localIsImposter st;
  _localWord := _localWord st; _localHint := _localHint st;
  _hostReady := _hostReady st
|}.

Definition set_currentPlayerIndex (v : Z) (st : State) : State := {|
  mode := mode st; players := players st; category := category st;
  currentWord := currentWord st; imposterIndex := imposterIndex st;
  currentPlayerIndex := v; isRoleRevealed := isRoleRevealed st;
  currentPhase := currentPhase st; round := round st;
  usedWords := usedWords st; cluePlayerIndex := cluePlayerIndex st;
  startingPlayerIndex := startingPlayerIndex st;
  timerSeconds := timerSeconds st; timerRunning := timerRunning st;
  localPlayerName := localPlayerName st; isHost := isHost st;
  onlinePeers := onlinePeers st; _localIsImposter := _localIsImposter st;
  _localWord := _localWord st; _localHint := _localHint st;
  _hostReady := _hostReady st
|}.

Definition set_isRoleRevealed (v : bool) (st : State) : State := {|
  mode := mode st; players := players st; category := category st;
  currentWord := currentWord st; imposterIndex := imposterIndex st;
  currentPlayerIndex := currentPlayerIndex st; isRoleRevealed := v;
  currentPhase := currentPhase st; round := round st;
  usedWords := usedWords st; cluePlayerIndex := cluePlayerIndex st;
  startingPlayerIndex := startingPlayerIndex st;
  timerSeconds := timerSeconds st; timerRunning := timerRunning st;
  localPlayerName := localPlayerName st; isHost := isHost st;
  onlinePeers := onlinePeers st; _localIsImposter := _localIsImposter st;
  _localWord := _localWord st; _localHint := _localHint st;
  _hostReady := _hostReady st
|}.

Definition set_currentPhase (v : Phase) (st : State) : State := {|
  mode := mode st; players := players st; category := category st;
  currentWord := currentWord st; imposterIndex := imposterIndex st;
  currentPlayerIndex := currentPlayerIndex st;
  isRoleRevealed := isRoleRevealed st; currentPhase := v; round := round st;
  usedWords := usedWords st; cluePlayerIndex := cluePlayerIndex st;
  startingPlayerIndex := startingPlayerIndex st;
  timerSeconds := timerSeconds st; timerRunning := timerRunning st;
  localPlayerName := localPlayerName st; isHost := isHost st;
  onlinePeers := onlinePeers st; _localIsImposter := _localIsImposter st;
  _localWord := _localWord st; _localHint := _localHint st;
  _hostReady := _hostReady st
|}.

Definition set_round (v : Z) (st : State) : State := {|
  mode := mode st; players := players st; category := category st;
  currentWord := currentWord st; imposterIndex := imposterIndex st;
  currentPlayerIndex := currentPlayerIndex st;
  isRoleRevealed := isRoleRevealed st; currentPhase := currentPhase st;
  round := v; usedWords := usedWords st;
  cluePlayerIndex := cluePlayerIndex st;
  startingPlayerIndex := startingPlayerIndex st;
  timerSeconds := timerSeconds st; timerRunning := timerRunning st;
  localPlayerName := localPlayerName st; isHost := isHost st;
  onlinePeers := onlinePeers st; _localIsImposter := _localIsImposter st;
  _localWord := _localWord st; _localHint := _localHint st;
  _hostReady := _hostReady st
|}.

Definition set_usedWords (v : list jsstring) (st : State) : State := {|
  mode := mode st; players := players st; category := category st;
  currentWord := currentWord st; imposterIndex := imposterIndex st;
  currentPlayerIndex := currentPlayerIndex st;
  isRoleRevealed := isRoleRevealed st; currentPhase := currentPhase st;
  round := round st; usedWords := v; cluePlayerIndex := cluePlayerIndex st;
  startingPlayerIndex := startingPlayerIndex st;
  timerSeconds := timerSeconds st; timerRunning := timerRunning st;
  localPlayerName := localPlayerName st; isHost := isHost st;
  onlinePeers := onlinePeers st; _localIsImposter := _localIsImposter st;
  _localWord := _localWord st; _localHint := _localHint st;
  _hostReady := _hostReady st
|}.

Definition set_cluePlayerIndex (v : Z) (st : State) : State := {|
  mode := mode st; players := players st; category := category st;
  currentWord := currentWord st; imposterIndex := imposterIndex st;
  currentPlayerIndex := currentPlayerIndex st;
  isRoleRevealed := isRoleRevealed st; currentPhase := currentPhase st;
  round := round st; usedWords := usedWords st; cluePlayerIndex := v;
  startingPlayerIndex := startingPlayerIndex st;
  timerSeconds := timerSeconds st; timerRunning := timerRunning st;
  localPlayerName := localPlayerName st; isHost := isHost st;
  onlinePeers := onlinePeers st; _localIsImposter := _localIsImposter st;
  _localWord := _localWord st; _localHint := _localHint st;
  _hostReady := _hostReady st
|}.

Definition set_startingPlayerIndex (v : Z) (st : State) : State := {|
  mode := mode st; players := players st; category := category st;
  currentWord := currentWord st; imposterIndex := imposterIndex st;
  currentPlayerIndex := currentPlayerIndex st;
  isRoleRevealed := isRoleRevealed st; currentPhase := currentPhase st;
  round := round st; usedWords := usedWords st;
  cluePlayerIndex := cluePlayerIndex st; startingPlayerIndex := v;
  timerSeconds := timerSeconds st; timerRunning := timerRunning st;
  localPlayerName := localPlayerName st; isHost := isHost st;
  onlinePeers := onlinePeers st; _localIsImposter := _localIsImposter st;
  _localWord := _localWord st; _localHint := _localHint st;
  _hostReady := _hostReady st
|}.

Definition set_timerSeconds (v : Z) (st : State) : State := {|
  mode := mode st; players := players st; category := category st;
  currentWord := currentWord st; imposterIndex := imposterIndex st;
  currentPlayerIndex := currentPlayerIndex st;
  isRoleRevealed := isRoleRevealed st; currentPhase := currentPhase st;
  round := round st; usedWords := usedWords st;
  cluePlayerIndex := cluePlayerIndex st;
  startingPlayerIndex := startingPlayerIndex st; timerSeconds := v;
  timerRunning := timerRunning st; localPlayerName := localPlayerName st;
  isHost := isHost st; onlinePeers := onlinePeers st;
  _localIsImposter := _localIsImposter st; _localWord := _localWord st;
  _localHint := _localHint st; _hostReady := _hostReady st
|}.

Definition set_timerRunning (v : bool) (st : State) : State := {|
  mode := mode st; players := players st; category := category st;
  currentWord := currentWord st; imposterIndex := imposterIndex st;
  currentPlayerIndex := currentPlayerIndex st;
  isRoleRevealed := isRoleRevealed st; currentPhase := currentPhase st;
  round := round st; usedWords := usedWords st;
  cluePlayerIndex := cluePlayerIndex st;
  startingPlayerIndex := startingPlayerIndex st;
  timerSeconds := timerSeconds st; timerRunning := v;
  localPlayerName := localPlayerName st; isHost := isHost st;
  onlinePeers := onlinePeers st; _localIsImposter := _localIsImposter st;
  _localWord := _localWord st; _localHint := _localHint st;
  _hostReady := _hostReady st
|}.

Definition set_localPlayerName (v : jsstring) (st : State) : State := {|
  mode := mode st; players := players st; category := category st;
  currentWord := currentWord st; imposterIndex := imposterIndex st;
  currentPlayerIndex := currentPlayerIndex st;
  isRoleRevealed := isRoleRevealed st; currentPhase := currentPhase st;
  round := round st; usedWords := usedWords st;
  cluePlayerIndex := cluePlayerIndex st;
  startingPlayerIndex := startingPlayerIndex st;
  timerSeconds := timerSeconds st; timerRunning := timerRunning st;
  localPlayerName := v; isHost := isHost st; onlinePeers := onlinePeers st;
  _localIsImposter := _localIsImposter st; _localWord := _localWord st;
  _localHint := _localHint st; _hostReady := _hostReady st
|}.

Definition set_isHost (v : bool) (st : State) : State := {|
  mode := mode st; players := players st; category := category st;
  currentWord := currentWord st; imposterIndex := imposterIndex st;
  currentPlayerIndex := currentPlayerIndex st;
  isRoleRevealed := isRoleRevealed st; currentPhase := currentPhase st;
  round := round st; usedWords := usedWords st;
  cluePlayerIndex := cluePlayerIndex st;
  startingPlayerIndex := startingPlayerIndex st;
  timerSeconds := timerSeconds st; timerRunning := timerRunning st;
  localPlayerName := localPlayerName st; isHost := v;
  onlinePeers := onlinePeers st; _localIsImposter := _localIsImposter st;
  _localWord := _localWord st; _localHint := _localHint st;
  _hostReady := _hostReady st
|}.

Definition set_onlinePeers (v : list OnlinePeer) (st : State) : State := {|
  mode := mode st; players := players st; category := category st;
  currentWord := currentWord st; imposterIndex := imposterIndex st;
  currentPlayerIndex := currentPlayerIndex st;
  isRoleRevealed := isRoleRevealed st; currentPhase := currentPhase st;
  round := round st; usedWords := usedWords st;
  cluePlayerIndex := cluePlayerIndex st;
  startingPlayerIndex := startingPlayerIndex st;
  timerSeconds := timerSeconds st; timerRunning := timerRunning st;
  localPlayerName := localPlayerName st; isHost := isHost st;
  onlinePeers := v; _localIsImposter := _localIsImposter st;
  _localWord := _localWord st; _localHint := _localHint st;
  _hostReady := _hostReady st
|}.

Definition set__localIsImposter (v : bool) (st : State) : State := {|
  mode := mode st; players := players st; category := category st;
  currentWord := currentWord st; imposterIndex := imposterIndex st;
  currentPlayerIndex := currentPlayerIndex st;
  isRoleRevealed := isRoleRevealed st; currentPhase := currentPhase st;
  round := round st; usedWords := usedWords st;
  cluePlayerIndex := cluePlayerIndex st;
  startingPlayerIndex := startingPlayerIndex st;
  timerSeconds := timerSeconds st; timerRunning := timerRunning st;
  localPlayerName := localPlayerName st; isHost := isHost st;
  onlinePeers := onlinePeers st; _localIsImposter := v;
  _localWord := _localWord st; _localHint := _localHint st;
  _hostReady := _hostReady st
|}.

Definition set__localWord (v : option jsstring) (st : State) : State := {|
  mode := mode st; players := players st; category := category st;
  currentWord := currentWord st; imposterIndex := imposterIndex st;
  currentPlayerIndex := currentPlayerIndex st;
  isRoleRevealed := isRoleRevealed st; currentPhase := currentPhase st;
  round := round st; usedWords := usedWords st;
  cluePlayerIndex := cluePlayerIndex st;
  startingPlayerIndex := startingPlayerIndex st;
  timerSeconds := timerSeconds st; timerRunning := timerRunning st;
  localPlayerName := localPlayerName st; isHost := isHost st;
  onlinePeers := onlinePeers st; _localIsImposter := _localIsImposter st;
  _localWord := v; _localHint := _localHint st; _hostReady := _hostReady st
|}.

Definition set__localHint (v : option jsstring) (st : State) : State := {|
  mode := mode st; players := players st; category := category st;
  currentWord := currentWord st; imposterIndex := imposterIndex st;
  currentPlayerIndex := currentPlayerIndex st;
  isRoleRevealed := isRoleRevealed st; currentPhase := currentPhase st;
  round := round st; usedWords := usedWords st;
  cluePlayerIndex := cluePlayerIndex st;
  startingPlayerIndex := startingPlayerIndex st;
  timerSeconds := timerSeconds st; timerRunning := timerRunning st;
  localPlayerName := localPlayerName st; isHost := isHost st;
  onlinePeers := onlinePeers st; _localIsImposter := _localIsImposter st;
  _localWord := _localWord st; _localHint := v; _hostReady := _hostReady st
|}.

Definition set__hostReady (v : bool) (st : State) : State := {|
  mode := mode st; players := players st; category := category st;
  currentWord := currentWord st; imposterIndex := imposterIndex st;
  currentPlayerIndex := currentPlayerIndex st;
  isRoleRevealed := isRoleRevealed st; currentPhase := currentPhase st;
  round := round st; usedWords := usedWords st;
  cluePlayerIndex := cluePlayerIndex st;
  startingPlayerIndex := startingPlayerIndex st;
  timerSeconds := timerSeconds st; timerRunning := timerRunning st;
  localPlayerName := localPlayerName st; isHost := isHost st;
  onlinePeers := onlinePeers st; _localIsImposter := _localIsImposter st;
  _localWord := _localWord st; _localHint := _localHint st; _hostReady := v
|}.

(** The [state] object as the module creates it. *)
Definition initial : State := {|
  mode := LOCAL; players := []; category := js "household";
  currentWord := None; imposterIndex := -1; currentPlayerIndex := 0;
  isRoleRevealed := false; currentPhase := MENU; round := 1; usedWords := [];
  cluePlayerIndex := 0; startingPlayerIndex := -1;
  timerSeconds := 0; timerRunning := false;
  localPlayerName := []; isHost := false; onlinePeers := [];
  _localIsImposter := false; _localWord := None; _localHint := None;
  _hostReady := false
|}.

(** *** Built-ins the rules use *)

(** WhiteSpace and LineTerminator, what [String.prototype.trim] strips. *)
Definition is_trim_space (c : Z) : bool :=
  ((9 <=? c) && (c <=? 13)) || (c =? 32) || (c =? 160) || (c =? 5760)
  || ((8192 <=? c) && (c <=? 8202)) || (c =? 8232) || (c =? 8233)
  || (c =? 8239) || (c =? 8287) || (c =? 12288) || (c =? 65279).

Fixpoint trimStart (s : jsstring) : jsstring :=
  match s with
  | c :: r => if is_trim_space c then trimStart r else s
  | [] => []
  end.

Definition trim (s : jsstring) : jsstring := rev (trimStart (rev (trimStart s))).

(** [arr[i]] for an integral index: [None] is [undefined]. *)
Definition at_index {A} (arr : list A) (i : Z) : option A :=
  if i <? 0 then None else arr !! Z.to_nat i.

(** [arr.includes(s)] and [arr.indexOf(s)] on an array of strings. *)
Definition includes (s : jsstring) (arr : list jsstring) : bool :=
  existsb (fun x => bool_decide (x = s)) arr.

Fixpoint indexOf (s : jsstring) (arr : list jsstring) : option nat :=
  match arr with
  | [] => None
  | x :: r => if bool_decide (x = s) then Some O else S <$> indexOf s r
  end.

(** [x++] on a safe integer: exact below 2^53, where it stops. *)
Definition incr (z : Z) : Z := if z <? 2 ^ 53 then z + 1 else z.

(** [k] can be the value of [Math.floor(Math.random() * n)]: below [n],
    and 0 when [n] is 0. *)
Definition drawn (n k : nat) : bool :=
  (k <? n)%nat || ((n =? 0)%nat && (k =? 0)%nat).

(** The names every object inherits from [Object.prototype]. *)
Definition inherited (k : jsstring) : bool :=
  existsb (fun n => bool_decide (k = n))
    [js "constructor"; js "__proto__"; js "hasOwnProperty"; js "isPrototypeOf";
     js "propertyIsEnumerable"; js "toLocaleString"; js "toString"; js "valueOf";
     js "__defineGetter__"; js "__defineSetter__"; js "__lookupGetter__";
     js "__lookupSetter__"].

(** *** Reset helpers *)

Definition resetRoundState (st : State) : State :=
  let st := set_currentWord None st in
  let st := set_imposterIndex (-1) st in
  let st := set_currentPlayerIndex 0 st in
  let st := set_isRoleRevealed false st in
  let st := set_currentPhase MENU st in
  let st := set_cluePlayerIndex 0 st in
  let st := set_startingPlayerIndex (-1) st in
  let st := set_round 1 st in
  let st := set_usedWords [] st in
  let st := set_timerSeconds 0 st in
  set_timerRunning false st.

Definition fullReset (st : State) : State :=
  let st := resetRoundState st in
  let st := set_players [] st in
  let st := set_mode LOCAL st in
  let st := set_localPlayerName [] st in
  let st := set_isHost false st in
  let st := set_onlinePeers [] st in
  let st := set__localIsImposter false st in
  let st := set__localWord None st in
  let st := set__localHint None st in
  set__hostReady false st.

Section Rules.

(** [String.prototype.toLowerCase], and the own properties of the word
    database [data/words.js]: a list of [{word, hint}] entries for each
    category. *)
Variable toLowerCase : jsstring -> jsstring.
Variable wordDatabase : jsstring -> option (list Word).

(** [wordDatabase[cat]] where the rules read it: the pool of an own
    property, [undefined] for a name that is no property at all; a name
    found on [Object.prototype] only is outside the embedding. *)
Definition pool_of (cat : jsstring) : result (option (list Word)) :=
  match wordDatabase cat with
  | Some pool => Ret (Some pool)
  | None => if inherited cat then Unsupported else Ret None
  end.

(** *** Player management *)

(** [addPlayer(name)]: the error message, or [None] for [null]. *)
Definition addPlayer (name : jsstring) (st : State) : option jsstring * State :=
  let n := trim name in
  match n with
  | [] => (Some (js "Name cannot be empty."), st)
  | _ =>
      if existsb (fun p => bool_decide (toLowerCase p = toLowerCase n)) (players st)
      then (Some (js "That name is already taken."), st)
      else (None, set_players (players st ++ [n]) st)
  end.

(** [removePlayer(idx)] for an integral index. *)
Definition removePlayer (idx : Z) (st : State) : State :=
  if (0 <=? idx) && (idx <? Z.of_nat (length (players st)))
  then set_players (delete (Z.to_nat idx) (players st)) st
  else st.

(** *** Category and mode *)

Definition setCategory (cat : jsstring) (st : State) : result State :=
  pool ← pool_of cat;
  Ret (match pool with Some _ => set_category cat st | None => st end).

Definition setMode (m : GameMode) (st : State) : State := set_mode m st.
Definition setLocalPlayerName (n : jsstring) (st : State) : State :=
  set_localPlayerName (trim n) st.
Definition setIsHost (v : bool) (st : State) : State := set_isHost v st.

(** *** Online peer tracking *)

Definition addOnlinePeer (peerId name : jsstring) (st : State) : State :=
  if existsb (fun p => bool_decide (id p = peerId)) (onlinePeers st) then st
  else set_onlinePeers
         (onlinePeers st ++ [{| id := peerId; peer_name := name; ready := false |}]) st.

Definition removeOnlinePeer (peerId : jsstring) (st : State) : State :=
  set_onlinePeers
    (List.filter (fun p => negb (bool_decide (id p = peerId))) (onlinePeers st)) st.

(** [find] returns the first entry with the id; its [ready] is set. *)
Fixpoint mark_ready (peerId : jsstring) (l : list OnlinePeer) : list OnlinePeer :=
  match l with
  | [] => []
  | p :: r =>
      if bool_decide (id p = peerId)
      then {| id := id p; peer_name := peer_name p; ready := true |} :: r
      else p :: mark_ready peerId r
  end.

Definition setOnlinePeerReady (peerId : jsstring) (st : State) : State :=
  set_onlinePeers (mark_ready peerId (onlinePeers st)) st.

Definition resetOnlinePeerReady (st : State) : State :=
  set_onlinePeers
    (map (fun p => {| id := id p; peer_name := peer_name p; ready := false |})
         (onlinePeers st)) st.

Definition getOnlinePlayerNames (st : State) : list jsstring :=
  match localPlayerName st with
  | [] => []
  | n => [n]
  end ++ map peer_name (onlinePeers st).

(** *** Game flow *)

(** The words a round may draw from, and the list of used words it
    starts from: the words of the pool not used yet, or the whole pool
    with an empty list once every word has been used. *)
Definition word_choices (pool : list Word) (used : list jsstring)
  : list jsstring * list Word :=
  match List.filter (fun w => negb (includes (word w) used)) pool with
  | [] => ([], pool)
  | fresh => (used, fresh)
  end.

(** [startRound()]; [k_word] and [k_imp] are what the two calls of
    [Math.floor(Math.random() * ...)] return. *)
Definition startRound (k_word k_imp : nat) (st : State)
  : result (option jsstring * State) :=
  pool ← pool_of (category st);
  match pool with
  | None | Some [] => Ret (Some (js "No words for this category!"), st)
  | Some pool =>
      let '(used, available) := word_choices pool (usedWords st) in
      if drawn (length available) k_word && drawn (length (players st)) k_imp then
        match available !! k_word with
        | Some w =>
            let st := set_currentWord (Some w) st in
            let st := set_usedWords (used ++ [word w]) st in
            let st := set_imposterIndex (Z.of_nat k_imp) st in
            let st := set_currentPlayerIndex 0 st in
            let st := set_isRoleRevealed false st in
            Ret (None, set_currentPhase REVEAL st)
        | None => Unsupported
        end
      else Unsupported
  end.

(** [startGame()] *)
Definition startGame (k_word k_imp : nat) (st : State)
  : result (option jsstring * State) :=
  if (length (players st) <? 3)%nat
  then Ret (Some (js "Need at least 3 players!"), st)
  else startRound k_word k_imp (set_usedWords [] (set_round 1 st)).

(** What [revealCurrentRole()] returns: [None] is [undefined] for the
    name and [null] for the word and the hint. *)
Record Role := {
  isImposter : bool;
  playerName : option jsstring;
  role_word : option jsstring;
  role_hint : option jsstring;
}.

(** [revealCurrentRole()]: [Ret None] is [null]; reading [.word] or
    [.hint] of a [currentWord] that is [null] is a TypeError, thrown after
    [isRoleRevealed] was set. *)
Definition revealCurrentRole (st : State) : result (option Role) * State :=
  if isRoleRevealed st then (Ret None, st)
  else
    let st' := set_isRoleRevealed true st in
    let imp := currentPlayerIndex st =? imposterIndex st in
    match currentWord st with
    | None => (Throw TypeError, st')
    | Some w =>
        (Ret (Some {| isImposter := imp;
                      playerName := at_index (players st) (currentPlayerIndex st);
                      role_word := if imp then None else Some (word w);
                      role_hint := if imp then Some (hint w) else None |}),
         st')
    end.

(** [nextRevealPlayer()] *)
Definition nextRevealPlayer (st : State) : bool * State :=
  let st := set_currentPlayerIndex (incr (currentPlayerIndex st)) st in
  let st := set_isRoleRevealed false st in
  (currentPlayerIndex st <? Z.of_nat (length (players st)), st).

(** *** Clue and debate *)

(** [startCluePhase()]; [k] is the random starting index. *)
Definition startCluePhase (k : nat) (st : State) : result State :=
  if drawn (length (players st)) k then
    let st := set_currentPhase CLUES st in
    let st := set_startingPlayerIndex (Z.of_nat k) st in
    let st := set_cluePlayerIndex 0 st in
    let st := set_timerSeconds 0 st in
    Ret (set_timerRunning false st)
  else Unsupported.

(** [getCurrentCluePlayer()]: [%] takes the sign of the dividend and is
    NaN for an empty roster; an index that is NaN or negative reads
    [undefined].  The sum is exact when it is a safe integer. *)
Definition getCurrentCluePlayer (st : State) : result (option jsstring) :=
  let sum := startingPlayerIndex st + cluePlayerIndex st in
  if safe_integer sum then
    match players st with
    | [] => Ret None
    | _ => Ret (at_index (players st) (Z.rem sum (Z.of_nat (length (players st)))))
    end
  else Unsupported.

(** [nextClueTurn()] *)
Definition nextClueTurn (st : State) : bool * State :=
  let st := set_cluePlayerIndex (incr (cluePlayerIndex st)) st in
  let st := set_timerSeconds 0 st in
  let st := set_timerRunning false st in
  (cluePlayerIndex st <? Z.of_nat (length (players st)), st).

Definition startDebatePhase (st : State) : State :=
  let st := set_currentPhase DEBATE st in
  let st := set_timerSeconds 0 st in
  set_timerRunning false st.

(** [nextRoundSameWord()]; [k] is the random starting index. *)
Definition nextRoundSameWord (k : nat) (st : State) : result State :=
  if drawn (length (players st)) k then
    let st := set_round (incr (round st)) st in
    let st := set_startingPlayerIndex (Z.of_nat k) st in
    let st := set_cluePlayerIndex 0 st in
    let st := set_currentPhase CLUES st in
    let st := set_timerSeconds 0 st in
    Ret (set_timerRunning false st)
  else Unsupported.

Definition endGame (st : State) : State :=
  set_timerRunning false (set_currentPhase RESULTS st).

(** *** Timer *)

Definition toggleTimer (st : State) : bool * State :=
  let st := set_timerRunning (negb (timerRunning st)) st in
  (timerRunning st, st).

Definition resetTimer (st : State) : State :=
  set_timerRunning false (set_timerSeconds 0 st).

Definition tickTimerSecond (st : State) : State :=
  if timerRunning st then set_timerSeconds (incr (timerSeconds st)) st else st.

End Rules.

(** *** Network sync helpers

    The state being typed, a snapshot is applied when its fields have
    the types [serialiseForSync] gives them; any other snapshot, which
    JavaScript would store as it comes, is outside the embedding. *)

Fixpoint as_strings (l : list value) : result (list jsstring) :=
  match l with
  | [] => Ret []
  | VStr s :: r => t ← as_strings r; Ret (s :: t)
  | _ => Unsupported
  end.

Definition as_string_array (v : value) : result (list jsstring) :=
  match v with VArr l => as_strings l | _ => Unsupported end.

Definition as_string (v : value) : result jsstring :=
  match v with VStr s => Ret s | _ => Unsupported end.

Definition as_integer (v : value) : result Z :=
  match v with VNum (Int z) => Ret z | _ => Unsupported end.

Definition as_boolean (v : value) : result bool :=
  match v with VBool b => Ret b | _ => Unsupported end.

Definition as_phase (v : value) : result Phase :=
  match v with
  | VStr s =>
      match List.find (fun p => bool_decide (Phase_string p = s))
                      [MENU; SETUP; REVEAL; CLUES; DEBATE; RESULTS] with
      | Some p => Ret p
      | None => Unsupported
      end
  | _ => Unsupported
  end.

(** A value that is a string or [null]. *)
Definition as_string_or_null (v : value) : result (option jsstring) :=
  match v with
  | VNull => Ret None
  | VStr s => Ret (Some s)
  | _ => Unsupported
  end.

(** [applyHostState(s)]: the nine reads of [s], then the assignments. *)
Definition applyHostState (s : value) (st : State) : result State :=
  v1 ← get_prop s (js "players");
  v2 ← get_prop s (js "category");
  v3 ← get_prop s (js "currentPhase");
  v4 ← get_prop s (js "round");
  v5 ← get_prop s (js "currentPlayerIndex");
  v6 ← get_prop s (js "cluePlayerIndex");
  v7 ← get_prop s (js "startingPlayerIndex");
  v8 ← get_prop s (js "timerSeconds");
  v9 ← get_prop s (js "timerRunning");
  p ← as_string_array v1;
  c ← as_string v2;
  ph ← as_phase v3;
  r ← as_integer v4;
  cur ← as_integer v5;
  clue ← as_integer v6;
  start ← as_integer v7;
  secs ← as_integer v8;
  running ← as_boolean v9;
  let st := set_players p st in
  let st := set_category c st in
  let st := set_currentPhase ph st in
  let st := set_round r st in
  let st := set_currentPlayerIndex cur st in
  let st := set_cluePlayerIndex clue st in
  let st := set_startingPlayerIndex start st in
  let st := set_timerSeconds secs st in
  Ret (set_timerRunning running st).

(** [applyRoleAssignment(data)] *)
Definition applyRoleAssignment (data : value) (st : State) : result State :=
  v1 ← get_prop data (js "isImposter");
  v2 ← get_prop data (js "word");
  v3 ← get_prop data (js "hint");
  imp ← as_boolean v1;
  w ← as_string_or_null v2;
  h ← as_string_or_null v3;
  let st := set__localIsImposter imp st in
  let st := set__localWord w st in
  let st := set__localHint h st in
  Ret (set_isRoleRevealed false st).

(** *** The sequences app.js runs through *)

(** Pass-and-play reveal: each player in turn taps to see the role
    ([doRevealRole]), then passes the device on ([doNextPlayer]), until
    [nextRevealPlayer()] reports that nobody is left.  [turns] bounds the
    number of players served. *)
Fixpoint reveal_sequence (turns : nat) (st : State)
  : list (result (option Role)) * State :=
  match turns with
  | O => ([], st)
  | S n =>
      let '(shown, st1) := revealCurrentRole st in
      let '(more, st2) := nextRevealPlayer st1 in
      if more then
        let '(rest, st3) := reveal_sequence n st2 in (shown :: rest, st3)
      else ([shown], st2)
  end.

(** The clue phase: the speaker shown for the current turn
    ([getCurrentCluePlayer]), then [doNextClueTurn] until
    [nextClueTurn()] reports that everybody has spoken. *)
Fixpoint clue_sequence (turns : nat) (st : State)
  : list (result (option jsstring)) * State :=
  match turns with
  | O => ([], st)
  | S n =>
      let speaker := getCurrentCluePlayer st in
      let '(more, st1) := nextClueTurn st in
      if more then
        let '(rest, st2) := clue_sequence n st1 in (speaker :: rest, st2)
      else ([speaker], st1)
  end.

(** *** Vocabulary of the properties *)

(** A roster as [addPlayer] builds it: no empty name, no name with
    white space at either end, no two names equal up to case. *)
Definition trimmed (n : jsstring) : Prop :=
  n <> [] /\ (forall c, head n = Some c -> is_trim_space c = false) /\
  (forall c, last n = Some c -> is_trim_space c = false).

Definition roster_ok (toLowerCase : jsstring -> jsstring) (names : list jsstring)
  : Prop :=
  Forall trimmed names /\ List.NoDup (map toLowerCase names).

(** How many of the roles shown are the imposter's. *)
Definition is_imposter_role (r : result (option Role)) : bool :=
  match r with
  | Ret (Some role) => isImposter role
  | _ => false
  end.

Definition imposters (shown : list (result (option Role))) : nat :=
  length (List.filter is_imposter_role shown).

(** The role [revealCurrentRole] shows to the player at index [i] in a
    round with word [w] and imposter [imp]. *)
Definition role_at (names : list jsstring) (w : Word) (imp : Z) (i : nat)
  : result (option Role) :=
  let is_imp := Z.of_nat i =? imp in
  Ret (Some {| isImposter := is_imp;
               playerName := names !! i;
               role_word := if is_imp then None else Some (word w);
               role_hint := if is_imp then Some (hint w) else None |}).

(** [state.onlinePeers.every(p => p.ready)], the test of
    [checkAllReady] in app.js. *)
Definition all_ready (st : State) : bool := forallb ready (onlinePeers st).

(** The ids of the lobby, in join order. *)
Definition peer_ids (st : State) : list jsstring := map id (onlinePeers st).

(** A lobby of two joined players. *)
Definition sample_lobby : State :=
  set_onlinePeers [{| id := js "k3x9q1a"; peer_name := js "Bob"; ready := false |};
                   {| id := js "p0m7z2c"; peer_name := js "Cy"; ready := false |}]
    (set_localPlayerName (js "Ada") initial).

(** ASCII lower-casing, the part of [toLowerCase] the examples need. *)
Definition ascii_lower (s : jsstring) : jsstring :=
  map (fun c => if (65 <=? c) && (c <=? 90) then c + 32 else c) s.

(** A small word database. *)
Definition sample_words (cat : jsstring) : option (list Word) :=
  if bool_decide (cat = js "household") then
    Some [{| word := js "kettle"; hint := js "kitchen" |};
          {| word := js "ladder"; hint := js "garage" |};
          {| word := js "pillow"; hint := js "bedroom" |}]
  else if bool_decide (cat = js "empty") then Some []
  else None.

End Play.

(** ** app.js: what the host sends when a game starts, what a joining
    player does with it, and the clean-up *)

Module App.
Import Net Game Play.

(** The [role] object of a [game_start] message. *)
Definition role_value (isImp : bool) (w : Word) : value :=
  VObj [(js "isImposter", VBool isImp);
        (js "word", if isImp then VNull else VStr (word w));
        (js "hint", if isImp then VStr (hint w) else VNull)].

Definition game_start_message (gs : State) (isImp : bool) (w : Word) : value :=
  VObj [(js "type", VStr (js "game_start"));
        (js "version", VNum (Int PROTOCOL_VERSION));
        (js "players", VArr (map VStr (players gs)));
        (js "category", VStr (category gs));
        (js "role", role_value isImp w)].

(** [if (!p.name) continue; const playerIdx = gs.players.indexOf(p.name);
    if (playerIdx === -1) continue;]: the roster holds strings, so only a
    name that is a non-empty string is found there. *)
Definition player_index (gs : State) (who : value) : option nat :=
  match who with
  | VStr [] => None
  | VStr s => indexOf s (players gs)
  | _ => None
  end.

(** One turn of the loop of [doHostStartGame] that sends the roles. *)
Definition send_role (gs : State) (entry : jsstring * PeerRecord) : M unit :=
  match player_index gs (name entry.2) with
  | None => skip
  | Some idx =>
      let isImp := Z.of_nat idx =? imposterIndex gs in
      match currentWord gs with
      | None => throw TypeError
      | Some w => sendToPeer entry.1 (game_start_message gs isImp w)
      end
  end.

(** The loop itself, over the enumeration of the [gmap], every peer
    once; the code visits the peers in insertion order. *)
Definition send_roles (gs : State) : M unit :=
  m ← get;
  fold_right (fun (entry : jsstring * PeerRecord) (k : M unit) =>
                send_role gs entry ≫= fun _ => k)
             skip (map_to_list (peers m)).

Section Handlers.
Variable toLowerCase : jsstring -> jsstring.
Variable wordDatabase : jsstring -> option (list Word).

(** [msg.players.forEach(n => addPlayer(n))]: [n.trim()] is a TypeError
    for anything but a string. *)
Fixpoint add_players (l : list value) (st : State) : result unit * State :=
  match l with
  | [] => (Ret tt, st)
  | VStr n :: r => add_players r (addPlayer toLowerCase n st).2
  | _ :: _ => (Throw TypeError, st)
  end.

(** The case ['game_start'] of [onPeerMessage], up to the calls that
    draw the screen; [myName] is [net.localName].  The state comes with
    the result, since an exception leaves it as far as it got. *)
Definition on_game_start (myName : jsstring) (msg : value) (st : State)
  : result unit * State :=
  let st := fullReset st in
  let st := setMode ONLINE_PEER st in
  let st := setIsHost false st in
  let st := setLocalPlayerName myName st in
  match get_prop msg (js "players") with
  | Ret (VArr l) =>
      let '(r, st) := add_players l st in
      match r with
      | Ret _ =>
          match get_prop msg (js "category") with
          | Ret (VStr cat) =>
              match setCategory wordDatabase cat st with
              | Ret st =>
                  match get_prop msg (js "role") ≫= fun role =>
                        applyRoleAssignment role st with
                  | Ret st' => (Ret tt, st')
                  | Throw e => (Throw e, st)
                  | Unsupported => (Unsupported, st)
                  end
              | Throw e => (Throw e, st)
              | Unsupported => (Unsupported, st)
              end
          | Ret _ => (Unsupported, st)
          | Throw e => (Throw e, st)
          | Unsupported => (Unsupported, st)
          end
      | Throw e => (Throw e, st)
      | Unsupported => (Unsupported, st)
      end
  | Ret _ | Throw _ => (Throw TypeError, st)
  | Unsupported => (Unsupported, st)
  end.

End Handlers.

(** The case ['sync'] of [onPeerMessage], up to the timer display. *)
Definition on_sync (msg : value) (st : State) : result State :=
  s ← get_prop msg (js "state"); applyHostState s st.

(** [cleanupNet()] on a manager that exists. *)
Definition cleanupNet : M unit :=
  m ← get;
  (if Net.isHost m
   then broadcast (VObj [(js "type", VStr (js "disconnect"));
                         (js "reason", VStr (js "Host left."))])
   else sendToHost (VObj [(js "type", VStr (js "disconnect"));
                          (js "reason", VStr (js "Peer left."))]));;
  close.

(** *** Vocabulary of the properties *)

(** The texts of a state are strings of code units, its numbers safe
    integers. *)
Definition text_ok (s : jsstring) : bool := forallb Wire.code_unitb s.

Definition sync_ok (st : State) : bool :=
  forallb text_ok (players st) && text_ok (category st)
  && safe_integer (round st) && safe_integer (currentPlayerIndex st)
  && safe_integer (cluePlayerIndex st) && safe_integer (startingPlayerIndex st)
  && safe_integer (timerSeconds st).

Definition word_ok (w : Word) : bool := text_ok (word w) && text_ok (hint w).

(** A lowercase hexadecimal digit. *)
Definition lower_hex (c : Z) : bool :=
  is_digit c || ((97 <=? c) && (c <=? 102)).

(** The per-player fields no snapshot carries. *)
Definition same_private_fields (a b : State) : Prop :=
  currentWord a = currentWord b /\ imposterIndex a = imposterIndex b /\
  usedWords a = usedWords b /\ isRoleRevealed a = isRoleRevealed b /\
  _localIsImposter a = _localIsImposter b /\ _localWord a = _localWord b /\
  _localHint a = _localHint b /\ localPlayerName a = localPlayerName b /\
  mode a = mode b /\ Game.isHost a = Game.isHost b /\
  onlinePeers a = onlinePeers b /\ _hostReady a = _hostReady b.

(** The frame of a message, where it has one. *)
Definition frame_text (msg : value) : jsstring :=
  match frame_of msg with Ret t => t | _ => [] end.

(** What [send_roles] puts on the channel of one entry of [peers]. *)
Definition role_frames (gs : State) (w : Word) (entry : jsstring * PeerRecord)
  : list effect :=
  match player_index gs (name entry.2) with
  | Some idx =>
      if channel_open (ch entry.2)
      then [PeerChannelSend entry.1
              (frame_text (game_start_message gs (Z.of_nat idx =? imposterIndex gs) w))]
      else []
  | None => []
  end.

(** A frame put on the channel of the peer [peerId]. *)
Definition sent_to (peerId : jsstring) (e : effect) : bool :=
  match e with
  | PeerChannelSend i _ => bool_decide (i = peerId)
  | _ => false
  end.

(** A host in the middle of a game, and its manager with two named,
    connected peers. *)
Definition sample_game : State := {|
  mode := ONLINE_HOST; players := [js "Ada"; js "Bob"; js "Cy"];
  category := js "household";
  currentWord := Some {| word := js "kettle"; hint := js "kitchen" |};
  imposterIndex := 1; currentPlayerIndex := 0; isRoleRevealed := false;
  currentPhase := REVEAL; round := 1; usedWords := [js "kettle"];
  cluePlayerIndex := 0; startingPlayerIndex := -1;
  timerSeconds := 0; timerRunning := false;
  localPlayerName := js "Ada"; Game.isHost := true;
  onlinePeers := [{| id := js "k3x9q1a"; peer_name := js "Bob"; ready := false |};
                  {| id := js "p0m7z2c"; peer_name := js "Cy"; ready := false |}];
  _localIsImposter := false; _localWord := None; _localHint := None;
  _hostReady := false
|}.

Definition sample_peer (who : string) : PeerRecord :=
  {| pc := {| localDescription := Sample.offer; remoteDescription := Sample.answer |};
     ch := {| label := CHANNEL_LABEL; readyState := open |};
     name := VStr (js who) |}.

Definition sample_host : NetworkManager :=
  set_peers (fun _ => <[Sample.idA := sample_peer "Bob"]>
                        (<[Sample.idB := sample_peer "Cy"]> ∅))
            Sample.host.

End App.

(** ** input.js: keyboard and gamepad *)

Module Input.

(** What the handler reads of a keyboard event: [e.target.tagName]
    ([None] where the target has none) and [e.code]. *)
Record KeyboardEvent := { tagName : option jsstring; code : jsstring }.

(** What the handlers do to the outside: [e.preventDefault()] and the
    calls of the callbacks. *)
Inductive action :=
| PreventDefault
| Call_onConfirm
| Call_onBack
| Call_onNavigate (direction : jsstring).

(** The callbacks that were given to [initInput] ([false]: [null]). *)
Record Callbacks := { _onConfirm : bool; _onBack : bool; _onNavigate : bool }.

Definition confirm (cb : Callbacks) : list action :=
  if _onConfirm cb then [Call_onConfirm] else [].
Definition back (cb : Callbacks) : list action :=
  if _onBack cb then [Call_onBack] else [].
Definition navigate (cb : Callbacks) (direction : string) : list action :=
  if _onNavigate cb then [Call_onNavigate (js direction)] else [].

Definition is_key (c : jsstring) (k : string) : bool := bool_decide (c = js k).

(** The [switch (code)] of [handleKeyDown]. *)
Definition key_actions (cb : Callbacks) (c : jsstring) : list action :=
  if is_key c "Space" || is_key c "Enter" || is_key c "NumpadEnter"
  then PreventDefault :: confirm cb
  else if is_key c "Escape" || is_key c "KeyQ" || is_key c "Backspace"
  then PreventDefault :: back cb
  else if is_key c "KeyW" then navigate cb "up"
  else if is_key c "KeyS" then navigate cb "down"
  else if is_key c "KeyA" then navigate cb "left"
  else if is_key c "KeyD" then navigate cb "right"
  else if is_key c "ArrowUp" then PreventDefault :: navigate cb "up"
  else if is_key c "ArrowDown" then PreventDefault :: navigate cb "down"
  else if is_key c "ArrowLeft" then PreventDefault :: navigate cb "left"
  else if is_key c "ArrowRight" then PreventDefault :: navigate cb "right"
  else [].

Definition typing_target (tag : option jsstring) : bool :=
  match tag with
  | Some t =>
      bool_decide (t = js "INPUT") || bool_decide (t = js "TEXTAREA")
      || bool_decide (t = js "SELECT")
  | None => false
  end.

(** [handleKeyDown(e)]; the module-level [held] set is threaded through. *)
Definition handleKeyDown (cb : Callbacks) (e : KeyboardEvent) (held : gset jsstring)
  : list action * gset jsstring :=
  if typing_target (tagName e) then ([], held)
  else if bool_decide (code e ∈ held) then ([], held)
  else (key_actions cb (code e), {[code e]} ∪ held).

(** [handleKeyUp(e)] *)
Definition handleKeyUp (e : KeyboardEvent) (held : gset jsstring) : gset jsstring :=
  held ∖ {[code e]}.

(** The keyboard events the document dispatches, and the handlers run
    on a sequence of them. *)
Inductive event :=
| KeyDown (e : KeyboardEvent)
| KeyUp (e : KeyboardEvent).

Fixpoint run (cb : Callbacks) (events : list event) (held : gset jsstring)
  : list action * gset jsstring :=
  match events with
  | [] => ([], held)
  | KeyDown e :: rest =>
      let '(a, held1) := handleKeyDown cb e held in
      let '(b, held2) := run cb rest held1 in (a ++ b, held2)
  | KeyUp e :: rest => run cb rest (handleKeyUp e held)
  end.

Definition releases (c : jsstring) (ev : event) : bool :=
  match ev with
  | KeyUp e => bool_decide (code e = c)
  | KeyDown _ => false
  end.

(** *** Gamepad *)

(** A reading of [gp.axes[1]]: a finite double is the ratio of two
    integers; [None] stands for a missing axis or NaN, on which every
    comparison is false. *)
Record ratio := { numerator : Z; denominator : positive }.

(** What [pollGamepad] reads of a gamepad: [gp.buttons[i]?.pressed]
    for the four buttons it looks at ([false] where the button is
    missing) and [gp.axes[1]]. *)
Record Gamepad := {
  button12 : bool; button13 : bool; button0 : bool; button1 : bool;
  axis1 : option ratio;
}.

(** [x < -0.5] and [x > 0.5] *)
Definition below_minus_half (x : option ratio) : bool :=
  match x with
  | Some r => 2 * numerator r <? - Z.pos (denominator r)
  | None => false
  end.
Definition above_half (x : option ratio) : bool :=
  match x with
  | Some r => Z.pos (denominator r) <? 2 * numerator r
  | None => false
  end.

(** [_gpPrev]: up, down, A, B of the previous frame. *)
Record Previous := { prev_up : bool; prev_down : bool; prev_A : bool; prev_B : bool }.

Definition first_connected (gamepads : list (option Gamepad)) : option Gamepad :=
  List.find (fun g => match g with Some _ => true | None => false end) gamepads
  ≫= fun g => g.

(** One run of [pollGamepad] on what [navigator.getGamepads()] returns. *)
Definition pollGamepad (cb : Callbacks) (gamepads : list (option Gamepad))
    (prev : Previous) : list action * Previous :=
  match first_connected gamepads with
  | None => ([], prev)
  | Some gp =>
      let up := button12 gp || below_minus_half (axis1 gp) in
      let down := button13 gp || above_half (axis1 gp) in
      let btnA := button0 gp in
      let btnB := button1 gp in
      ((if up && negb (prev_up prev) then navigate cb "up" else [])
       ++ (if down && negb (prev_down prev) then navigate cb "down" else [])
       ++ (if btnA && negb (prev_A prev) then confirm cb else [])
       ++ (if btnB && negb (prev_B prev) then back cb else []),
       {| prev_up := up; prev_down := down; prev_A := btnA; prev_B := btnB |})
  end.

(** The polls of consecutive animation frames. *)
Fixpoint poll_frames (cb : Callbacks) (frames : list (list (option Gamepad)))
    (prev : Previous) : list action * Previous :=
  match frames with
  | [] => ([], prev)
  | f :: rest =>
      let '(a, p1) := pollGamepad cb f prev in
      let '(b, p2) := poll_frames cb rest p1 in (a ++ b, p2)
  end.

(** The A button of the gamepad in use is down in a frame. *)
Definition holds_A (f : list (option Gamepad)) : bool :=
  match first_connected f with
  | Some gp => button0 gp
  | None => false
  end.

Definition all_callbacks : Callbacks :=
  {| _onConfirm := true; _onBack := true; _onNavigate := true |}.

Definition space_on_body : KeyboardEvent :=
  {| tagName := Some (js "BODY"); code := js "Space" |}.

Definition pad_A_down : Gamepad :=
  {| button12 := false; button13 := false; button0 := true; button1 := false;
     axis1 := Some {| numerator := 0; denominator := 1 |} |}.

End Input.





(* ================================================================== *)
(** * Part II: properties                                              *)
(* ================================================================== *)

Section Int32.

Lemma ToInt32_mod z : ToInt32 z mod two32 = z mod two32.
Proof.
  unfold ToInt32, two32, two31.
  destruct (Z.leb_spec 2147483648 (z mod 4294967296)).
  - replace (z mod 4294967296 - 4294967296)
      with (z mod 4294967296 + (-1) * 4294967296) by lia.
    rewrite Z.mod_add by lia. apply Z.mod_mod. lia.
  - apply Z.mod_mod. lia.
Qed.

Lemma ToUint32_ToInt32 z : ToUint32 (ToInt32 z) = ToUint32 z.
Proof. apply ToInt32_mod. Qed.

Lemma js_or_zero_mod a : js_or a 0 mod two32 = a mod two32.
Proof.
  unfold js_or. rewrite ToInt32_mod.
  replace (ToInt32 0) with 0 by reflexivity.
  rewrite Z.lor_0_r. apply ToInt32_mod.
Qed.

Lemma js_shl_5_mod h : js_shl h 5 mod two32 = (h * 32) mod two32.
Proof.
  unfold js_shl. rewrite ToInt32_mod.
  replace (ToUint32 5 mod 32) with 5 by reflexivity.
  rewrite Z.shiftl_mul_pow2 by lia.
  change (2 ^ 5) with 32.
  rewrite Z.mul_mod by (unfold two32; lia).
  rewrite ToInt32_mod.
  rewrite <- Z.mul_mod by (unfold two32; lia). reflexivity.
Qed.

Lemma js_ushr_zero a : js_ushr a 0 = a mod two32.
Proof.
  unfold js_ushr. replace (ToUint32 0 mod 32) with 0 by reflexivity.
  rewrite Z.shiftr_0_r. unfold ToUint32. apply Z.mod_mod. unfold two32; lia.
Qed.

End Int32.

Section Checksum.
Import Utils UtilsSpec.

(** The loop body and the documented recurrence agree modulo 2^32. *)
Lemma mod_eq_split a b m :
  m <> 0 -> a mod m = b mod m -> exists k, a = b + k * m.
Proof.
  intros Hm H. exists (a / m - b / m).
  pose proof (Z.div_mod a m Hm). pose proof (Z.div_mod b m Hm). nia.
Qed.

Lemma checksum_step_mod h1 h2 c :
  h1 mod two32 = h2 ->
  checksum_step h1 c mod two32 = rolling_step h2 c.
Proof.
  intros Hh. unfold checksum_step, rolling_step.
  rewrite js_or_zero_mod.
  change (2 ^ 32) with two32.
  assert (Hn : two32 <> 0) by (unfold two32; lia).
  destruct (mod_eq_split _ _ _ Hn (js_shl_5_mod h1)) as [k Hk].
  assert (Hh' : h1 mod two32 = h2 mod two32).
  { subst h2. symmetry. apply Z.mod_mod. exact Hn. }
  destruct (mod_eq_split _ _ _ Hn Hh') as [j Hj].
  rewrite Hk, Hj.
  replace ((h2 + j * two32) * 32 + k * two32 - (h2 + j * two32) + c)
    with (h2 * 31 + c + (31 * j + k) * two32) by lia.
  apply Z.mod_add. exact Hn.
Qed.

Lemma checksum_fold_mod s : forall h1 h2,
  h1 mod two32 = h2 ->
  fold_left checksum_step s h1 mod two32 = fold_left rolling_step s h2.
Proof.
  induction s as [|c s IH]; intros h1 h2 Hh; simpl.
  - exact Hh.
  - apply IH. apply checksum_step_mod. exact Hh.
Qed.

(** C2. For every string [s], [checksum s] is the lowercase hexadecimal
    rendering of the rolling hash [h := (h*31 + charCode) mod 2^32] folded
    over the code units of [s] from [h = 0]. *)
Theorem checksum_is_rolling_hash (s : jsstring) :
  checksum s = checksum_spec s.
Proof.
  unfold checksum, checksum_spec, rolling_hash.
  rewrite js_ushr_zero.
  rewrite (checksum_fold_mod s 0 0) by reflexivity.
  reflexivity.
Qed.

Example checksum_empty : checksum (js "") = js "0".
Proof. reflexivity. Qed.

Example checksum_abc : checksum (js "abc") = js "17862".
Proof. vm_compute. reflexivity. Qed.

End Checksum.

(* ------------------------------------------------------------------ *)
(** ** The signalling codec                                            *)
(* ------------------------------------------------------------------ *)

Section Hex.

(** Case analysis on a hexadecimal digit value. *)
Lemma nibble_cases (d : Z) :
  0 <= d < 16 ->
  d = 0 \/ d = 1 \/ d = 2 \/ d = 3 \/ d = 4 \/ d = 5 \/ d = 6 \/ d = 7 \/
  d = 8 \/ d = 9 \/ d = 10 \/ d = 11 \/ d = 12 \/ d = 13 \/ d = 14 \/ d = 15.
Proof. lia. Qed.

Ltac by_nibble H :=
  apply nibble_cases in H;
  repeat (destruct H as [H | H]); subst; repeat split.

Lemma hex_upper_spec d :
  0 <= d < 16 ->
  is_hex (hex_upper d) = true /\ hex_val (hex_upper d) = d /\
  (hex_upper d =? 117) = false.
Proof. intros H. by_nibble H. Qed.

Lemma hex_lower_spec d :
  0 <= d < 16 ->
  is_hex (hex_lower d) = true /\ hex_val (hex_lower d) = d.
Proof. intros H. by_nibble H. Qed.

End Hex.

Section JSONStrings.
Import JSON Codec.

Lemma parse_chars_raw c t :
  32 <= c -> c <> 34 -> c <> 92 ->
  parse_chars (c :: t) = then_cons c (parse_chars t).
Proof.
  intros H1 H2 H3. cbn [parse_chars].
  destruct (Z.eqb_spec c 34); [lia|].
  destruct (Z.eqb_spec c 92); [lia|].
  destruct (Z.ltb_spec c 32); [lia|]. reflexivity.
Qed.

Lemma hex4_digits (c : Z) :
  0 <= c < 65536 ->
  (c / 4096) * 4096 + (c / 256 mod 16) * 256 + (c / 16 mod 16) * 16 + c mod 16 = c.
Proof. intros H. Z.div_mod_to_equations. lia. Qed.

Lemma parse_chars_unicode_escape c t :
  0 <= c < 65536 ->
  parse_chars (UnicodeEscape c ++ t) = then_cons c (parse_chars t).
Proof.
  intros H. unfold UnicodeEscape. cbn [app parse_chars].
  change (92 =? 34) with false. change (92 =? 92) with true.
  change (117 =? 117) with true. cbv iota.
  assert (H1 : 0 <= c / 4096 < 16) by (Z.div_mod_to_equations; lia).
  assert (H2 : 0 <= c / 256 mod 16 < 16) by (apply Z.mod_pos_bound; lia).
  assert (H3 : 0 <= c / 16 mod 16 < 16) by (apply Z.mod_pos_bound; lia).
  assert (H4 : 0 <= c mod 16 < 16) by (apply Z.mod_pos_bound; lia).
  destruct (hex_lower_spec _ H1) as [-> E1].
  destruct (hex_lower_spec _ H2) as [-> E2].
  destruct (hex_lower_spec _ H3) as [-> E3].
  destruct (hex_lower_spec _ H4) as [-> E4].
  cbn [andb]. unfold hex4. rewrite E1, E2, E3, E4, hex4_digits by exact H.
  reflexivity.
Qed.

Lemma parse_chars_quote_unit c t :
  0 <= c < 65536 ->
  parse_chars (quote_unit c ++ t) = then_cons c (parse_chars t).
Proof.
  intros H. unfold quote_unit.
  destruct (Z.eqb_spec c 8) as [->|]; [reflexivity|].
  destruct (Z.eqb_spec c 9) as [->|]; [reflexivity|].
  destruct (Z.eqb_spec c 10) as [->|]; [reflexivity|].
  destruct (Z.eqb_spec c 12) as [->|]; [reflexivity|].
  destruct (Z.eqb_spec c 13) as [->|]; [reflexivity|].
  destruct (Z.eqb_spec c 34) as [->|]; [reflexivity|].
  destruct (Z.eqb_spec c 92) as [->|]; [reflexivity|].
  destruct ((c <? 32) || is_high_surrogate c || is_low_surrogate c) eqn:E.
  - apply parse_chars_unicode_escape. exact H.
  - apply orb_false_iff in E as [E _]. apply orb_false_iff in E as [E _].
    apply Z.ltb_ge in E. apply parse_chars_raw; assumption.
Qed.

Lemma surrogate_raw c :
  is_high_surrogate c = true \/ is_low_surrogate c = true ->
  32 <= c /\ c <> 34 /\ c <> 92.
Proof.
  unfold is_high_surrogate, is_low_surrogate. intros [H|H];
    apply andb_true_iff in H as [H1 H2];
    apply Z.leb_le in H1; apply Z.leb_le in H2; lia.
Qed.

Lemma parse_quote_chars_bounded (n : nat) : forall s rest,
  (length s <= n)%nat -> wf_string s ->
  parse_chars (quote_chars s ++ 34 :: rest) = Ret (s, rest).
Proof.
  induction n as [|n IH]; intros s rest Hlen Hwf.
  - destruct s; [reflexivity|simpl in Hlen; lia].
  - destruct s as [|c r]; [reflexivity|].
    apply Forall_cons in Hwf as [Hc Hr]. simpl in Hlen.
    assert (Hone : parse_chars ((quote_unit c ++ quote_chars r) ++ 34 :: rest)
                   = Ret (c :: r, rest)).
    { rewrite <- app_assoc, parse_chars_quote_unit by exact Hc.
      rewrite IH by (assumption || lia). reflexivity. }
    cbn [quote_chars]. destruct (is_high_surrogate c) eqn:Eh; [|exact Hone].
    destruct r as [|d r'];
      [cbn [quote_chars] in Hone; rewrite app_nil_r in Hone; exact Hone|].
    destruct (is_low_surrogate d) eqn:El; [|exact Hone].
    apply Forall_cons in Hr as [Hd Hr']. simpl in Hlen.
    destruct (surrogate_raw c (or_introl Eh)) as (? & ? & ?).
    destruct (surrogate_raw d (or_intror El)) as (? & ? & ?).
    cbn [app]. rewrite !parse_chars_raw by assumption.
    rewrite IH by (assumption || lia). reflexivity.
Qed.

Lemma parse_quote_chars s rest :
  wf_string s ->
  parse_chars (quote_chars s ++ 34 :: rest) = Ret (s, rest).
Proof. apply (parse_quote_chars_bounded (length s)). lia. Qed.

End JSONStrings.

(** Decide the integer comparisons of the goal, pruning impossible cases. *)
Ltac zcases :=
  repeat (match goal with
          | |- context [?a <=? ?b] => destruct (Z.leb_spec a b)
          | |- context [?a <? ?b] => destruct (Z.ltb_spec a b)
          | |- context [?a =? ?b] => destruct (Z.eqb_spec a b)
          end; try lia);
  cbn [andb orb negb]; try reflexivity; try lia.

Section UTF8.
Import JSON URI Codec.

Lemma uri_unreserved_ascii b : uri_unreserved b = true -> 0 <= b < 128 /\ b <> 37.
Proof.
  unfold uri_unreserved, is_alpha, is_digit. intros H.
  destruct (Z.ltb_spec b 128) as [Hlt|Hge].
  - destruct (Z.ltb_spec b 33); [revert H; zcases; try discriminate|].
    destruct (Z.eqb_spec b 37) as [->|]; [discriminate|]. lia.
  - revert H. zcases; try discriminate.
Qed.

Lemma high_not_unreserved b : 128 <= b -> uri_unreserved b = false.
Proof.
  intros H. destruct (uri_unreserved b) eqn:E; [|reflexivity].
  apply uri_unreserved_ascii in E. lia.
Qed.

Lemma utf8_octets_bytes cp :
  0 <= cp < 1114112 -> Forall is_byte (utf8_octets cp).
Proof.
  intros H. unfold utf8_octets, is_byte.
  destruct (Z.ltb_spec cp 128); [repeat constructor; lia|].
  destruct (Z.ltb_spec cp 2048);
    [repeat constructor; Z.div_mod_to_equations; lia|].
  destruct (Z.ltb_spec cp 65536);
    repeat constructor; Z.div_mod_to_equations; lia.
Qed.

Lemma utf8_octets_high cp :
  128 <= cp -> Forall (fun b => 128 <= b) (utf8_octets cp).
Proof.
  intros H. unfold utf8_octets.
  destruct (Z.ltb_spec cp 128); [lia|].
  destruct (Z.ltb_spec cp 2048);
    [repeat constructor; Z.div_mod_to_equations; lia|].
  destruct (Z.ltb_spec cp 65536);
    repeat constructor; Z.div_mod_to_equations; lia.
Qed.

Lemma flat_map_uri_byte_high bs :
  Forall (fun b => 128 <= b) bs -> flat_map uri_byte bs = flat_map pct bs.
Proof.
  induction 1 as [|b bs Hb _ IH]; [reflexivity|].
  cbn [flat_map]. rewrite IH. unfold uri_byte.
  rewrite high_not_unreserved by exact Hb. reflexivity.
Qed.

Lemma surrogate_range c d :
  is_high_surrogate c = true -> is_low_surrogate d = true ->
  65536 <= code_point_of_pair c d < 1114112 /\
  55296 <= c <= 56319 /\ 56320 <= d <= 57343.
Proof.
  unfold is_high_surrogate, is_low_surrogate, code_point_of_pair.
  intros H1 H2.
  apply andb_true_iff in H1 as [H1 H1']. apply andb_true_iff in H2 as [H2 H2'].
  apply Z.leb_le in H1, H1', H2, H2'. lia.
Qed.

Lemma not_surrogate_range c :
  is_high_surrogate c = false -> is_low_surrogate c = false ->
  c < 55296 \/ 57343 < c.
Proof.
  unfold is_high_surrogate, is_low_surrogate. intros H1 H2.
  apply andb_false_iff in H1. apply andb_false_iff in H2.
  rewrite !Z.leb_gt in H1, H2. lia.
Qed.

(** What [Encode] appends for a code point outside the surrogate range. *)
Lemma encode_unit c :
  0 <= c ->
  (if uri_unreserved c then [c] else flat_map pct (utf8_octets c))
  = flat_map uri_byte (utf8_octets c).
Proof.
  intros Hc. destruct (uri_unreserved c) eqn:E.
  - pose proof (uri_unreserved_ascii _ E) as [Hr _]. unfold utf8_octets.
    destruct (Z.ltb_spec c 128); [|lia]. cbn [flat_map]. unfold uri_byte.
    rewrite E. reflexivity.
  - destruct (Z.ltb_spec c 128) as [Hlt|Hge].
    + unfold utf8_octets. destruct (Z.ltb_spec c 128); [|lia].
      cbn [flat_map]. unfold uri_byte. rewrite E. reflexivity.
    + symmetry. apply flat_map_uri_byte_high, utf8_octets_high. exact Hge.
Qed.

Lemma Encode_utf8_bounded (n : nat) : forall s bs,
  (length s <= n)%nat -> wf_string s -> utf8_of s = Some bs ->
  Encode s = Ret (flat_map uri_byte bs).
Proof.
  induction n as [|n IH]; intros s bs Hlen Hwf Hu.
  - destruct s; [|simpl in Hlen; lia]. injection Hu as <-. reflexivity.
  - destruct s as [|c r]; [injection Hu as <-; reflexivity|].
    apply Forall_cons in Hwf as [Hc Hr]. simpl in Hlen.
    cbn [utf8_of] in Hu. cbn [Encode].
    destruct (is_high_surrogate c) eqn:Eh.
    + destruct r as [|d r']; [discriminate|].
      destruct (is_low_surrogate d) eqn:El; [|discriminate].
      destruct (utf8_of r') as [bs'|] eqn:Eu; [|discriminate].
      injection Hu as <-.
      apply Forall_cons in Hr as [Hd Hr']. simpl in Hlen.
      destruct (surrogate_range c d Eh El) as (Hcp & Hcr & _).
      rewrite high_not_unreserved by lia.
      assert (is_low_surrogate c = false) as ->.
      { unfold is_low_surrogate. zcases. }
      rewrite (IH r' bs') by (assumption || lia).
      rewrite flat_map_app.
      rewrite (flat_map_uri_byte_high (utf8_octets (code_point_of_pair c d)))
        by (apply utf8_octets_high; lia).
      reflexivity.
    + destruct (is_low_surrogate c) eqn:El; [discriminate|].
      destruct (utf8_of r) as [bs'|] eqn:Eu; [|discriminate].
      injection Hu as <-.
      rewrite (IH r bs') by (assumption || lia).
      rewrite flat_map_app, <- encode_unit by (destruct Hc; assumption).
      destruct (uri_unreserved c); reflexivity.
Qed.

Lemma Encode_utf8 s bs :
  wf_string s -> utf8_of s = Some bs -> Encode s = Ret (flat_map uri_byte bs).
Proof. apply (Encode_utf8_bounded (length s)). lia. Qed.

Lemma utf8_of_bytes_bounded (n : nat) : forall s bs,
  (length s <= n)%nat -> wf_string s -> utf8_of s = Some bs -> Forall is_byte bs.
Proof.
  induction n as [|n IH]; intros s bs Hlen Hwf Hu.
  - destruct s; [|simpl in Hlen; lia]. injection Hu as <-. constructor.
  - destruct s as [|c r]; [injection Hu as <-; constructor|].
    apply Forall_cons in Hwf as [Hc Hr]. simpl in Hlen.
    cbn [utf8_of] in Hu.
    destruct (is_high_surrogate c) eqn:Eh.
    + destruct r as [|d r']; [discriminate|].
      destruct (is_low_surrogate d) eqn:El; [|discriminate].
      destruct (utf8_of r') as [bs'|] eqn:Eu; [|discriminate].
      injection Hu as <-.
      apply Forall_cons in Hr as [Hd Hr']. simpl in Hlen.
      destruct (surrogate_range c d Eh El) as (Hcp & _).
      apply Forall_app. split; [apply utf8_octets_bytes; lia|].
      apply (IH r'); assumption || lia.
    + destruct (is_low_surrogate c) eqn:El; [discriminate|].
      destruct (utf8_of r) as [bs'|] eqn:Eu; [|discriminate].
      injection Hu as <-.
      apply Forall_app. split.
      * apply utf8_octets_bytes. unfold is_code_unit in Hc. lia.
      * apply (IH r); assumption || lia.
Qed.

Lemma utf8_of_bytes s bs :
  wf_string s -> utf8_of s = Some bs -> Forall is_byte bs.
Proof. apply (utf8_of_bytes_bounded (length s)). lia. Qed.

(** [unescape] undoes the percent-escapes that [Encode] produced. *)
Lemma unescape_uri_bytes bs :
  Forall is_byte bs -> unescape (flat_map uri_byte bs) = bs.
Proof.
  induction 1 as [|b bs Hb _ IH]; [reflexivity|].
  cbn [flat_map]. unfold uri_byte at 1.
  destruct (uri_unreserved b) eqn:E.
  - apply uri_unreserved_ascii in E as [_ E].
    cbn [app unescape]. destruct (Z.eqb_spec b 37); [lia|]. rewrite IH. reflexivity.
  - unfold pct. cbn [app unescape]. change (37 =? 37) with true. cbv iota.
    assert (H1 : 0 <= b / 16 < 16) by (unfold is_byte in Hb; Z.div_mod_to_equations; lia).
    assert (H2 : 0 <= b mod 16 < 16) by (apply Z.mod_pos_bound; lia).
    destruct (hex_upper_spec _ H1) as (-> & -> & ->).
    destruct (hex_upper_spec _ H2) as (-> & -> & _).
    cbn [andb]. rewrite IH. f_equal. Z.div_mod_to_equations. lia.
Qed.


Lemma pct_hex b :
  is_byte b ->
  is_hex (hex_upper (b / 16)) && is_hex (hex_upper (b mod 16)) = true /\
  hex_val (hex_upper (b / 16)) * 16 + hex_val (hex_upper (b mod 16)) = b.
Proof.
  intros Hb. unfold is_byte in Hb.
  assert (H1 : 0 <= b / 16 < 16) by (Z.div_mod_to_equations; lia).
  assert (H2 : 0 <= b mod 16 < 16) by (apply Z.mod_pos_bound; lia).
  destruct (hex_upper_spec _ H1) as (-> & -> & _).
  destruct (hex_upper_spec _ H2) as (-> & -> & _).
  split; [reflexivity|]. Z.div_mod_to_equations. lia.
Qed.

Lemma Decode_pct_idle b t :
  is_byte b ->
  Decode_from Idle (pct b ++ t) =
    if b <? 128 then then_app [b] (Decode_from Idle t)
    else if b <? 192 then Throw URIError
    else if b <? 224 then Decode_from (Pending 2 0 (b - 192)) t
    else if b <? 240 then Decode_from (Pending 3 1 (b - 224)) t
    else if b <? 248 then Decode_from (Pending 4 2 (b - 240)) t
    else Throw URIError.
Proof.
  intros Hb. destruct (pct_hex b Hb) as [Hh Hv].
  unfold pct. cbn [app Decode_from]. change (37 =? 37) with true. cbv iota.
  rewrite Hh, Hv. reflexivity.
Qed.

Lemma Decode_pct_pending len more acc b t :
  is_byte b ->
  Decode_from (Pending len more acc) (pct b ++ t) =
    if (128 <=? b) && (b <? 192) then
      match more with
      | S m => Decode_from (Pending len m (acc * 64 + (b - 128))) t
      | O => if utf8_valid len (acc * 64 + (b - 128))
             then then_app (utf16_units (acc * 64 + (b - 128))) (Decode_from Idle t)
             else Throw URIError
      end
    else Throw URIError.
Proof.
  intros Hb. destruct (pct_hex b Hb) as [Hh Hv].
  unfold pct. cbn [app Decode_from]. change (37 =? 37) with true.
  cbn [andb]. rewrite Hh, Hv. reflexivity.
Qed.

Lemma escape_unreserved_ascii b :
  escape_unreserved b = true -> 0 <= b < 128 /\ b <> 37.
Proof.
  unfold escape_unreserved, is_alpha, is_digit. intros H.
  destruct (Z.ltb_spec b 128) as [Hlt|Hge].
  - destruct (Z.ltb_spec b 42); [revert H; zcases; try discriminate|].
    lia.
  - revert H. zcases; try discriminate.
Qed.

Lemma escape_unit_high b :
  is_byte b -> 128 <= b -> escape_unit b = pct b.
Proof.
  intros Hb H. unfold escape_unit.
  destruct (escape_unreserved b) eqn:E.
  - apply escape_unreserved_ascii in E. lia.
  - unfold is_byte in Hb. destruct (Z.ltb_spec b 256); [reflexivity|lia].
Qed.

Lemma Decode_ascii b t :
  0 <= b < 128 ->
  Decode_from Idle (escape_unit b ++ t) = then_app [b] (Decode_from Idle t).
Proof.
  intros Hb. unfold escape_unit.
  destruct (escape_unreserved b) eqn:E.
  - apply escape_unreserved_ascii in E as [_ E].
    cbn [app Decode_from]. destruct (Z.eqb_spec b 37); [lia|]. reflexivity.
  - destruct (Z.ltb_spec b 256); [|lia].
    rewrite Decode_pct_idle by (unfold is_byte; lia).
    destruct (Z.ltb_spec b 128); [reflexivity|lia].
Qed.

(** Decoding the escaped octets of one code point gives back its UTF-16
    code units. *)
Lemma Decode_code_point cp t :
  0 <= cp < 55296 \/ 57343 < cp < 1114112 ->
  Decode_from Idle (escape (utf8_octets cp) ++ t)
  = then_app (utf16_units cp) (Decode_from Idle t).
Proof.
  intros Hcp. unfold escape, utf8_octets.
  destruct (Z.ltb_spec cp 128) as [|H1].
  { cbn [flat_map]. rewrite app_nil_r, Decode_ascii by lia.
    unfold utf16_units. destruct (Z.ltb_spec cp 65536); [reflexivity|lia]. }
  destruct (Z.ltb_spec cp 2048) as [|H2].
  { assert (Hq : 2 <= cp / 64 < 32) by (Z.div_mod_to_equations; lia).
    assert (Hr : 0 <= cp mod 64 < 64) by (apply Z.mod_pos_bound; lia).
    cbn [flat_map]. rewrite app_nil_r.
    rewrite !escape_unit_high by (unfold is_byte; lia).
    rewrite <- app_assoc, Decode_pct_idle by (unfold is_byte; lia).
    destruct (Z.ltb_spec (192 + cp / 64) 128); [lia|].
    destruct (Z.ltb_spec (192 + cp / 64) 192); [lia|].
    destruct (Z.ltb_spec (192 + cp / 64) 224); [|lia].
    rewrite Decode_pct_pending by (unfold is_byte; lia).
    destruct (Z.leb_spec 128 (128 + cp mod 64)); [|lia].
    destruct (Z.ltb_spec (128 + cp mod 64) 192); [|lia].
    cbn [andb].
    replace ((192 + cp / 64 - 192) * 64 + (128 + cp mod 64 - 128)) with cp
      by (Z.div_mod_to_equations; lia).
    unfold utf8_valid. cbn [Z.eqb Pos.eqb].
    destruct (Z.leb_spec 128 cp); [|lia]. reflexivity. }
  destruct (Z.ltb_spec cp 65536) as [|H3].
  { assert (Hq : 0 <= cp / 4096 < 16) by (Z.div_mod_to_equations; lia).
    assert (Hm : 0 <= cp / 64 mod 64 < 64) by (apply Z.mod_pos_bound; lia).
    assert (Hr : 0 <= cp mod 64 < 64) by (apply Z.mod_pos_bound; lia).
    cbn [flat_map]. rewrite app_nil_r.
    rewrite !escape_unit_high by (unfold is_byte; lia).
    rewrite <- !app_assoc, Decode_pct_idle by (unfold is_byte; lia).
    destruct (Z.ltb_spec (224 + cp / 4096) 128); [lia|].
    destruct (Z.ltb_spec (224 + cp / 4096) 192); [lia|].
    destruct (Z.ltb_spec (224 + cp / 4096) 224); [lia|].
    destruct (Z.ltb_spec (224 + cp / 4096) 240); [|lia].
    rewrite Decode_pct_pending by (unfold is_byte; lia).
    destruct (Z.leb_spec 128 (128 + cp / 64 mod 64)); [|lia].
    destruct (Z.ltb_spec (128 + cp / 64 mod 64) 192); [|lia].
    cbn [andb].
    rewrite Decode_pct_pending by (unfold is_byte; lia).
    destruct (Z.leb_spec 128 (128 + cp mod 64)); [|lia].
    destruct (Z.ltb_spec (128 + cp mod 64) 192); [|lia].
    cbn [andb].
    replace (((224 + cp / 4096 - 224) * 64 + (128 + cp / 64 mod 64 - 128)) * 64
             + (128 + cp mod 64 - 128)) with cp
      by (Z.div_mod_to_equations; lia).
    unfold utf8_valid. cbn [Z.eqb Pos.eqb].
    destruct (Z.leb_spec 2048 cp); [|lia].
    assert (((55296 <=? cp) && (cp <=? 57343)) = false) as ->.
    { apply andb_false_iff. rewrite !Z.leb_gt. lia. }
    cbn [andb negb]. reflexivity. }
  assert (Hq : 0 <= cp / 262144 < 5) by (Z.div_mod_to_equations; lia).
  assert (Hn : 0 <= cp / 4096 mod 64 < 64) by (apply Z.mod_pos_bound; lia).
  assert (Hm : 0 <= cp / 64 mod 64 < 64) by (apply Z.mod_pos_bound; lia).
  assert (Hr : 0 <= cp mod 64 < 64) by (apply Z.mod_pos_bound; lia).
  cbn [flat_map]. rewrite app_nil_r.
  rewrite !escape_unit_high by (unfold is_byte; lia).
  rewrite <- !app_assoc, Decode_pct_idle by (unfold is_byte; lia).
  destruct (Z.ltb_spec (240 + cp / 262144) 128); [lia|].
  destruct (Z.ltb_spec (240 + cp / 262144) 192); [lia|].
  destruct (Z.ltb_spec (240 + cp / 262144) 224); [lia|].
  destruct (Z.ltb_spec (240 + cp / 262144) 240); [lia|].
  destruct (Z.ltb_spec (240 + cp / 262144) 248); [|lia].
  rewrite Decode_pct_pending by (unfold is_byte; lia).
  destruct (Z.leb_spec 128 (128 + cp / 4096 mod 64)); [|lia].
  destruct (Z.ltb_spec (128 + cp / 4096 mod 64) 192); [|lia].
  cbn [andb].
  rewrite Decode_pct_pending by (unfold is_byte; lia).
  destruct (Z.leb_spec 128 (128 + cp / 64 mod 64)); [|lia].
  destruct (Z.ltb_spec (128 + cp / 64 mod 64) 192); [|lia].
  cbn [andb].
  rewrite Decode_pct_pending by (unfold is_byte; lia).
  destruct (Z.leb_spec 128 (128 + cp mod 64)); [|lia].
  destruct (Z.ltb_spec (128 + cp mod 64) 192); [|lia].
  cbn [andb].
  replace ((((240 + cp / 262144 - 240) * 64 + (128 + cp / 4096 mod 64 - 128)) * 64
            + (128 + cp / 64 mod 64 - 128)) * 64 + (128 + cp mod 64 - 128)) with cp
    by (Z.div_mod_to_equations; lia).
  unfold utf8_valid. cbn [Z.eqb Pos.eqb].
  destruct (Z.leb_spec 65536 cp); [|lia].
  destruct (Z.leb_spec cp 1114111); [|lia]. reflexivity.
Qed.

Lemma utf16_units_pair c d :
  is_high_surrogate c = true -> is_low_surrogate d = true ->
  utf16_units (code_point_of_pair c d) = [c; d].
Proof.
  intros Hc Hd. destruct (surrogate_range c d Hc Hd) as (Hcp & Hcr & Hdr).
  unfold utf16_units. destruct (Z.ltb_spec (code_point_of_pair c d) 65536); [lia|].
  unfold code_point_of_pair. f_equal; [|f_equal];
    Z.div_mod_to_equations; lia.
Qed.

Lemma Decode_escape_utf8_bounded (n : nat) : forall s bs,
  (length s <= n)%nat -> wf_string s -> utf8_of s = Some bs ->
  Decode_from Idle (escape bs) = Ret s.
Proof.
  induction n as [|n IH]; intros s bs Hlen Hwf Hu.
  - destruct s; [|simpl in Hlen; lia]. injection Hu as <-. reflexivity.
  - destruct s as [|c r]; [injection Hu as <-; reflexivity|].
    apply Forall_cons in Hwf as [Hc Hr]. simpl in Hlen.
    cbn [utf8_of] in Hu.
    destruct (is_high_surrogate c) eqn:Eh.
    + destruct r as [|d r']; [discriminate|].
      destruct (is_low_surrogate d) eqn:El; [|discriminate].
      destruct (utf8_of r') as [bs'|] eqn:Eu; [|discriminate].
      injection Hu as <-.
      apply Forall_cons in Hr as [Hd Hr']. simpl in Hlen.
      destruct (surrogate_range c d Eh El) as (Hcp & _).
      unfold escape. rewrite flat_map_app.
      change (flat_map escape_unit) with escape.
      rewrite Decode_code_point by lia.
      rewrite (IH r' bs') by (assumption || lia).
      rewrite utf16_units_pair by assumption. reflexivity.
    + destruct (is_low_surrogate c) eqn:El; [discriminate|].
      destruct (utf8_of r) as [bs'|] eqn:Eu; [|discriminate].
      injection Hu as <-.
      unfold escape. rewrite flat_map_app.
      change (flat_map escape_unit) with escape.
      pose proof (not_surrogate_range c Eh El).
      unfold is_code_unit in Hc.
      rewrite Decode_code_point by lia.
      rewrite (IH r bs') by (assumption || lia).
      unfold utf16_units. destruct (Z.ltb_spec c 65536); [reflexivity|lia].
Qed.

Lemma Decode_escape_utf8 s bs :
  wf_string s -> utf8_of s = Some bs ->
  decodeURIComponent (escape bs) = Ret s.
Proof. apply (Decode_escape_utf8_bounded (length s)). lia. Qed.

End UTF8.

Section Base64Facts.
Import Base64 Codec.

Lemma list_ind3 {A} (P : list A -> Prop) :
  P [] -> (forall a, P [a]) -> (forall a b, P [a; b]) ->
  (forall a b c r, P r -> P (a :: b :: c :: r)) ->
  forall l, P l.
Proof.
  intros H0 H1 H2 H3.
  assert (H : forall l, P l /\ (forall a, P (a :: l)) /\ (forall a b, P (a :: b :: l))).
  { induction l as [|x l (IH0 & IH1 & IH2)]; [auto|].
    split; [apply IH1|]. split; [intros a; apply IH2|]. intros a b. apply H3, IH0. }
  intros l. apply H.
Qed.

Lemma b64_char_spec v :
  0 <= v < 64 ->
  b64_val (b64_char v) = Some v /\ b64_char v <> 61 /\
  is_ascii_ws (b64_char v) = false.
Proof.
  intros Hv. unfold b64_char.
  destruct (Z.ltb_spec v 26).
  { unfold b64_val, is_ascii_ws. repeat split; zcases. f_equal; lia. }
  destruct (Z.ltb_spec v 52).
  { unfold b64_val, is_ascii_ws. repeat split; zcases. f_equal; lia. }
  destruct (Z.ltb_spec v 62).
  { unfold b64_val, is_ascii_ws, is_digit. repeat split; zcases. f_equal; lia. }
  destruct (Z.eqb_spec v 62) as [->|]; [repeat split; discriminate|].
  assert (v = 63) as -> by lia. repeat split; discriminate.
Qed.

Lemma b64_encode_split l : b64_encode l = b64_body l ++ b64_pad l.
Proof.
  induction l as [| | |a b c r IH] using list_ind3; try reflexivity.
  cbn [b64_encode b64_body b64_pad app]. rewrite IH. reflexivity.
Qed.

Lemma b64_pad_cases l : b64_pad l = [] \/ b64_pad l = [61] \/ b64_pad l = [61; 61].
Proof. induction l using list_ind3; cbn [b64_pad]; auto. Qed.

Lemma b64_encode_length l : Z.of_nat (length (b64_encode l)) mod 4 = 0.
Proof.
  induction l as [| | |a b c r IH] using list_ind3; try reflexivity.
  cbn [b64_encode length]. rewrite !Nat2Z.inj_succ.
  revert IH. generalize (Z.of_nat (length (b64_encode r))). intros z Hz.
  Z.div_mod_to_equations. lia.
Qed.

Ltac sextets :=
  repeat match goal with
  | H : is_byte _ |- _ => unfold is_byte in H
  end;
  Z.div_mod_to_equations; lia.

Lemma b64_body_chars l :
  Forall is_byte l ->
  Forall (fun c => c <> 61 /\ is_ascii_ws c = false) (b64_body l).
Proof.
  induction l as [|a|a b|a b c r IH] using list_ind3; intros H.
  - constructor.
  - apply Forall_cons in H as [Ha _]. cbn [b64_body].
    repeat constructor; apply b64_char_spec; sextets.
  - apply Forall_cons in H as [Ha H]. apply Forall_cons in H as [Hb _].
    cbn [b64_body]. repeat constructor; apply b64_char_spec; sextets.
  - apply Forall_cons in H as [Ha H]. apply Forall_cons in H as [Hb H].
    apply Forall_cons in H as [Hc H]. cbn [b64_body].
    repeat (constructor; [split; apply b64_char_spec; sextets|]).
    apply IH, H.
Qed.

Lemma b64_decode_body l :
  Forall is_byte l -> b64_decode (b64_body l) = Some l.
Proof.
  induction l as [|a|a b|a b c r IH] using list_ind3; intros H.
  - reflexivity.
  - apply Forall_cons in H as [Ha _]. cbn [b64_body b64_decode].
    destruct (b64_char_spec (a / 4)) as (-> & _); [sextets|].
    destruct (b64_char_spec (a mod 4 * 16)) as (-> & _); [sextets|].
    cbn. do 2 f_equal. sextets.
  - apply Forall_cons in H as [Ha H]. apply Forall_cons in H as [Hb _].
    cbn [b64_body b64_decode].
    destruct (b64_char_spec (a / 4)) as (-> & _); [sextets|].
    destruct (b64_char_spec (a mod 4 * 16 + b / 16)) as (-> & _); [sextets|].
    destruct (b64_char_spec (b mod 16 * 4)) as (-> & _); [sextets|].
    cbn. f_equal. f_equal; [|f_equal]; sextets.
  - apply Forall_cons in H as [Ha H]. apply Forall_cons in H as [Hb H].
    apply Forall_cons in H as [Hc H]. cbn [b64_body b64_decode].
    destruct (b64_char_spec (a / 4)) as (-> & _); [sextets|].
    destruct (b64_char_spec (a mod 4 * 16 + b / 16)) as (-> & _); [sextets|].
    destruct (b64_char_spec (b mod 16 * 4 + c / 64)) as (-> & _); [sextets|].
    destruct (b64_char_spec (c mod 64)) as (-> & _); [sextets|].
    rewrite (IH H). cbn. f_equal. f_equal; [|f_equal; [|f_equal]]; sextets.
Qed.

Lemma strip_padding_body body pad :
  Forall (fun c => c <> 61) body ->
  pad = [] \/ pad = [61] \/ pad = [61; 61] ->
  Z.of_nat (length (body ++ pad)) mod 4 = 0 ->
  strip_padding (body ++ pad) = body.
Proof.
  intros Hb Hp Hl. unfold strip_padding. rewrite Hl. cbn [Z.eqb].
  rewrite rev_app_distr.
  assert (Hlast : forall q r', rev body = q :: r' -> (q =? 61) = false).
  { intros q r' E. apply Z.eqb_neq.
    rewrite Forall_forall in Hb. apply Hb.
    apply list_elem_of_In, in_rev. rewrite E. left. reflexivity. }
  destruct Hp as [->|[->| ->]]; cbn [rev app].
  - rewrite app_nil_r. destruct (rev body) as [|q r'] eqn:E; [reflexivity|].
    rewrite (Hlast q r' eq_refl). reflexivity.
  - change (61 =? 61) with true. cbv iota.
    destruct (rev body) as [|q r'] eqn:E.
    + apply (f_equal (@rev Z)) in E. rewrite rev_involutive in E. subst. reflexivity.
    + rewrite (Hlast q r' eq_refl). rewrite <- E. apply rev_involutive.
  - change (61 =? 61) with true. cbv iota. apply rev_involutive.
Qed.

Lemma filter_all {A} (f : A -> bool) l :
  Forall (fun x => f x = true) l -> List.filter f l = l.
Proof.
  induction 1 as [|x l Hx _ IH]; [reflexivity|].
  cbn [List.filter]. rewrite Hx, IH. reflexivity.
Qed.

(** [atob] undoes [btoa] on octets. *)
Lemma atob_btoa (l : list Z) :
  Forall is_byte l ->
  exists code, btoa l = Ret code /\ atob code = Ret l.
Proof.
  intros H. exists (b64_encode l). split.
  - unfold btoa. rewrite (proj2 (forallb_forall _ _)); [reflexivity|].
    intros b Hb. rewrite Forall_forall in H.
    apply list_elem_of_In, H in Hb. unfold is_byte in Hb. apply Z.ltb_lt. lia.
  - unfold atob. pose proof (b64_body_chars l H) as Hc.
    rewrite filter_all.
    + pose proof (b64_encode_length l) as Hl. rewrite b64_encode_split in *.
      rewrite strip_padding_body; [|eapply Forall_impl; [exact Hc|]|apply b64_pad_cases|exact Hl].
      * rewrite b64_decode_body by exact H. reflexivity.
      * intros c [Hne _]. exact Hne.
    + rewrite b64_encode_split. apply Forall_app. split.
      * eapply Forall_impl; [exact Hc|]. intros c [_ ->]. reflexivity.
      * destruct (b64_pad_cases l) as [->|[->| ->]]; repeat constructor.
Qed.

End Base64Facts.

Section RoundTrip.
Import JSON URI Base64 Utils Codec.

Lemma quote_chars_type : quote_chars (js "type") = js "type".
Proof. reflexivity. Qed.

Lemma quote_chars_sdp : quote_chars (js "sdp") = js "sdp".
Proof. reflexivity. Qed.

Lemma stringify_descriptor t s :
  JSON.stringify (VObj [(js "type", VStr t); (js "sdp", VStr s)])
  = Ret (Some (descriptor_text t s)).
Proof.
  unfold JSON.stringify, descriptor_text.
  cbn [serialize mbind result_bind join_comma flat_map].
  unfold QuoteJSONString. rewrite quote_chars_type, quote_chars_sdp.
  do 2 f_equal. rewrite app_nil_r.
  repeat (rewrite <- app_assoc || rewrite <- app_comm_cons). 
  cbn [app]. reflexivity.
Qed.

Lemma parse_value_eq f s :
  parse_value (S f) s =
    match skip_ws s with
    | [] => Throw SyntaxError
    | c :: r =>
        if c =? 123 then
          match skip_ws r with
          | d :: r' => if d =? 125 then Ret (VObj [], r')
                       else parse_members f (d :: r') []
          | [] => Throw SyntaxError
          end
        else if c =? 91 then
          match skip_ws r with
          | d :: r' => if d =? 93 then Ret (VArr [], r')
                       else parse_elements f (d :: r') []
          | [] => Throw SyntaxError
          end
        else if c =? 34 then
          '(str, rest) ← parse_chars r; Ret (VStr str, rest)
        else if (c =? 45) || is_digit c then parse_number (c :: r)
        else parse_keyword (c :: r)
    end.
Proof. reflexivity. Qed.

Lemma parse_members_eq f s acc :
  parse_members (S f) s acc =
    match skip_ws s with
    | q :: r =>
        if q =? 34 then
          '(k, r1) ← parse_chars r;
          match skip_ws r1 with
          | d :: r2 =>
              if d =? 58 then
                '(v, r3) ← parse_value f r2;
                match skip_ws r3 with
                | e :: r4 =>
                    if e =? 44 then parse_members f r4 (obj_define k v acc)
                    else if e =? 125 then Ret (VObj (obj_define k v acc), r4)
                    else Throw SyntaxError
                | [] => Throw SyntaxError
                end
              else Throw SyntaxError
          | [] => Throw SyntaxError
          end
        else Throw SyntaxError
    | [] => Throw SyntaxError
    end.
Proof. reflexivity. Qed.

Lemma skip_ws_keep c r : is_ws c = false -> skip_ws (c :: r) = c :: r.
Proof. intros H. cbn [skip_ws]. rewrite H. reflexivity. Qed.

(** A string literal is read back as the string it quotes. *)
Lemma parse_value_string f s rest :
  wf_string s ->
  parse_value (S f) (34 :: quote_chars s ++ 34 :: rest) = Ret (VStr s, rest).
Proof.
  intros Hs. rewrite parse_value_eq, skip_ws_keep by reflexivity.
  change (34 =? 123) with false. change (34 =? 91) with false.
  change (34 =? 34) with true. cbv iota.
  rewrite parse_quote_chars by exact Hs. reflexivity.
Qed.

(** One member [key : string-literal] of an object, up to the character
    [e] that follows it. *)
Lemma parse_member_string f k s e rest acc :
  wf_string k -> wf_string s -> is_ws e = false ->
  parse_members (S (S f))
    (34 :: quote_chars k ++ 34 :: 58 :: 34 :: quote_chars s ++ 34 :: e :: rest) acc
  = if e =? 44 then parse_members (S f) rest (obj_define k (VStr s) acc)
    else if e =? 125 then Ret (VObj (obj_define k (VStr s) acc), rest)
    else Throw SyntaxError.
Proof.
  intros Hk Hs He. rewrite parse_members_eq, skip_ws_keep by reflexivity.
  change (34 =? 34) with true. cbv iota.
  rewrite parse_quote_chars by exact Hk.
  cbn [mbind result_bind]. rewrite skip_ws_keep by reflexivity.
  change (58 =? 58) with true. cbv iota.
  rewrite parse_value_string by exact Hs.
  cbn [mbind result_bind]. rewrite skip_ws_keep by exact He. reflexivity.
Qed.

Lemma wf_js_type : wf_string (js "type").
Proof. repeat constructor; discriminate. Qed.

Lemma wf_js_sdp : wf_string (js "sdp").
Proof. repeat constructor; discriminate. Qed.

Lemma parse_descriptor_text t s fuel :
  wf_string t -> wf_string s ->
  parse_value (S (S (S (S fuel)))) (descriptor_text t s)
  = Ret (VObj [(js "type", VStr t); (js "sdp", VStr s)], []).
Proof.
  intros Ht Hs. unfold descriptor_text.
  rewrite <- quote_chars_type at 1. rewrite <- quote_chars_sdp at 1.
  cbn [app]. rewrite parse_value_eq, skip_ws_keep by reflexivity.
  change (123 =? 123) with true. cbv iota.
  rewrite skip_ws_keep by reflexivity.
  change (34 =? 125) with false. cbv iota.
  rewrite parse_member_string by (assumption || apply wf_js_type || reflexivity).
  change (44 =? 44) with true. cbv iota.
  rewrite parse_member_string by (assumption || apply wf_js_sdp || reflexivity).
  reflexivity.
Qed.

Lemma parse_descriptor t s :
  wf_string t -> wf_string s ->
  JSON.parse (descriptor_text t s)
  = Ret (VObj [(js "type", VStr t); (js "sdp", VStr s)]).
Proof.
  intros Ht Hs. unfold JSON.parse.
  replace (2 * length (descriptor_text t s) + 2)%nat
    with (S (S (S (S (2 * (length (descriptor_text t s) - 1))))))
    by (unfold descriptor_text; cbn [app length]; lia).
  rewrite parse_descriptor_text by assumption. reflexivity.
Qed.

Lemma utf8_of_ascii l : Forall is_ascii l -> utf8_of l = Some l.
Proof.
  induction 1 as [|c l Hc _ IH]; [reflexivity|].
  unfold is_ascii in Hc. cbn [utf8_of].
  assert (is_high_surrogate c = false) as -> by (unfold is_high_surrogate; zcases).
  assert (is_low_surrogate c = false) as -> by (unfold is_low_surrogate; zcases).
  rewrite IH. unfold utf8_octets. destruct (Z.ltb_spec c 128); [reflexivity|lia].
Qed.

Lemma utf8_of_app_bounded (n : nat) : forall a b x y,
  (length a <= n)%nat ->
  utf8_of a = Some x -> utf8_of b = Some y -> utf8_of (a ++ b) = Some (x ++ y).
Proof.
  induction n as [|n IH]; intros a b x y Hlen Ha Hb.
  - destruct a; [|simpl in Hlen; lia]. injection Ha as <-. exact Hb.
  - destruct a as [|c r]; [injection Ha as <-; exact Hb|].
    simpl in Hlen. cbn [utf8_of app] in *.
    destruct (is_high_surrogate c).
    + destruct r as [|d r']; [discriminate|]. cbn [app].
      destruct (is_low_surrogate d); [|discriminate].
      destruct (utf8_of r') as [bs|] eqn:E; [|discriminate].
      injection Ha as <-. simpl in Hlen.
      rewrite (IH r' b bs y) by (assumption || lia).
      cbn. rewrite <- app_assoc. reflexivity.
    + destruct (is_low_surrogate c); [discriminate|].
      destruct (utf8_of r) as [bs|] eqn:E; [|discriminate].
      injection Ha as <-.
      rewrite (IH r b bs y) by (assumption || lia).
      cbn. rewrite <- app_assoc. reflexivity.
Qed.

Lemma utf8_of_app a b x y :
  utf8_of a = Some x -> utf8_of b = Some y -> utf8_of (a ++ b) = Some (x ++ y).
Proof. apply (utf8_of_app_bounded (length a)). lia. Qed.

Lemma hex_lower_ascii d : 0 <= d < 16 -> is_ascii (hex_lower d).
Proof. intros H. unfold hex_lower, is_ascii. destruct (d <? 10); lia. Qed.

(** The text of one code unit is ASCII, or the unit itself when it is
    neither a control character nor a surrogate. *)
Lemma quote_unit_cases c :
  is_code_unit c ->
  Forall is_ascii (quote_unit c) \/
  (quote_unit c = [c] /\ is_high_surrogate c = false /\ is_low_surrogate c = false).
Proof.
  intros Hc. unfold is_code_unit in Hc. unfold quote_unit.
  destruct (Z.eqb_spec c 8); [left; repeat constructor; unfold is_ascii; lia|].
  destruct (Z.eqb_spec c 9); [left; repeat constructor; unfold is_ascii; lia|].
  destruct (Z.eqb_spec c 10); [left; repeat constructor; unfold is_ascii; lia|].
  destruct (Z.eqb_spec c 12); [left; repeat constructor; unfold is_ascii; lia|].
  destruct (Z.eqb_spec c 13); [left; repeat constructor; unfold is_ascii; lia|].
  destruct (Z.eqb_spec c 34); [left; repeat constructor; unfold is_ascii; lia|].
  destruct (Z.eqb_spec c 92); [left; repeat constructor; unfold is_ascii; lia|].
  destruct ((c <? 32) || is_high_surrogate c || is_low_surrogate c) eqn:E.
  - left. unfold UnicodeEscape.
    repeat constructor; try (unfold is_ascii; lia);
      apply hex_lower_ascii; Z.div_mod_to_equations; lia.
  - right. apply orb_false_iff in E as [E E3]. apply orb_false_iff in E as [_ E2].
    auto.
Qed.

Lemma wf_quote_unit c : is_code_unit c -> wf_string (quote_unit c).
Proof.
  intros Hc. destruct (quote_unit_cases c Hc) as [H|(-> & _)].
  - eapply Forall_impl; [exact H|]. unfold is_ascii, is_code_unit. intros; lia.
  - constructor; [exact Hc|constructor].
Qed.

Lemma utf8_of_quote_unit c :
  is_code_unit c -> exists bs, utf8_of (quote_unit c) = Some bs.
Proof.
  intros Hc. destruct (quote_unit_cases c Hc) as [H|(-> & Eh & El)].
  - eexists. apply utf8_of_ascii, H.
  - cbn [utf8_of]. rewrite Eh, El. eexists. reflexivity.
Qed.

(** The quoted text of a string is well formed: its surrogates are paired. *)
Lemma quote_chars_well_formed_bounded (n : nat) : forall s,
  (length s <= n)%nat -> wf_string s ->
  wf_string (quote_chars s) /\ exists bs, utf8_of (quote_chars s) = Some bs.
Proof.
  induction n as [|n IH]; intros s Hlen Hwf.
  - destruct s; [|simpl in Hlen; lia]. split; [constructor|]. eexists. reflexivity.
  - destruct s as [|c r]; [split; [constructor|eexists; reflexivity]|].
    apply Forall_cons in Hwf as [Hc Hr]. simpl in Hlen.
    destruct (IH r) as (Hwr & bsr & Hur); [lia|exact Hr|].
    assert (Hone : wf_string (quote_unit c ++ quote_chars r) /\
                   exists bs, utf8_of (quote_unit c ++ quote_chars r) = Some bs).
    { split; [apply Forall_app; split; [apply wf_quote_unit, Hc|exact Hwr]|].
      destruct (utf8_of_quote_unit c Hc) as (bsc & Huc).
      eexists. apply utf8_of_app; eassumption. }
    cbn [quote_chars]. destruct (is_high_surrogate c) eqn:Eh; [|exact Hone].
    destruct r as [|d r'].
    { cbn [quote_chars] in Hone. rewrite app_nil_r in Hone. exact Hone. }
    destruct (is_low_surrogate d) eqn:El; [|exact Hone].
    apply Forall_cons in Hr as [Hd Hr']. simpl in Hlen.
    destruct (IH r') as (Hwr' & bs' & Hu'); [lia|exact Hr'|].
    split; [constructor; [exact Hc|constructor; [exact Hd|exact Hwr']]|].
    cbn [utf8_of]. rewrite Eh, El, Hu'. eexists. reflexivity.
Qed.

Lemma quote_chars_well_formed s :
  wf_string s ->
  wf_string (quote_chars s) /\ exists bs, utf8_of (quote_chars s) = Some bs.
Proof. apply (quote_chars_well_formed_bounded (length s)). lia. Qed.

Lemma descriptor_text_well_formed t s :
  wf_string t -> wf_string s ->
  wf_string (descriptor_text t s) /\
  exists bs, utf8_of (descriptor_text t s) = Some bs.
Proof.
  intros Ht Hs.
  destruct (quote_chars_well_formed t Ht) as (Hwt & bt & Hut).
  destruct (quote_chars_well_formed s Hs) as (Hws & bs & Hus).
  unfold descriptor_text. split.
  - repeat (apply Forall_app; split); try assumption;
      repeat constructor; discriminate.
  - eexists.
    repeat (apply utf8_of_app; [try reflexivity; try eassumption|]).
    reflexivity.
Qed.

(** C1. For every descriptor whose [type] and [sdp] are strings,
    [encodeSDP] returns a token and [decodeSDP] maps that token back to
    [{type, sdp}] with the same two strings. *)
Theorem encodeSDP_decodeSDP_round_trip (desc : value) (t s : jsstring) :
  wf_string t -> wf_string s ->
  get_prop desc (js "type") = Ret (VStr t) ->
  get_prop desc (js "sdp") = Ret (VStr s) ->
  exists token,
    encodeSDP desc = Ret token /\
    decodeSDP token = Ret (VObj [(js "type", VStr t); (js "sdp", VStr s)]).
Proof.
  intros Ht Hs Hty Hsdp.
  destruct (descriptor_text_well_formed t s Ht Hs) as (Hwf & bs & Hu).
  pose proof (utf8_of_bytes _ _ Hwf Hu) as Hbytes.
  destruct (atob_btoa bs Hbytes) as (code & Hbtoa & Hatob).
  exists code. split.
  - unfold encodeSDP. rewrite Hty, Hsdp. cbn [mbind result_bind].
    rewrite stringify_descriptor. cbn [mbind result_bind].
    change (string_or_undefined (Some (descriptor_text t s)))
      with (descriptor_text t s).
    unfold encodeURIComponent.
    rewrite (Encode_utf8 _ _ Hwf Hu). cbn [mbind result_bind].
    rewrite unescape_uri_bytes by exact Hbytes. exact Hbtoa.
  - unfold decodeSDP. rewrite Hatob. cbn [mbind result_bind].
    rewrite (Decode_escape_utf8 _ _ Hwf Hu). cbn [mbind result_bind].
    apply parse_descriptor; assumption.
Qed.

Lemma encodeSDP_decodeSDP_round_trip_witness :
  exists token,
    encodeSDP Sample.odd_offer = Ret token /\
    decodeSDP token
    = Ret (VObj [(js "type", VStr (js "offer"));
                 (js "sdp", VStr (js "v=0" ++ [13; 10; 233; 8364; 55357; 56832;
                                             34; 55296; 0]))]).
Proof.
  apply (encodeSDP_decodeSDP_round_trip Sample.odd_offer).
  - repeat constructor; discriminate.
  - repeat constructor; discriminate.
  - reflexivity.
  - reflexivity.
Defined.

End RoundTrip.

Section ParserTotal.
Import JSON Codec.

Local Ltac fin := cbn; first [reflexivity | lia | tauto].

Lemma skip_ws_length s : (length (skip_ws s) <= length s)%nat.
Proof.
  induction s as [|c r IH]; [reflexivity|].
  cbn [skip_ws]. destruct (is_ws c); cbn [length]; lia.
Qed.

Lemma skip_ws_cons s c r :
  skip_ws s = c :: r -> (length r < length s)%nat.
Proof. intros H. pose proof (skip_ws_length s) as L. rewrite H in L. simpl in L. lia. Qed.

Lemma consumes_weaken {A} s s' (P Q : Prop) (r : result (A * jsstring)) :
  (length s <= length s')%nat -> (Q -> P) -> consumes s P r -> consumes s' Q r.
Proof.
  intros Hl HPQ. destruct r as [[a rest]|e|]; cbn [consumes]; [lia|auto|tauto].
Qed.

Lemma parse_chars_consumes_bounded (n : nat) : forall s,
  (length s <= n)%nat -> consumes s True (parse_chars s).
Proof.
  induction n as [|n IH]; intros s Hlen.
  - destruct s; [fin|simpl in Hlen; lia].
  - destruct s as [|c r]; [fin|]. simpl in Hlen. cbn [parse_chars].
    assert (Hstep : forall (t : jsstring) (x : Z),
               (length t <= length r)%nat ->
               consumes (c :: r) True
                 ('(str, rest) ← parse_chars t; Ret (x :: str, rest))).
    { intros t x Ht. pose proof (IH t ltac:(lia)) as H.
      destruct (parse_chars t) as [[str rest]|e|]; cbn in *; [lia|exact H|tauto]. }
    destruct (c =? 34); [cbn; lia|].
    destruct (c =? 92).
    + destruct r as [|e r1]; [fin|].
      destruct (e =? 117).
      * destruct r1 as [|h1 [|h2 [|h3 [|h4 r2]]]]; try fin.
        destruct (is_hex h1 && is_hex h2 && is_hex h3 && is_hex h4); [|fin].
        apply Hstep. cbn [length]. lia.
      * destruct (simple_escape e); [|fin].
        apply Hstep. cbn [length]. lia.
    + destruct (c <? 32); [fin|]. apply Hstep. lia.
Qed.

Lemma parse_chars_consumes s : consumes s True (parse_chars s).
Proof. apply (parse_chars_consumes_bounded (length s)). lia. Qed.

Lemma take_digits_length s :
  (length (take_digits s).2 <= length s)%nat.
Proof.
  induction s as [|c r IH]; [fin|].
  cbn [take_digits]. destruct (is_digit c); [|fin].
  destruct (take_digits r) as [ds rest]. cbn in *. lia.
Qed.

Lemma scan_fraction_length s :
  match scan_fraction s with
  | Ret (_, rest) => (length rest <= length s)%nat
  | Throw e => e = SyntaxError
  | Unsupported => False
  end.
Proof.
  destruct s as [|c r]; [fin|]. cbn [scan_fraction].
  destruct (c =? 46); [|fin].
  pose proof (take_digits_length r) as H.
  destruct (take_digits r) as [[|d ds] rest]; [fin|]. cbn in *. lia.
Qed.

Lemma scan_exponent_length s :
  match scan_exponent s with
  | Ret (_, rest) => (length rest <= length s)%nat
  | Throw e => e = SyntaxError
  | Unsupported => False
  end.
Proof.
  destruct s as [|e r]; [fin|]. cbn [scan_exponent].
  destruct ((e =? 101) || (e =? 69)); [|fin].
  destruct r as [|g r']; [fin|].
  destruct ((g =? 43) || (g =? 45)).
  - pose proof (take_digits_length r') as H'.
    destruct (take_digits r') as [[|d ds] rest]; [fin|]. cbn in *. lia.
  - pose proof (take_digits_length (g :: r')) as H'.
    destruct (take_digits (g :: r')) as [[|d ds] rest]; [fin|]. cbn in *. lia.
Qed.

Lemma scan_integer_length s :
  match scan_integer s with
  | Ret (_, rest) => (length rest < length s)%nat
  | Throw e => e = SyntaxError
  | Unsupported => False
  end.
Proof.
  destruct s as [|c r]; [fin|]. cbn [scan_integer].
  destruct (c =? 48); [cbn; lia|].
  destruct (is_digit c) eqn:E; [|fin].
  cbn [take_digits]. rewrite E.
  pose proof (take_digits_length r) as H.
  destruct (take_digits r) as [ds rest]. cbn in *. lia.
Qed.

Lemma parse_number_consumes s : consumes s True (parse_number s).
Proof.
  unfold parse_number.
  set (p := match s with
            | c :: r => if c =? 45 then (true, r) else (false, s)
            | [] => (false, s)
            end).
  assert (Hp : (length p.2 <= length s)%nat).
  { subst p. destruct s as [|c r]; [fin|].
    destruct (c =? 45); cbn; lia. }
  destruct p as [neg s1]. cbn [snd] in Hp.
  pose proof (scan_integer_length s1) as H1.
  destruct (scan_integer s1) as [[ip s2]|e|]; cbn [mbind result_bind consumes];
    [|exact H1|tauto].
  pose proof (scan_fraction_length s2) as H2.
  destruct (scan_fraction s2) as [[fp s3]|e|]; cbn [mbind result_bind consumes];
    [|exact H2|tauto].
  pose proof (scan_exponent_length s3) as H3.
  destruct (scan_exponent s3) as [[ep s4]|e|]; cbn [mbind result_bind consumes];
    [|exact H3|tauto].
  match goal with |- consumes _ _ (if ?b then _ else _) => destruct b end;
    cbn [consumes]; lia.
Qed.

Lemma starts_with_length kw : forall s r,
  starts_with kw s = Some r -> (length r + length kw = length s)%nat.
Proof.
  induction kw as [|k kw IH]; intros s r H.
  - injection H as <-. cbn. lia.
  - destruct s as [|c s']; [discriminate|]. cbn [starts_with] in H.
    destruct (c =? k); [|discriminate]. apply IH in H. cbn. lia.
Qed.

Lemma parse_keyword_consumes s : consumes s True (parse_keyword s).
Proof.
  unfold parse_keyword.
  destruct (starts_with (js "true") s) eqn:E1.
  { apply starts_with_length in E1. cbn in *. lia. }
  destruct (starts_with (js "false") s) eqn:E2.
  { apply starts_with_length in E2. cbn in *. lia. }
  destruct (starts_with (js "null") s) eqn:E3.
  { apply starts_with_length in E3. cbn in *. lia. }
  fin.
Qed.

Lemma parse_elements_eq f s acc :
  parse_elements (S f) s acc =
    '(v, r) ← parse_value f s;
    match skip_ws r with
    | d :: r' =>
        if d =? 44 then parse_elements f r' (acc ++ [v])
        else if d =? 93 then Ret (VArr (acc ++ [v]), r')
        else Throw SyntaxError
    | [] => Throw SyntaxError
    end.
Proof. reflexivity. Qed.

Lemma consumes_chars_value {B} s (k : jsstring * jsstring -> result (B * jsstring))
    (r : jsstring) (enough : Prop) :
  (length r < length s)%nat ->
  (forall str rest, (length rest < length r)%nat -> consumes s enough (k (str, rest))) ->
  consumes s enough (parse_chars r ≫= k).
Proof.
  intros Hr Hk. pose proof (parse_chars_consumes r) as H.
  destruct (parse_chars r) as [[str rest]|e|]; cbn [mbind result_bind].
  - apply Hk. cbn in H. lia.
  - exact H.
  - cbn in H. tauto.
Qed.

(** The recursion budget: [2 * length s + 1] calls suffice for a value,
    one more for the elements of an array or the members of an object. *)
Lemma parse_budget (f : nat) :
  (forall s, consumes s (2 * length s + 1 <= f)%nat (parse_value f s)) /\
  (forall s acc, consumes s (2 * length s + 2 <= f)%nat (parse_elements f s acc)) /\
  (forall s acc, consumes s (2 * length s + 2 <= f)%nat (parse_members f s acc)).
Proof.
  induction f as [|f (IHv & IHe & IHm)].
  { repeat split; intros; cbn; lia. }
  split; [|split].
  - intros s. rewrite parse_value_eq.
    destruct (skip_ws s) as [|c r] eqn:Es; [fin|].
    apply skip_ws_cons in Es.
    destruct (c =? 123).
    { destruct (skip_ws r) as [|d r'] eqn:Er; [fin|].
      pose proof (skip_ws_length r) as Lr. rewrite Er in Lr. cbn [length] in Lr.
      destruct (d =? 125); [cbn; lia|].
      eapply consumes_weaken; [| |apply IHm]; cbn [length]; lia. }
    destruct (c =? 91).
    { destruct (skip_ws r) as [|d r'] eqn:Er; [fin|].
      pose proof (skip_ws_length r) as Lr. rewrite Er in Lr. cbn [length] in Lr.
      destruct (d =? 93); [cbn; lia|].
      eapply consumes_weaken; [| |apply IHe]; cbn [length]; lia. }
    destruct (c =? 34).
    { apply consumes_chars_value; [exact Es|]. intros str rest Hrest. cbn. lia. }
    destruct ((c =? 45) || is_digit c).
    { eapply (consumes_weaken (c :: r)); [| |apply parse_number_consumes];
        [cbn [length]; lia|tauto]. }
    eapply (consumes_weaken (c :: r)); [| |apply parse_keyword_consumes];
      [cbn [length]; lia|tauto].
  - intros s acc. rewrite parse_elements_eq.
    pose proof (IHv s) as Hv.
    destruct (parse_value f s) as [[v r]|e|]; cbn [mbind result_bind];
      [|exact Hv|cbn in *; lia].
    cbn [consumes] in Hv.
    destruct (skip_ws r) as [|d r'] eqn:Er; [fin|].
    apply skip_ws_cons in Er.
    destruct (d =? 44).
    { eapply consumes_weaken; [| |apply IHe]; lia. }
    destruct (d =? 93); [cbn; lia|fin].
  - intros s acc. rewrite parse_members_eq.
    destruct (skip_ws s) as [|q r] eqn:Es; [fin|].
    apply skip_ws_cons in Es.
    destruct (q =? 34); [|fin].
    apply consumes_chars_value; [exact Es|]. intros k r1 Hr1.
    destruct (skip_ws r1) as [|d r2] eqn:E1; [fin|].
    apply skip_ws_cons in E1.
    destruct (d =? 58); [|fin].
    pose proof (IHv r2) as Hv.
    destruct (parse_value f r2) as [[v r3]|e|]; cbn [mbind result_bind];
      [|exact Hv|cbn in *; lia].
    cbn [consumes] in Hv.
    destruct (skip_ws r3) as [|e r4] eqn:E3; [fin|].
    apply skip_ws_cons in E3.
    destruct (e =? 44).
    { eapply consumes_weaken; [| |apply IHm]; lia. }
    destruct (e =? 125); [cbn; lia|fin].
Qed.

(** [JSON.parse] is total on the embedding: it returns a value or throws
    SyntaxError; the recursion budget is never exhausted. *)
Theorem JSON_parse_total text :
  (exists v, JSON.parse text = Ret v) \/ JSON.parse text = Throw SyntaxError.
Proof.
  unfold JSON.parse.
  destruct (parse_budget (2 * length text + 2)) as (Hv & _).
  specialize (Hv text).
  destruct (parse_value _ text) as [[v rest]|e|]; cbn [mbind result_bind].
  - destruct (skip_ws rest); eauto.
  - right. cbn in Hv. rewrite Hv. reflexivity.
  - cbn in Hv. lia.
Qed.

End ParserTotal.

Section ParserDefined.
Import JSON Codec.

Lemma parse_number_defined s : defined (parse_number s).
Proof.
  unfold parse_number.
  destruct (match s with
            | c :: r => if c =? 45 then (true, r) else (false, s)
            | [] => (false, s)
            end) as [neg s1].
  destruct (scan_integer s1) as [[ip s2]| |]; cbn [mbind result_bind defined]; [|exact I..].
  destruct (scan_fraction s2) as [[fp s3]| |]; cbn [mbind result_bind defined]; [|exact I..].
  destruct (scan_exponent s3) as [[ep s4]| |]; cbn [mbind result_bind defined]; [|exact I..].
  match goal with |- defined (if ?b then _ else _) => destruct b end; cbn; discriminate.
Qed.

Lemma parse_keyword_defined s : defined (parse_keyword s).
Proof.
  unfold parse_keyword.
  destruct (starts_with (js "true") s); [cbn; discriminate|].
  destruct (starts_with (js "false") s); [cbn; discriminate|].
  destruct (starts_with (js "null") s); [cbn; discriminate|exact I].
Qed.

Lemma parse_defined (f : nat) :
  (forall s, defined (parse_value f s)) /\
  (forall s acc, defined (parse_elements f s acc)) /\
  (forall s acc, defined (parse_members f s acc)).
Proof.
  induction f as [|f (IHv & IHe & IHm)]; [repeat split; intros; exact I|].
  split; [|split].
  - intros s. rewrite parse_value_eq.
    destruct (skip_ws s) as [|c r]; [exact I|].
    destruct (c =? 123).
    { destruct (skip_ws r) as [|d r']; [exact I|].
      destruct (d =? 125); [cbn; discriminate|apply IHm]. }
    destruct (c =? 91).
    { destruct (skip_ws r) as [|d r']; [exact I|].
      destruct (d =? 93); [cbn; discriminate|apply IHe]. }
    destruct (c =? 34).
    { destruct (parse_chars r) as [[str rest]| |]; cbn; [discriminate|exact I..]. }
    destruct ((c =? 45) || is_digit c);
      [apply parse_number_defined|apply parse_keyword_defined].
  - intros s acc. rewrite parse_elements_eq.
    destruct (parse_value f s) as [[v r]| |]; cbn [mbind result_bind]; [|exact I..].
    destruct (skip_ws r) as [|d r']; [exact I|].
    destruct (d =? 44); [apply IHe|].
    destruct (d =? 93); [cbn; discriminate|exact I].
  - intros s acc. rewrite parse_members_eq.
    destruct (skip_ws s) as [|q r]; [exact I|].
    destruct (q =? 34); [|exact I].
    destruct (parse_chars r) as [[k r1]| |]; cbn [mbind result_bind]; [|exact I..].
    destruct (skip_ws r1) as [|d r2]; [exact I|].
    destruct (d =? 58); [|exact I].
    destruct (parse_value f r2) as [[v r3]| |]; cbn [mbind result_bind]; [|exact I..].
    destruct (skip_ws r3) as [|e r4]; [exact I|].
    destruct (e =? 44); [apply IHm|].
    destruct (e =? 125); [cbn; discriminate|exact I].
Qed.

Lemma parse_not_undefined text v : JSON.parse text = Ret v -> v <> VUndefined.
Proof.
  unfold JSON.parse.
  destruct (parse_defined (2 * length text + 2)) as (Hv & _). specialize (Hv text).
  destruct (parse_value _ text) as [[v' rest]| |]; cbn [mbind result_bind]; try discriminate.
  destruct (skip_ws rest); [|discriminate]. intros [= <-]. exact Hv.
Qed.

End ParserDefined.

Section Rejection.
Import JSON URI Base64 Utils Codec.

(** *** What [decodeSDP] rejects *)

Lemma b64_decode_alphabet_bounded (n : nat) : forall s l,
  (length s <= n)%nat ->
  b64_decode s = Some l -> Forall (fun c => is_Some (b64_val c)) s.
Proof.
  induction n as [|n IH]; intros s l Hlen H.
  - destruct s; [constructor|simpl in Hlen; lia].
  - destruct s as [|a [|b [|c [|d r]]]]; cbn [b64_decode] in H.
    + constructor.
    + discriminate.
    + destruct (b64_val a) eqn:Ea; [|discriminate].
      destruct (b64_val b) eqn:Eb; [|discriminate].
      repeat constructor; rewrite ?Ea, ?Eb; eauto.
    + destruct (b64_val a) eqn:Ea; [|discriminate].
      destruct (b64_val b) eqn:Eb; [|discriminate].
      destruct (b64_val c) eqn:Ec; [|discriminate].
      repeat constructor; rewrite ?Ea, ?Eb, ?Ec; eauto.
    + destruct (b64_val a) eqn:Ea; [|discriminate].
      destruct (b64_val b) eqn:Eb; [|discriminate].
      destruct (b64_val c) eqn:Ec; [|discriminate].
      destruct (b64_val d) eqn:Ed; [|discriminate].
      destruct (b64_decode r) as [t|] eqn:Er; [|discriminate].
      simpl in Hlen.
      repeat (constructor; [rewrite ?Ea, ?Eb, ?Ec, ?Ed; eauto|]).
      apply (IH r t); [lia|exact Er].
Qed.

Lemma b64_decode_alphabet s l :
  b64_decode s = Some l -> Forall (fun c => is_Some (b64_val c)) s.
Proof. apply (b64_decode_alphabet_bounded (length s)). lia. Qed.

(** Stripping the padding removes nothing but [=]. *)
Lemma strip_padding_keeps c s :
  c ∈ s -> c <> 61 -> c ∈ strip_padding s.
Proof.
  intros Hin Hne. unfold strip_padding.
  destruct (Z.of_nat (length s) mod 4 =? 0); [|exact Hin].
  destruct (rev s) as [|p r] eqn:E; [exact Hin|].
  assert (Hs : s = rev r ++ [p]).
  { rewrite <- (rev_involutive s), E. reflexivity. }
  destruct (Z.eqb_spec p 61) as [->|]; [|exact Hin].
  assert (Hr : c ∈ rev r).
  { rewrite Hs in Hin. apply elem_of_app in Hin as [Hin|Hin]; [exact Hin|].
    apply list_elem_of_singleton in Hin. contradiction. }
  destruct r as [|q r']; [exact Hr|].
  destruct (Z.eqb_spec q 61) as [->|]; [|exact Hr].
  cbn [rev] in Hr. apply elem_of_app in Hr as [Hr|Hr]; [exact Hr|].
  apply list_elem_of_singleton in Hr. contradiction.
Qed.

(** A token with a character that is neither of the base64 alphabet, nor
    [=], nor white space makes [atob] throw. *)
Lemma atob_rejects token c :
  c ∈ token -> base64_symbol c = false ->
  atob token = Throw InvalidCharacterError.
Proof.
  intros Hin Hc. unfold base64_symbol in Hc.
  apply orb_false_iff in Hc as [Hc Hws]. apply orb_false_iff in Hc as [Hv Hp].
  unfold atob.
  destruct (b64_decode _) as [l|] eqn:E; [|reflexivity].
  apply b64_decode_alphabet in E. rewrite Forall_forall in E.
  assert (Hc : is_Some (b64_val c)).
  { apply E, strip_padding_keeps; [|apply Z.eqb_neq, Hp].
    apply list_elem_of_In, filter_In. split; [apply list_elem_of_In, Hin|].
    rewrite Hws. reflexivity. }
  destruct Hc as [v Hc]. rewrite Hc in Hv. discriminate.
Qed.

(** [decodeURIComponent] returns a string or throws URIError. *)
Lemma Decode_from_outcome_bounded (n : nat) : forall st s,
  (length s <= n)%nat ->
  match Decode_from st s with
  | Ret _ => True
  | Throw e => e = URIError
  | Unsupported => False
  end.
Proof.
  induction n as [|n IH]; intros st s Hlen.
  - destruct s; [|simpl in Hlen; lia]. destruct st; exact I || reflexivity.
  - assert (Hthen : forall st' t u, (length t <= n)%nat ->
              match then_app u (Decode_from st' t) with
              | Ret _ => True
              | Throw e => e = URIError
              | Unsupported => False
              end).
    { intros st' t u Ht. pose proof (IH st' t Ht) as H. unfold then_app.
      destruct (Decode_from st' t); cbn [mbind result_bind]; exact H. }
    destruct st as [|len more acc].
    + destruct s as [|c r]; [exact I|]. simpl in Hlen. cbn [Decode_from].
      destruct (c =? 37).
      * destruct r as [|h1 [|h2 r1]]; try reflexivity. simpl in Hlen.
        destruct (is_hex h1 && is_hex h2); [|reflexivity].
        repeat match goal with
               | |- context [if ?b then _ else _] => destruct b
               end;
          try reflexivity; try (apply IH; lia).
        apply (Hthen Idle r1 [_]). lia.
      * apply (Hthen Idle r [c]). lia.
    + destruct s as [|c [|h1 [|h2 r1]]]; try reflexivity. simpl in Hlen.
      cbn [Decode_from].
      destruct ((c =? 37) && is_hex h1 && is_hex h2); [|reflexivity].
      destruct ((128 <=? hex_val h1 * 16 + hex_val h2)
                && (hex_val h1 * 16 + hex_val h2 <? 192)); [|reflexivity].
      destruct more as [|m]; [|apply IH; lia].
      destruct (utf8_valid _ _); [|reflexivity].
      apply (Hthen Idle r1). lia.
Qed.

Lemma decodeURIComponent_outcome s :
  (exists t, decodeURIComponent s = Ret t) \/ decodeURIComponent s = Throw URIError.
Proof.
  pose proof (Decode_from_outcome_bounded (length s) Idle s ltac:(lia)) as H.
  unfold decodeURIComponent. destruct (Decode_from Idle s); [eauto|subst; auto|tauto].
Qed.

(** C9 (as the code has it). [decodeSDP] throws when the token is not
    base64, when the decoded octets are not UTF-8, and when the decoded
    text is not JSON, and these three errors are the only ways it fails;
    it makes no check of the shape of the payload: any value [JSON.parse]
    yields is returned as it is. *)
Theorem decodeSDP_checks_encoding_only (token : jsstring) :
  (forall c, c ∈ token -> base64_symbol c = false ->
             decodeSDP token = Throw InvalidCharacterError) /\
  (forall e, atob token = Throw e -> decodeSDP token = Throw e) /\
  (forall octets e,
      atob token = Ret octets ->
      decodeURIComponent (escape octets) = Throw e ->
      decodeSDP token = Throw e) /\
  (forall octets text,
      atob token = Ret octets ->
      decodeURIComponent (escape octets) = Ret text ->
      decodeSDP token = JSON.parse text) /\
  (forall v, decodeSDP token = Ret v ->
      exists octets text,
        atob token = Ret octets /\
        decodeURIComponent (escape octets) = Ret text /\
        JSON.parse text = Ret v) /\
  ((exists v, decodeSDP token = Ret v) \/
   decodeSDP token = Throw InvalidCharacterError \/
   decodeSDP token = Throw URIError \/
   decodeSDP token = Throw SyntaxError).
Proof.
  unfold decodeSDP. repeat split.
  - intros c Hin Hc. rewrite (atob_rejects token c Hin Hc). reflexivity.
  - intros e ->. reflexivity.
  - intros octets e -> H. cbn [mbind result_bind]. rewrite H. reflexivity.
  - intros octets text -> H. cbn [mbind result_bind]. rewrite H. reflexivity.
  - intros v H. destruct (atob token) as [octets| |] eqn:E1; try discriminate.
    cbn [mbind result_bind] in H.
    destruct (decodeURIComponent (escape octets)) as [text| |] eqn:E2;
      try discriminate.
    exists octets, text. split; [reflexivity|]. split; [exact E2|]. exact H.
  - unfold atob. destruct (b64_decode _) as [octets|]; cbn [mbind result_bind];
      [|auto].
    destruct (decodeURIComponent_outcome (escape octets)) as [[text ->]| ->];
      cbn [mbind result_bind]; [|auto].
    destruct (JSON_parse_total text) as [[v ->]| ->]; eauto.
Qed.

Lemma decodeSDP_checks_encoding_only_witness :
  decodeSDP (js "MTI$") = Throw InvalidCharacterError /\
  decodeSDP (js "/w==") = Throw URIError /\
  decodeSDP (js "e25vdA==") = Throw SyntaxError /\
  decodeSDP (js "e30=") = JSON.parse (js "{}").
Proof.
  destruct (decodeSDP_checks_encoding_only (js "MTI$")) as (H1 & _).
  destruct (decodeSDP_checks_encoding_only (js "/w==")) as (_ & _ & H2 & _).
  destruct (decodeSDP_checks_encoding_only (js "e25vdA==")) as (_ & _ & _ & H3 & _).
  destruct (decodeSDP_checks_encoding_only (js "e30=")) as (_ & _ & _ & H4 & _).
  split; [apply (H1 36); [|reflexivity]|].
  { apply list_elem_of_In. simpl. auto. }
  split; [apply (H2 [255]); reflexivity|].
  split; [rewrite (H3 (js "{not") (js "{not")); reflexivity|].
  apply (H4 (js "{}")); reflexivity.
Defined.

(** C9, as stated, fails: tokens that are well-formed base64 of JSON text
    are decoded to values that are no descriptors (an object without
    [type] and [sdp], [null], a number). *)
Lemma decodeSDP_returns_non_descriptor :
  decodeSDP (js "e30=") = Ret (VObj []) /\
  get_prop (VObj []) (js "type") = Ret VUndefined /\
  get_prop (VObj []) (js "sdp") = Ret VUndefined /\
  decodeSDP (js "bnVsbA==") = Ret VNull /\
  decodeSDP (js "MTIz") = Ret (VNum (Int 123)).
Proof. repeat split. Qed.

End Rejection.

(* ------------------------------------------------------------------ *)
(** ** Equations of the method monad                                   *)
(* ------------------------------------------------------------------ *)

Section MonadLaws.
Import Net.
Context {A B : Type}.

Lemma run_eta (r : run A) : Run (res r) (final r) (effects r) = r.
Proof. destruct r; reflexivity. Qed.

Lemma bind_lift_ret (a : A) (k : A -> M B) m : (lift (Ret a) ≫= k) m = k a m.
Proof. unfold mbind, M_bind, lift. simpl. destruct (k a m); reflexivity. Qed.

Lemma bind_lift_throw (e : error) (k : A -> M B) m :
  (lift (Throw e) ≫= k) m = Run (Throw e) m [].
Proof. reflexivity. Qed.

Lemma bind_lift_unsupported (k : A -> M B) m :
  (lift (@Unsupported A) ≫= k) m = Run Unsupported m [].
Proof. reflexivity. Qed.

Lemma bind_get (k : NetworkManager -> M B) m : (get ≫= k) m = k m m.
Proof. unfold mbind, M_bind, get. simpl. destruct (k m m); reflexivity. Qed.

Lemma bind_modify f (k : unit -> M B) m : (modify f ≫= k) m = k tt (f m).
Proof. unfold mbind, M_bind, modify. simpl. destruct (k tt (f m)); reflexivity. Qed.

Lemma bind_emit e (k : unit -> M B) m :
  (emit e ≫= k) m =
    Run (res (k tt m)) (final (k tt m)) (e :: effects (k tt m)).
Proof. reflexivity. Qed.

End MonadLaws.

(* ------------------------------------------------------------------ *)
(** ** The connection registry (host side)                             *)
(* ------------------------------------------------------------------ *)

Section Registry.
Import Utils Net.

(** What a call of [createOffer] that returns has done. *)
Lemma createOffer_returns peerId negotiated m r :
  res (createOffer peerId negotiated m) = Ret r ->
  exists desc,
    negotiated = Ret desc /\
    r.1 = peerId /\
    encodeSDP desc = Ret r.2 /\
    final (createOffer peerId negotiated m) =
      set_pendingPeerId (Some peerId)
        (set_peers (insert peerId
           {| pc := {| localDescription := desc; remoteDescription := VNull |};
              ch := {| label := CHANNEL_LABEL; readyState := connecting |};
              name := VNull |}) m).
Proof.
  unfold createOffer, mbind, M_bind, lift, modify, mret, M_ret. simpl.
  destruct negotiated as [desc| |]; simpl; try discriminate.
  destruct (encodeSDP desc) as [code| |] eqn:Hc; simpl; try discriminate.
  intros [= <-]. exists desc. auto.
Qed.

(** C3. After two consecutive calls of [createOffer] that return, with
    no [acceptAnswer] between them, [pendingPeerId] is the one pending
    identifier, it is the id allocated by the second call and it names
    that call's record; the record of the first attempt (under its own
    id, the ids of [generateId()] being distinct) is still in [peers],
    not yet connected. *)
Theorem createOffer_twice_single_pending
    (m : NetworkManager) (id1 id2 : jsstring) (n1 n2 : result value)
    (r1 r2 : jsstring * jsstring) :
  res (createOffer id1 n1 m) = Ret r1 ->
  res (createOffer id2 n2 (final (createOffer id1 n1 m))) = Ret r2 ->
  let m2 := final (createOffer id2 n2 (final (createOffer id1 n1 m))) in
  pendingPeerId m2 = Some id2 /\
  r2.1 = id2 /\
  (exists p2, pending_record m2 = Some p2 /\ n2 = Ret (localDescription (pc p2))) /\
  (id1 <> id2 ->
   exists p1, peers m2 !! id1 = Some p1 /\ n1 = Ret (localDescription (pc p1))
              /\ not_yet_connected p1 /\ channel_open (ch p1) = false).
Proof.
  intros H1 H2.
  destruct (createOffer_returns _ _ _ _ H1) as (d1 & -> & Hr1 & Hc1 & Hm1).
  destruct (createOffer_returns _ _ _ _ H2) as (d2 & -> & Hr2 & Hc2 & Hm2).
  cbv zeta. rewrite Hm2, Hm1. simpl. split; [reflexivity|]. split; [exact Hr2|].
  split.
  - unfold pending_record. simpl. rewrite lookup_insert_eq. eexists.
    split; reflexivity.
  - intros Hne. eexists. split.
    + rewrite lookup_insert_ne by congruence. apply lookup_insert_eq.
    + repeat split.
Qed.

Lemma createOffer_twice_witness :
  let m2 := final (createOffer Sample.idB (Ret Sample.offer)
               (final (createOffer Sample.idA (Ret Sample.offer) Sample.host))) in
  pendingPeerId m2 = Some Sample.idB /\
  (exists p2, pending_record m2 = Some p2) /\
  (exists p1, peers m2 !! Sample.idA = Some p1 /\ not_yet_connected p1
              /\ channel_open (ch p1) = false).
Proof.
  destruct (createOffer_twice_single_pending Sample.host Sample.idA Sample.idB
              (Ret Sample.offer) (Ret Sample.offer)
              (Sample.idA, Sample.offer_code) (Sample.idB, Sample.offer_code))
    as (Hp & _ & (p2 & Hp2 & _) & Hfirst).
  - vm_compute. reflexivity.
  - vm_compute. reflexivity.
  - destruct Hfirst as (p1 & Hp1 & _ & Hn & Ho); [discriminate|].
    cbv zeta. split; [exact Hp|]. split; [exists p2; exact Hp2|].
    exists p1. split; [exact Hp1|]. split; [exact Hn|exact Ho].
Defined.

(** [acceptAnswer] with an empty pending slot. *)
Lemma acceptAnswer_no_pending m answerCode srd :
  pending_record m = None ->
  acceptAnswer answerCode srd m =
    Run (Throw (Error (js "No pending peer connection."))) m [].
Proof.
  intros H. unfold acceptAnswer, mbind, M_bind, get.
  cbn [res final effects]. rewrite H. reflexivity.
Qed.

(** C5. When the pending slot is empty ([pendingPeerId] is [null], or
    names no record of [peers]), [acceptAnswer] throws the
    no-pending-connection error whatever the token, and leaves the
    manager (so [peers] and [pendingPeerId]) as it was, with nothing
    sent or notified. *)
Theorem acceptAnswer_empty_slot_fails
    (m : NetworkManager) (answerCode : jsstring)
    (srd : value -> result unit) :
  (pendingPeerId m = None \/
   exists i, pendingPeerId m = Some i /\ peers m !! i = None) ->
  let r := acceptAnswer answerCode srd m in
  res r = Throw (Error (js "No pending peer connection.")) /\
  final r = m /\
  peers (final r) = peers m /\
  pendingPeerId (final r) = pendingPeerId m /\
  effects r = [].
Proof.
  intros H. cbv zeta. rewrite acceptAnswer_no_pending; [auto|].
  unfold pending_record. destruct H as [-> | (i & -> & Hi)]; [reflexivity|exact Hi].
Qed.

Lemma acceptAnswer_empty_slot_witness :
  let r := acceptAnswer Sample.answer_code Sample.accepting Sample.host in
  res r = Throw (Error (js "No pending peer connection.")) /\
  final r = Sample.host /\
  peers (final r) = peers Sample.host /\
  pendingPeerId (final r) = pendingPeerId Sample.host /\
  effects r = [].
Proof.
  apply (acceptAnswer_empty_slot_fails Sample.host Sample.answer_code Sample.accepting).
  left. reflexivity.
Defined.

(** What a call of [acceptAnswer] that returns has done. *)
Lemma acceptAnswer_returns m B peer answerCode srd :
  pendingPeerId m = Some B ->
  peers m !! B = Some peer ->
  res (acceptAnswer answerCode srd m) = Ret tt ->
  exists desc,
    decodeSDP answerCode = Ret desc /\
    srd desc = Ret tt /\
    final (acceptAnswer answerCode srd m) =
      set_peers (alter (with_remote desc) B) m.
Proof.
  intros HB Hp.
  unfold acceptAnswer, mbind, M_bind, get, lift, modify.
  cbn [res final effects]. unfold pending_record.
  rewrite HB. simpl. rewrite Hp. simpl.
  destruct (decodeSDP answerCode) as [desc| |]; simpl; try discriminate.
  destruct (srd desc) as [[]| |] eqn:Hs; simpl; try discriminate.
  intros _. exists desc. auto.
Qed.

(** C4 (as the code has it). A successful [acceptAnswer] applies the
    decoded description to the pending record and leaves [pendingPeerId]
    naming it; the slot is replaced only by the next [createOffer], whose
    id then becomes the pending one. *)
Theorem acceptAnswer_keeps_pending
    (m : NetworkManager) (B : jsstring) (peer : PeerRecord)
    (answerCode : jsstring) (srd : value -> result unit) :
  pendingPeerId m = Some B ->
  peers m !! B = Some peer ->
  res (acceptAnswer answerCode srd m) = Ret tt ->
  let m' := final (acceptAnswer answerCode srd m) in
  pendingPeerId m' = Some B /\
  (exists desc, decodeSDP answerCode = Ret desc /\
                peers m' = <[B := with_remote desc peer]> (peers m)) /\
  (forall id' n r, res (createOffer id' n m') = Ret r ->
                   pendingPeerId (final (createOffer id' n m')) = Some id').
Proof.
  intros HB Hp Hr.
  destruct (acceptAnswer_returns _ _ _ _ _ HB Hp Hr) as (desc & Hd & Hs & Hm).
  cbv zeta. rewrite Hm. simpl. split; [exact HB|]. split.
  - exists desc. split; [exact Hd|].
    apply map_eq. intros i. destruct (decide (i = B)) as [->|Hi].
    + rewrite lookup_alter_eq, Hp, lookup_insert_eq. reflexivity.
    + rewrite lookup_alter_ne, lookup_insert_ne by congruence. reflexivity.
  - intros id' n r Hc.
    destruct (createOffer_returns _ _ _ _ Hc) as (d & _ & _ & _ & ->).
    reflexivity.
Qed.

Lemma acceptAnswer_keeps_pending_witness :
  let m' := final (acceptAnswer Sample.answer_code Sample.accepting
                     Sample.host_pending_B) in
  pendingPeerId m' = Some Sample.idB /\
  (exists desc, decodeSDP Sample.answer_code = Ret desc /\
                peers m' =
                  <[Sample.idB := with_remote desc
                      {| pc := {| localDescription := Sample.offer;
                                  remoteDescription := VNull |};
                         ch := {| label := CHANNEL_LABEL; readyState := connecting |};
                         name := VNull |}]> (peers Sample.host_pending_B)) /\
  (forall id' n r, res (createOffer id' n m') = Ret r ->
                   pendingPeerId (final (createOffer id' n m')) = Some id').
Proof.
  apply (acceptAnswer_keeps_pending Sample.host_pending_B Sample.idB).
  - reflexivity.
  - vm_compute. reflexivity.
  - vm_compute. reflexivity.
Defined.

(** C4, as stated, fails: with B pending, [acceptAnswer] on B's token
    returns normally and [pendingPeerId] still names B. *)
Lemma acceptAnswer_does_not_clear_pending :
  pendingPeerId Sample.host_pending_B = Some Sample.idB /\
  res (acceptAnswer Sample.answer_code Sample.accepting Sample.host_pending_B)
    = Ret tt /\
  pendingPeerId
    (final (acceptAnswer Sample.answer_code Sample.accepting Sample.host_pending_B))
    = Some Sample.idB /\
  pendingPeerId
    (final (acceptAnswer Sample.answer_code Sample.accepting Sample.host_pending_B))
    <> None.
Proof.
  split; [reflexivity|]. split; [vm_compute; reflexivity|].
  split; [vm_compute; reflexivity|]. vm_compute. discriminate.
Qed.

End Registry.

(* ------------------------------------------------------------------ *)
(** ** Disconnects                                                     *)
(* ------------------------------------------------------------------ *)

Section Disconnect.
Import Net.

Lemma handlePeerDisconnect_present m peerId p :
  peers m !! peerId = Some p ->
  _handlePeerDisconnect peerId m =
    Run (Ret tt) (set_peers (delete peerId) m)
        ([ChannelClose peerId; ConnectionClose peerId] ++
         if onPeerDisconnected m then [Call_onPeerDisconnected peerId] else []).
Proof.
  intros H. unfold _handlePeerDisconnect, mbind, M_bind, get.
  cbn [res final effects]. rewrite H.
  unfold emit, modify. cbn [res final effects].
  destruct (onPeerDisconnected m); reflexivity.
Qed.

Lemma handlePeerDisconnect_absent m peerId :
  peers m !! peerId = None ->
  _handlePeerDisconnect peerId m = Run (Ret tt) m [].
Proof.
  intros H. unfold _handlePeerDisconnect, mbind, M_bind, get.
  cbn [res final effects]. rewrite H. reflexivity.
Qed.

(** Once the record is gone, every loss event for that peer is a no-op. *)
Lemma host_loss_handler_absent m peerId e :
  peers m !! peerId = None ->
  host_loss_handler peerId e m = Run (Ret tt) m [].
Proof.
  intros H. destruct e as [s| |]; simpl.
  - unfold host_pc_oniceconnectionstatechange.
    destruct (ice_lost s); [apply handlePeerDisconnect_absent; exact H|reflexivity].
  - apply handlePeerDisconnect_absent. exact H.
  - apply handlePeerDisconnect_absent. exact H.
Qed.

Lemma dispatch_cons (h : M unit) hs m :
  dispatch (h :: hs) m =
    match res (h m) with
    | Ret _ => Run (res (dispatch hs (final (h m)))) (final (dispatch hs (final (h m))))
                   (effects (h m) ++ effects (dispatch hs (final (h m))))
    | Throw e => Run (Throw e) (final (h m)) (effects (h m))
    | Unsupported => Run Unsupported (final (h m)) (effects (h m))
    end.
Proof. reflexivity. Qed.

Lemma dispatch_absent peerId events : forall m,
  peers m !! peerId = None ->
  dispatch (map (host_loss_handler peerId) events) m = Run (Ret tt) m [].
Proof.
  induction events as [|e es IH]; intros m H; [reflexivity|].
  cbn [map]. rewrite dispatch_cons, host_loss_handler_absent by exact H.
  cbn [res final effects]. rewrite IH by exact H. reflexivity.
Qed.

Lemma host_loss_handler_present m peerId p e :
  peers m !! peerId = Some p ->
  reports_loss e = true ->
  host_loss_handler peerId e m = _handlePeerDisconnect peerId m.
Proof.
  intros _ He. destruct e as [s| |]; try reflexivity.
  simpl in *. unfold host_pc_oniceconnectionstatechange. rewrite He. reflexivity.
Qed.

(** Host side of the disconnect rule: however many loss events arrive
    for a registered peer (ICE state [disconnected] or [failed], channel
    close, channel error), the record is removed, the channel and the
    connection are closed once and [onPeerDisconnected] is called exactly
    once. *)
Lemma host_disconnect_once (m : NetworkManager) (peerId : jsstring)
    (p : PeerRecord) (events : list loss_event) :
  peers m !! peerId = Some p ->
  onPeerDisconnected m = true ->
  events <> [] ->
  Forall (fun e => reports_loss e = true) events ->
  let r := dispatch (map (host_loss_handler peerId) events) m in
  res r = Ret tt /\
  disconnect_notifications peerId (effects r) = 1%nat /\
  peers (final r) !! peerId = None /\
  final r = set_peers (delete peerId) m.
Proof.
  intros Hp Hcb Hne Hall. destruct events as [|e es]; [congruence|].
  apply Forall_cons in Hall as [He _].
  cbv zeta. cbn [map]. rewrite dispatch_cons.
  rewrite (host_loss_handler_present _ _ _ _ Hp He).
  rewrite (handlePeerDisconnect_present _ _ _ Hp), Hcb.
  cbn [res final effects].
  rewrite dispatch_absent by (simpl; apply lookup_delete_eq).
  cbn [res final effects]. repeat split.
  - unfold disconnect_notifications. simpl.
    rewrite bool_decide_eq_true_2 by reflexivity. reflexivity.
  - simpl. apply lookup_delete_eq.
Qed.

(** On the joining side each loss event calls the callback again. *)
Lemma peer_loss_handler_notifies m e :
  onPeerDisconnected m = true ->
  reports_loss e = true ->
  e <> ChannelError ->
  peer_loss_handler e m = Run (Ret tt) m [Call_onPeerDisconnected (js "host")].
Proof.
  intros Hcb He Hne. destruct e as [s| |]; try congruence; simpl in *.
  - unfold peer_pc_oniceconnectionstatechange. rewrite He.
    unfold mbind, M_bind, get. cbn [res final effects]. rewrite Hcb. reflexivity.
  - unfold peer_ch_onclose, mbind, M_bind, get. cbn [res final effects].
    rewrite Hcb. reflexivity.
Qed.

(** C6, joining side: when the ICE state becomes [failed] and the channel
    then closes, [onPeerDisconnected('host')] is called twice, not once. *)
Theorem joiner_disconnect_notified_twice :
  let r := dispatch (map peer_loss_handler [IceStateChange ice_failed; ChannelClosed])
                    Sample.joiner in
  res r = Ret tt /\
  effects r = [Call_onPeerDisconnected (js "host"); Call_onPeerDisconnected (js "host")] /\
  disconnect_notifications (js "host") (effects r) = 2%nat.
Proof.
  cbv zeta. cbn [map]. rewrite !dispatch_cons.
  rewrite !peer_loss_handler_notifies by (reflexivity || discriminate).
  cbn [res final effects]. repeat split.
Qed.

(** The same two events on the host side, for comparison: one call. *)
Example host_disconnect_once_example :
  let m := Sample.host_pending_B in
  let r := dispatch (map (host_loss_handler Sample.idB)
                         [IceStateChange ice_failed; ChannelClosed]) m in
  disconnect_notifications Sample.idB (effects r) = 1%nat /\
  peers (final r) !! Sample.idB = None.
Proof.
  pose proof (host_disconnect_once Sample.host_pending_B Sample.idB
    {| pc := {| localDescription := Sample.offer; remoteDescription := VNull |};
       ch := {| label := CHANNEL_LABEL; readyState := connecting |};
       name := VNull |}
    [IceStateChange ice_failed; ChannelClosed]) as H.
  destruct H as (_ & H1 & H2 & _).
  - vm_compute. reflexivity.
  - reflexivity.
  - discriminate.
  - repeat constructor.
  - split; assumption.
Qed.

End Disconnect.

(* ------------------------------------------------------------------ *)
(** ** The message router                                              *)
(* ------------------------------------------------------------------ *)

Section Router.
Import Net.

(** A value that is no envelope has no string [type]: none of the
    router's own cases applies to it. *)
Lemma no_envelope_type v :
  v <> VUndefined -> v <> VNull -> is_envelope v = false ->
  exists ty, get_prop v (js "type") = Ret ty /\ forall s, type_is ty s = false.
Proof.
  intros Hu Hn He. destruct v as [| | b | n | s | l | props]; try congruence;
    try (exists VUndefined; split; reflexivity).
  cbn [get_prop is_envelope] in *.
  destruct (obj_get (js "type") props) as [[| | b | n | s | l | ps]|];
    try discriminate; eexists; split; reflexivity.
Qed.

(** [try { } catch { }] lets no exception through. *)
Lemma try_catch_no_throw (body : M unit) m e : res (try_catch body m) <> Throw e.
Proof.
  unfold try_catch. destruct (res (body m)) eqn:E; cbn [res]; rewrite ?E; discriminate.
Qed.

(** C7, as amended.  A frame on which [JSON.parse] throws, and the frame
    [null], are dropped by the [onmessage] handlers of both sides: the
    handler returns normally, no callback is called, nothing is sent, and
    the manager is unchanged; and no frame at all makes a handler throw.
    The shape of what was parsed is not checked: any other JSON value that
    is no message envelope is handed to [onMessage] as it is. *)
Theorem unparseable_frame_dropped
    (m : NetworkManager) (now : Z) (peerId : jsstring) (data : jsstring) :
  (forall e, res (host_ch_onmessage now peerId data m) <> Throw e) /\
  (forall e, res (peer_ch_onmessage now data m) <> Throw e) /\
  ((exists e, JSON.parse data = Throw e) \/ JSON.parse data = Ret VNull ->
   host_ch_onmessage now peerId data m = Run (Ret tt) m [] /\
   peer_ch_onmessage now data m = Run (Ret tt) m []) /\
  (forall v, JSON.parse data = Ret v -> v <> VNull -> is_envelope v = false ->
   host_ch_onmessage now peerId data m
     = Run (Ret tt) m (if onMessage m then [Call_onMessage peerId v] else []) /\
   peer_ch_onmessage now data m
     = Run (Ret tt) m (if onMessage m then [Call_onMessage (js "host") v] else [])).
Proof.
  split; [intros e; apply try_catch_no_throw|].
  split; [intros e; apply try_catch_no_throw|].
  split.
  - intros [[e H]|H]; unfold host_ch_onmessage, peer_ch_onmessage, try_catch.
    + unfold mbind, M_bind, lift. cbn [res final effects]. rewrite H.
      split; reflexivity.
    + rewrite H, !bind_lift_ret. split; reflexivity.
  - intros v Hp Hn He.
    destruct (no_envelope_type v (parse_not_undefined _ _ Hp) Hn He) as (ty & Hty & Hno).
    unfold host_ch_onmessage, peer_ch_onmessage, try_catch.
    rewrite Hp, !bind_lift_ret.
    unfold _handleHostMessage, _handlePeerMessage.
    rewrite Hty, !bind_lift_ret, !Hno, !bind_get.
    destruct (onMessage m); split; reflexivity.
Qed.

Lemma unparseable_frame_dropped_witness :
  (host_ch_onmessage 0 Sample.idB (js "{not-json") Sample.host_pending_B
     = Run (Ret tt) Sample.host_pending_B [] /\
   peer_ch_onmessage 0 (js "{not-json") Sample.joiner
     = Run (Ret tt) Sample.joiner []) /\
  (host_ch_onmessage 0 Sample.idB (js "null") Sample.host_pending_B
     = Run (Ret tt) Sample.host_pending_B [] /\
   peer_ch_onmessage 0 (js "null") Sample.joiner
     = Run (Ret tt) Sample.joiner []) /\
  (host_ch_onmessage 0 Sample.idB (js "[1]") Sample.host_pending_B
     = Run (Ret tt) Sample.host_pending_B
           (if onMessage Sample.host_pending_B
            then [Call_onMessage Sample.idB (VArr [VNum (Int 1)])] else []) /\
   peer_ch_onmessage 0 (js "[1]") Sample.joiner
     = Run (Ret tt) Sample.joiner
           (if onMessage Sample.joiner
            then [Call_onMessage (js "host") (VArr [VNum (Int 1)])] else [])).
Proof.
  pose proof (unparseable_frame_dropped Sample.host_pending_B 0 Sample.idB) as Hhost.
  pose proof (unparseable_frame_dropped Sample.joiner 0 Sample.idB) as Hpeer.
  split; [|split]; split.
  - apply (Hhost (js "{not-json")). left. exists SyntaxError. vm_compute. reflexivity.
  - apply (Hpeer (js "{not-json")). left. exists SyntaxError. vm_compute. reflexivity.
  - apply (Hhost (js "null")). right. vm_compute. reflexivity.
  - apply (Hpeer (js "null")). right. vm_compute. reflexivity.
  - apply (Hhost (js "[1]")); [vm_compute; reflexivity|discriminate|reflexivity].
  - apply (Hpeer (js "[1]")); [vm_compute; reflexivity|discriminate|reflexivity].
Defined.

(** C7, as stated, fails: frames that are JSON but no message envelope
    (an object without [type], an array, a string) are not dropped.  The
    handler of either side hands them to [onMessage]. *)
Lemma non_envelope_frame_forwarded :
  parses_as_envelope (js "{}") = false /\
  host_ch_onmessage 0 Sample.idB (js "{}") Sample.host_pending_B
    = Run (Ret tt) Sample.host_pending_B [Call_onMessage Sample.idB (VObj [])] /\
  peer_ch_onmessage 0 (js "{}") Sample.joiner
    = Run (Ret tt) Sample.joiner [Call_onMessage (js "host") (VObj [])] /\
  parses_as_envelope (js "[1]") = false /\
  host_ch_onmessage 0 Sample.idB (js "[1]") Sample.host_pending_B
    = Run (Ret tt) Sample.host_pending_B
          [Call_onMessage Sample.idB (VArr [VNum (Int 1)])] /\
  parses_as_envelope ([34] ++ js "hello" ++ [34]) = false /\
  host_ch_onmessage 0 Sample.idB ([34] ++ js "hello" ++ [34]) Sample.host_pending_B
    = Run (Ret tt) Sample.host_pending_B
          [Call_onMessage Sample.idB (VStr (js "hello"))] /\
  ~ (forall data,
       parses_as_envelope data = false ->
       host_ch_onmessage 0 Sample.idB data Sample.host_pending_B
         = Run (Ret tt) Sample.host_pending_B []).
Proof.
  repeat (split; [vm_compute; reflexivity|]).
  intros H. specialize (H (js "{}") eq_refl). vm_compute in H. discriminate.
Qed.

Lemma type_is_ping :
  type_is (VStr (js "ping")) "hello" = false /\
  type_is (VStr (js "ping")) "pong" = false /\
  type_is (VStr (js "ping")) "ping" = true /\
  type_is (VStr (js "ping")) "welcome" = false.
Proof. repeat split. Qed.

Lemma type_is_pong :
  type_is (VStr (js "pong")) "hello" = false /\
  type_is (VStr (js "pong")) "pong" = true /\
  type_is (VStr (js "pong")) "ping" = false /\
  type_is (VStr (js "pong")) "welcome" = false.
Proof. repeat split. Qed.

(** The frame of the reply [{type: 'pong', ts}] for an integral [ts]. *)
Lemma pong_frame (ts : Z) :
  safe_integer ts = true ->
  exists digits,
    JSON.number_toString (Int ts) = Ret digits /\
    frame_of (VObj [(js "type", VStr (js "pong")); (js "ts", VNum (Int ts))])
      = Ret (js "{" ++ JSON.QuoteJSONString (js "type") ++ js ":"
                    ++ JSON.QuoteJSONString (js "pong") ++ js ","
                    ++ JSON.QuoteJSONString (js "ts") ++ js ":" ++ digits ++ js "}").
Proof.
  intros Hs. unfold frame_of, JSON.stringify, JSON.serialize, JSON.number_toString.
  rewrite Hs. eexists. split; [reflexivity|].
  unfold mbind, result_bind. f_equal. simpl.
  rewrite ?app_nil_r, <- ?app_assoc. reflexivity.
Qed.

Lemma sendToPeer_open m peerId p msg frame :
  peers m !! peerId = Some p ->
  channel_open (ch p) = true ->
  frame_of msg = Ret frame ->
  sendToPeer peerId msg m = Run (Ret tt) m [PeerChannelSend peerId frame].
Proof.
  intros Hp Ho Hf. unfold sendToPeer.
  rewrite bind_get, Hp, Ho, Hf, bind_lift_ret. reflexivity.
Qed.

Lemma sendToHost_open m c msg frame :
  hostChannel m = Some c ->
  channel_open c = true ->
  frame_of msg = Ret frame ->
  sendToHost msg m = Run (Ret tt) m [HostChannelSend frame].
Proof.
  intros Hc Ho Hf. unfold sendToHost.
  rewrite bind_get, Hc, Ho, Hf, bind_lift_ret. reflexivity.
Qed.

(** Handling a probe: the reply carries the probe's [ts]. *)
Lemma handleHostMessage_ping m now peerId msg ts :
  get_prop msg (js "type") = Ret (VStr (js "ping")) ->
  get_prop msg (js "ts") = Ret ts ->
  _handleHostMessage now peerId msg m =
    sendToPeer peerId (VObj [(js "type", VStr (js "pong")); (js "ts", ts)]) m.
Proof.
  intros Ht Hts. unfold _handleHostMessage.
  rewrite Ht, bind_lift_ret. destruct type_is_ping as (-> & -> & -> & _).
  rewrite Hts, bind_lift_ret. reflexivity.
Qed.

Lemma handlePeerMessage_ping m now msg ts :
  get_prop msg (js "type") = Ret (VStr (js "ping")) ->
  get_prop msg (js "ts") = Ret ts ->
  _handlePeerMessage now msg m =
    sendToHost (VObj [(js "type", VStr (js "pong")); (js "ts", ts)]) m.
Proof.
  intros Ht Hts. unfold _handlePeerMessage.
  rewrite Ht, bind_lift_ret. destruct type_is_ping as (_ & _ & -> & ->).
  rewrite Hts, bind_lift_ret. reflexivity.
Qed.

(** Handling a response: the difference to the clock is stored. *)
Lemma handleHostMessage_pong m now peerId msg ts latency :
  get_prop msg (js "type") = Ret (VStr (js "pong")) ->
  get_prop msg (js "ts") = Ret ts ->
  minus_from now (nullish_zero ts) = Ret latency ->
  _handleHostMessage now peerId msg m =
    Run (Ret tt) (set_latency (insert peerId latency) m) [].
Proof.
  intros Ht Hts Hl. unfold _handleHostMessage.
  rewrite Ht, bind_lift_ret. destruct type_is_pong as (-> & -> & _ & _).
  rewrite Hts, bind_lift_ret, Hl, bind_lift_ret. reflexivity.
Qed.

Lemma handlePeerMessage_pong m now msg ts latency :
  get_prop msg (js "type") = Ret (VStr (js "pong")) ->
  get_prop msg (js "ts") = Ret ts ->
  minus_from now (nullish_zero ts) = Ret latency ->
  _handlePeerMessage now msg m =
    Run (Ret tt) (set_latency (insert (js "host") latency) m) [].
Proof.
  intros Ht Hts Hl. unfold _handlePeerMessage.
  rewrite Ht, bind_lift_ret. destruct type_is_pong as (_ & -> & -> & ->).
  rewrite Hts, bind_lift_ret, Hl, bind_lift_ret. reflexivity.
Qed.

(** C8. A probe [{type: 'ping', ts}] is answered with the frame of
    [{type: 'pong', ts}], the same [ts], on the channel it came from (host
    and joining side alike); a response [{type: 'pong', ts}] handled when
    the clock reads [t1] stores [t1 - ts] for its sender in the latency
    table, which is non-negative when [ts <= t1]. *)
Theorem ping_pong_latency
    (h j : NetworkManager) (peerId : jsstring) (p : PeerRecord)
    (c : RTCDataChannel) (ping pong : value) (ts t1 : Z) :
  get_prop ping (js "type") = Ret (VStr (js "ping")) ->
  get_prop ping (js "ts") = Ret (VNum (Int ts)) ->
  get_prop pong (js "type") = Ret (VStr (js "pong")) ->
  get_prop pong (js "ts") = Ret (VNum (Int ts)) ->
  safe_integer ts && safe_integer t1 && safe_integer (t1 - ts) = true ->
  peers h !! peerId = Some p -> channel_open (ch p) = true ->
  hostChannel j = Some c -> channel_open c = true ->
  let reply := VObj [(js "type", VStr (js "pong")); (js "ts", VNum (Int ts))] in
  (exists frame,
      frame_of reply = Ret frame /\
      _handleHostMessage t1 peerId ping h
        = Run (Ret tt) h [PeerChannelSend peerId frame] /\
      _handlePeerMessage t1 ping j = Run (Ret tt) j [HostChannelSend frame]) /\
  _handleHostMessage t1 peerId pong h
    = Run (Ret tt) (set_latency (insert peerId (Int (t1 - ts))) h) [] /\
  getLatency peerId (final (_handleHostMessage t1 peerId pong h))
    = Some (Int (t1 - ts)) /\
  _handlePeerMessage t1 pong j
    = Run (Ret tt) (set_latency (insert (js "host") (Int (t1 - ts))) j) [] /\
  getLatency (js "host") (final (_handlePeerMessage t1 pong j))
    = Some (Int (t1 - ts)) /\
  (ts <= t1 -> 0 <= t1 - ts).
Proof.
  intros Hpt Hpts Hqt Hqts Hsafe Hp Hpo Hc Hco reply.
  apply andb_true_iff in Hsafe as [Hsafe Hd].
  apply andb_true_iff in Hsafe as [Hts Ht1].
  assert (Hl : minus_from t1 (nullish_zero (VNum (Int ts))) = Ret (Int (t1 - ts))).
  { simpl. rewrite Ht1, Hts, Hd. reflexivity. }
  destruct (pong_frame ts Hts) as (digits & _ & Hf).
  split; [|repeat split].
  - eexists. split; [exact Hf|]. split.
    + rewrite (handleHostMessage_ping _ _ _ _ _ Hpt Hpts).
      apply (sendToPeer_open _ _ _ _ _ Hp Hpo Hf).
    + rewrite (handlePeerMessage_ping _ _ _ _ Hpt Hpts).
      apply (sendToHost_open _ _ _ _ Hc Hco Hf).
  - apply (handleHostMessage_pong _ _ _ _ _ _ Hqt Hqts Hl).
  - rewrite (handleHostMessage_pong _ _ _ _ _ _ Hqt Hqts Hl).
    unfold getLatency. simpl. apply lookup_insert_eq.
  - apply (handlePeerMessage_pong _ _ _ _ _ Hqt Hqts Hl).
  - rewrite (handlePeerMessage_pong _ _ _ _ _ Hqt Hqts Hl).
    unfold getLatency. simpl. apply lookup_insert_eq.
  - lia.
Qed.

(** The scenario of the design document: a probe with [ts = 1000], its
    response handled when the clock reads 1042. *)
Lemma ping_pong_latency_witness :
  let h := Sample.host_open_B in
  let j := Sample.joiner in
  let ping := VObj [(js "type", VStr (js "ping")); (js "ts", VNum (Int 1000))] in
  let pong := VObj [(js "type", VStr (js "pong")); (js "ts", VNum (Int 1000))] in
  (exists frame,
      frame_of pong = Ret frame /\
      _handleHostMessage 1042 Sample.idB ping h
        = Run (Ret tt) h [PeerChannelSend Sample.idB frame] /\
      _handlePeerMessage 1042 ping j = Run (Ret tt) j [HostChannelSend frame]) /\
  _handleHostMessage 1042 Sample.idB pong h
    = Run (Ret tt) (set_latency (insert Sample.idB (Int (1042 - 1000))) h) [] /\
  getLatency Sample.idB (final (_handleHostMessage 1042 Sample.idB pong h))
    = Some (Int (1042 - 1000)) /\
  _handlePeerMessage 1042 pong j
    = Run (Ret tt) (set_latency (insert (js "host") (Int (1042 - 1000))) j) [] /\
  getLatency (js "host") (final (_handlePeerMessage 1042 pong j))
    = Some (Int (1042 - 1000)) /\
  (1000 <= 1042 -> 0 <= 1042 - 1000).
Proof.
  cbv zeta.
  apply (ping_pong_latency Sample.host_open_B Sample.joiner Sample.idB
           {| pc := {| localDescription := Sample.offer; remoteDescription := VNull |};
              ch := {| label := CHANNEL_LABEL; readyState := open |};
              name := VNull |}
           {| label := CHANNEL_LABEL; readyState := open |}).
  - reflexivity.
  - reflexivity.
  - reflexivity.
  - reflexivity.
  - reflexivity.
  - vm_compute. reflexivity.
  - reflexivity.
  - reflexivity.
  - reflexivity.
Defined.

Example scenario_latency_42 :
  getLatency Sample.idB
    (final (host_ch_onmessage 1042 Sample.idB
              (js "{" ++ JSON.QuoteJSONString (js "type") ++ js ":"
               ++ JSON.QuoteJSONString (js "pong") ++ js ","
               ++ JSON.QuoteJSONString (js "ts") ++ js ":1000}")
              Sample.host_open_B))
  = Some (Int 42).
Proof. vm_compute. reflexivity. Qed.

End Router.

(* ------------------------------------------------------------------ *)
(** ** The state snapshot                                              *)
(* ------------------------------------------------------------------ *)

Section Snapshot.
Import Game.

(** C10. Two states that agree on the nine fields read by
    [serialiseForSync] give the same snapshot, whatever their
    [imposterIndex], [currentWord] and role fields; the frames the sync
    loop broadcasts from it are therefore the same too. *)
Theorem serialiseForSync_hides_secrets (a b : State) :
  same_public_fields a b ->
  serialiseForSync a = serialiseForSync b /\
  forall m : Net.NetworkManager, sync_broadcast a m = sync_broadcast b m.
Proof.
  intros (Hp & Hc & Hph & Hr & Hcur & Hcl & Hst & Hts & Htr).
  assert (H : serialiseForSync a = serialiseForSync b).
  { unfold serialiseForSync.
    rewrite Hp, Hc, Hph, Hr, Hcur, Hcl, Hst, Hts, Htr. reflexivity. }
  split; [exact H|].
  intros m. unfold sync_broadcast. rewrite H. reflexivity.
Qed.

Lemma serialiseForSync_hides_secrets_witness :
  (imposterIndex Sample.round_a <> imposterIndex Sample.round_b /\
   currentWord Sample.round_a <> currentWord Sample.round_b /\
   _localIsImposter Sample.round_a <> _localIsImposter Sample.round_b) /\
  serialiseForSync Sample.round_a = serialiseForSync Sample.round_b /\
  forall m : Net.NetworkManager,
    sync_broadcast Sample.round_a m = sync_broadcast Sample.round_b m.
Proof.
  split.
  - repeat split; discriminate.
  - apply (serialiseForSync_hides_secrets Sample.round_a Sample.round_b).
    repeat split.
Defined.

(** What the host of the sample round puts on the wire at a tick. *)
Example sync_frame_has_no_secret :
  exists frame,
    Net.effects (sync_broadcast Sample.round_a Sample.host_open_B)
      = [Net.PeerChannelSend Sample.idB frame] /\
    exists snapshot, JSON.parse frame = Ret snapshot /\
      get_prop snapshot (js "state") = Ret (serialiseForSync Sample.round_a).
Proof.
  eexists. split; [vm_compute; reflexivity|].
  eexists. split; [vm_compute; reflexivity|]. vm_compute. reflexivity.
Qed.

End Snapshot.

(* ------------------------------------------------------------------ *)
(** ** The wire format: what is written is what is read                *)
(* ------------------------------------------------------------------ *)

Section Decimal.
Import JSON Wire.

Lemma decimal_value_rev ds : decimal_value (rev ds) = value_rev ds.
Proof.
  unfold decimal_value, value_rev.
  rewrite <- fold_left_rev_right, rev_involutive. reflexivity.
Qed.

Lemma digit_char_10 d : 0 <= d < 10 -> digit_char d = 48 + d /\ is_digit (digit_char d) = true.
Proof.
  intros H. unfold digit_char, is_digit.
  destruct (Z.ltb_spec d 10); [|lia]. split; [reflexivity|].
  apply andb_true_iff. rewrite !Z.leb_le. lia.
Qed.

(** The digits [digits_rev] writes, when the budget covers the number. *)
Lemma digits_rev_spec (fuel : nat) : forall z,
  0 <= z < 2 ^ Z.of_nat fuel -> (0 < fuel)%nat ->
  let ds := digits_rev 10 fuel z in
  value_rev ds = z /\
  Forall (fun c => is_digit c = true) ds /\
  ds <> [] /\
  (0 < z -> exists d, last ds = Some d /\ d <> 48).
Proof.
  induction fuel as [|f IH]; intros z Hz Hf; [lia|].
  cbn [digits_rev]. destruct (Z.ltb_spec z 10) as [Hlt|Hge].
  - destruct (digit_char_10 z ltac:(lia)) as [E D]. cbv zeta.
    split; [cbn; rewrite E; lia|]. split; [repeat constructor; exact D|].
    split; [discriminate|]. intros Hpos. exists (digit_char z).
    split; [reflexivity|]. rewrite E. lia.
  - assert (Hq : 0 <= z / 10 < 2 ^ Z.of_nat f).
    { rewrite Nat2Z.inj_succ, Z.pow_succ_r in Hz by lia.
      split; [apply Z.div_pos; lia|].
      apply Z.div_lt_upper_bound; lia. }
    assert (Hf' : (0 < f)%nat).
    { destruct f; [|lia]. cbn in Hq. assert (z / 10 = 0) by lia.
      assert (1 <= z / 10) by (apply Z.div_le_lower_bound; lia). lia. }
    destruct (IH (z / 10) Hq Hf') as (Hv & Hd & Hne & Hl).
    assert (Hm : 0 <= z mod 10 < 10) by (apply Z.mod_pos_bound; lia).
    destruct (digit_char_10 _ Hm) as [E D]. cbv zeta.
    split; [cbn [value_rev fold_right]; fold (value_rev (digits_rev 10 f (z / 10)));
            rewrite Hv, E; Z.div_mod_to_equations; lia|].
    split; [constructor; assumption|]. split; [discriminate|].
    intros _. destruct Hl as (d & Hd' & Hnz).
    { apply Z.div_str_pos. lia. }
    exists d. split; [|exact Hnz].
    destruct (digits_rev 10 f (z / 10)); [congruence|]. exact Hd'.
Qed.

Lemma log2_budget z : 0 <= z -> z < 2 ^ Z.of_nat (S (Z.to_nat (Z.log2 z))).
Proof.
  intros Hz. rewrite Nat2Z.inj_succ, Z2Nat.id by apply Z.log2_nonneg.
  destruct (Z.eq_dec z 0) as [->|]; [reflexivity|].
  apply Z.log2_spec. lia.
Qed.

(** The decimal rendering of a natural number: digits only, its value is
    the number, and it has no leading zero unless the number is 0. *)
Lemma nat_toString_10 z :
  0 <= z ->
  let ds := nat_toString 10 z in
  decimal_value ds = z /\
  Forall (fun c => is_digit c = true) ds /\
  exists d r, ds = d :: r /\ (d = 48 -> z = 0 /\ r = []).
Proof.
  intros Hz. unfold nat_toString. cbv zeta.
  destruct (digits_rev_spec _ z (conj Hz (log2_budget z Hz)) ltac:(lia))
    as (Hv & Hd & Hne & Hl).
  set (l := digits_rev 10 _ z) in *.
  split; [rewrite decimal_value_rev; exact Hv|].
  split; [apply Forall_rev, Hd|].
  destruct (Z.eq_dec z 0) as [->|Hnz].
  - exists 48, []. split; [reflexivity|auto].
  - destruct Hl as (d & Hlast & Hd48); [lia|].
    apply last_Some in Hlast as [l' ->].
    rewrite rev_app_distr. cbn [rev app]. exists d, (rev l').
    split; [reflexivity|]. intros ->. congruence.
Qed.

Lemma take_digits_app ds rest :
  Forall (fun c => is_digit c = true) ds ->
  match rest with [] => True | c :: _ => is_digit c = false end ->
  take_digits (ds ++ rest) = (ds, rest).
Proof.
  intros Hd Hr. induction Hd as [|c ds Hc _ IH].
  - destruct rest as [|c r]; [reflexivity|]. cbn. rewrite Hr. reflexivity.
  - cbn [app take_digits]. rewrite Hc, IH. reflexivity.
Qed.

Lemma ends_number_spec rest :
  ends_number rest = true ->
  match rest with [] => True | c :: _ => is_digit c = false end /\
  scan_fraction rest = Ret ([], rest) /\
  scan_exponent rest = Ret ([], rest).
Proof.
  destruct rest as [|c r]; [auto|]. cbn [ends_number]. intros H.
  apply negb_true_iff in H. apply orb_false_iff in H as [H He2].
  apply orb_false_iff in H as [H He1]. apply orb_false_iff in H as [Hd Hdot].
  split; [exact Hd|]. cbn [scan_fraction scan_exponent].
  rewrite Hdot, He1, He2. auto.
Qed.

Lemma parse_number_sign c r :
  parse_number (c :: r) =
    if c =? 45 then number_after true r else number_after false (c :: r).
Proof. unfold parse_number. destruct (c =? 45); reflexivity. Qed.

Lemma number_after_digits neg ds rest :
  scan_integer (ds ++ rest) = Ret (ds, rest) ->
  scan_fraction rest = Ret ([], rest) ->
  scan_exponent rest = Ret ([], rest) ->
  safe_integer (decimal_value ds) = true ->
  (neg = true -> decimal_value ds <> 0) ->
  number_after neg (ds ++ rest)
  = Ret (VNum (Int (if neg then - decimal_value ds else decimal_value ds)), rest).
Proof.
  intros H1 H2 H3 Hs Hn. unfold number_after.
  rewrite H1. cbn [mbind result_bind]. rewrite H2. cbn [mbind result_bind].
  rewrite H3. cbn [mbind result_bind]. rewrite Hs.
  rewrite !bool_decide_eq_true_2 by reflexivity.
  destruct neg; [|reflexivity].
  destruct (Z.eqb_spec (decimal_value ds) 0); [specialize (Hn eq_refl); contradiction|].
  reflexivity.
Qed.

(** A safe integer is read back from its rendering. *)
Lemma parse_number_toString z ds rest :
  number_toString (Int z) = Ret ds ->
  ends_number rest = true ->
  parse_number (ds ++ rest) = Ret (VNum (Int z), rest) /\
  exists c r, ds = c :: r /\ ((c =? 45) || is_digit c) = true.
Proof.
  unfold number_toString. destruct (safe_integer z) eqn:Hs; [|discriminate].
  intros [= <-] Hrest.
  destruct (ends_number_spec rest Hrest) as (Hnd & Hfr & Hex).
  assert (Hpos : forall n, 0 <= n -> safe_integer n = true ->
            exists c r, nat_toString 10 n = c :: r /\ is_digit c = true /\
              forall neg, (neg = true -> n <> 0) ->
                number_after neg (nat_toString 10 n ++ rest)
                = Ret (VNum (Int (if neg then - n else n)), rest)).
  { intros n Hn Hsn. destruct (nat_toString_10 n Hn) as (Hv & Hd & d & r & E & Hz).
    assert (Hscan : scan_integer (nat_toString 10 n ++ rest)
                    = Ret (nat_toString 10 n, rest)).
    { rewrite E in *. cbn [app scan_integer].
      apply Forall_cons in Hd as [Hd0 Hd'].
      destruct (Z.eqb_spec d 48) as [->|Hne].
      - destruct (Hz eq_refl) as [_ ->]. reflexivity.
      - rewrite Hd0. change (d :: r ++ rest) with ((d :: r) ++ rest).
        rewrite (take_digits_app (d :: r) rest); [reflexivity| |exact Hnd].
        constructor; assumption. }
    exists d, r. split; [exact E|].
    split; [rewrite E in Hd; apply Forall_cons in Hd as [Hd0 _]; exact Hd0|].
    intros neg Hneg.
    rewrite (number_after_digits neg _ rest Hscan Hfr Hex); rewrite Hv; auto. }
  destruct (Z.ltb_spec z 0) as [Hneg|Hge].
  - destruct (Hpos (- z)) as (c & r & E & Hc & H); [lia| |].
    { unfold safe_integer in *. rewrite Z.abs_opp. exact Hs. }
    split; [|exists 45, (nat_toString 10 (- z)); split; reflexivity].
    rewrite <- app_comm_cons, parse_number_sign. change (45 =? 45) with true.
    cbv iota. rewrite (H true) by lia. rewrite Z.opp_involutive. reflexivity.
  - destruct (Hpos z Hge Hs) as (c & r & E & Hc & H).
    split; [|exists c, r; split; [exact E|rewrite Hc; apply orb_true_r]].
    assert (Hc45 : (c =? 45) = false).
    { unfold is_digit in Hc. apply andb_true_iff in Hc as [Hc _].
      apply Z.leb_le in Hc. apply Z.eqb_neq. lia. }
    rewrite E at 1. rewrite <- app_comm_cons, parse_number_sign, Hc45.
    rewrite app_comm_cons, <- E. apply (H false). discriminate.
Qed.

End Decimal.

Section WireRoundTrip.
Import JSON Wire Codec.

Lemma serialize_VArr l :
  serialize (VArr l) =
    parts ← serialize_elements l; Ret (Some (91 :: join_comma parts ++ [93])).
Proof. reflexivity. Qed.

Lemma serialize_VObj ps :
  serialize (VObj ps) =
    parts ← serialize_members ps; Ret (Some (123 :: join_comma parts ++ [125])).
Proof. reflexivity. Qed.

(** Induction on values with the hypothesis for the elements of an array
    and the members of an object. *)
Lemma value_nested_ind (P : value -> Prop) :
  P VUndefined -> P VNull -> (forall b, P (VBool b)) -> (forall n, P (VNum n)) ->
  (forall s, P (VStr s)) ->
  (forall l, Forall P l -> P (VArr l)) ->
  (forall ps, Forall (fun p => P p.2) ps -> P (VObj ps)) ->
  forall v, P v.
Proof.
  intros HU HN HB HNum HS HA HO.
  refine (fix F (v : value) : P v :=
            match v with
            | VUndefined => HU
            | VNull => HN
            | VBool b => HB b
            | VNum n => HNum n
            | VStr s => HS s
            | VArr l =>
                HA l ((fix G (l : list value) : Forall P l :=
                         match l with
                         | [] => @List.Forall_nil _ P
                         | x :: r => @List.Forall_cons _ P x r (F x) (G r)
                         end) l)
            | VObj ps =>
                HO ps ((fix G (ps : list (jsstring * value))
                          : Forall (fun p => P p.2) ps :=
                          match ps with
                          | [] => @List.Forall_nil _ (fun p => P p.2)
                          | p :: r =>
                              @List.Forall_cons _ (fun p => P p.2) p r (F p.2) (G r)
                          end) ps)
            end).
Qed.

Lemma wf_of_code_unitb s : forallb code_unitb s = true -> wf_string s.
Proof.
  intros H. apply Forall_forall. intros c Hc.
  rewrite forallb_forall in H. apply list_elem_of_In, H in Hc.
  unfold code_unitb in Hc. apply andb_true_iff in Hc as [H1 H2].
  apply Z.leb_le in H1. apply Z.ltb_lt in H2. split; assumption.
Qed.

Lemma number_head c :
  ((c =? 45) || is_digit c) = true ->
  is_ws c = false /\ (c =? 123) = false /\ (c =? 91) = false /\ (c =? 34) = false
  /\ c <> 93 /\ c <> 125.
Proof.
  unfold is_digit, is_ws. intros H.
  apply orb_true_iff in H as [H|H].
  - apply Z.eqb_eq in H. subst. repeat split; discriminate.
  - apply andb_true_iff in H as [H1 H2]. apply Z.leb_le in H1, H2.
    repeat split; try lia; zcases.
Qed.

Lemma reads_back_null : reads_back VNull (js "null").
Proof.
  split; [exists 110, (js "ull"); repeat split; discriminate|].
  exists 1%nat. intros [|f] rest Hf _; [lia|]. reflexivity.
Qed.

Lemma reads_back_bool b :
  reads_back (VBool b) (if b then js "true" else js "false").
Proof.
  destruct b.
  - split; [exists 116, (js "rue"); repeat split; discriminate|].
    exists 1%nat. intros [|f] rest Hf _; [lia|]. reflexivity.
  - split; [exists 102, (js "alse"); repeat split; discriminate|].
    exists 1%nat. intros [|f] rest Hf _; [lia|]. reflexivity.
Qed.

Lemma reads_back_number z ds :
  number_toString (Int z) = Ret ds -> reads_back (VNum (Int z)) ds.
Proof.
  intros H.
  destruct (parse_number_toString z ds [] H eq_refl) as (_ & c & r & E & Hc).
  destruct (number_head c Hc) as (Hws & H1 & H2 & H3 & H4 & H5).
  split; [exists c, r; auto|].
  exists 1%nat. intros [|f] rest Hf Hrest; [lia|].
  destruct (parse_number_toString z ds rest H Hrest) as (Hp & _).
  rewrite parse_value_eq. subst ds. cbn [app].
  rewrite skip_ws_keep by exact Hws. rewrite H1, H2, H3, Hc. exact Hp.
Qed.

Lemma reads_back_string s :
  wf_string s -> reads_back (VStr s) (QuoteJSONString s).
Proof.
  intros Hs. split; [eexists 34, _; repeat split; discriminate|].
  exists 1%nat. intros [|f] rest Hf _; [lia|].
  unfold QuoteJSONString. cbn [app]. rewrite <- app_assoc. cbn [app].
  apply parse_value_string, Hs.
Qed.

Lemma parse_elements_join l parts :
  Forall2 reads_back l parts ->
  forall v t, reads_back v t ->
  exists f0 : nat, forall f rest acc, (f0 <= f)%nat ->
    parse_elements f (t ++ flat_map (fun q => 44 :: q) parts ++ 93 :: rest) acc
    = Ret (VArr (acc ++ v :: l), rest).
Proof.
  induction 1 as [|w p l parts Hw _ IH]; intros v t (_ & f0 & Hv).
  - exists (S f0). intros [|f] rest acc Hf; [lia|].
    rewrite parse_elements_eq. cbn [flat_map app].
    rewrite Hv by (reflexivity || lia). cbn [mbind result_bind].
    rewrite skip_ws_keep by reflexivity. reflexivity.
  - destruct (IH w p Hw) as (f1 & H1).
    exists (S (Nat.max f0 f1)). intros [|f] rest acc Hf; [lia|].
    rewrite parse_elements_eq. cbn [flat_map]. rewrite <- !app_assoc. cbn [app].
    rewrite Hv by (reflexivity || lia). cbn [mbind result_bind].
    rewrite skip_ws_keep by reflexivity. change (44 =? 44) with true. cbv iota.
    rewrite H1 by lia. rewrite <- app_assoc. reflexivity.
Qed.

Lemma parse_members_join l parts :
  Forall2 (fun kv p => wf_string kv.1 /\
             exists t, p = QuoteJSONString kv.1 ++ 58 :: t /\ reads_back kv.2 t)
          l parts ->
  forall k v t, wf_string k -> reads_back v t ->
  exists f0 : nat, forall f rest acc, (f0 <= f)%nat ->
    parse_members f
      (QuoteJSONString k ++ 58 :: t ++ flat_map (fun q => 44 :: q) parts ++ 125 :: rest)
      acc
    = Ret (VObj (define_all ((k, v) :: l) acc), rest).
Proof.
  induction 1 as [|[k' w] p l parts (Hk' & t' & -> & Hw) _ IH];
    intros k v t Hk (_ & f0 & Hv).
  - exists (S f0). intros [|f] rest acc Hf; [lia|].
    rewrite parse_members_eq. unfold QuoteJSONString.
    cbn [flat_map app]. rewrite <- app_assoc. cbn [app].
    rewrite skip_ws_keep by reflexivity. change (34 =? 34) with true. cbv iota.
    rewrite parse_quote_chars by exact Hk. cbn [mbind result_bind].
    rewrite skip_ws_keep by reflexivity. change (58 =? 58) with true. cbv iota.
    rewrite Hv by (reflexivity || lia). cbn [mbind result_bind].
    rewrite skip_ws_keep by reflexivity. reflexivity.
  - destruct (IH k' w t' Hk' Hw) as (f1 & H1).
    exists (S (Nat.max f0 f1)). intros [|f] rest acc Hf; [lia|].
    rewrite parse_members_eq. unfold QuoteJSONString at 1.
    cbn [flat_map app]. rewrite <- !app_assoc. cbn [app].
    rewrite skip_ws_keep by reflexivity. change (34 =? 34) with true. cbv iota.
    rewrite parse_quote_chars by exact Hk. cbn [mbind result_bind].
    rewrite skip_ws_keep by reflexivity. change (58 =? 58) with true. cbv iota.
    rewrite Hv by (reflexivity || lia). cbn [mbind result_bind].
    rewrite skip_ws_keep by reflexivity. change (44 =? 44) with true. cbv iota.
    cbn [fst snd] in H1.
    rewrite H1 by lia. reflexivity.
Qed.

Lemma obj_get_None k props :
  existsb (fun k' => bool_decide (k' = k)) (map fst props) = false ->
  obj_get k props = None.
Proof.
  induction props as [|[k' v] r IH]; [reflexivity|].
  cbn [map fst existsb obj_get]. intros H. apply orb_false_iff in H as [H1 H2].
  rewrite H1. apply IH, H2.
Qed.

Lemma define_all_fresh l : forall acc,
  forallb (fun kv => plain_key kv.1) l = true ->
  distinct (map fst (acc ++ l)) = true ->
  define_all l acc = acc ++ l.
Proof.
  induction l as [|[k v] r IH]; intros acc Hp Hd.
  - cbn. rewrite app_nil_r. reflexivity.
  - cbn [forallb fst] in Hp. apply andb_true_iff in Hp as [Hk Hr].
    unfold define_all. cbn [fold_left fst snd]. fold (define_all r (obj_define k v acc)).
    assert (obj_define k v acc = acc ++ [(k, v)]) as ->.
    { unfold obj_define. rewrite obj_get_None.
      - unfold plain_key in Hk. apply andb_true_iff in Hk as [_ Hk].
        destruct (array_index k); [discriminate|reflexivity].
      - clear -Hd. induction acc as [|[k' v'] acc IH].
        + reflexivity.
        + cbn [app map fst distinct existsb] in *.
          apply andb_true_iff in Hd as [H1 H2].
          rewrite IH by exact H2. rewrite orb_false_r.
          apply negb_true_iff in H1. rewrite map_app, existsb_app in H1.
          apply orb_false_iff in H1 as [_ H1]. cbn [map fst existsb] in H1.
          apply orb_false_iff in H1 as [H1 _].
          rewrite bool_decide_eq_false in H1 |- *. congruence. }
    rewrite IH; [|exact Hr|rewrite <- app_assoc; exact Hd].
    rewrite <- app_assoc. reflexivity.
Qed.

(** Every wire value has a JSON text, and the text reads back as the
    value. *)
Lemma serialize_reads_back v :
  wire_ok v = true -> exists t, serialize v = Ret (Some t) /\ reads_back v t.
Proof.
  induction v as [| |b|n|s|l IH|ps IH] using value_nested_ind; intros Hok.
  - discriminate.
  - eexists. split; [reflexivity|apply reads_back_null].
  - exists (if b then js "true" else js "false").
    split; [destruct b; reflexivity|apply reads_back_bool].
  - destruct n as [z|lx]; [|discriminate]. cbn [wire_ok] in Hok.
    destruct (number_toString (Int z)) as [ds| |] eqn:E;
      try (cbn in E; rewrite Hok in E; discriminate).
    exists ds. split; [cbn [serialize]; rewrite E; reflexivity|].
    apply reads_back_number, E.
  - eexists. split; [reflexivity|]. apply reads_back_string, wf_of_code_unitb, Hok.
  - cbn [wire_ok] in Hok. rewrite serialize_VArr.
    assert (exists parts, serialize_elements l = Ret parts /\ Forall2 reads_back l parts)
      as (parts & -> & Hparts).
    { induction IH as [|x r Hx _ IHr]; [exists []; split; [reflexivity|constructor]|].
      cbn [forallb] in Hok. apply andb_true_iff in Hok as [H1 H2].
      destruct (Hx H1) as (t & Et & Ht). destruct (IHr H2) as (parts & Ep & Hp).
      exists (t :: parts). cbn [serialize_elements]. rewrite Et, Ep.
      split; [reflexivity|constructor; assumption]. }
    cbn [mbind result_bind]. eexists. split; [reflexivity|].
    split; [eexists 91, _; repeat split; discriminate|].
    destruct Hparts as [|v t l parts Hv Hl].
    + exists 1%nat. intros [|f] rest Hf _; [lia|]. reflexivity.
    + destruct (parse_elements_join l parts Hl v t Hv) as (f0 & H0).
      exists (S f0). intros [|f] rest Hf _; [lia|].
      rewrite parse_value_eq. cbn [join_comma app]. rewrite <- !app_assoc. cbn [app].
      rewrite skip_ws_keep by reflexivity.
      change (91 =? 123) with false. change (91 =? 91) with true. cbv iota.
      destruct Hv as ((c & r & -> & Hws & H93 & _) & _). cbn [app].
      rewrite skip_ws_keep by exact Hws.
      apply Z.eqb_neq in H93. rewrite H93.
      change (c :: r ++ flat_map (fun q => 44 :: q) parts ++ 93 :: rest)
        with ((c :: r) ++ flat_map (fun q => 44 :: q) parts ++ 93 :: rest).
      rewrite H0 by lia. reflexivity.
  - cbn [wire_ok] in Hok. apply andb_true_iff in Hok as [Hok Hd].
    rewrite serialize_VObj.
    assert (exists parts, serialize_members ps = Ret parts /\
              Forall2 (fun kv p => wf_string kv.1 /\
                         exists t, p = QuoteJSONString kv.1 ++ 58 :: t /\
                                   reads_back kv.2 t) ps parts)
      as (parts & -> & Hparts).
    { clear Hd. induction IH as [|[k x] r Hx _ IHr];
        [exists []; split; [reflexivity|constructor]|].
      cbn [forallb] in Hok. apply andb_true_iff in Hok as [H1 H2].
      apply andb_true_iff in H1 as [Hk H1].
      destruct (Hx H1) as (t & Et & Ht). destruct (IHr H2) as (parts & Ep & Hp).
      exists ((QuoteJSONString k ++ 58 :: t) :: parts).
      cbn [serialize_members]. cbn [snd] in Et. rewrite Et, Ep.
      split; [reflexivity|]. constructor; [|assumption].
      split; [|eauto]. cbn [fst]. unfold plain_key in Hk.
      apply andb_true_iff in Hk as [Hk _]. apply wf_of_code_unitb, Hk. }
    cbn [mbind result_bind]. eexists. split; [reflexivity|].
    split; [eexists 123, _; repeat split; discriminate|].
    assert (forallb (fun kv : jsstring * value => plain_key kv.1) ps = true) as Hplain.
    { clear -Hok. induction ps as [|[k x] r IHr]; [reflexivity|].
      cbn [forallb fst] in *. apply andb_true_iff in Hok as [H1 H2].
      apply andb_true_iff in H1 as [H1 _]. rewrite H1, IHr by exact H2. reflexivity. }
    destruct Hparts as [|[k v] p l parts (Hk & t & -> & Hv) Hl].
    + exists 1%nat. intros [|f] rest Hf _; [lia|]. reflexivity.
    + destruct (parse_members_join l parts Hl k v t Hk Hv) as (f0 & H0).
      exists (S f0). intros [|f] rest Hf _; [lia|].
      rewrite parse_value_eq. cbn [join_comma app fst]. rewrite <- !app_assoc. cbn [app].
      rewrite skip_ws_keep by reflexivity.
      change (123 =? 123) with true. cbv iota.
      unfold QuoteJSONString at 1. cbn [app].
      rewrite skip_ws_keep by reflexivity.
      change (34 =? 125) with false. cbv iota.
      specialize (H0 f rest []). unfold QuoteJSONString at 1 in H0.
      cbn [app] in H0. rewrite <- !app_assoc in H0. cbn [app] in H0.
      rewrite <- !app_assoc. cbn [app].
      rewrite H0 by lia. rewrite define_all_fresh; [reflexivity|exact Hplain|exact Hd].
Qed.

(** More budget never changes an answer of the parser. *)
Lemma fuel_stable (f : nat) :
  (forall s, parse_value f s <> Unsupported ->
             parse_value (S f) s = parse_value f s) /\
  (forall s acc, parse_elements f s acc <> Unsupported ->
                 parse_elements (S f) s acc = parse_elements f s acc) /\
  (forall s acc, parse_members f s acc <> Unsupported ->
                 parse_members (S f) s acc = parse_members f s acc).
Proof.
  induction f as [|f (IHv & IHe & IHm)].
  { repeat split; intros; cbn in *; congruence. }
  split; [|split].
  - intros s. rewrite (parse_value_eq (S f)), (parse_value_eq f).
    destruct (skip_ws s) as [|c r]; [reflexivity|].
    destruct (c =? 123).
    { destruct (skip_ws r) as [|d r']; [reflexivity|].
      destruct (d =? 125); [reflexivity|]. apply IHm. }
    destruct (c =? 91).
    { destruct (skip_ws r) as [|d r']; [reflexivity|].
      destruct (d =? 93); [reflexivity|]. apply IHe. }
    reflexivity.
  - intros s acc. rewrite (parse_elements_eq (S f)), (parse_elements_eq f).
    intros H. rewrite IHv by (intros E; rewrite E in H; apply H; reflexivity).
    destruct (parse_value f s) as [[v r]| |]; cbn [mbind result_bind] in *;
      try reflexivity.
    destruct (skip_ws r) as [|d r']; [reflexivity|].
    destruct (d =? 44); [apply IHe, H|reflexivity].
  - intros s acc. rewrite (parse_members_eq (S f)), (parse_members_eq f).
    destruct (skip_ws s) as [|q r]; [reflexivity|].
    destruct (q =? 34); [|reflexivity].
    destruct (parse_chars r) as [[k r1]| |]; cbn [mbind result_bind]; try reflexivity.
    destruct (skip_ws r1) as [|d r2]; [reflexivity|].
    destruct (d =? 58); [|reflexivity].
    intros H. rewrite IHv by (intros E; rewrite E in H; apply H; reflexivity).
    destruct (parse_value f r2) as [[v r3]| |]; cbn [mbind result_bind] in *;
      try reflexivity.
    destruct (skip_ws r3) as [|e r4]; [reflexivity|].
    destruct (e =? 44); [apply IHm, H|reflexivity].
Qed.

Lemma fuel_enough f f' s :
  (f <= f')%nat -> parse_value f s <> Unsupported -> parse_value f' s = parse_value f s.
Proof.
  induction 1 as [|f' _ IH]; [reflexivity|]. intros H.
  destruct (fuel_stable f') as (Hv & _).
  rewrite Hv; rewrite IH by exact H; [reflexivity|exact H].
Qed.

(** [JSON.parse] reads a text back as [v] as soon as [parse_value] does
    with some budget. *)
Lemma parse_reads_back v t : reads_back v t -> JSON.parse t = Ret v.
Proof.
  intros (_ & f0 & H). unfold JSON.parse.
  set (F := (2 * length t + 2)%nat).
  assert (parse_value F t <> Unsupported) as HF.
  { destruct (parse_budget F) as (Hv & _). specialize (Hv t).
    intros E. rewrite E in Hv. cbn in Hv. subst F. lia. }
  rewrite <- (fuel_enough F (Nat.max F f0) t) by (lia || exact HF).
  specialize (H (Nat.max F f0) [] ltac:(lia) eq_refl).
  rewrite app_nil_r in H. rewrite H. reflexivity.
Qed.

(** X1. A message made of null, booleans, integers, strings, arrays and
    objects with distinct non-index keys is serialised to a frame that
    [JSON.parse] reads back as the same message. *)
Theorem frame_round_trip (msg : value) :
  wire_ok msg = true ->
  exists t, Net.frame_of msg = Ret t /\ JSON.parse t = Ret msg.
Proof.
  intros Hok. destruct (serialize_reads_back msg Hok) as (t & Et & Ht).
  exists t. split; [|apply parse_reads_back, Ht].
  unfold Net.frame_of, stringify. rewrite Et. reflexivity.
Qed.

Lemma frame_round_trip_witness :
  exists t, Net.frame_of sample_message = Ret t /\ JSON.parse t = Ret sample_message.
Proof. apply (frame_round_trip sample_message). reflexivity. Defined.

End WireRoundTrip.

(* ------------------------------------------------------------------ *)
(** ** The message link between host and joining side                  *)
(* ------------------------------------------------------------------ *)

Section MessageLink.
Import JSON Net Wire Link.

Lemma bind_run {A B} (c : M A) (k : A -> M B) m a m' es :
  c m = Run (Ret a) m' es ->
  (c ≫= k) m = Run (res (k a m')) (final (k a m')) (es ++ effects (k a m')).
Proof. intros H. unfold mbind, M_bind. rewrite H. reflexivity. Qed.

Lemma bind_skip {B} (k : unit -> M B) m : (skip ≫= k) m = k tt m.
Proof. apply (bind_lift_ret tt k m). Qed.

Lemma try_catch_ret (body : M unit) m m' es :
  body m = Run (Ret tt) m' es -> try_catch body m = Run (Ret tt) m' es.
Proof. intros H. unfold try_catch. rewrite H. reflexivity. Qed.

(** The joining side's router on a message it does not handle itself. *)
Lemma handlePeerMessage_forward m now msg ty :
  get_prop msg (js "type") = Ret ty ->
  peer_builtin ty = false ->
  _handlePeerMessage now msg m =
    Run (Ret tt) m (if onMessage m then [Call_onMessage (js "host") msg] else []).
Proof.
  intros Hty Hb. unfold peer_builtin in Hb.
  apply orb_false_iff in Hb as [Hb H3]. apply orb_false_iff in Hb as [H1 H2].
  unfold _handlePeerMessage. rewrite Hty, bind_lift_ret, H1, H2, H3, bind_get.
  destruct (onMessage m); reflexivity.
Qed.

Lemma handleHostMessage_forward m now peerId msg ty :
  get_prop msg (js "type") = Ret ty ->
  host_builtin ty = false ->
  _handleHostMessage now peerId msg m =
    Run (Ret tt) m (if onMessage m then [Call_onMessage peerId msg] else []).
Proof.
  intros Hty Hb. unfold host_builtin in Hb.
  apply orb_false_iff in Hb as [Hb H3]. apply orb_false_iff in Hb as [H1 H2].
  unfold _handleHostMessage. rewrite Hty, bind_lift_ret, H1, H2, H3, bind_get.
  destruct (onMessage m); reflexivity.
Qed.

Lemma peer_onmessage_parsed m now data msg :
  JSON.parse data = Ret msg ->
  peer_ch_onmessage now data m = try_catch (_handlePeerMessage now msg) m.
Proof.
  intros H. unfold peer_ch_onmessage, try_catch. rewrite H, bind_lift_ret. reflexivity.
Qed.

Lemma host_onmessage_parsed m now peerId data msg :
  JSON.parse data = Ret msg ->
  host_ch_onmessage now peerId data m = try_catch (_handleHostMessage now peerId msg) m.
Proof.
  intros H. unfold host_ch_onmessage, try_catch. rewrite H, bind_lift_ret. reflexivity.
Qed.

(** A wire value has a frame, and the frame reads back as the value. *)
Lemma wire_frame msg :
  wire_ok msg = true -> exists frame, frame_of msg = Ret frame /\ reads_back msg frame.
Proof.
  intros Hok. destruct (serialize_reads_back msg Hok) as (t & Et & Ht).
  exists t. split; [|exact Ht]. unfold frame_of, stringify. rewrite Et. reflexivity.
Qed.

(** X2. An application message the host sends to a peer with an open
    channel arrives intact: the frame [sendToPeer] hands to the channel,
    given to the joining side's [onmessage] handler, makes it call
    [onMessage('host', msg)] with the very message, and nothing else. *)
Theorem host_to_peer_delivery
    (h j : NetworkManager) (peerId : jsstring) (p : PeerRecord)
    (msg ty : value) (now : Z) :
  wire_ok msg = true ->
  get_prop msg (js "type") = Ret ty ->
  peer_builtin ty = false ->
  peers h !! peerId = Some p -> channel_open (ch p) = true ->
  onMessage j = true ->
  exists frame,
    sendToPeer peerId msg h = Run (Ret tt) h [PeerChannelSend peerId frame] /\
    peer_ch_onmessage now frame j = Run (Ret tt) j [Call_onMessage (js "host") msg].
Proof.
  intros Hok Hty Hb Hp Ho Hcb.
  destruct (wire_frame msg Hok) as (frame & Hf & Hparse).
  apply parse_reads_back in Hparse.
  exists frame. split; [apply (sendToPeer_open _ _ _ _ _ Hp Ho Hf)|].
  rewrite (peer_onmessage_parsed _ _ _ _ Hparse).
  apply try_catch_ret. rewrite (handlePeerMessage_forward _ _ _ _ Hty Hb), Hcb.
  reflexivity.
Qed.

Lemma host_to_peer_delivery_witness :
  exists frame,
    sendToPeer Sample.idB sample_message Sample.host_open_B
      = Run (Ret tt) Sample.host_open_B [PeerChannelSend Sample.idB frame] /\
    peer_ch_onmessage 0 frame Sample.joiner
      = Run (Ret tt) Sample.joiner [Call_onMessage (js "host") sample_message].
Proof.
  apply (host_to_peer_delivery Sample.host_open_B Sample.joiner Sample.idB
           {| pc := {| localDescription := Sample.offer; remoteDescription := VNull |};
              ch := {| label := CHANNEL_LABEL; readyState := open |};
              name := VNull |}
           sample_message (VStr (js "game_start")) 0);
    reflexivity.
Defined.

(** X3. The other direction: an application message the joining side
    sends over its open channel makes the host's [onmessage] handler for
    that peer call [onMessage(peerId, msg)] with the very message. *)
Theorem peer_to_host_delivery
    (h j : NetworkManager) (peerId : jsstring) (c : RTCDataChannel)
    (msg ty : value) (now : Z) :
  wire_ok msg = true ->
  get_prop msg (js "type") = Ret ty ->
  host_builtin ty = false ->
  hostChannel j = Some c -> channel_open c = true ->
  onMessage h = true ->
  exists frame,
    sendToHost msg j = Run (Ret tt) j [HostChannelSend frame] /\
    host_ch_onmessage now peerId frame h = Run (Ret tt) h [Call_onMessage peerId msg].
Proof.
  intros Hok Hty Hb Hc Ho Hcb.
  destruct (wire_frame msg Hok) as (frame & Hf & Hparse).
  apply parse_reads_back in Hparse.
  exists frame. split; [apply (sendToHost_open _ _ _ _ Hc Ho Hf)|].
  rewrite (host_onmessage_parsed _ _ _ _ _ Hparse).
  apply try_catch_ret. rewrite (handleHostMessage_forward _ _ _ _ _ Hty Hb), Hcb.
  reflexivity.
Qed.

Lemma peer_to_host_delivery_witness :
  exists frame,
    sendToHost sample_ready Sample.joiner
      = Run (Ret tt) Sample.joiner [HostChannelSend frame] /\
    host_ch_onmessage 0 Sample.idB frame Sample.host_open_B
      = Run (Ret tt) Sample.host_open_B [Call_onMessage Sample.idB sample_ready].
Proof.
  apply (peer_to_host_delivery Sample.host_open_B Sample.joiner Sample.idB
           {| label := CHANNEL_LABEL; readyState := open |}
           sample_ready (VStr (js "ready")) 0);
    reflexivity.
Defined.

(** *** Broadcast *)

Lemma broadcast_loop data (l : list (jsstring * PeerRecord)) m :
  fold_right
    (fun (entry : jsstring * PeerRecord) (k : M unit) =>
       (if channel_open (ch entry.2)
        then emit (PeerChannelSend entry.1 data) else skip) ≫= fun _ => k)
    skip l m
  = Run (Ret tt) m
      (map (fun entry : jsstring * PeerRecord => PeerChannelSend entry.1 data)
           (List.filter (fun entry : jsstring * PeerRecord => channel_open (ch entry.2)) l)).
Proof.
  induction l as [|e l IH]; [reflexivity|].
  cbn [fold_right List.filter]. destruct (channel_open (ch e.2)).
  - rewrite bind_emit, IH. reflexivity.
  - rewrite bind_skip. exact IH.
Qed.

Lemma broadcast_run m msg frame :
  frame_of msg = Ret frame ->
  broadcast msg m =
    Run (Ret tt) m
        (map (fun entry : jsstring * PeerRecord => PeerChannelSend entry.1 frame)
             (open_peers m)).
Proof.
  intros Hf. unfold broadcast. rewrite Hf, bind_lift_ret, bind_get.
  apply broadcast_loop.
Qed.

Lemma open_peers_spec m id p :
  In (id, p) (open_peers m) <-> peers m !! id = Some p /\ channel_open (ch p) = true.
Proof.
  unfold open_peers. rewrite filter_In, <- list_elem_of_In, elem_of_map_to_list.
  reflexivity.
Qed.

Lemma NoDup_open_peer_ids m : List.NoDup (map fst (open_peers m)).
Proof.
  unfold open_peers.
  pose proof (NoDup_fst_map_to_list (peers m)) as H.
  apply NoDup_ListNoDup in H. revert H.
  generalize (map_to_list (peers m)). intros l.
  induction l as [|e l IH]; [constructor|].
  cbn [fmap list_fmap map List.filter]. intros H.
  apply List.NoDup_cons_iff in H as [Hn Hl].
  destruct (channel_open (ch e.2)); [|apply IH, Hl].
  cbn [map]. constructor; [|apply IH, Hl].
  intros Hin. apply Hn. apply in_map_iff in Hin as (x & Hx & Hin).
  apply filter_In in Hin as [Hin _].
  change (list_fmap _ _ fst l) with (map fst l).
  apply in_map_iff. exists x. split; assumption.
Qed.

(** X4. [broadcast(msg)] hands one and the same frame to every peer
    whose channel is open, once each, and to nobody else: as many frames
    as [getConnectedPeerCount()] counts.  It changes nothing in the
    manager and calls no callback. *)
Theorem broadcast_reaches_open_peers (m : NetworkManager) (msg : value)
    (frame : jsstring) :
  frame_of msg = Ret frame ->
  let r := broadcast msg m in
  res r = Ret tt /\ final r = m /\
  (forall e, In e (effects r) <->
             exists id p, e = PeerChannelSend id frame /\
                          peers m !! id = Some p /\ channel_open (ch p) = true) /\
  List.NoDup (effects r) /\
  length (effects r) = getConnectedPeerCount m.
Proof.
  intros Hf. cbv zeta. rewrite (broadcast_run _ _ _ Hf). cbn [res final effects].
  split; [reflexivity|]. split; [reflexivity|]. split; [|split].
  - intros e. rewrite in_map_iff. split.
    + intros ([id p] & <- & Hin). apply open_peers_spec in Hin. exists id, p. auto.
    + intros (id & p & -> & Hp & Ho). exists (id, p). split; [reflexivity|].
      apply open_peers_spec. auto.
  - pose proof (NoDup_open_peer_ids m) as H. revert H.
    generalize (open_peers m). intros l.
    induction l as [|e l IH]; [constructor|]. cbn [map]. intros H.
    apply List.NoDup_cons_iff in H as [Hn Hl]. constructor; [|apply IH, Hl].
    intros Hin. apply Hn. apply in_map_iff in Hin as (x & Hx & Hin).
    injection Hx as Hx. rewrite <- Hx. apply in_map, Hin.
  - rewrite length_map. reflexivity.
Qed.

Lemma broadcast_reaches_open_peers_witness :
  exists frame,
    frame_of sample_message = Ret frame /\
    let r := broadcast sample_message Sample.host_open_B in
    res r = Ret tt /\ final r = Sample.host_open_B /\
    (forall e, In e (effects r) <->
               exists id p, e = PeerChannelSend id frame /\
                            peers Sample.host_open_B !! id = Some p /\
                            channel_open (ch p) = true) /\
    List.NoDup (effects r) /\
    length (effects r) = getConnectedPeerCount Sample.host_open_B.
Proof.
  eexists. split; [vm_compute; reflexivity|].
  apply (broadcast_reaches_open_peers Sample.host_open_B sample_message).
  vm_compute. reflexivity.
Defined.

(** *** The hello / welcome handshake *)

Lemma wire_ok_hello who :
  forallb code_unitb who = true -> wire_ok (hello_message who) = true.
Proof.
  intros H. unfold hello_message. cbn [wire_ok forallb]. rewrite H. reflexivity.
Qed.

Lemma wire_ok_welcome peerId :
  forallb code_unitb peerId = true -> wire_ok (welcome_message peerId) = true.
Proof.
  intros H. unfold welcome_message. cbn [wire_ok forallb]. rewrite H. reflexivity.
Qed.

Lemma handleHostMessage_hello m now peerId msg who :
  get_prop msg (js "type") = Ret (VStr (js "hello")) ->
  get_prop msg (js "name") = Ret who ->
  _handleHostMessage now peerId msg m =
    (sendToPeer peerId (welcome_message peerId);;
     m' ← get;
     if onPeerConnected m' then emit (Call_onPeerConnected peerId who) else skip)
      (set_peers (alter (named who) peerId) m).
Proof.
  intros Ht Hn. unfold _handleHostMessage. rewrite Ht, bind_lift_ret.
  change (type_is (VStr (js "hello")) "hello") with true. cbv iota.
  rewrite Hn, bind_lift_ret, bind_modify. reflexivity.
Qed.

Lemma handlePeerMessage_welcome m now msg :
  get_prop msg (js "type") = Ret (VStr (js "welcome")) ->
  _handlePeerMessage now msg m =
    Run (Ret tt) m (if onConnectedToHost m then [Call_onConnectedToHost] else []).
Proof.
  intros Ht. unfold _handlePeerMessage. rewrite Ht, bind_lift_ret.
  change (type_is (VStr (js "welcome")) "welcome") with true. cbv iota.
  rewrite bind_get. destruct (onConnectedToHost m); reflexivity.
Qed.

(** X5. The handshake that follows the opening of the channel: the
    joining side's [onopen] sends a [hello] with its name; the host's
    [onmessage] for that peer records the name, answers with a [welcome]
    on the peer's channel and calls [onPeerConnected(peerId, name)]; the
    joining side's [onmessage] on the [welcome] calls
    [onConnectedToHost()]. *)
Theorem hello_welcome_handshake
    (h j : NetworkManager) (peerId : jsstring) (p : PeerRecord)
    (c : RTCDataChannel) (t0 t1 : Z) :
  peers h !! peerId = Some p -> channel_open (ch p) = true ->
  hostChannel j = Some c -> channel_open c = true ->
  forallb code_unitb (localName j) = true ->
  forallb code_unitb peerId = true ->
  onPeerConnected h = true -> onConnectedToHost j = true ->
  let who := VStr (localName j) in
  let h' := set_peers (alter (named who) peerId) h in
  exists hello welcome,
    peer_ch_onopen j = Run (Ret tt) j [HostChannelSend hello] /\
    host_ch_onmessage t0 peerId hello h
      = Run (Ret tt) h' [PeerChannelSend peerId welcome;
                         Call_onPeerConnected peerId who] /\
    peers h' !! peerId = Some (named who p) /\
    peer_ch_onmessage t1 welcome j = Run (Ret tt) j [Call_onConnectedToHost].
Proof.
  intros Hp Ho Hc Hco Hname Hid Hcb1 Hcb2 who h'.
  destruct (wire_frame _ (wire_ok_hello _ Hname)) as (hello & Hf1 & Hr1).
  destruct (wire_frame _ (wire_ok_welcome _ Hid)) as (welcome & Hf2 & Hr2).
  apply parse_reads_back in Hr1, Hr2.
  assert (Hp' : peers h' !! peerId = Some (named who p)).
  { subst h'. cbn [peers set_peers]. rewrite lookup_alter_eq, Hp. reflexivity. }
  exists hello, welcome. repeat split.
  - unfold peer_ch_onopen. rewrite bind_get.
    apply (sendToHost_open _ _ _ _ Hc Hco Hf1).
  - rewrite (host_onmessage_parsed _ _ _ _ _ Hr1). apply try_catch_ret.
    rewrite (handleHostMessage_hello _ _ _ _ who) by reflexivity. fold h'.
    rewrite (bind_run _ _ _ _ _ _ (sendToPeer_open _ _ _ _ _ Hp' Ho Hf2)).
    rewrite bind_get.
    change (onPeerConnected h') with (onPeerConnected h). rewrite Hcb1. reflexivity.
  - exact Hp'.
  - rewrite (peer_onmessage_parsed _ _ _ _ Hr2). apply try_catch_ret.
    rewrite handlePeerMessage_welcome by reflexivity. rewrite Hcb2. reflexivity.
Qed.

Lemma hello_welcome_handshake_witness :
  let who := VStr (localName Sample.joiner) in
  let h' := set_peers (alter (named who) Sample.idB) Sample.host_open_B in
  exists hello welcome,
    peer_ch_onopen Sample.joiner = Run (Ret tt) Sample.joiner [HostChannelSend hello] /\
    host_ch_onmessage 5 Sample.idB hello Sample.host_open_B
      = Run (Ret tt) h' [PeerChannelSend Sample.idB welcome;
                         Call_onPeerConnected Sample.idB who] /\
    peers h' !! Sample.idB
      = Some (named who
                {| pc := {| localDescription := Sample.offer;
                            remoteDescription := VNull |};
                   ch := {| label := CHANNEL_LABEL; readyState := open |};
                   name := VNull |}) /\
    peer_ch_onmessage 9 welcome Sample.joiner
      = Run (Ret tt) Sample.joiner [Call_onConnectedToHost].
Proof.
  apply (hello_welcome_handshake Sample.host_open_B Sample.joiner Sample.idB
           {| pc := {| localDescription := Sample.offer; remoteDescription := VNull |};
              ch := {| label := CHANNEL_LABEL; readyState := open |};
              name := VNull |}
           {| label := CHANNEL_LABEL; readyState := open |} 5 9);
    reflexivity.
Defined.

Lemma set_peers_same f m : f (peers m) = peers m -> set_peers f m = m.
Proof. destruct m. unfold set_peers. cbn. intros ->. reflexivity. Qed.

Lemma sendToPeer_absent m peerId msg :
  peers m !! peerId = None -> sendToPeer peerId msg m = Run (Ret tt) m [].
Proof. intros Hp. unfold sendToPeer. rewrite bind_get, Hp. reflexivity. Qed.

(** X6. A [hello] for an id that is not in [peers] (its record was
    removed by a disconnect, or by [close()]) creates no record and is
    not answered, yet the application is still told that the peer
    connected. *)
Theorem hello_from_unknown_peer
    (h : NetworkManager) (peerId who : jsstring) (now : Z) :
  forallb code_unitb who = true ->
  peers h !! peerId = None ->
  exists hello,
    frame_of (hello_message who) = Ret hello /\
    host_ch_onmessage now peerId hello h
      = Run (Ret tt) h
            (if onPeerConnected h then [Call_onPeerConnected peerId (VStr who)]
             else []).
Proof.
  intros Hname Hp.
  destruct (wire_frame _ (wire_ok_hello _ Hname)) as (hello & Hf & Hr).
  apply parse_reads_back in Hr. exists hello. split; [exact Hf|].
  rewrite (host_onmessage_parsed _ _ _ _ _ Hr). apply try_catch_ret.
  rewrite (handleHostMessage_hello _ _ _ _ (VStr who)) by reflexivity.
  rewrite set_peers_same by (apply alter_id; intros x Hx; congruence).
  rewrite (bind_run _ _ _ _ _ _ (sendToPeer_absent _ _ _ Hp)), bind_get.
  destruct (onPeerConnected h); reflexivity.
Qed.

Lemma hello_from_unknown_peer_witness :
  exists hello,
    frame_of (hello_message (js "Eve")) = Ret hello /\
    host_ch_onmessage 0 Sample.idA hello Sample.host_open_B
      = Run (Ret tt) Sample.host_open_B
            (if onPeerConnected Sample.host_open_B
             then [Call_onPeerConnected Sample.idA (VStr (js "Eve"))] else []).
Proof.
  apply (hello_from_unknown_peer Sample.host_open_B Sample.idA (js "Eve") 0);
    reflexivity.
Defined.

(** *** Closing *)

Lemma close_loop (l : list (jsstring * PeerRecord)) m :
  fold_right
    (fun (entry : jsstring * PeerRecord) (k : M unit) =>
       emit (ChannelClose entry.1) ≫= fun _ =>
       emit (ConnectionClose entry.1) ≫= fun _ => k)
    skip l m
  = Run (Ret tt) m
      (flat_map (fun entry : jsstring * PeerRecord =>
                   [ChannelClose entry.1; ConnectionClose entry.1]) l).
Proof.
  induction l as [|e l IH]; [reflexivity|].
  cbn [fold_right flat_map]. rewrite bind_emit, bind_emit, IH. reflexivity.
Qed.

Lemma close_run m :
  close m =
    Run (Ret tt) (closed_state m)
        (flat_map (fun entry : jsstring * PeerRecord =>
                     [ChannelClose entry.1; ConnectionClose entry.1])
                  (map_to_list (peers m))
         ++ match hostChannel m with Some _ => [HostChannelClose] | None => [] end
         ++ match hostPc m with Some _ => [HostConnectionClose] | None => [] end).
Proof.
  unfold close. rewrite bind_modify, bind_get.
  rewrite (bind_run _ _ _ _ _ _ (close_loop _ _)).
  rewrite bind_modify, bind_modify. cbn [hostChannel hostPc set_timers peers].
  unfold closed_state.
  destruct (hostChannel m), (hostPc m);
    rewrite ?bind_emit, ?bind_skip; cbn [res final effects modify];
    rewrite ?app_nil_r; reflexivity.
Qed.

Lemma peer_ids_enumerated m :
  List.NoDup (map fst (map_to_list (peers m))) /\
  forall id, In id (map fst (map_to_list (peers m))) <-> is_Some (peers m !! id).
Proof.
  split.
  - apply NoDup_ListNoDup. exact (NoDup_fst_map_to_list (peers m)).
  - intros id. rewrite in_map_iff. split.
    + intros ([i p] & <- & Hin). exists p.
      apply list_elem_of_In, elem_of_map_to_list in Hin. exact Hin.
    + intros [p Hp]. exists (id, p). split; [reflexivity|].
      apply list_elem_of_In, elem_of_map_to_list, Hp.
Qed.

Lemma teardown_by_id (l : list (jsstring * PeerRecord)) :
  flat_map (fun entry : jsstring * PeerRecord =>
              [ChannelClose entry.1; ConnectionClose entry.1]) l
  = flat_map peer_teardown (map fst l).
Proof.
  induction l as [|e l IH]; [reflexivity|]. cbn [flat_map map]. rewrite IH. reflexivity.
Qed.

(** The effects of [close()]: the peers one after the other, each
    channel before its connection, then the link to the host. *)
Lemma close_effects_enumerated m :
  exists order,
    List.NoDup order /\ (forall id, In id order <-> is_Some (peers m !! id)) /\
    effects (close m) = flat_map peer_teardown order ++ host_teardown m.
Proof.
  exists (map fst (map_to_list (peers m))).
  destruct (peer_ids_enumerated m) as [Hn Hin].
  split; [exact Hn|]. split; [exact Hin|].
  rewrite close_run. cbn [effects]. rewrite teardown_by_id. reflexivity.
Qed.

Lemma NoDup_sends frame (l : list (jsstring * PeerRecord)) :
  List.NoDup (map fst l) ->
  List.NoDup (map (fun entry : jsstring * PeerRecord => PeerChannelSend entry.1 frame) l).
Proof.
  induction l as [|e l IH]; [constructor|]. cbn [map]. intros H.
  apply List.NoDup_cons_iff in H as [Hn Hl]. constructor; [|apply IH, Hl].
  intros Hin. apply Hn. apply in_map_iff in Hin as (x & Hx & Hin).
  injection Hx as Hx. rewrite <- Hx. apply in_map, Hin.
Qed.

(** X7. [close()] tears everything down and is idempotent.  It closes
    the channel and then the connection of every peer of the registry,
    each peer once, and after them the channel and the connection to the
    host where they exist, and does nothing else to the outside: no
    callback is called and no frame sent.  The registry, the pending
    slot, the host link and both timers are cleared.  A second [close()]
    does nothing; afterwards nothing can be sent and [acceptAnswer] finds
    no pending connection.  The peers are closed in the order the
    registry is visited in, which the statement leaves open. *)
Theorem close_tears_down (m : NetworkManager) :
  let r := close m in
  let m' := final r in
  res r = Ret tt /\
  (peers m' = ∅ /\ pendingPeerId m' = None /\ hostPc m' = None /\
   hostChannel m' = None /\ _pingTimer m' = false /\ _syncTimer m' = false /\
   _closed m' = true) /\
  (exists order,
     List.NoDup order /\ (forall id, In id order <-> is_Some (peers m !! id)) /\
     effects r = flat_map peer_teardown order ++ host_teardown m) /\
  (is_Some (hostChannel m) -> In HostChannelClose (effects r)) /\
  (is_Some (hostPc m) -> In HostConnectionClose (effects r)) /\
  (forall id, is_Some (peers m !! id) ->
              In (ChannelClose id) (effects r) /\ In (ConnectionClose id) (effects r)) /\
  (forall e, In e (effects r) -> is_teardown e = true) /\
  close m' = Run (Ret tt) m' [] /\
  (forall msg id, effects (broadcast msg m') = [] /\
                  effects (sendToPeer id msg m') = [] /\
                  effects (sendToHost msg m') = []) /\
  (forall code srd,
      res (acceptAnswer code srd m') = Throw (Error (js "No pending peer connection."))).
Proof.
  cbv zeta. split; [rewrite close_run; reflexivity|].
  split; [rewrite close_run; repeat split|].
  split; [apply close_effects_enumerated|].
  rewrite close_run. cbn [res final effects].
  split; [|split; [|split; [|split; [|split; [|split]]]]].
  - intros [c Hc]. rewrite Hc. apply in_or_app. right. left. reflexivity.
  - intros [c Hc]. rewrite Hc. apply in_or_app. right. apply in_or_app. right.
    left. reflexivity.
  - intros id [p Hp].
    assert (In (id, p) (map_to_list (peers m))) as Hin
      by (apply list_elem_of_In, elem_of_map_to_list, Hp).
    split; apply in_or_app; left; apply in_flat_map; exists (id, p);
      (split; [exact Hin|]); cbn; auto.
  - intros e He. apply in_app_or in He as [He|He].
    + apply in_flat_map in He as (x & _ & He). cbn in He.
      destruct He as [<-|[<-|[]]]; reflexivity.
    + apply in_app_or in He as [He|He].
      * destruct (hostChannel m); cbn in He;
          [destruct He as [<-|[]]; reflexivity|destruct He].
      * destruct (hostPc m); cbn in He;
          [destruct He as [<-|[]]; reflexivity|destruct He].
  - rewrite close_run. cbn [closed_state peers hostChannel hostPc set_host
      set_pendingPeerId set_peers set_timers].
    rewrite map_to_list_empty. reflexivity.
  - intros msg id. split; [|split].
    + unfold broadcast. destruct (frame_of msg) as [data| |]; [|reflexivity..].
      rewrite bind_lift_ret, bind_get.
      cbn [closed_state peers set_host set_pendingPeerId set_peers set_timers].
      rewrite map_to_list_empty. reflexivity.
    + unfold sendToPeer. rewrite bind_get.
      cbn [closed_state peers set_host set_pendingPeerId set_peers set_timers].
      rewrite lookup_empty. reflexivity.
    + reflexivity.
  - intros code srd. reflexivity.
Qed.

(** Closing a joining side closes the channel to the host, then the
    connection. *)
Example close_joiner :
  close Sample.joiner
  = Run (Ret tt) (closed_state Sample.joiner) [HostChannelClose; HostConnectionClose].
Proof. rewrite close_run. reflexivity. Qed.

(** X8. [acceptAnswer] is all or nothing: either it returns, or the
    manager is exactly as before; in neither case is a frame sent or a
    callback called. *)
Theorem acceptAnswer_all_or_nothing
    (m : NetworkManager) (answerCode : jsstring) (srd : value -> result unit) :
  let r := acceptAnswer answerCode srd m in
  (res r = Ret tt \/ final r = m) /\ effects r = [].
Proof.
  cbv zeta. unfold acceptAnswer. rewrite bind_get.
  destruct (pending_record m) as [peer|]; [|split; [right|]; reflexivity].
  destruct (Utils.decodeSDP answerCode) as [desc| |];
    [|split; [right|]; reflexivity..].
  rewrite bind_lift_ret.
  destruct (srd desc) as [[]| |]; [|split; [right|]; reflexivity..].
  rewrite bind_lift_ret. split; [left|]; reflexivity.
Qed.

(** *** Signalling: offer, answer, acceptance *)

Lemma descriptor_code desc t s :
  wf_string t -> wf_string s ->
  get_prop desc (js "type") = Ret (VStr t) ->
  get_prop desc (js "sdp") = Ret (VStr s) ->
  exists token,
    Utils.encodeSDP desc = Ret token /\ Utils.decodeSDP token = Ret (descriptor t s).
Proof.
  intros Ht Hs Hty Hsdp.
  destruct (descriptor_text_well_formed t s Ht Hs) as (Hwf & bs & Hu).
  pose proof (utf8_of_bytes _ _ Hwf Hu) as Hbytes.
  destruct (atob_btoa bs Hbytes) as (code & Hbtoa & Hatob).
  exists code. split.
  - unfold Utils.encodeSDP. rewrite Hty, Hsdp. cbn [mbind result_bind].
    rewrite stringify_descriptor. cbn [mbind result_bind].
    change (string_or_undefined (Some (Codec.descriptor_text t s)))
      with (Codec.descriptor_text t s).
    unfold URI.encodeURIComponent.
    rewrite (Encode_utf8 _ _ Hwf Hu). cbn [mbind result_bind].
    rewrite unescape_uri_bytes by exact Hbytes. exact Hbtoa.
  - unfold Utils.decodeSDP. rewrite Hatob. cbn [mbind result_bind].
    rewrite (Decode_escape_utf8 _ _ Hwf Hu). cbn [mbind result_bind].
    apply parse_descriptor; assumption.
Qed.

Lemma createOffer_run m peerId desc code :
  Utils.encodeSDP desc = Ret code ->
  createOffer peerId (Ret desc) m =
    Run (Ret (peerId, code))
        (set_pendingPeerId (Some peerId)
           (set_peers (insert peerId
              {| pc := {| localDescription := desc; remoteDescription := VNull |};
                 ch := {| label := CHANNEL_LABEL; readyState := connecting |};
                 name := VNull |}) m)) [].
Proof.
  intros H. unfold createOffer.
  rewrite bind_lift_ret, bind_modify, bind_modify, H, bind_lift_ret. reflexivity.
Qed.

Lemma createAnswer_run m offerCode srd desc answer code :
  Utils.decodeSDP offerCode = Ret desc ->
  srd desc = Ret tt ->
  Utils.encodeSDP answer = Ret code ->
  createAnswer offerCode srd (Ret answer) m =
    Run (Ret code)
        (set_host (Some {| localDescription := answer; remoteDescription := desc |})
                  (hostChannel m) m) [].
Proof.
  intros H1 H2 H3. unfold createAnswer.
  rewrite bind_modify, H1, bind_lift_ret, H2, bind_lift_ret, bind_modify,
    bind_lift_ret, bind_modify, H3.
  reflexivity.
Qed.

Lemma acceptAnswer_run m B peer answerCode srd desc :
  pendingPeerId m = Some B ->
  peers m !! B = Some peer ->
  Utils.decodeSDP answerCode = Ret desc ->
  srd desc = Ret tt ->
  acceptAnswer answerCode srd m =
    Run (Ret tt) (set_peers (alter (with_remote desc) B) m) [].
Proof.
  intros HB Hp H1 H2. unfold acceptAnswer. rewrite bind_get.
  unfold pending_record. rewrite HB. cbn [mbind option_bind]. rewrite Hp.
  rewrite H1, bind_lift_ret, H2, bind_lift_ret. reflexivity.
Qed.

(** X9. The signalling exchange end to end: the code [createOffer]
    returns on the host lets the joining side's [createAnswer] hand the
    host's offer to its connection and return an answer code; that code
    lets the host's [acceptAnswer] hand the joiner's answer to the
    connection of the pending peer.  Each side ends up holding the other
    side's [{type, sdp}]. *)
Theorem signalling_handshake
    (h j : NetworkManager) (peerId : jsstring) (offer answer : value)
    (t1 s1 t2 s2 : jsstring) (srd_j srd_h : value -> result unit) :
  wf_string t1 -> wf_string s1 -> wf_string t2 -> wf_string s2 ->
  get_prop offer (js "type") = Ret (VStr t1) ->
  get_prop offer (js "sdp") = Ret (VStr s1) ->
  get_prop answer (js "type") = Ret (VStr t2) ->
  get_prop answer (js "sdp") = Ret (VStr s2) ->
  srd_j (descriptor t1 s1) = Ret tt ->
  srd_h (descriptor t2 s2) = Ret tt ->
  exists offerCode answerCode,
    let r1 := createOffer peerId (Ret offer) h in
    let r2 := createAnswer offerCode srd_j (Ret answer) j in
    let r3 := acceptAnswer answerCode srd_h (final r1) in
    res r1 = Ret (peerId, offerCode) /\
    res r2 = Ret answerCode /\
    hostPc (final r2)
      = Some {| localDescription := answer; remoteDescription := descriptor t1 s1 |} /\
    res r3 = Ret tt /\
    peers (final r3) !! peerId
      = Some {| pc := {| localDescription := offer;
                         remoteDescription := descriptor t2 s2 |};
                ch := {| label := CHANNEL_LABEL; readyState := connecting |};
                name := VNull |} /\
    effects r1 ++ effects r2 ++ effects r3 = [].
Proof.
  intros Ht1 Hs1 Ht2 Hs2 Ho1 Ho2 Ha1 Ha2 Hj Hh.
  destruct (descriptor_code offer t1 s1 Ht1 Hs1 Ho1 Ho2) as (oc & Hoe & Hod).
  destruct (descriptor_code answer t2 s2 Ht2 Hs2 Ha1 Ha2) as (ac & Hae & Had).
  exists oc, ac. cbv zeta.
  rewrite (createOffer_run _ _ _ _ Hoe).
  rewrite (createAnswer_run _ _ _ _ _ _ Hod Hj Hae).
  cbn [final].
  set (rec := {| pc := {| localDescription := offer; remoteDescription := VNull |};
                 ch := {| label := CHANNEL_LABEL; readyState := connecting |};
                 name := VNull |}).
  rewrite (acceptAnswer_run
             (set_pendingPeerId (Some peerId) (set_peers (insert peerId rec) h))
             peerId rec _ _ _ eq_refl
             (lookup_insert_eq (peers h) peerId rec) Had Hh).
  cbn [res final effects peers set_peers hostPc set_host].
  repeat split. rewrite lookup_alter_eq.
  cbn [peers set_pendingPeerId set_peers]. rewrite lookup_insert_eq. reflexivity.
Qed.

Lemma signalling_handshake_witness :
  exists offerCode answerCode,
    let r1 := createOffer Sample.idA (Ret Sample.offer) Sample.host in
    let r2 := createAnswer offerCode Sample.accepting (Ret Sample.answer)
                (set_identity false (js "Bob") constructor) in
    let r3 := acceptAnswer answerCode Sample.accepting (final r1) in
    res r1 = Ret (Sample.idA, offerCode) /\
    res r2 = Ret answerCode /\
    hostPc (final r2)
      = Some {| localDescription := Sample.answer;
                remoteDescription := descriptor (js "offer") (js "v=0") |} /\
    res r3 = Ret tt /\
    peers (final r3) !! Sample.idA
      = Some {| pc := {| localDescription := Sample.offer;
                         remoteDescription := descriptor (js "answer") (js "v=0") |};
                ch := {| label := CHANNEL_LABEL; readyState := connecting |};
                name := VNull |} /\
    effects r1 ++ effects r2 ++ effects r3 = [].
Proof.
  apply (signalling_handshake Sample.host (set_identity false (js "Bob") constructor)
           Sample.idA Sample.offer Sample.answer
           (js "offer") (js "v=0") (js "answer") (js "v=0")
           Sample.accepting Sample.accepting);
    try reflexivity; repeat constructor; discriminate.
Defined.

(** *** Latency, measured over the wire *)

Lemma wire_ok_ping now :
  safe_integer now = true -> wire_ok (ping_message now) = true.
Proof.
  intros H. unfold ping_message. cbn [wire_ok forallb]. rewrite H. reflexivity.
Qed.

Lemma wire_ok_pong ts :
  safe_integer ts = true -> wire_ok (pong_message (VNum (Int ts))) = true.
Proof.
  intros H. unfold pong_message. cbn [wire_ok forallb]. rewrite H. reflexivity.
Qed.

(** X10. Latency end to end.  A tick of the host's ping loop at clock
    reading [t0] puts a probe frame on every open channel; the joining
    side's [onmessage] answers that frame with a response frame; the
    host's [onmessage], handling the response at clock reading [t1],
    stores [t1 - t0] as the latency of that peer. *)
Theorem latency_end_to_end
    (h j : NetworkManager) (peerId : jsstring) (p : PeerRecord)
    (c : RTCDataChannel) (t0 tj t1 : Z) :
  isHost h = true ->
  peers h !! peerId = Some p -> channel_open (ch p) = true ->
  hostChannel j = Some c -> channel_open c = true ->
  safe_integer t0 && safe_integer t1 && safe_integer (t1 - t0) = true ->
  exists ping pong,
    res (ping_tick t0 h) = Ret tt /\ final (ping_tick t0 h) = h /\
    In (PeerChannelSend peerId ping) (effects (ping_tick t0 h)) /\
    peer_ch_onmessage tj ping j = Run (Ret tt) j [HostChannelSend pong] /\
    host_ch_onmessage t1 peerId pong h
      = Run (Ret tt) (set_latency (insert peerId (Int (t1 - t0))) h) [] /\
    getLatency peerId (final (host_ch_onmessage t1 peerId pong h))
      = Some (Int (t1 - t0)).
Proof.
  intros Hhost Hp Ho Hc Hco Hsafe.
  apply andb_true_iff in Hsafe as [Hsafe Hd].
  apply andb_true_iff in Hsafe as [H0 H1].
  destruct (wire_frame _ (wire_ok_ping _ H0)) as (ping & Hf1 & Hr1).
  destruct (wire_frame _ (wire_ok_pong _ H0)) as (pong & Hf2 & Hr2).
  apply parse_reads_back in Hr1, Hr2.
  assert (ping_tick t0 h = broadcast (ping_message t0) h) as Htick.
  { unfold ping_tick. rewrite bind_get, Hhost. reflexivity. }
  assert (host_ch_onmessage t1 peerId pong h
          = Run (Ret tt) (set_latency (insert peerId (Int (t1 - t0))) h) []) as Hh.
  { rewrite (host_onmessage_parsed _ _ _ _ _ Hr2). apply try_catch_ret.
    apply (handleHostMessage_pong _ _ _ _ (VNum (Int t0))); try reflexivity.
    cbn. rewrite H1, H0, Hd. reflexivity. }
  exists ping, pong. rewrite Htick, (broadcast_run _ _ _ Hf1), Hh.
  cbn [res final effects]. repeat split.
  - apply in_map_iff. exists (peerId, p). split; [reflexivity|].
    apply open_peers_spec. auto.
  - rewrite (peer_onmessage_parsed _ _ _ _ Hr1). apply try_catch_ret.
    rewrite (handlePeerMessage_ping _ _ _ (VNum (Int t0))) by reflexivity.
    apply (sendToHost_open _ _ _ _ Hc Hco Hf2).
  - unfold getLatency. cbn [_latency set_latency]. apply lookup_insert_eq.
Qed.

Lemma latency_end_to_end_witness :
  exists ping pong,
    res (ping_tick 1000 Sample.host_open_B) = Ret tt /\
    final (ping_tick 1000 Sample.host_open_B) = Sample.host_open_B /\
    In (PeerChannelSend Sample.idB ping) (effects (ping_tick 1000 Sample.host_open_B)) /\
    peer_ch_onmessage 1020 ping Sample.joiner
      = Run (Ret tt) Sample.joiner [HostChannelSend pong] /\
    host_ch_onmessage 1042 Sample.idB pong Sample.host_open_B
      = Run (Ret tt) (set_latency (insert Sample.idB (Int (1042 - 1000)))
                                  Sample.host_open_B) [] /\
    getLatency Sample.idB
               (final (host_ch_onmessage 1042 Sample.idB pong Sample.host_open_B))
      = Some (Int (1042 - 1000)).
Proof.
  apply (latency_end_to_end Sample.host_open_B Sample.joiner Sample.idB
           {| pc := {| localDescription := Sample.offer; remoteDescription := VNull |};
              ch := {| label := CHANNEL_LABEL; readyState := open |};
              name := VNull |}
           {| label := CHANNEL_LABEL; readyState := open |} 1000 1020 1042);
    reflexivity.
Defined.

End MessageLink.

(* ------------------------------------------------------------------ *)
(** ** utils.js: the clock display, the shuffle, the signalling codes  *)
(* ------------------------------------------------------------------ *)

Section ClockDisplay.
Import Display.

Lemma decimal_fold ds : forall acc,
  fold_left (fun a d => a * 10 + (d - 48)) ds acc
  = acc * 10 ^ Z.of_nat (length ds) + decimal_value ds.
Proof.
  unfold decimal_value. induction ds as [|d r IH]; intros acc.
  - cbn. lia.
  - cbn [fold_left length]. rewrite IH, (IH (0 * 10 + (d - 48))).
    rewrite Nat2Z.inj_succ, Z.pow_succ_r by lia. ring.
Qed.

Lemma decimal_value_cons d r :
  decimal_value (d :: r) = (d - 48) * 10 ^ Z.of_nat (length r) + decimal_value r.
Proof. unfold decimal_value at 1. cbn [fold_left]. rewrite decimal_fold. ring. Qed.

Lemma decimal_value_nonneg ds :
  Forall (fun c => is_digit c = true) ds -> 0 <= decimal_value ds.
Proof.
  induction 1 as [|d r Hd _ IH]; [reflexivity|].
  rewrite decimal_value_cons. unfold is_digit in Hd.
  apply andb_true_iff in Hd as [H1 H2]. apply Z.leb_le in H1, H2.
  assert (0 < 10 ^ Z.of_nat (length r)) by (apply Z.pow_pos_nonneg; lia). nia.
Qed.

Lemma decimal_value_zeros k ds :
  decimal_value (repeat 48 k ++ ds) = decimal_value ds.
Proof.
  induction k as [|k IH]; [reflexivity|].
  cbn [repeat app]. rewrite decimal_value_cons, IH. lia.
Qed.

(** A numeral without leading zero has as many digits as its value needs. *)
Lemma short_numeral v :
  0 <= v < 100 -> (1 <= length (nat_toString 10 v) <= 2)%nat.
Proof.
  intros Hv.
  destruct (nat_toString_10 v ltac:(lia)) as (Hval & Hd & d & r & E & Hz).
  cbv zeta in *. rewrite E in *. cbn [length]. split; [lia|].
  destruct r as [|d1 [|d2 r]]; [cbn; lia..|]. exfalso.
  apply Forall_cons in Hd as [Hd0 Hd]. apply Forall_cons in Hd as [Hd1 Hd].
  pose proof (decimal_value_nonneg _ Hd) as Hr.
  rewrite (decimal_value_cons d), (decimal_value_cons d1) in Hval.
  cbn [length] in Hval.
  unfold is_digit in Hd0, Hd1.
  apply andb_true_iff in Hd0 as [H1 H2]. apply Z.leb_le in H1, H2.
  apply andb_true_iff in Hd1 as [H3 H4]. apply Z.leb_le in H3, H4.
  assert (d <> 48) by (intros ->; destruct (Hz eq_refl) as [_ ?]; discriminate).
  assert (0 < 10 ^ Z.of_nat (length r)) by (apply Z.pow_pos_nonneg; lia).
  rewrite !Nat2Z.inj_succ, !Z.pow_succ_r in Hval by lia.
  set (P := 10 ^ Z.of_nat (length r)) in *.
  assert (100 <= (d - 48) * (10 * (10 * P))) by nia.
  assert (0 <= (d1 - 48) * (10 * P)) by nia.
  lia.
Qed.

Lemma padStart_length n c s : length (padStart n c s) = Nat.max n (length s).
Proof. unfold padStart. rewrite length_app, repeat_length. lia. Qed.

Lemma padStart_digits n s :
  Forall (fun c => is_digit c = true) s ->
  Forall (fun c => is_digit c = true) (padStart n 48 s) /\
  decimal_value (padStart n 48 s) = decimal_value s.
Proof.
  intros H. unfold padStart. split; [|apply decimal_value_zeros].
  apply Forall_app. split; [|exact H].
  apply Forall_forall. intros c Hc. apply list_elem_of_In, repeat_spec in Hc. subst.
  reflexivity.
Qed.

(** X11. The clock display.  For a count of seconds from 0 up,
    [formatTime] writes [MM:SS]: minutes in at least two decimal digits,
    a colon, seconds in exactly two digits below 60; the two numerals
    read back as the count, so different counts are displayed
    differently. *)
Theorem formatTime_clock (totalSeconds : Z) :
  0 <= totalSeconds <= 2 ^ 53 ->
  exists mm ss,
    formatTime totalSeconds = Ret (mm ++ 58 :: ss) /\
    (2 <= length mm)%nat /\ length ss = 2%nat /\
    Forall (fun c => is_digit c = true) (mm ++ ss) /\
    decimal_value ss < 60 /\
    60 * decimal_value mm + decimal_value ss = totalSeconds.
Proof.
  intros Hz. unfold formatTime.
  assert (safe_integer totalSeconds = true) as ->.
  { unfold safe_integer. apply Z.leb_le. lia. }
  rewrite Z.rem_mod_nonneg by lia. cbv zeta.
  assert (Hq : 0 <= totalSeconds / 60) by (apply Z.div_pos; lia).
  assert (Hr : 0 <= totalSeconds mod 60 < 60) by (apply Z.mod_pos_bound; lia).
  unfold int_toString.
  destruct (Z.ltb_spec (totalSeconds / 60) 0); [lia|].
  destruct (Z.ltb_spec (totalSeconds mod 60) 0); [lia|].
  destruct (nat_toString_10 _ Hq) as (Vm & Dm & _).
  destruct (nat_toString_10 (totalSeconds mod 60) ltac:(lia)) as (Vs & Ds & _).
  cbv zeta in *.
  destruct (padStart_digits 2 _ Dm) as (Dm' & Vm').
  destruct (padStart_digits 2 _ Ds) as (Ds' & Vs').
  pose proof (short_numeral (totalSeconds mod 60) ltac:(lia)) as Ls.
  eexists _, _. split; [reflexivity|].
  rewrite !padStart_length, Vm', Vs', Vm, Vs.
  split; [lia|]. split; [lia|]. split; [apply Forall_app; split; assumption|].
  split; [lia|]. Z.div_mod_to_equations. lia.
Qed.

Lemma formatTime_clock_witness :
  exists mm ss,
    formatTime 754 = Ret (mm ++ 58 :: ss) /\
    (2 <= length mm)%nat /\ length ss = 2%nat /\
    Forall (fun c => is_digit c = true) (mm ++ ss) /\
    decimal_value ss < 60 /\
    60 * decimal_value mm + decimal_value ss = 754.
Proof. apply (formatTime_clock 754). lia. Defined.

Example formatTime_754 : formatTime 754 = Ret (js "12:34").
Proof. reflexivity. Qed.

(** Before zero the display is not a clock: both parts carry a sign. *)
Example formatTime_minus_one : formatTime (-1) = Ret (js "-1:-1").
Proof. reflexivity. Qed.

End ClockDisplay.

Section Shuffle.
Import Display.
Context {A : Type}.

Lemma swap_Permutation (i j : nat) (a b : list A) :
  swap i j a = Some b -> a ≡ₚ b.
Proof.
  unfold swap. destruct (a !! i) as [x|] eqn:Hi; [|discriminate].
  destruct (a !! j) as [y|] eqn:Hj; [|discriminate].
  cbn [mbind option_bind]. intros [= <-].
  pose proof (lookup_lt_Some _ _ _ Hi) as Li.
  pose proof (lookup_lt_Some _ _ _ Hj) as Lj.
  apply Permutation_inj. split; [rewrite !length_insert; reflexivity|].
  exists (fun k => if decide (k = i) then j else if decide (k = j) then i else k).
  split.
  - intros k1 k2. repeat destruct (decide _); intros; subst; congruence.
  - intros k. destruct (decide (k = i)) as [->|Hki].
    + destruct (decide (i = j)) as [<-|Hij].
      * rewrite list_lookup_insert_eq by (rewrite length_insert; exact Li). exact Hi.
      * rewrite list_lookup_insert_eq by (rewrite length_insert; exact Lj). exact Hi.
    + destruct (decide (k = j)) as [->|Hkj].
      * rewrite list_lookup_insert_ne by congruence.
        rewrite list_lookup_insert_eq by exact Li. exact Hj.
      * rewrite !list_lookup_insert_ne by congruence. reflexivity.
Qed.

Lemma swap_total (i j : nat) (a : list A) :
  (i < length a)%nat -> (j <= i)%nat ->
  exists b, swap i j a = Some b /\ length b = length a.
Proof.
  intros Hi Hj. unfold swap.
  destruct (lookup_lt_is_Some_2 a i Hi) as [x ->].
  destruct (lookup_lt_is_Some_2 a j ltac:(lia)) as [y ->].
  eexists. split; [reflexivity|]. rewrite !length_insert. reflexivity.
Qed.

Lemma shuffle_from_spec (i : nat) : forall picks (a : list A),
  (i < length a \/ i = 0)%nat -> picks_ok i picks = true ->
  exists b, shuffle_from i picks a = Some b /\ a ≡ₚ b.
Proof.
  induction i as [|i IH]; intros picks a Hi Hp.
  - exists a. split; reflexivity.
  - destruct picks as [|j rest]; [discriminate|].
    cbn [picks_ok] in Hp. apply andb_true_iff in Hp as [Hj Hrest].
    cbn [shuffle_from]. rewrite Hj. apply Nat.leb_le in Hj.
    destruct (swap_total (S i) j a ltac:(lia) Hj) as (a' & Hs & Hl).
    rewrite Hs. cbn [mbind option_bind].
    destruct (IH rest a' ltac:(lia) Hrest) as (b & Hb & Hperm).
    exists b. split; [exact Hb|].
    etransitivity; [apply (swap_Permutation _ _ _ _ Hs)|exact Hperm].
Qed.

(** X12. [shuffleArray] returns a rearrangement of its argument: for
    every run of the random draws (one per loop turn, each within its
    range) the result has exactly the elements of the input, each as
    often as the input has it. *)
Theorem shuffleArray_permutes (picks : list nat) (arr : list A) :
  picks_ok (length arr - 1) picks = true ->
  exists b, shuffleArray picks arr = Some b /\ arr ≡ₚ b /\ length b = length arr.
Proof.
  intros Hp. unfold shuffleArray.
  destruct (shuffle_from_spec (length arr - 1) picks arr ltac:(lia) Hp)
    as (b & Hb & Hperm).
  exists b. split; [exact Hb|]. split; [exact Hperm|].
  symmetry. apply Permutation_length, Hperm.
Qed.

End Shuffle.

Section ShuffleExample.
Import Display.

Lemma shuffleArray_permutes_witness :
  exists b, shuffleArray [1%nat; 2%nat; 0%nat] [js "Ada"; js "Bob"; js "Cy"; js "Di"]
            = Some b /\
            [js "Ada"; js "Bob"; js "Cy"; js "Di"] ≡ₚ b /\ length b = 4%nat.
Proof.
  apply (shuffleArray_permutes [1%nat; 2%nat; 0%nat]
           [js "Ada"; js "Bob"; js "Cy"; js "Di"]).
  reflexivity.
Defined.

End ShuffleExample.

Section CodeText.
Import Base64 Codec Utils Link Display.

Lemma b64_body_alphabet l :
  Forall is_byte l -> Forall (fun c => code_char c = true) (b64_body l).
Proof.
  assert (forall v, 0 <= v < 64 -> code_char (b64_char v) = true) as Hchar.
  { intros v Hv. unfold code_char.
    destruct (b64_char_spec v Hv) as (-> & _). reflexivity. }
  induction l as [|a|a b|a b c r IH] using list_ind3; intros H.
  - constructor.
  - apply Forall_cons in H as [Ha _]. cbn [b64_body]. unfold is_byte in Ha.
    repeat constructor; apply Hchar; Z.div_mod_to_equations; lia.
  - apply Forall_cons in H as [Ha H]. apply Forall_cons in H as [Hb _].
    cbn [b64_body]. unfold is_byte in Ha, Hb.
    repeat constructor; apply Hchar; Z.div_mod_to_equations; lia.
  - apply Forall_cons in H as [Ha H]. apply Forall_cons in H as [Hb H].
    apply Forall_cons in H as [Hc H]. cbn [b64_body]. unfold is_byte in Ha, Hb, Hc.
    repeat (constructor; [apply Hchar; Z.div_mod_to_equations; lia|]).
    apply IH, H.
Qed.

Lemma code_char_no_space c : code_char c = true -> is_ascii_ws c = false.
Proof.
  unfold code_char, b64_val, is_ascii_ws, is_digit. intros H.
  destruct (Z.eqb_spec c 9) as [->|]; [discriminate|].
  destruct (Z.eqb_spec c 10) as [->|]; [discriminate|].
  destruct (Z.eqb_spec c 12) as [->|]; [discriminate|].
  destruct (Z.eqb_spec c 13) as [->|]; [discriminate|].
  destruct (Z.eqb_spec c 32) as [->|]; [discriminate|].
  reflexivity.
Qed.

(** X13. A signalling code survives copy and paste.  The code
    [encodeSDP] returns for a descriptor consists of base64 letters and
    padding only, in groups of four; and any text that differs from it
    by ASCII white space alone (line breaks, blanks, tabs that a chat or
    mail program inserts) is decoded by [decodeSDP] to the same
    [{type, sdp}]. *)
Theorem code_survives_pasting (desc : value) (t s : jsstring) :
  wf_string t -> wf_string s ->
  get_prop desc (js "type") = Ret (VStr t) ->
  get_prop desc (js "sdp") = Ret (VStr s) ->
  exists code,
    encodeSDP desc = Ret code /\
    Forall (fun c => code_char c = true) code /\
    Z.of_nat (length code) mod 4 = 0 /\
    forall pasted, without_space pasted = code ->
                   decodeSDP pasted = Ret (descriptor t s).
Proof.
  intros Ht Hs Hty Hsdp.
  destruct (descriptor_text_well_formed t s Ht Hs) as (Hwf & bs & Hu).
  pose proof (utf8_of_bytes _ _ Hwf Hu) as Hbytes.
  destruct (atob_btoa bs Hbytes) as (code & Hbtoa & Hatob).
  assert (code = b64_encode bs) as Ecode.
  { unfold btoa in Hbtoa. destruct (forallb _ bs); congruence. }
  assert (Forall (fun c => code_char c = true) code) as Halpha.
  { rewrite Ecode, b64_encode_split. apply Forall_app. split.
    - apply b64_body_alphabet, Hbytes.
    - destruct (b64_pad_cases bs) as [->|[->| ->]]; repeat constructor. }
  exists code. split; [|split; [exact Halpha|split]].
  - unfold encodeSDP. rewrite Hty, Hsdp. cbn [mbind result_bind].
    rewrite stringify_descriptor. cbn [mbind result_bind].
    change (string_or_undefined (Some (descriptor_text t s)))
      with (descriptor_text t s).
    unfold URI.encodeURIComponent.
    rewrite (Encode_utf8 _ _ Hwf Hu). cbn [mbind result_bind].
    rewrite unescape_uri_bytes by exact Hbytes. exact Hbtoa.
  - rewrite Ecode. apply b64_encode_length.
  - intros pasted Hp.
    assert (atob pasted = Ret bs) as Ha.
    { rewrite <- Hatob. unfold atob. fold (without_space pasted). rewrite Hp.
      rewrite filter_all; [reflexivity|].
      eapply Forall_impl; [exact Halpha|].
      intros c Hc. cbv beta. rewrite (code_char_no_space c Hc). reflexivity. }
    unfold decodeSDP. rewrite Ha. cbn [mbind result_bind].
    rewrite (Decode_escape_utf8 _ _ Hwf Hu). cbn [mbind result_bind].
    apply parse_descriptor; assumption.
Qed.

Lemma code_survives_pasting_witness :
  exists code,
    encodeSDP Sample.offer = Ret code /\
    Forall (fun c => code_char c = true) code /\
    Z.of_nat (length code) mod 4 = 0 /\
    forall pasted, without_space pasted = code ->
                   decodeSDP pasted = Ret (descriptor (js "offer") (js "v=0")).
Proof.
  apply (code_survives_pasting Sample.offer (js "offer") (js "v=0"));
    try reflexivity; repeat constructor; discriminate.
Defined.

(** The code of the sample offer, broken over two lines. *)
Example pasted_offer_code :
  decodeSDP (js "eyJ0eXBlIjoib2ZmZXIi" ++ [13; 10] ++ js "LCJzZHAiOiJ2PTAifQ== ")
  = Ret (descriptor (js "offer") (js "v=0")).
Proof. vm_compute. reflexivity. Qed.

End CodeText.

(* ------------------------------------------------------------------ *)
(** ** game.js: the rules                                              *)
(* ------------------------------------------------------------------ *)

Section Roster.
Import Game Play.
Variable toLowerCase : jsstring -> jsstring.

Lemma trimStart_head s c : head (trimStart s) = Some c -> is_trim_space c = false.
Proof.
  induction s as [|d r IH]; [discriminate|].
  cbn [trimStart]. destruct (is_trim_space d) eqn:E; [exact IH|].
  cbn. intros [= <-]. exact E.
Qed.

Lemma trimStart_last s x :
  last s = Some x -> is_trim_space x = false -> last (trimStart s) = Some x.
Proof.
  induction s as [|d r IH]; [discriminate|]. intros Hl Hx.
  cbn [trimStart]. destruct (is_trim_space d) eqn:E; [|exact Hl].
  destruct r as [|e r']; [cbn in Hl; congruence|]. apply IH; assumption.
Qed.

Lemma last_rev_head {A} (l : list A) : last (rev l) = head l.
Proof. destruct l as [|x r]; [reflexivity|]. cbn [rev]. apply last_snoc. Qed.

Lemma head_rev_last {A} (l : list A) : head (rev l) = last l.
Proof.
  induction l as [|x r _] using rev_ind; [reflexivity|].
  rewrite rev_unit, last_snoc. reflexivity.
Qed.

(** [trim] leaves nothing, or a string with no white space at its ends. *)
Lemma trim_trimmed s : trim s = [] \/ trimmed (trim s).
Proof.
  unfold trim. set (a := trimStart s).
  destruct a as [|c r] eqn:Ea; [left; reflexivity|right].
  assert (is_trim_space c = false) as Hc.
  { apply (trimStart_head s). fold a. rewrite Ea. reflexivity. }
  assert (last (trimStart (rev (c :: r))) = Some c) as Hl.
  { apply trimStart_last; [|exact Hc]. rewrite last_rev_head. reflexivity. }
  set (b := trimStart (rev (c :: r))) in *.
  split; [|split].
  - intros E. apply (f_equal (@rev Z)) in E. rewrite rev_involutive in E.
    rewrite E in Hl. discriminate.
  - intros d. rewrite head_rev_last, Hl. intros [= <-]. exact Hc.
  - intros d. rewrite last_rev_head. apply trimStart_head.
Qed.

Lemma existsb_lower_false n names :
  existsb (fun p => bool_decide (toLowerCase p = toLowerCase n)) names = false ->
  ~ In (toLowerCase n) (map toLowerCase names).
Proof.
  induction names as [|p r IH]; [intros _ []|].
  cbn [existsb map]. intros H [E|Hin].
  - rewrite bool_decide_eq_true_2 in H by exact E. discriminate.
  - apply orb_false_iff in H as [_ H]. exact (IH H Hin).
Qed.

Lemma roster_ok_delete i names :
  roster_ok toLowerCase names -> roster_ok toLowerCase (delete i names).
Proof.
  intros [Ht Hn]. revert i. induction names as [|p r IH]; intros i; [split; assumption|].
  apply Forall_cons in Ht as [Hp Ht]. cbn [map] in Hn.
  apply List.NoDup_cons_iff in Hn as [Hnin Hn].
  destruct i as [|i]; [split; assumption|].
  destruct (IH Ht Hn i) as [Ht' Hn'].
  change (delete (S i) (p :: r)) with (p :: delete i r).
  split; [constructor; assumption|]. cbn [map]. constructor; [|exact Hn'].
  intros Hin. apply Hnin. apply in_map_iff in Hin as (x & Ex & Hin).
  apply in_map_iff. exists x. split; [exact Ex|].
  apply list_elem_of_In. apply list_elem_of_In in Hin.
  exact (list_elem_of_delete_inv _ _ _ Hin).
Qed.

(** X14. The roster stays clean: whatever name is offered to
    [addPlayer] and whatever index to [removePlayer], the list of players
    never holds an empty name, a name with white space at an end, or two
    names that are equal up to case.  [addPlayer] either reports an error
    and changes nothing, or appends the trimmed name and changes nothing
    else.  [removePlayer] takes out the name at an index of the roster
    and keeps the names before and after it as they were, in their
    order; any other index changes nothing. *)
Theorem roster_stays_clean (name : jsstring) (idx : Z) (st : State) :
  roster_ok toLowerCase (players st) ->
  let r := addPlayer toLowerCase name st in
  let st' := removePlayer idx st in
  roster_ok toLowerCase (players r.2) /\
  match r.1 with
  | None => r.2 = set_players (players st ++ [trim name]) st
  | Some _ => r.2 = st
  end /\
  roster_ok toLowerCase (players st') /\
  (0 <= idx < Z.of_nat (length (players st)) ->
   st' = set_players (take (Z.to_nat idx) (players st)
                      ++ drop (S (Z.to_nat idx)) (players st)) st /\
   S (length (players st')) = length (players st)) /\
  (~ 0 <= idx < Z.of_nat (length (players st)) -> st' = st).
Proof.
  intros Hok. cbv zeta. split; [|split; [|split; [|split]]].
  - unfold addPlayer. destruct (trim_trimmed name) as [->|Ht]; [exact Hok|].
    destruct (trim name) as [|c r] eqn:E; [exact Hok|].
    destruct (existsb _ (players st)) eqn:Ex; [exact Hok|].
    cbn [snd players set_players]. destruct Hok as [Hf Hn]. split.
    + apply Forall_app. split; [exact Hf|]. constructor; [exact Ht|constructor].
    + rewrite map_app. cbn [map].
      apply NoDup_ListNoDup, NoDup_app. split; [apply NoDup_ListNoDup, Hn|].
      split; [|apply NoDup_singleton].
      intros x Hx Hx'. apply list_elem_of_singleton in Hx'. subst x.
      apply list_elem_of_In in Hx. exact (existsb_lower_false _ _ Ex Hx).
  - unfold addPlayer. destruct (trim name) as [|c r]; [reflexivity|].
    destruct (existsb _ (players st)); reflexivity.
  - unfold removePlayer.
    destruct ((0 <=? idx) && (idx <? Z.of_nat (length (players st)))); [|exact Hok].
    cbn [players set_players]. apply roster_ok_delete, Hok.
  - intros Hidx. unfold removePlayer.
    assert ((0 <=? idx) && (idx <? Z.of_nat (length (players st))) = true) as ->
      by (apply andb_true_iff; split; [apply Z.leb_le|apply Z.ltb_lt]; lia).
    rewrite delete_take_drop. split; [reflexivity|].
    cbn [players set_players]. rewrite length_app, length_take, length_drop. lia.
  - intros Hidx. unfold removePlayer.
    assert ((0 <=? idx) && (idx <? Z.of_nat (length (players st))) = false) as ->;
      [|reflexivity].
    apply andb_false_iff.
    destruct (Z.leb_spec 0 idx); [right; apply Z.ltb_ge; lia|left; reflexivity].
Qed.

End Roster.

Section RosterExample.
Import Game Play.

Lemma roster_stays_clean_witness :
  let st := set_players [js "Ada"; js "Bob"; js "Cy"] initial in
  let r := addPlayer ascii_lower (js " Dee ") st in
  let st' := removePlayer 1 st in
  roster_ok ascii_lower (players r.2) /\
  match r.1 with
  | None => r.2 = set_players (players st ++ [trim (js " Dee ")]) st
  | Some _ => r.2 = st
  end /\
  roster_ok ascii_lower (players st') /\
  (0 <= 1 < Z.of_nat (length (players st)) ->
   st' = set_players (take (Z.to_nat 1) (players st)
                      ++ drop (S (Z.to_nat 1)) (players st)) st /\
   S (length (players st')) = length (players st)) /\
  (~ 0 <= 1 < Z.of_nat (length (players st)) -> st' = st).
Proof.
  apply (roster_stays_clean ascii_lower (js " Dee ") 1
           (set_players [js "Ada"; js "Bob"; js "Cy"] initial)).
  split.
  - repeat constructor; try discriminate; cbn; intros c [= <-]; reflexivity.
  - cbn. repeat constructor; cbn; intuition discriminate.
Defined.

(** Removing the player in the middle keeps the two others, in order;
    an index outside the roster removes nobody. *)
Example removePlayer_middle :
  players (removePlayer 1 (set_players [js "Ada"; js "Bob"; js "Cy"] initial))
  = [js "Ada"; js "Cy"] /\
  removePlayer 3 (set_players [js "Ada"; js "Bob"; js "Cy"] initial)
  = set_players [js "Ada"; js "Bob"; js "Cy"] initial /\
  removePlayer (-1) (set_players [js "Ada"; js "Bob"; js "Cy"] initial)
  = set_players [js "Ada"; js "Bob"; js "Cy"] initial.
Proof. repeat split. Qed.

(** A name that differs by case and surrounding blanks is refused. *)
Example addPlayer_refuses_bob :
  addPlayer ascii_lower (js "  bOB ") (set_players [js "Ada"; js "Bob"] initial)
  = (Some (js "That name is already taken."),
     set_players [js "Ada"; js "Bob"] initial).
Proof. reflexivity. Qed.

End RosterExample.

Section Rounds.
Import Game Play.
Variable wordDatabase : jsstring -> option (list Word).

Lemma includes_In s arr : includes s arr = true <-> In s arr.
Proof.
  unfold includes. rewrite existsb_exists. split.
  - intros (x & Hx & E). apply bool_decide_eq_true in E. subst. exact Hx.
  - intros H. exists s. split; [exact H|]. apply bool_decide_eq_true. reflexivity.
Qed.

Lemma word_choices_spec pool used :
  pool <> [] ->
  let c := word_choices pool used in
  c.2 <> [] /\
  (forall w, In w c.2 -> In w pool /\ ~ In (word w) c.1) /\
  (c.1 = used /\ (exists w, In w pool /\ ~ In (word w) used) \/
   c.1 = [] /\ forall w, In w pool -> In (word w) used).
Proof.
  intros Hne. unfold word_choices. cbv zeta.
  destruct (List.filter _ pool) as [|w0 fresh] eqn:E.
  - cbn [fst snd]. split; [exact Hne|]. split; [intros w Hw; split; [exact Hw|intros []]|].
    right. split; [reflexivity|]. intros w Hw.
    destruct (includes (word w) used) eqn:Hi; [apply includes_In, Hi|].
    assert (In w (List.filter (fun w => negb (includes (word w) used)) pool)) as Hin
      by (apply filter_In; split; [exact Hw|rewrite Hi; reflexivity]).
    rewrite E in Hin. destruct Hin.
  - cbn [fst snd]. split; [discriminate|]. split.
    + intros w Hw. rewrite <- E in Hw. apply filter_In in Hw as [Hw Hf].
      split; [exact Hw|]. intros Hin. apply includes_In in Hin.
      rewrite Hin in Hf. discriminate.
    + left. split; [reflexivity|]. exists w0.
      assert (In w0 (List.filter (fun w => negb (includes (word w) used)) pool)) as Hin
        by (rewrite E; left; reflexivity).
      apply filter_In in Hin as [Hw Hf]. split; [exact Hw|].
      intros Hin. apply includes_In in Hin. rewrite Hin in Hf. discriminate.
Qed.

Lemma drawn_range n k : n <> 0%nat -> drawn n k = true -> (k < n)%nat.
Proof.
  unfold drawn. intros Hn H. apply orb_true_iff in H as [H|H].
  - apply Nat.ltb_lt, H.
  - apply andb_true_iff in H as [H _]. apply Nat.eqb_eq in H. contradiction.
Qed.

(** X15. A round never repeats a word before the category is used up:
    [startRound] draws a word of the current category that is not in
    [usedWords], appends it there, and empties [usedWords] first only
    when every word of the category is in it.  It also picks an imposter
    index within the roster and opens the reveal phase with the first
    player. *)
Theorem startRound_fresh_word
    (k_word k_imp : nat) (st : State) (pool : list Word) :
  wordDatabase (category st) = Some pool -> pool <> [] ->
  (k_word < length (word_choices pool (usedWords st)).2)%nat ->
  drawn (length (players st)) k_imp = true ->
  exists w st',
    startRound wordDatabase k_word k_imp st = Ret (None, st') /\
    currentWord st' = Some w /\ In w pool /\
    (~ In (word w) (usedWords st) /\ usedWords st' = usedWords st ++ [word w] \/
     (forall w0, In w0 pool -> In (word w0) (usedWords st)) /\
     usedWords st' = [word w]) /\
    (List.NoDup (usedWords st) -> List.NoDup (usedWords st')) /\
    imposterIndex st' = Z.of_nat k_imp /\
    (players st <> [] -> 0 <= imposterIndex st' < Z.of_nat (length (players st))) /\
    currentPhase st' = REVEAL /\ currentPlayerIndex st' = 0 /\
    isRoleRevealed st' = false /\ players st' = players st.
Proof.
  intros Hdb Hne Hk Himp.
  destruct (word_choices_spec pool (usedWords st) Hne) as (Hav & Hin & Hused).
  unfold startRound, pool_of. rewrite Hdb. cbn [mbind result_bind].
  destruct pool as [|w0 pool']; [congruence|]. set (pool := w0 :: pool') in *.
  destruct (word_choices pool (usedWords st)) as [used available] eqn:Ec.
  cbn [fst snd] in *.
  assert (drawn (length available) k_word = true) as ->.
  { unfold drawn. apply orb_true_iff. left. apply Nat.ltb_lt, Hk. }
  rewrite Himp. cbn [andb].
  destruct (lookup_lt_is_Some_2 available k_word Hk) as [w Hw]. rewrite Hw.
  apply list_elem_of_lookup_2, list_elem_of_In, Hin in Hw as [Hwp Hwu].
  exists w. eexists. split; [reflexivity|].
  cbn [currentWord usedWords imposterIndex currentPhase currentPlayerIndex
       isRoleRevealed players set_currentWord set_usedWords set_imposterIndex
       set_currentPlayerIndex set_isRoleRevealed set_currentPhase].
  split; [reflexivity|]. split; [exact Hwp|]. split; [|split; [|split; [|split]]].
  - destruct Hused as [[-> _]|[-> Hall]]; [left|right]; auto.
  - intros Hnd. destruct Hused as [[-> _]|[-> _]].
    + apply NoDup_ListNoDup, NoDup_app. split; [apply NoDup_ListNoDup, Hnd|].
      split; [|apply NoDup_singleton].
      intros x Hx Hx'. apply list_elem_of_singleton in Hx'. subst x.
      apply list_elem_of_In in Hx. contradiction.
    + repeat constructor. intros [].
  - reflexivity.
  - intros Hp. split; [lia|]. apply Nat2Z.inj_lt, drawn_range; [|exact Himp].
    destruct (players st); [congruence|discriminate].
  - repeat split.
Qed.

Lemma word_choices_new pool : pool <> [] -> word_choices pool [] = ([], pool).
Proof.
  intros Hne. unfold word_choices.
  rewrite filter_all by (apply Forall_forall; intros; reflexivity).
  destruct pool; [congruence|reflexivity].
Qed.

(** X16. [startGame] refuses a roster of fewer than three players,
    the empty one included, whatever the category and the draws are, and
    changes nothing; with three or more, and words in the category, it
    starts round 1 with a word of the category, a list of used words that
    holds exactly that word, and the drawn imposter index. *)
Theorem startGame_outcome (k_word k_imp : nat) (st : State) :
  ((length (players st) < 3)%nat ->
   startGame wordDatabase k_word k_imp st
   = Ret (Some (js "Need at least 3 players!"), st)) /\
  (forall pool,
     (3 <= length (players st))%nat ->
     wordDatabase (category st) = Some pool ->
     (k_word < length pool)%nat -> (k_imp < length (players st))%nat ->
     exists w st',
       startGame wordDatabase k_word k_imp st = Ret (None, st') /\
       currentWord st' = Some w /\ pool !! k_word = Some w /\
       usedWords st' = [word w] /\ round st' = 1 /\
       imposterIndex st' = Z.of_nat k_imp /\
       currentPhase st' = REVEAL /\ currentPlayerIndex st' = 0 /\
       isRoleRevealed st' = false /\ players st' = players st).
Proof.
  unfold startGame. split.
  - intros Hn. apply Nat.ltb_lt in Hn. rewrite Hn. reflexivity.
  - intros pool Hn Hdb Hk Himp. apply Nat.ltb_ge in Hn. rewrite Hn.
    assert (pool <> []) as Hne by (destruct pool; [cbn in Hk; lia|discriminate]).
    unfold startRound, pool_of.
    cbn [category usedWords players set_usedWords set_round].
    rewrite Hdb. cbn [mbind result_bind].
    rewrite (word_choices_new pool Hne).
    destruct pool as [|w0 pool']; [congruence|]. set (pool := w0 :: pool') in *.
    unfold drawn. rewrite (proj2 (Nat.ltb_lt _ _) Hk), (proj2 (Nat.ltb_lt _ _) Himp).
    cbn [orb andb].
    destruct (lookup_lt_is_Some_2 pool k_word Hk) as [w Hw]. rewrite Hw.
    exists w. eexists. split; [reflexivity|]. repeat split.
Qed.

End Rounds.

Section RoundsExample.
Import Game Play.

Lemma startRound_fresh_word_witness :
  let st := set_usedWords [js "kettle"]
              (set_players [js "Ada"; js "Bob"; js "Cy"] initial) in
  exists w st',
    startRound sample_words 1 2 st = Ret (None, st') /\
    currentWord st' = Some w /\
    In w [{| word := js "kettle"; hint := js "kitchen" |};
          {| word := js "ladder"; hint := js "garage" |};
          {| word := js "pillow"; hint := js "bedroom" |}] /\
    (~ In (word w) (usedWords st) /\ usedWords st' = usedWords st ++ [word w] \/
     (forall w0, In w0 [{| word := js "kettle"; hint := js "kitchen" |};
                        {| word := js "ladder"; hint := js "garage" |};
                        {| word := js "pillow"; hint := js "bedroom" |}] ->
                 In (word w0) (usedWords st)) /\
     usedWords st' = [word w]) /\
    (List.NoDup (usedWords st) -> List.NoDup (usedWords st')) /\
    imposterIndex st' = Z.of_nat 2 /\
    (players st <> [] -> 0 <= imposterIndex st' < Z.of_nat (length (players st))) /\
    currentPhase st' = REVEAL /\ currentPlayerIndex st' = 0 /\
    isRoleRevealed st' = false /\ players st' = players st.
Proof.
  apply (startRound_fresh_word sample_words 1 2
           (set_usedWords [js "kettle"]
              (set_players [js "Ada"; js "Bob"; js "Cy"] initial))).
  - reflexivity.
  - discriminate.
  - vm_compute. lia.
  - reflexivity.
Defined.

Lemma startGame_outcome_witness :
  (startGame sample_words 7 9 initial
   = Ret (Some (js "Need at least 3 players!"), initial)) /\
  (startGame sample_words 0 0 (set_players [js "Ada"; js "Bob"] initial)
   = Ret (Some (js "Need at least 3 players!"),
          set_players [js "Ada"; js "Bob"] initial)) /\
  (let st := set_players [js "Ada"; js "Bob"; js "Cy"] initial in
   exists w st',
     startGame sample_words 0 1 st = Ret (None, st') /\
     currentWord st' = Some w /\
     [{| word := js "kettle"; hint := js "kitchen" |};
      {| word := js "ladder"; hint := js "garage" |};
      {| word := js "pillow"; hint := js "bedroom" |}] !! 0%nat = Some w /\
     usedWords st' = [word w] /\ round st' = 1 /\
     imposterIndex st' = Z.of_nat 1 /\
     currentPhase st' = REVEAL /\ currentPlayerIndex st' = 0 /\
     isRoleRevealed st' = false /\ players st' = players st).
Proof.
  split; [|split].
  - apply (startGame_outcome sample_words 7 9 initial). cbn. lia.
  - apply (startGame_outcome sample_words 0 0 (set_players [js "Ada"; js "Bob"] initial)).
    cbn. lia.
  - apply (startGame_outcome sample_words 0 1
             (set_players [js "Ada"; js "Bob"; js "Cy"] initial)).
    + cbn. lia.
    + reflexivity.
    + cbn. lia.
    + cbn. lia.
Defined.

End RoundsExample.

Section Reveal.
Import Game Play.

Lemma incr_below z : z < 2 ^ 53 -> incr z = z + 1.
Proof. intros H. unfold incr. destruct (Z.ltb_spec z (2 ^ 53)); [reflexivity|lia]. Qed.

Lemma at_index_nat {A} (l : list A) (i : nat) : at_index l (Z.of_nat i) = l !! i.
Proof.
  unfold at_index. destruct (Z.ltb_spec (Z.of_nat i) 0); [lia|].
  rewrite Nat2Z.id. reflexivity.
Qed.

Lemma reveal_sequence_S n st :
  reveal_sequence (S n) st =
    let '(shown, st1) := revealCurrentRole st in
    let '(more, st2) := nextRevealPlayer st1 in
    if more then
      let '(rest, st3) := reveal_sequence n st2 in (shown :: rest, st3)
    else ([shown], st2).
Proof. reflexivity. Qed.

(** The reveal sequence from the player at index [k] on. *)
Lemma reveal_sequence_from (m : nat) : forall (k : nat) (st : State) (w : Word),
  currentWord st = Some w -> isRoleRevealed st = false ->
  currentPlayerIndex st = Z.of_nat k ->
  (k + S m = length (players st))%nat ->
  Z.of_nat (length (players st)) < 2 ^ 53 ->
  exists st',
    reveal_sequence (S m) st
    = (map (role_at (players st) w (imposterIndex st)) (seq k (S m)), st') /\
    currentPlayerIndex st' = Z.of_nat (length (players st)) /\
    set_isRoleRevealed false (set_currentPlayerIndex 0 st')
    = set_isRoleRevealed false (set_currentPlayerIndex 0 st).
Proof.
  induction m as [|m IH]; intros k st w Hw Hr Hk Hn Hlt.
  - rewrite reveal_sequence_S. unfold revealCurrentRole. rewrite Hr, Hw.
    unfold nextRevealPlayer.
    cbn [currentPlayerIndex players set_currentPlayerIndex set_isRoleRevealed
         isRoleRevealed].
    rewrite Hk, incr_below by lia.
    destruct (Z.ltb_spec (Z.of_nat k + 1) (Z.of_nat (length (players st)))); [lia|].
    eexists. split; [|split].
    + cbn [seq map]. unfold role_at. rewrite at_index_nat. reflexivity.
    + cbn. lia.
    + reflexivity.
  - rewrite reveal_sequence_S. unfold revealCurrentRole. rewrite Hr, Hw.
    unfold nextRevealPlayer.
    cbn [currentPlayerIndex players set_currentPlayerIndex set_isRoleRevealed
         isRoleRevealed].
    rewrite Hk, incr_below by lia.
    destruct (Z.ltb_spec (Z.of_nat k + 1) (Z.of_nat (length (players st)))); [|lia].
    set (st2 := set_isRoleRevealed false
                  (set_currentPlayerIndex (Z.of_nat k + 1)
                     (set_isRoleRevealed true st))).
    destruct (IH (S k) st2 w Hw eq_refl ltac:(cbn; lia) ltac:(cbn; lia) Hlt)
      as (st3 & Hseq & Hidx & Hsame).
    rewrite Hseq. exists st3. split; [|split; [exact Hidx|exact Hsame]].
    change (players st2) with (players st).
    change (imposterIndex st2) with (imposterIndex st).
    change (seq k (S (S m))) with (k :: seq (S k) (S m)). cbn [map].
    unfold role_at at 3. rewrite at_index_nat. reflexivity.
Qed.

Lemma one_imposter names w imp (m : nat) : forall k : nat,
  imposters (map (role_at names w imp) (seq k m))
  = if (Z.of_nat k <=? imp) && (imp <? Z.of_nat (k + m)) then 1%nat else 0%nat.
Proof.
  unfold imposters. induction m as [|m IH]; intros k.
  - cbn. destruct (Z.leb_spec (Z.of_nat k) imp), (Z.ltb_spec imp (Z.of_nat (k + 0)));
      try reflexivity; lia.
  - cbn [seq map List.filter is_imposter_role role_at isImposter].
    destruct (Z.eqb_spec (Z.of_nat k) imp) as [E|E].
    + cbn [length]. rewrite IH.
      destruct (Z.leb_spec (Z.of_nat (S k)) imp); [lia|]. cbn [andb].
      destruct (Z.leb_spec (Z.of_nat k) imp), (Z.ltb_spec imp (Z.of_nat (k + S m)));
        try reflexivity; lia.
    + rewrite IH.
      destruct (Z.leb_spec (Z.of_nat (S k)) imp), (Z.leb_spec (Z.of_nat k) imp),
        (Z.ltb_spec imp (Z.of_nat (S k + m))), (Z.ltb_spec imp (Z.of_nat (k + S m)));
        try reflexivity; lia.
Qed.

(** X17. Pass-and-play reveal.  From the state a started round leaves,
    tapping and passing the device on shows every player of the roster
    one role, in roster order; exactly one of them is told to be the
    imposter, the player at [imposterIndex], who sees the hint and never
    the word, while every other player sees the word and no hint.  The
    sequence stops after the last player, and the rest of the state is
    untouched.  A second tap by the same player shows nothing. *)
Theorem reveal_sequence_roles (st : State) (w : Word) :
  currentWord st = Some w -> isRoleRevealed st = false ->
  currentPlayerIndex st = 0 -> players st <> [] ->
  Z.of_nat (length (players st)) < 2 ^ 53 ->
  0 <= imposterIndex st < Z.of_nat (length (players st)) ->
  let r := reveal_sequence (length (players st)) st in
  r.1 = imap (fun i name =>
                let imp := Z.of_nat i =? imposterIndex st in
                Ret (Some {| isImposter := imp; playerName := Some name;
                             role_word := if imp then None else Some (word w);
                             role_hint := if imp then Some (hint w) else None |}))
             (players st) /\
  imposters r.1 = 1%nat /\
  currentPlayerIndex r.2 = Z.of_nat (length (players st)) /\
  set_isRoleRevealed false (set_currentPlayerIndex 0 r.2) = st /\
  (revealCurrentRole (revealCurrentRole st).2).1 = Ret None.
Proof.
  intros Hw Hr Hk Hne Hlt Himp. cbv zeta.
  destruct (players st) as [|p0 ps] eqn:Ep; [congruence|].
  rewrite <- Ep in *.
  assert (length (players st) = S (length ps)) as Hlen by (rewrite Ep; reflexivity).
  destruct (reveal_sequence_from (length ps) 0 st w Hw Hr Hk ltac:(lia) Hlt)
    as (st' & Hseq & Hidx & Hsame).
  rewrite <- Hlen in Hseq. rewrite Hseq. cbn [fst snd]. split; [|split; [|split; [exact Hidx|split]]].
  - apply list_eq. intros i. rewrite list_lookup_imap.
    change (map (role_at (players st) w (imposterIndex st))
                (seq 0 (length (players st))))
      with (role_at (players st) w (imposterIndex st) <$> seq 0 (length (players st))).
    rewrite list_lookup_fmap, Hlen.
    destruct (decide (i < S (length ps))%nat) as [Hi|Hi].
    + rewrite lookup_seq_lt by exact Hi. cbn [fmap option_fmap option_map].
      destruct (lookup_lt_is_Some_2 (players st) i ltac:(lia)) as [name Hn].
      unfold role_at. cbn [Nat.add]. rewrite Hn. reflexivity.
    + rewrite lookup_seq_ge by lia. rewrite lookup_ge_None_2 by lia. reflexivity.
  - rewrite one_imposter.
    destruct (Z.leb_spec (Z.of_nat 0) (imposterIndex st)); [|lia].
    destruct (Z.ltb_spec (imposterIndex st) (Z.of_nat (0 + length (players st))));
      [|lia].
    reflexivity.
  - rewrite Hsame. destruct st. cbn in *. subst. reflexivity.
  - unfold revealCurrentRole at 2. rewrite Hr, Hw. reflexivity.
Qed.

Lemma reveal_sequence_roles_witness :
  let st := {| mode := LOCAL; players := [js "Ada"; js "Bob"; js "Cy"];
               category := js "household";
               currentWord := Some {| word := js "kettle"; hint := js "kitchen" |};
               imposterIndex := 1; currentPlayerIndex := 0; isRoleRevealed := false;
               currentPhase := REVEAL; round := 1; usedWords := [js "kettle"];
               cluePlayerIndex := 0; startingPlayerIndex := -1;
               timerSeconds := 0; timerRunning := false;
               localPlayerName := []; isHost := false; onlinePeers := [];
               _localIsImposter := false; _localWord := None; _localHint := None;
               _hostReady := false |} in
  let w := {| word := js "kettle"; hint := js "kitchen" |} in
  let r := reveal_sequence (length (players st)) st in
  r.1 = imap (fun i name =>
                let imp := Z.of_nat i =? imposterIndex st in
                Ret (Some {| isImposter := imp; playerName := Some name;
                             role_word := if imp then None else Some (word w);
                             role_hint := if imp then Some (hint w) else None |}))
             (players st) /\
  imposters r.1 = 1%nat /\
  currentPlayerIndex r.2 = Z.of_nat (length (players st)) /\
  set_isRoleRevealed false (set_currentPlayerIndex 0 r.2) = st /\
  (revealCurrentRole (revealCurrentRole st).2).1 = Ret None.
Proof.
  cbv zeta.
  apply (reveal_sequence_roles _ {| word := js "kettle"; hint := js "kitchen" |});
    try reflexivity; [discriminate|cbn; lia].
Defined.

End Reveal.

Section Clues.
Import Game Play.

Lemma clue_sequence_S n st :
  clue_sequence (S n) st =
    let speaker := getCurrentCluePlayer st in
    let '(more, st1) := nextClueTurn st in
    if more then
      let '(rest, st2) := clue_sequence n st1 in (speaker :: rest, st2)
    else ([speaker], st1).
Proof. reflexivity. Qed.

(** The speaker of turn [c] when the round started with player [k]. *)
Lemma getCurrentCluePlayer_turn st (k c : nat) :
  startingPlayerIndex st = Z.of_nat k -> cluePlayerIndex st = Z.of_nat c ->
  players st <> [] -> Z.of_nat (k + c) <= 2 ^ 53 ->
  getCurrentCluePlayer st = Ret (players st !! ((k + c) mod length (players st))%nat).
Proof.
  intros Hk Hc Hne Hsafe. unfold getCurrentCluePlayer. rewrite Hk, Hc.
  assert (safe_integer (Z.of_nat k + Z.of_nat c) = true) as ->.
  { unfold safe_integer. apply Z.leb_le. lia. }
  destruct (players st) as [|p ps] eqn:Ep; [congruence|]. rewrite <- Ep.
  assert (length (players st) <> 0%nat) by (rewrite Ep; discriminate).
  rewrite Z.rem_mod_nonneg by lia.
  rewrite <- Nat2Z.inj_add, <- Nat2Z.inj_mod, at_index_nat. reflexivity.
Qed.

Lemma clue_sequence_from (m : nat) : forall (c k : nat) (st : State),
  startingPlayerIndex st = Z.of_nat k -> cluePlayerIndex st = Z.of_nat c ->
  (c + S m = length (players st))%nat -> (k < length (players st))%nat ->
  Z.of_nat (length (players st)) < 2 ^ 52 ->
  exists st',
    clue_sequence (S m) st
    = (map (fun i => Ret (players st !! ((k + i) mod length (players st))%nat))
           (seq c (S m)), st') /\
    cluePlayerIndex st' = Z.of_nat (length (players st)) /\
    players st' = players st /\ currentPhase st' = currentPhase st.
Proof.
  induction m as [|m IH]; intros c k st Hk Hc Hn Hlt Hsafe.
  - rewrite clue_sequence_S.
    rewrite (getCurrentCluePlayer_turn st k c Hk Hc) by (try (intros E; rewrite E in Hn; cbn in Hn); lia).
    unfold nextClueTurn.
    cbn [cluePlayerIndex players set_cluePlayerIndex set_timerSeconds set_timerRunning].
    rewrite Hc, incr_below by lia.
    destruct (Z.ltb_spec (Z.of_nat c + 1) (Z.of_nat (length (players st)))); [lia|].
    eexists. split; [reflexivity|]. split; [cbn; lia|split; reflexivity].
  - rewrite clue_sequence_S.
    rewrite (getCurrentCluePlayer_turn st k c Hk Hc) by (try (intros E; rewrite E in Hn; cbn in Hn); lia).
    unfold nextClueTurn.
    cbn [cluePlayerIndex players set_cluePlayerIndex set_timerSeconds set_timerRunning].
    rewrite Hc, incr_below by lia.
    destruct (Z.ltb_spec (Z.of_nat c + 1) (Z.of_nat (length (players st)))); [|lia].
    set (st1 := set_timerRunning false
                  (set_timerSeconds 0 (set_cluePlayerIndex (Z.of_nat c + 1) st))).
    destruct (IH (S c) k st1 Hk ltac:(cbn; lia) ltac:(cbn; lia) Hlt Hsafe)
      as (st2 & Hseq & Hidx & Hp & Hph).
    rewrite Hseq. exists st2. split; [|split; [exact Hidx|split; [exact Hp|exact Hph]]].
    reflexivity.
Qed.

Lemma rotation_lookup {A} (l : list A) (k i : nat) :
  (k < length l)%nat -> (i < length l)%nat ->
  (drop k l ++ take k l) !! i = l !! ((k + i) mod length l)%nat.
Proof.
  intros Hk Hi. destruct (decide (k + i < length l)%nat) as [Hlt|Hge].
  - rewrite Nat.mod_small by exact Hlt.
    rewrite lookup_app_l by (rewrite length_drop; lia).
    apply lookup_drop.
  - assert ((k + i) mod length l = k + i - length l)%nat as ->.
    { rewrite (Nat.Div0.mod_eq (k + i) (length l)).
      assert ((k + i) / length l = 1)%nat as ->; [|lia].
      symmetry. apply (Nat.div_unique (k + i) (length l) 1 (k + i - length l)); lia. }
    rewrite lookup_app_r by (rewrite length_drop; lia).
    rewrite length_drop, lookup_take_lt by lia. f_equal. lia.
Qed.

(** X18. The clue phase lets everybody speak exactly once.  After
    [startCluePhase] drew the starting player [k], showing the current
    speaker and moving on until [nextClueTurn()] says that nobody is
    left names the players from the [k]-th to the last and then from the
    first to the one before the [k]-th: a rotation of the roster, so
    every player once and nobody twice. *)
Theorem clue_rotation (k : nat) (st : State) :
  (k < length (players st))%nat ->
  Z.of_nat (length (players st)) < 2 ^ 52 ->
  exists st0 st',
    startCluePhase k st = Ret st0 /\
    clue_sequence (length (players st)) st0
    = (map (fun name => Ret (Some name)) (drop k (players st) ++ take k (players st)),
       st') /\
    drop k (players st) ++ take k (players st) ≡ₚ players st /\
    cluePlayerIndex st' = Z.of_nat (length (players st)) /\
    currentPhase st' = CLUES.
Proof.
  intros Hk Hsafe. unfold startCluePhase.
  assert (drawn (length (players st)) k = true) as ->.
  { unfold drawn. apply orb_true_iff. left. apply Nat.ltb_lt, Hk. }
  set (st0 := set_timerRunning false _).
  assert (exists m, length (players st) = S m) as [m Hlen]
    by (destruct (length (players st)); [lia|eauto]).
  destruct (clue_sequence_from m 0 k st0 eq_refl eq_refl)
    as (st' & Hseq & Hidx & Hp & Hph);
    try (cbn [players set_currentPhase set_startingPlayerIndex set_cluePlayerIndex
              set_timerSeconds set_timerRunning st0]; lia).
  change (players st0) with (players st) in *. rewrite <- Hlen in Hseq.
  exists st0, st'. split; [reflexivity|]. split; [|split; [|split]].
  - rewrite Hseq. f_equal.
    apply list_eq. intros i.
    change (map ?f ?l) with (f <$> l). rewrite !list_lookup_fmap.
    destruct (decide (i < length (players st))%nat) as [Hi|Hi].
    + rewrite lookup_seq_lt by exact Hi. cbn [fmap option_fmap option_map Nat.add].
      rewrite rotation_lookup by lia.
      destruct (lookup_lt_is_Some_2 (players st) ((k + i) mod length (players st)))
        as [name Hn].
      { apply Nat.mod_upper_bound. lia. }
      rewrite Hn. reflexivity.
    + rewrite lookup_seq_ge by lia.
      rewrite lookup_ge_None_2; [reflexivity|].
      rewrite length_app, length_drop, length_take. lia.
  - rewrite Permutation_app_comm, take_drop. reflexivity.
  - exact Hidx.
  - rewrite Hph. reflexivity.
Qed.

Lemma clue_rotation_witness :
  let st := set_players [js "Ada"; js "Bob"; js "Cy"] initial in
  exists st0 st',
    startCluePhase 1 st = Ret st0 /\
    clue_sequence (length (players st)) st0
    = (map (fun name => Ret (Some name)) (drop 1 (players st) ++ take 1 (players st)),
       st') /\
    drop 1 (players st) ++ take 1 (players st) ≡ₚ players st /\
    cluePlayerIndex st' = Z.of_nat (length (players st)) /\
    currentPhase st' = CLUES.
Proof.
  apply (clue_rotation 1 (set_players [js "Ada"; js "Bob"; js "Cy"] initial)).
  - cbn. lia.
  - cbn. lia.
Defined.

End Clues.

Section Lobby.
Import Game Play.

Lemma existsb_id_In peerId (l : list OnlinePeer) :
  existsb (fun p => bool_decide (id p = peerId)) l = true <-> In peerId (map id l).
Proof.
  rewrite existsb_exists, in_map_iff. split.
  - intros (p & Hp & E). apply bool_decide_eq_true in E. eauto.
  - intros (p & E & Hp). exists p. split; [exact Hp|]. apply bool_decide_eq_true, E.
Qed.

Lemma mark_ready_map peerId (l : list OnlinePeer) :
  List.NoDup (map id l) ->
  mark_ready peerId l =
    map (fun p => if bool_decide (id p = peerId)
                  then {| id := id p; peer_name := peer_name p; ready := true |}
                  else p) l.
Proof.
  induction l as [|p r IH]; [reflexivity|]. cbn [map mark_ready]. intros Hnd.
  apply List.NoDup_cons_iff in Hnd as [Hnin Hnd].
  destruct (bool_decide (id p = peerId)) eqn:E.
  - apply bool_decide_eq_true in E. f_equal.
    clear IH. induction r as [|q r IHr]; [reflexivity|].
    cbn [map] in *. apply List.NoDup_cons_iff in Hnd as [_ Hnd].
    rewrite bool_decide_eq_false_2 by (intros E'; apply Hnin; left; congruence).
    f_equal. apply IHr; [|exact Hnd]. intros Hin. apply Hnin. right. exact Hin.
  - f_equal. apply IH, Hnd.
Qed.

Lemma mark_ready_ids peerId (l : list OnlinePeer) :
  map id (mark_ready peerId l) = map id l /\
  map peer_name (mark_ready peerId l) = map peer_name l.
Proof.
  induction l as [|p r [IH1 IH2]]; [split; reflexivity|]. cbn [mark_ready].
  destruct (bool_decide (id p = peerId)); cbn [map id peer_name];
    [split; reflexivity|]. rewrite IH1, IH2. split; reflexivity.
Qed.

(** X19. The lobby never lists a peer twice.  [addOnlinePeer] appends
    an entry that is not ready for an id that is new and does nothing
    for an id that is there; [removeOnlinePeer] removes the entry of the
    id and no other; [setOnlinePeerReady] and [resetOnlinePeerReady]
    change neither ids nor names.  All four keep the ids distinct. *)
Theorem lobby_ids_unique (peerId name : jsstring) (st : State) :
  List.NoDup (peer_ids st) ->
  let a := addOnlinePeer peerId name st in
  let r := removeOnlinePeer peerId st in
  let m := setOnlinePeerReady peerId st in
  let z := resetOnlinePeerReady st in
  (List.NoDup (peer_ids a) /\ In peerId (peer_ids a) /\
   (In peerId (peer_ids st) -> a = st) /\
   (~ In peerId (peer_ids st) ->
    onlinePeers a = onlinePeers st
                    ++ [{| id := peerId; peer_name := name; ready := false |}])) /\
  (List.NoDup (peer_ids r) /\ ~ In peerId (peer_ids r) /\
   forall p, id p <> peerId -> (In p (onlinePeers r) <-> In p (onlinePeers st))) /\
  (peer_ids m = peer_ids st /\ peer_ids z = peer_ids st /\
   map peer_name (onlinePeers m) = map peer_name (onlinePeers st) /\
   map peer_name (onlinePeers z) = map peer_name (onlinePeers st) /\
   getOnlinePlayerNames m = getOnlinePlayerNames st).
Proof.
  intros Hnd. cbv zeta. unfold peer_ids in *. split; [|split].
  - unfold addOnlinePeer.
    destruct (existsb _ (onlinePeers st)) eqn:E.
    + apply existsb_id_In in E. repeat split; try assumption. contradiction.
    + assert (~ In peerId (map id (onlinePeers st))) as Hnin.
      { intros Hin. apply existsb_id_In in Hin. congruence. }
      cbn [onlinePeers set_onlinePeers]. rewrite map_app. cbn [map id].
      split; [|split; [|split]].
      * apply NoDup_ListNoDup, NoDup_app. split; [apply NoDup_ListNoDup, Hnd|].
        split; [|apply NoDup_singleton].
        intros x Hx Hx'. apply list_elem_of_singleton in Hx'. subst x.
        apply list_elem_of_In in Hx. contradiction.
      * apply in_or_app. right. left. reflexivity.
      * contradiction.
      * reflexivity.
  - unfold removeOnlinePeer. cbn [onlinePeers set_onlinePeers]. split; [|split].
    + induction (onlinePeers st) as [|p l IH]; [constructor|].
      cbn [map] in Hnd. apply List.NoDup_cons_iff in Hnd as [Hnin Hnd].
      cbn [List.filter]. destruct (negb _); [|apply IH, Hnd].
      cbn [map]. constructor; [|apply IH, Hnd].
      intros Hin. apply Hnin. apply in_map_iff in Hin as (x & Ex & Hin).
      apply filter_In in Hin as [Hin _]. apply in_map_iff. eauto.
    + intros Hin. apply in_map_iff in Hin as (x & Ex & Hin).
      apply filter_In in Hin as [_ Hf]. apply negb_true_iff in Hf.
      apply bool_decide_eq_false in Hf. contradiction.
    + intros p Hp. rewrite filter_In. split; [tauto|]. intros Hin.
      split; [exact Hin|]. apply negb_true_iff, bool_decide_eq_false, Hp.
  - unfold setOnlinePeerReady, resetOnlinePeerReady, getOnlinePlayerNames.
    cbn [onlinePeers set_onlinePeers localPlayerName].
    destruct (mark_ready_ids peerId (onlinePeers st)) as [H1 H2].
    rewrite H1, H2, !map_map. cbn [id peer_name]. repeat split.
Qed.

Lemma lobby_ids_unique_witness :
  let a := addOnlinePeer (js "z8y7x6w") (js "Di") sample_lobby in
  let r := removeOnlinePeer (js "z8y7x6w") sample_lobby in
  let m := setOnlinePeerReady (js "z8y7x6w") sample_lobby in
  let z := resetOnlinePeerReady sample_lobby in
  (List.NoDup (peer_ids a) /\ In (js "z8y7x6w") (peer_ids a) /\
   (In (js "z8y7x6w") (peer_ids sample_lobby) -> a = sample_lobby) /\
   (~ In (js "z8y7x6w") (peer_ids sample_lobby) ->
    onlinePeers a = onlinePeers sample_lobby
                    ++ [{| id := js "z8y7x6w"; peer_name := js "Di"; ready := false |}])) /\
  (List.NoDup (peer_ids r) /\ ~ In (js "z8y7x6w") (peer_ids r) /\
   forall p, id p <> js "z8y7x6w" ->
             (In p (onlinePeers r) <-> In p (onlinePeers sample_lobby))) /\
  (peer_ids m = peer_ids sample_lobby /\ peer_ids z = peer_ids sample_lobby /\
   map peer_name (onlinePeers m) = map peer_name (onlinePeers sample_lobby) /\
   map peer_name (onlinePeers z) = map peer_name (onlinePeers sample_lobby) /\
   getOnlinePlayerNames m = getOnlinePlayerNames sample_lobby).
Proof.
  apply (lobby_ids_unique (js "z8y7x6w") (js "Di") sample_lobby).
  cbn. repeat constructor; cbn; intuition discriminate.
Defined.

Lemma mark_all_ready (ids : list jsstring) : forall l : list OnlinePeer,
  List.NoDup (map id l) ->
  let l' := fold_left (fun acc i => mark_ready i acc) ids l in
  map id l' = map id l /\ map peer_name l' = map peer_name l /\
  forall p', In p' l' ->
    exists p, In p l /\ id p' = id p /\ peer_name p' = peer_name p /\
              (ready p' = true <-> ready p = true \/ In (id p) ids).
Proof.
  induction ids as [|i ids IH]; intros l Hnd; cbv zeta.
  - cbn [fold_left]. split; [reflexivity|]. split; [reflexivity|].
    intros p' Hp'. exists p'.
    repeat split; try assumption; [tauto|]. intros [H|[]]. exact H.
  - cbn [fold_left].
    assert (List.NoDup (map id (mark_ready i l))) as Hnd'
      by (rewrite (proj1 (mark_ready_ids i l)); exact Hnd).
    destruct (IH (mark_ready i l) Hnd') as (Hids & Hnames & Hall). cbv zeta in *.
    split; [rewrite Hids; apply mark_ready_ids|].
    split; [rewrite Hnames; apply mark_ready_ids|].
    intros p' Hp'. destruct (Hall p' Hp') as (q & Hq & E1 & E2 & Hr).
    rewrite (mark_ready_map i l Hnd) in Hq. apply in_map_iff in Hq as (p & Eq & Hp).
    exists p. split; [exact Hp|].
    destruct (bool_decide (id p = i)) eqn:Ei; subst q; cbn [id peer_name ready] in *.
    + apply bool_decide_eq_true in Ei. repeat split; try assumption.
      * intros _. right. left. congruence.
      * intros _. apply Hr. left. reflexivity.
    + apply bool_decide_eq_false in Ei. repeat split; try assumption.
      * intros H. apply Hr in H as [H|H]; [left; exact H|right; right; exact H].
      * intros [H|[H|H]]; [apply Hr; left; exact H|congruence|apply Hr; right; exact H].
Qed.

(** X20. Once every peer of the lobby has reported ready, in whatever
    order and however often, the test [checkAllReady] makes of the peers
    passes; the reports change neither ids nor names, and
    [resetOnlinePeerReady] makes the test fail again unless the lobby is
    empty. *)
Theorem all_ready_after_reports (reports : list jsstring) (st : State) :
  List.NoDup (peer_ids st) ->
  (forall i, In i (peer_ids st) -> In i reports) ->
  let st' := fold_left (fun s i => setOnlinePeerReady i s) reports st in
  all_ready st' = true /\
  peer_ids st' = peer_ids st /\
  map peer_name (onlinePeers st') = map peer_name (onlinePeers st) /\
  (onlinePeers st <> [] -> all_ready (resetOnlinePeerReady st') = false).
Proof.
  intros Hnd Hall. cbv zeta.
  assert (forall ids s,
            onlinePeers (fold_left (fun s i => setOnlinePeerReady i s) ids s)
            = fold_left (fun acc i => mark_ready i acc) ids (onlinePeers s)) as Hfold.
  { induction ids as [|i ids IH]; intros s; [reflexivity|].
    cbn [fold_left]. rewrite IH. reflexivity. }
  unfold all_ready, peer_ids in *. rewrite Hfold.
  destruct (mark_all_ready reports (onlinePeers st) Hnd) as (Hids & Hnames & Hready).
  cbv zeta in *. set (l' := fold_left _ reports (onlinePeers st)) in *.
  split; [|split; [exact Hids|split; [exact Hnames|]]].
  - apply forallb_forall. intros p' Hp'.
    destruct (Hready p' Hp') as (p & Hp & _ & _ & Hr). apply Hr. right.
    apply Hall, in_map, Hp.
  - intros Hne. unfold resetOnlinePeerReady. cbn [onlinePeers set_onlinePeers].
    rewrite Hfold. fold l'.
    destruct l' as [|p' r]; [|reflexivity].
    destruct (onlinePeers st); [congruence|discriminate].
Qed.

Lemma all_ready_after_reports_witness :
  let st' := fold_left (fun s i => setOnlinePeerReady i s)
               [js "p0m7z2c"; js "k3x9q1a"; js "p0m7z2c"] sample_lobby in
  all_ready st' = true /\
  peer_ids st' = peer_ids sample_lobby /\
  map peer_name (onlinePeers st') = map peer_name (onlinePeers sample_lobby) /\
  (onlinePeers sample_lobby <> [] -> all_ready (resetOnlinePeerReady st') = false).
Proof.
  apply (all_ready_after_reports [js "p0m7z2c"; js "k3x9q1a"; js "p0m7z2c"]
           sample_lobby).
  - cbn. repeat constructor; cbn; intuition discriminate.
  - cbn. intuition.
Defined.

End Lobby.

(* ------------------------------------------------------------------ *)
(** ** utils.js: the shape of a checksum                               *)
(* ------------------------------------------------------------------ *)

Section ChecksumShape.
Import Utils App.

Lemma digit_char_16 d : 0 <= d < 16 -> lower_hex (digit_char d) = true.
Proof.
  intros H. unfold lower_hex, digit_char, is_digit.
  destruct (Z.ltb_spec d 10).
  - apply orb_true_iff. left. apply andb_true_iff. rewrite !Z.leb_le. lia.
  - apply orb_true_iff. right. apply andb_true_iff. rewrite !Z.leb_le. lia.
Qed.

Lemma digits_rev_16 (fuel : nat) : forall (k : nat) (z : Z),
  0 <= z < 16 ^ Z.of_nat (S k) -> (0 < fuel)%nat ->
  let ds := digits_rev 16 fuel z in
  Forall (fun c => lower_hex c = true) ds /\ (1 <= length ds <= S k)%nat.
Proof.
  induction fuel as [|f IH]; intros k z Hz Hf; [lia|].
  cbn [digits_rev]. destruct (Z.ltb_spec z 16) as [Hlt|Hge]; cbv zeta.
  - split; [repeat constructor; apply digit_char_16; lia|cbn; lia].
  - assert (Hm : 0 <= z mod 16 < 16) by (apply Z.mod_pos_bound; lia).
    destruct k as [|k].
    { change (16 ^ Z.of_nat 1) with 16 in Hz. lia. }
    destruct f as [|f].
    { cbn [digits_rev]. split; [repeat constructor; apply digit_char_16, Hm|cbn; lia]. }
    assert (Hq : 0 <= z / 16 < 16 ^ Z.of_nat (S k)).
    { rewrite (Nat2Z.inj_succ (S k)), Z.pow_succ_r in Hz by lia.
      split; [apply Z.div_pos; lia|apply Z.div_lt_upper_bound; lia]. }
    destruct (IH k (z / 16) Hq ltac:(lia)) as [Hd Hl]. cbv zeta in *.
    split; [constructor; [apply digit_char_16, Hm|exact Hd]|cbn [length]; lia].
Qed.

Lemma checksum_numeral (str : jsstring) :
  exists fuel z,
    checksum str = rev (digits_rev 16 fuel z) /\
    0 <= z < 16 ^ Z.of_nat 8 /\ (0 < fuel)%nat.
Proof.
  unfold checksum, nat_toString. eexists _, _. split; [reflexivity|].
  split; [|lia]. rewrite js_ushr_zero. change (16 ^ Z.of_nat 8) with two32.
  apply Z.mod_pos_bound. reflexivity.
Qed.

(** X21. A checksum is a short lowercase hexadecimal numeral: between
    one and eight characters, each a digit or a letter from [a] to [f],
    whatever the string. *)
Theorem checksum_shape (str : jsstring) :
  Forall (fun ch => lower_hex ch = true) (checksum str) /\
  (1 <= length (checksum str) <= 8)%nat.
Proof.
  destruct (checksum_numeral str) as (fuel & z & -> & Hz & Hf).
  destruct (digits_rev_16 fuel 7 z Hz Hf) as [Hd Hl]. cbv zeta in *.
  split; [apply Forall_rev, Hd|rewrite length_rev; exact Hl].
Qed.

Lemma lower_hex_code_unit c : lower_hex c = true -> Wire.code_unitb c = true.
Proof.
  unfold lower_hex, is_digit, Wire.code_unitb. intros H.
  apply orb_true_iff in H as [H|H]; apply andb_true_iff in H as [H1 H2];
    apply Z.leb_le in H1, H2; apply andb_true_iff;
    rewrite Z.leb_le, Z.ltb_lt; lia.
Qed.

Lemma checksum_text_ok str : App.text_ok (checksum str) = true.
Proof.
  unfold App.text_ok. apply forallb_forall. intros c Hc.
  destruct (checksum_numeral str) as (fuel & z & E & Hz & Hf).
  destruct (digits_rev_16 fuel 7 z Hz Hf) as [Hd _]. cbv zeta in Hd.
  rewrite E in Hc. apply in_rev in Hc.
  rewrite Forall_forall in Hd. apply lower_hex_code_unit, Hd, list_elem_of_In, Hc.
Qed.

End ChecksumShape.

(* ------------------------------------------------------------------ *)
(** ** app.js: starting an online game                                 *)
(* ------------------------------------------------------------------ *)

Section GameStart.
Import JSON Net Wire Link Game Play App.
Variable toLowerCase : jsstring -> jsstring.
Variable wordDatabase : jsstring -> option (list Word).

Lemma trimStart_id n :
  (forall c, head n = Some c -> is_trim_space c = false) -> trimStart n = n.
Proof.
  destruct n as [|c r]; [reflexivity|]. intros H. cbn [trimStart].
  rewrite (H c eq_refl). reflexivity.
Qed.

Lemma trimmed_trim n : trimmed n -> trim n = n.
Proof.
  intros (_ & Hh & Hl). unfold trim. rewrite (trimStart_id n Hh).
  rewrite trimStart_id; [apply rev_involutive|].
  intros c. rewrite head_rev_last. apply Hl.
Qed.

Lemma add_players_roster (l : list jsstring) : forall (pre : list jsstring) (st : State),
  players st = pre -> roster_ok toLowerCase (pre ++ l) ->
  add_players toLowerCase (map VStr l) st = (Ret tt, set_players (pre ++ l) st).
Proof.
  induction l as [|n l IH]; intros pre st Hp Hok.
  - cbn [map add_players]. rewrite app_nil_r. destruct st. cbn in *. subst. reflexivity.
  - cbn [map add_players].
    destruct Hok as [Ht Hn].
    assert (trimmed n) as Hn_trim.
    { rewrite Forall_app in Ht. destruct Ht as [_ Ht].
      apply Forall_cons in Ht as [Ht _]. exact Ht. }
    unfold addPlayer at 1. rewrite (trimmed_trim n Hn_trim).
    destruct n as [|c r]; [destruct Hn_trim as [Hne _]; congruence|].
    assert (existsb (fun p => bool_decide (toLowerCase p = toLowerCase (c :: r)))
                    (players st) = false) as ->.
    { rewrite Hp. apply not_true_iff_false. intros Hex.
      apply existsb_exists in Hex as (x & Hx & E). apply bool_decide_eq_true in E.
      rewrite map_app in Hn. cbn [map] in Hn.
      apply NoDup_ListNoDup, NoDup_app in Hn as (_ & Hdis & _).
      apply (Hdis (toLowerCase x)).
      - apply list_elem_of_In, in_map, Hx.
      - rewrite E. left. }
    cbn [snd]. rewrite (IH (pre ++ [c :: r])).
    + rewrite <- app_assoc. reflexivity.
    + cbn [players set_players]. rewrite Hp. reflexivity.
    + rewrite <- app_assoc. split; assumption.
Qed.

Lemma text_ok_strings l :
  forallb text_ok l = true -> forallb wire_ok (map VStr l) = true.
Proof.
  induction l as [|s l IH]; [reflexivity|]. cbn [forallb map wire_ok].
  intros H. apply andb_true_iff in H as [H1 H2]. rewrite IH by exact H2.
  unfold text_ok in H1. rewrite H1. reflexivity.
Qed.

Lemma wire_ok_game_start gs isImp w :
  sync_ok gs = true -> word_ok w = true ->
  wire_ok (game_start_message gs isImp w) = true.
Proof.
  unfold sync_ok, word_ok. intros Hs Hw.
  repeat (apply andb_true_iff in Hs as [Hs ?]).
  apply andb_true_iff in Hw as [Hw Hh].
  unfold game_start_message, role_value. cbn [wire_ok forallb].
  rewrite (text_ok_strings _ Hs).
  unfold text_ok in *.
  destruct isImp; cbn [wire_ok forallb];
    repeat match goal with H : forallb code_unitb _ = true |- _ => rewrite H; clear H end;
    reflexivity.
Qed.

Lemma sendToPeer_closed m peerId p msg :
  peers m !! peerId = Some p -> channel_open (ch p) = false ->
  sendToPeer peerId msg m = Run (Ret tt) m [].
Proof. intros Hp Ho. unfold sendToPeer. rewrite bind_get, Hp, Ho. reflexivity. Qed.

Lemma frame_text_spec msg :
  wire_ok msg = true ->
  frame_of msg = Ret (frame_text msg) /\ JSON.parse (frame_text msg) = Ret msg.
Proof.
  intros Hok. destruct (wire_frame msg Hok) as (frame & Hf & Hr).
  unfold frame_text. rewrite Hf. split; [reflexivity|apply parse_reads_back, Hr].
Qed.

Lemma send_role_run gs w m (entry : jsstring * PeerRecord) :
  currentWord gs = Some w -> sync_ok gs = true -> word_ok w = true ->
  peers m !! entry.1 = Some entry.2 ->
  send_role gs entry m = Run (Ret tt) m (role_frames gs w entry).
Proof.
  intros Hw Hs Hok Hp. unfold send_role, role_frames.
  destruct (player_index gs (name entry.2)) as [idx|]; [|reflexivity].
  rewrite Hw. cbv zeta.
  destruct (channel_open (ch entry.2)) eqn:Ho.
  - apply (sendToPeer_open _ _ _ _ _ Hp Ho).
    apply frame_text_spec, wire_ok_game_start; assumption.
  - apply (sendToPeer_closed _ _ _ _ Hp Ho).
Qed.

Lemma send_roles_run gs w m :
  currentWord gs = Some w -> sync_ok gs = true -> word_ok w = true ->
  send_roles gs m = Run (Ret tt) m (flat_map (role_frames gs w) (map_to_list (peers m))).
Proof.
  intros Hw Hs Hok. unfold send_roles. rewrite bind_get.
  assert (forall e, In e (map_to_list (peers m)) -> peers m !! e.1 = Some e.2) as Hall.
  { intros [i p] Hin. apply list_elem_of_In, elem_of_map_to_list in Hin. exact Hin. }
  revert Hall. generalize (map_to_list (peers m)). intros l.
  induction l as [|e l IH]; intros Hall; [reflexivity|].
  cbn [fold_right flat_map].
  rewrite (bind_run _ _ _ _ _ _
             (send_role_run gs w m e Hw Hs Hok (Hall e (or_introl eq_refl)))).
  rewrite IH by (intros e' He'; apply Hall; right; exact He'). reflexivity.
Qed.

Lemma get_players_of_game_start gs isImp w :
  get_prop (game_start_message gs isImp w) (js "players")
  = Ret (VArr (map VStr (players gs))) /\
  get_prop (game_start_message gs isImp w) (js "category") = Ret (VStr (category gs)) /\
  get_prop (game_start_message gs isImp w) (js "role") = Ret (role_value isImp w) /\
  get_prop (game_start_message gs isImp w) (js "type") = Ret (VStr (js "game_start")).
Proof. repeat split. Qed.

Lemma role_frames_to gs w (entry : jsstring * PeerRecord) e :
  In e (role_frames gs w entry) -> exists data, e = PeerChannelSend entry.1 data.
Proof.
  unfold role_frames. destruct (player_index gs (name entry.2)); [|intros []].
  destruct (channel_open (ch entry.2)); [|intros []].
  intros [<-|[]]. eexists. reflexivity.
Qed.

Lemma role_frames_own gs w (entry : jsstring * PeerRecord) :
  List.filter (sent_to entry.1) (role_frames gs w entry) = role_frames gs w entry.
Proof.
  unfold role_frames. destruct (player_index gs (name entry.2)); [|reflexivity].
  destruct (channel_open (ch entry.2)); [|reflexivity].
  cbn [List.filter sent_to]. rewrite bool_decide_eq_true_2 by reflexivity. reflexivity.
Qed.

Lemma role_frames_other gs w (entry : jsstring * PeerRecord) peerId :
  entry.1 <> peerId -> List.filter (sent_to peerId) (role_frames gs w entry) = [].
Proof.
  intros Hne. unfold role_frames. destruct (player_index gs (name entry.2)); [|reflexivity].
  destruct (channel_open (ch entry.2)); [|reflexivity].
  cbn [List.filter sent_to]. rewrite bool_decide_eq_false_2 by exact Hne. reflexivity.
Qed.

Lemma role_frames_others gs w peerId (l : list (jsstring * PeerRecord)) :
  ~ In peerId (map fst l) ->
  List.filter (sent_to peerId) (flat_map (role_frames gs w) l) = [].
Proof.
  induction l as [|e l IH]; [reflexivity|]. cbn [map flat_map]. intros Hn.
  rewrite List.filter_app, role_frames_other, IH; [reflexivity| |].
  - intros Hin. apply Hn. right. exact Hin.
  - intros E. apply Hn. left. exact E.
Qed.

(** Among the frames of [send_roles], those to one peer are the frames
    of that peer's turn of the loop. *)
Lemma role_frames_of_peer gs w peerId p (l : list (jsstring * PeerRecord)) :
  List.NoDup (map fst l) -> In (peerId, p) l ->
  List.filter (sent_to peerId) (flat_map (role_frames gs w) l)
  = role_frames gs w (peerId, p).
Proof.
  induction l as [|e l IH]; [intros _ []|]. cbn [map flat_map]. intros Hnd Hin.
  apply List.NoDup_cons_iff in Hnd as [Hn Hnd].
  rewrite List.filter_app. destruct Hin as [->|Hin].
  - pose proof (role_frames_own gs w (peerId, p)) as Hown. cbn [fst] in Hown.
    cbn [fst] in Hn. rewrite Hown, role_frames_others by exact Hn. apply app_nil_r.
  - rewrite role_frames_other, (IH Hnd Hin); [reflexivity|].
    intros E. apply Hn. rewrite E. apply (in_map fst _ _ Hin).
Qed.

(** X22. Starting an online game.  To every connected peer whose
    announced name is in the roster, [doHostStartGame] sends exactly one
    frame, and it sends nothing but frames to such peers; handled by the
    joining side, the frame is passed to the application as sent, and the
    case ['game_start'] of [onPeerMessage] then rebuilds the host's
    roster and category and stores the role: the imposter is told the
    hint and no word, everybody else the word and no hint.  The frame
    that goes to the imposter is the same whatever the word is, and the
    joining side's state never holds the host's [currentWord] or
    [imposterIndex]. *)
Theorem game_start_reaches_player
    (gs st : State) (w : Word) (pool : list Word) (m j : NetworkManager)
    (peerId myName : jsstring) (p : PeerRecord) (idx : nat) (now : Z) :
  currentWord gs = Some w -> sync_ok gs = true -> word_ok w = true ->
  roster_ok toLowerCase (players gs) ->
  wordDatabase (category gs) = Some pool ->
  peers m !! peerId = Some p -> channel_open (ch p) = true ->
  player_index gs (name p) = Some idx ->
  onMessage j = true ->
  let isImp := Z.of_nat idx =? imposterIndex gs in
  let msg := game_start_message gs isImp w in
  let sent := send_roles gs m in
  exists frame,
    res sent = Ret tt /\ final sent = m /\
    List.filter (sent_to peerId) (effects sent) = [PeerChannelSend peerId frame] /\
    (forall e, In e (effects sent) ->
       exists id q data, e = PeerChannelSend id data /\ peers m !! id = Some q /\
                         channel_open (ch q) = true /\
                         is_Some (player_index gs (name q))) /\
    peer_ch_onmessage now frame j = Run (Ret tt) j [Call_onMessage (js "host") msg] /\
    (isImp = true ->
     forall w', hint w' = hint w ->
       frame_of (game_start_message (set_currentWord (Some w') gs) isImp w') = Ret frame) /\
    exists st',
      on_game_start toLowerCase wordDatabase myName msg st = (Ret tt, st') /\
      players st' = players gs /\ category st' = category gs /\
      mode st' = ONLINE_PEER /\ localPlayerName st' = trim myName /\
      _localIsImposter st' = isImp /\
      _localWord st' = (if isImp then None else Some (word w)) /\
      _localHint st' = (if isImp then Some (hint w) else None) /\
      isRoleRevealed st' = false /\
      currentWord st' = None /\ imposterIndex st' = -1.
Proof.
  intros Hw Hs Hok Hroster Hdb Hp Ho Hidx Hcb isImp msg sent.
  destruct (frame_text_spec msg (wire_ok_game_start gs isImp w Hs Hok)) as [Hf Hparse].
  exists (frame_text msg). subst sent. rewrite (send_roles_run gs w m Hw Hs Hok).
  cbn [res final effects]. split; [reflexivity|]. split; [reflexivity|].
  split; [|split; [|split; [|split]]].
  - rewrite (role_frames_of_peer gs w peerId p).
    + unfold role_frames. cbn [fst snd]. rewrite Hidx, Ho. reflexivity.
    + apply NoDup_ListNoDup. exact (NoDup_fst_map_to_list (peers m)).
    + apply list_elem_of_In, elem_of_map_to_list, Hp.
  - intros e He. apply in_flat_map in He as ([i q] & Hin & He).
    apply list_elem_of_In, elem_of_map_to_list in Hin.
    unfold role_frames in He. cbn [fst snd] in He.
    destruct (player_index gs (name q)) as [idx'|] eqn:Ei; [|destruct He].
    destruct (channel_open (ch q)) eqn:Eo; [|destruct He].
    destruct He as [<-|[]]. exists i, q. eexists. rewrite Ei. eauto.
  - rewrite (peer_onmessage_parsed _ _ _ _ Hparse). apply try_catch_ret.
    rewrite (handlePeerMessage_forward _ _ _ (VStr (js "game_start")))
      by reflexivity.
    rewrite Hcb. reflexivity.
  - intros Himp w' Hh. subst msg. rewrite Himp in *.
    unfold game_start_message, role_value in *.
    cbn [players category set_currentWord]. rewrite Hh. exact Hf.
  - unfold on_game_start. subst msg.
    destruct (get_players_of_game_start gs isImp w) as (-> & -> & -> & _).
    set (st0 := setLocalPlayerName myName _).
    rewrite (add_players_roster (players gs) [] st0 eq_refl Hroster).
    unfold setCategory, pool_of. rewrite Hdb. cbn [mbind result_bind app].
    unfold role_value. destruct isImp; cbn; eexists; (split; [reflexivity|]);
      cbn; repeat split.
Qed.

End GameStart.

Section GameStartExample.
Import JSON Net Wire Link Game Play App.

Lemma game_start_reaches_player_witness :
  let gs := sample_game in
  let w := {| word := js "kettle"; hint := js "kitchen" |} in
  let isImp := Z.of_nat 1 =? imposterIndex gs in
  let msg := game_start_message gs isImp w in
  let sent := send_roles gs sample_host in
  exists frame,
    res sent = Ret tt /\ final sent = sample_host /\
    List.filter (sent_to Sample.idA) (effects sent) = [PeerChannelSend Sample.idA frame] /\
    (forall e, In e (effects sent) ->
       exists id q data, e = PeerChannelSend id data /\ peers sample_host !! id = Some q /\
                         channel_open (ch q) = true /\
                         is_Some (player_index gs (name q))) /\
    peer_ch_onmessage 7 frame Sample.joiner
      = Run (Ret tt) Sample.joiner [Call_onMessage (js "host") msg] /\
    (isImp = true ->
     forall w', hint w' = hint w ->
       frame_of (game_start_message (set_currentWord (Some w') gs) isImp w') = Ret frame) /\
    exists st',
      on_game_start ascii_lower sample_words (js "Bob") msg initial = (Ret tt, st') /\
      players st' = players gs /\ category st' = category gs /\
      mode st' = ONLINE_PEER /\ localPlayerName st' = trim (js "Bob") /\
      _localIsImposter st' = isImp /\
      _localWord st' = (if isImp then None else Some (word w)) /\
      _localHint st' = (if isImp then Some (hint w) else None) /\
      isRoleRevealed st' = false /\
      currentWord st' = None /\ imposterIndex st' = -1.
Proof.
  apply (game_start_reaches_player ascii_lower sample_words sample_game initial
           {| word := js "kettle"; hint := js "kitchen" |}
           [{| word := js "kettle"; hint := js "kitchen" |};
            {| word := js "ladder"; hint := js "garage" |};
            {| word := js "pillow"; hint := js "bedroom" |}]
           sample_host Sample.joiner Sample.idA (js "Bob") (sample_peer "Bob") 1 7);
    try reflexivity.
  split.
  - repeat constructor; try discriminate; cbn; intros c [= <-]; reflexivity.
  - cbn. repeat constructor; cbn; intuition discriminate.
Defined.

End GameStartExample.

(* ------------------------------------------------------------------ *)
(** ** The periodic snapshot, end to end                               *)
(* ------------------------------------------------------------------ *)

Section SyncReplication.
Import JSON Net Wire Link Game Play App.

Lemma as_strings_VStr l : as_strings (map VStr l) = Ret l.
Proof.
  induction l as [|s l IH]; [reflexivity|].
  cbn [map as_strings]. rewrite IH. reflexivity.
Qed.

Lemma as_phase_string ph : as_phase (VStr (Phase_string ph)) = Ret ph.
Proof. destruct ph; reflexivity. Qed.

Lemma phase_text_ok ph : forallb code_unitb (Phase_string ph) = true.
Proof. destruct ph; reflexivity. Qed.

Lemma wire_ok_snapshot st : sync_ok st = true -> wire_ok (serialiseForSync st) = true.
Proof.
  unfold sync_ok. intros Hs. repeat (apply andb_true_iff in Hs as [Hs ?]).
  unfold serialiseForSync. cbn [wire_ok forallb].
  rewrite (text_ok_strings _ Hs), phase_text_ok. unfold text_ok in *.
  repeat match goal with H : _ = true |- _ => rewrite H; clear H end.
  reflexivity.
Qed.

(** The message of one tick of the sync loop. *)
Lemma sync_tick_run m s t :
  JSON.stringify s = Ret (Some t) ->
  sync_tick s m =
    broadcast (VObj [(js "type", VStr (js "sync"));
                     (js "version", VNum (Int PROTOCOL_VERSION));
                     (js "state", s);
                     (js "checksum", VStr (Utils.checksum t))]) m.
Proof. intros H. unfold sync_tick. rewrite H, bind_lift_ret. reflexivity. Qed.

Lemma applyHostState_snapshot hs st :
  applyHostState (serialiseForSync hs) st =
    Ret (set_timerRunning (timerRunning hs)
          (set_timerSeconds (timerSeconds hs)
            (set_startingPlayerIndex (startingPlayerIndex hs)
              (set_cluePlayerIndex (cluePlayerIndex hs)
                (set_currentPlayerIndex (currentPlayerIndex hs)
                  (set_round (round hs)
                    (set_currentPhase (currentPhase hs)
                      (set_category (category hs)
                        (set_players (players hs) st))))))))).
Proof.
  unfold applyHostState.
  change (get_prop (serialiseForSync hs) (js "players"))
    with (Ret (VArr (map VStr (players hs)))).
  change (get_prop (serialiseForSync hs) (js "category"))
    with (Ret (VStr (category hs))).
  change (get_prop (serialiseForSync hs) (js "currentPhase"))
    with (Ret (VStr (Phase_string (currentPhase hs)))).
  change (get_prop (serialiseForSync hs) (js "round"))
    with (Ret (VNum (Int (round hs)))).
  change (get_prop (serialiseForSync hs) (js "currentPlayerIndex"))
    with (Ret (VNum (Int (currentPlayerIndex hs)))).
  change (get_prop (serialiseForSync hs) (js "cluePlayerIndex"))
    with (Ret (VNum (Int (cluePlayerIndex hs)))).
  change (get_prop (serialiseForSync hs) (js "startingPlayerIndex"))
    with (Ret (VNum (Int (startingPlayerIndex hs)))).
  change (get_prop (serialiseForSync hs) (js "timerSeconds"))
    with (Ret (VNum (Int (timerSeconds hs)))).
  change (get_prop (serialiseForSync hs) (js "timerRunning"))
    with (Ret (VBool (timerRunning hs))).
  cbn [mbind result_bind as_string_array as_string as_integer as_boolean].
  rewrite as_strings_VStr, as_phase_string. reflexivity.
Qed.

(** X23. The periodic snapshot replicates the public state.  One tick
    of the host's sync loop puts on every open channel a frame that the
    joining side passes to the application as a ['sync'] message; it
    carries the checksum of the JSON text of its [state]; and applying
    it makes the nine public fields of the joining side equal to the
    host's while none of the other fields changes. *)
Theorem sync_replicates_public_state
    (hs st : State) (m j : NetworkManager) (peerId : jsstring) (p : PeerRecord)
    (now : Z) :
  sync_ok hs = true ->
  peers m !! peerId = Some p -> channel_open (ch p) = true ->
  onMessage j = true ->
  exists frame msg text st',
    res (sync_broadcast hs m) = Ret tt /\ final (sync_broadcast hs m) = m /\
    In (PeerChannelSend peerId frame) (effects (sync_broadcast hs m)) /\
    peer_ch_onmessage now frame j = Run (Ret tt) j [Call_onMessage (js "host") msg] /\
    get_prop msg (js "type") = Ret (VStr (js "sync")) /\
    get_prop msg (js "state") = Ret (serialiseForSync hs) /\
    JSON.stringify (serialiseForSync hs) = Ret (Some text) /\
    get_prop msg (js "checksum") = Ret (VStr (Utils.checksum text)) /\
    on_sync msg st = Ret st' /\
    same_public_fields st' hs /\ same_private_fields st' st.
Proof.
  intros Hs Hp Ho Hcb.
  pose proof (wire_ok_snapshot hs Hs) as Hsnap.
  destruct (serialize_reads_back _ Hsnap) as (text & Htext & _).
  set (msg := VObj [(js "type", VStr (js "sync"));
                    (js "version", VNum (Int PROTOCOL_VERSION));
                    (js "state", serialiseForSync hs);
                    (js "checksum", VStr (Utils.checksum text))]).
  assert (wire_ok msg = true) as Hok.
  { subst msg. cbn [wire_ok forallb]. rewrite Hsnap.
    pose proof (checksum_text_ok text) as Hc. unfold text_ok in Hc. rewrite Hc.
    reflexivity. }
  destruct (frame_text_spec msg Hok) as [Hf Hparse].
  exists (frame_text msg), msg, text. eexists.
  unfold sync_broadcast. rewrite (sync_tick_run m _ text Htext). fold msg.
  rewrite (broadcast_run _ _ _ Hf). cbn [res final effects].
  split; [reflexivity|]. split; [reflexivity|].
  split.
  { apply in_map_iff. exists (peerId, p). split; [reflexivity|].
    apply open_peers_spec. auto. }
  split.
  { rewrite (peer_onmessage_parsed _ _ _ _ Hparse). apply try_catch_ret.
    rewrite (handlePeerMessage_forward _ _ _ (VStr (js "sync"))) by reflexivity.
    rewrite Hcb. reflexivity. }
  split; [reflexivity|]. split; [reflexivity|]. split; [exact Htext|].
  split; [reflexivity|].
  split.
  { unfold on_sync.
    change (get_prop msg (js "state")) with (Ret (serialiseForSync hs)).
    cbn [mbind result_bind]. apply applyHostState_snapshot. }
  split; repeat split.
Qed.

Lemma sync_replicates_public_state_witness :
  exists frame msg text st',
    res (sync_broadcast sample_game sample_host) = Ret tt /\
    final (sync_broadcast sample_game sample_host) = sample_host /\
    In (PeerChannelSend Sample.idB frame)
       (effects (sync_broadcast sample_game sample_host)) /\
    peer_ch_onmessage 3 frame Sample.joiner
      = Run (Ret tt) Sample.joiner [Call_onMessage (js "host") msg] /\
    get_prop msg (js "type") = Ret (VStr (js "sync")) /\
    get_prop msg (js "state") = Ret (serialiseForSync sample_game) /\
    JSON.stringify (serialiseForSync sample_game) = Ret (Some text) /\
    get_prop msg (js "checksum") = Ret (VStr (Utils.checksum text)) /\
    on_sync msg initial = Ret st' /\
    same_public_fields st' sample_game /\ same_private_fields st' initial.
Proof.
  apply (sync_replicates_public_state sample_game initial sample_host Sample.joiner
           Sample.idB (sample_peer "Cy") 3); reflexivity.
Defined.

(** *** Leaving *)

Lemma then_close (c : M unit) m notes :
  c m = Run (Ret tt) m notes ->
  (c ≫= fun _ => close) m
  = Run (Ret tt) (closed_state m) (notes ++ effects (close m)).
Proof.
  intros H. rewrite (bind_run _ _ _ _ _ _ H), close_run. reflexivity.
Qed.

Lemma then_close_enumerated (c : M unit) m notes :
  c m = Run (Ret tt) m notes ->
  exists order,
    List.NoDup order /\ (forall id, In id order <-> is_Some (peers m !! id)) /\
    (c ≫= fun _ => close) m
    = Run (Ret tt) (closed_state m)
          (notes ++ flat_map peer_teardown order ++ host_teardown m).
Proof.
  intros H. destruct (close_effects_enumerated m) as (order & Hn & Hin & He).
  exists order. split; [exact Hn|]. split; [exact Hin|].
  rewrite (then_close _ _ _ H), He. reflexivity.
Qed.

(** X24. [cleanupNet] says goodbye before it tears down.  What it does
    to the outside is a farewell followed by the teardown of [close()]:
    the channel and then the connection of every peer, each peer once,
    and after them the channel and the connection to the host where they
    exist.  The farewell of a host is one [disconnect] frame on every
    open channel, as many as [getConnectedPeerCount()] counts, and on no
    other; that of a joining side is one frame on its channel to the host
    if that is open.  In either case the manager ends up closed and no
    callback is called.  The order in which the peers are visited is left
    open. *)
Theorem cleanupNet_notifies_then_closes (m : NetworkManager) :
  let r := cleanupNet m in
  exists bye_host bye_peer farewell order,
    frame_of (VObj [(js "type", VStr (js "disconnect"));
                    (js "reason", VStr (js "Host left."))]) = Ret bye_host /\
    frame_of (VObj [(js "type", VStr (js "disconnect"));
                    (js "reason", VStr (js "Peer left."))]) = Ret bye_peer /\
    res r = Ret tt /\ final r = closed_state m /\
    _closed (final r) = true /\ peers (final r) = ∅ /\
    hostChannel (final r) = None /\ hostPc (final r) = None /\
    effects r = farewell ++ flat_map peer_teardown order ++ host_teardown m /\
    (if Net.isHost m
     then List.NoDup farewell /\
          length farewell = getConnectedPeerCount m /\
          forall e, In e farewell <->
                    exists id p, e = PeerChannelSend id bye_host /\
                                 peers m !! id = Some p /\ channel_open (ch p) = true
     else farewell = match hostChannel m with
                     | Some c => if channel_open c then [HostChannelSend bye_peer] else []
                     | None => []
                     end) /\
    List.NoDup order /\ (forall id, In id order <-> is_Some (peers m !! id)).
Proof.
  cbv zeta.
  assert (exists bye_host,
            frame_of (VObj [(js "type", VStr (js "disconnect"));
                            (js "reason", VStr (js "Host left."))]) = Ret bye_host)
    as [bye_host Hh] by (eexists; vm_compute; reflexivity).
  assert (exists bye_peer,
            frame_of (VObj [(js "type", VStr (js "disconnect"));
                            (js "reason", VStr (js "Peer left."))]) = Ret bye_peer)
    as [bye_peer Hp] by (eexists; vm_compute; reflexivity).
  exists bye_host, bye_peer.
  assert (exists farewell,
            (if Net.isHost m
             then broadcast (VObj [(js "type", VStr (js "disconnect"));
                                   (js "reason", VStr (js "Host left."))])
             else sendToHost (VObj [(js "type", VStr (js "disconnect"));
                                    (js "reason", VStr (js "Peer left."))])) m
            = Run (Ret tt) m farewell /\
            (if Net.isHost m
             then List.NoDup farewell /\
                  length farewell = getConnectedPeerCount m /\
                  forall e, In e farewell <->
                            exists id p, e = PeerChannelSend id bye_host /\
                                         peers m !! id = Some p /\
                                         channel_open (ch p) = true
             else farewell = match hostChannel m with
                             | Some c => if channel_open c
                                         then [HostChannelSend bye_peer] else []
                             | None => []
                             end)) as (farewell & Hrun & Hfare).
  { destruct (Net.isHost m).
    - eexists. split; [apply (broadcast_run _ _ _ Hh)|]. split; [|split].
      + apply NoDup_sends, NoDup_open_peer_ids.
      + rewrite length_map. reflexivity.
      + intros e. rewrite in_map_iff. split.
        * intros ([id p] & <- & Hin). apply open_peers_spec in Hin. exists id, p. auto.
        * intros (id & p & -> & Hq & Ho). exists (id, p). split; [reflexivity|].
          apply open_peers_spec. auto.
    - eexists. split; [|reflexivity].
      destruct (hostChannel m) as [c|] eqn:Ec.
      + destruct (channel_open c) eqn:Eo.
        * apply (sendToHost_open m c _ _ Ec Eo Hp).
        * unfold sendToHost. rewrite bind_get, Ec, Eo. reflexivity.
      + unfold sendToHost. rewrite bind_get, Ec. reflexivity. }
  destruct (then_close_enumerated _ m farewell Hrun) as (order & Hn & Hin & He).
  exists farewell, order.
  unfold cleanupNet. rewrite bind_get, He. cbn [res final effects].
  do 10 (split; [first [reflexivity | assumption]|]).
  split; [exact Hn|exact Hin].
Qed.

(** A host with one connected peer, and a joining side: the farewell
    first, then the teardown. *)
Example cleanupNet_one_peer :
  exists bye_host bye_peer,
    frame_of (VObj [(js "type", VStr (js "disconnect"));
                    (js "reason", VStr (js "Host left."))]) = Ret bye_host /\
    frame_of (VObj [(js "type", VStr (js "disconnect"));
                    (js "reason", VStr (js "Peer left."))]) = Ret bye_peer /\
    cleanupNet Sample.host_open_B
    = Run (Ret tt) (closed_state Sample.host_open_B)
          [PeerChannelSend Sample.idB bye_host;
           ChannelClose Sample.idB; ConnectionClose Sample.idB] /\
    cleanupNet Sample.joiner
    = Run (Ret tt) (closed_state Sample.joiner)
          [HostChannelSend bye_peer; HostChannelClose; HostConnectionClose].
Proof.
  eexists _, _. split; [vm_compute; reflexivity|]. split; [vm_compute; reflexivity|].
  split; vm_compute; reflexivity.
Qed.

End SyncReplication.

(* ------------------------------------------------------------------ *)
(** ** input.js: a held key or button acts once                        *)
(* ------------------------------------------------------------------ *)

Section KeyRepeat.
Import Input.

Lemma run_keeps_held cb c (events : list event) : forall held,
  c ∈ held -> Forall (fun ev => releases c ev = false) events ->
  c ∈ (run cb events held).2.
Proof.
  induction events as [|ev rest IH]; intros held Hc Hall; [exact Hc|].
  apply Forall_cons in Hall as [Hev Hall]. destruct ev as [e|e]; cbn [run].
  - destruct (handleKeyDown cb e held) as [a held1] eqn:E.
    assert (c ∈ held1) as Hc1.
    { unfold handleKeyDown in E.
      destruct (typing_target (tagName e)); [congruence|].
      destruct (bool_decide (code e ∈ held)); [congruence|].
      injection E as Ea Eh. subst held1. set_solver. }
    specialize (IH held1 Hc1 Hall).
    destruct (run cb rest held1) as [b held2]. exact IH.
  - apply IH; [|exact Hall]. unfold handleKeyUp. cbn in Hev.
    apply bool_decide_eq_false in Hev. set_solver.
Qed.

(** X25. The key-repeat guard.  Once a key press outside a text field
    has been handled, further [keydown] events with the same code do
    nothing at all, whatever else is pressed or released meanwhile, until
    a [keyup] with that code arrives; the first press after that release
    acts again.  A [keydown] inside a text field never acts and is not
    remembered. *)
Theorem key_repeat_guard
    (cb : Callbacks) (e1 e2 : KeyboardEvent) (between : list event)
    (held : gset jsstring) :
  typing_target (tagName e1) = false ->
  code e2 = code e1 ->
  Forall (fun ev => releases (code e1) ev = false) between ->
  let held1 := (handleKeyDown cb e1 held).2 in
  let held2 := (run cb between held1).2 in
  handleKeyDown cb e2 held2 = ([], held2) /\
  (typing_target (tagName e2) = false ->
   (handleKeyDown cb e2 (handleKeyUp e1 held2)).1 = key_actions cb (code e1)) /\
  (forall e h, typing_target (tagName e) = true -> handleKeyDown cb e h = ([], h)).
Proof.
  intros Ht Hc Hall. cbv zeta.
  assert (code e1 ∈ (handleKeyDown cb e1 held).2) as H1.
  { unfold handleKeyDown. rewrite Ht.
    destruct (bool_decide (code e1 ∈ held)) eqn:E; cbn [snd].
    - apply bool_decide_eq_true in E. exact E.
    - set_solver. }
  pose proof (run_keeps_held cb _ between _ H1 Hall) as H2.
  split; [|split].
  - unfold handleKeyDown. destruct (typing_target (tagName e2)); [reflexivity|].
    rewrite Hc, bool_decide_eq_true_2 by exact H2. reflexivity.
  - intros Ht2. unfold handleKeyDown. rewrite Ht2, Hc.
    rewrite bool_decide_eq_false_2; [reflexivity|].
    unfold handleKeyUp. intros Hin. apply elem_of_difference in Hin as [_ Hn].
    apply Hn, elem_of_singleton. reflexivity.
  - intros e h He. unfold handleKeyDown. rewrite He. reflexivity.
Qed.

Lemma key_repeat_guard_witness :
  let e1 := space_on_body in
  let between := [KeyDown {| tagName := Some (js "BODY"); code := js "KeyW" |};
                  KeyDown space_on_body;
                  KeyUp {| tagName := Some (js "BODY"); code := js "KeyW" |}] in
  let held1 := (handleKeyDown all_callbacks e1 ∅).2 in
  let held2 := (run all_callbacks between held1).2 in
  handleKeyDown all_callbacks space_on_body held2 = ([], held2) /\
  (typing_target (tagName space_on_body) = false ->
   (handleKeyDown all_callbacks space_on_body (handleKeyUp e1 held2)).1
   = key_actions all_callbacks (code e1)) /\
  (forall e h, typing_target (tagName e) = true ->
               handleKeyDown all_callbacks e h = ([], h)).
Proof.
  apply (key_repeat_guard all_callbacks space_on_body space_on_body
           [KeyDown {| tagName := Some (js "BODY"); code := js "KeyW" |};
            KeyDown space_on_body;
            KeyUp {| tagName := Some (js "BODY"); code := js "KeyW" |}] ∅).
  - reflexivity.
  - reflexivity.
  - repeat constructor.
Defined.

Lemma poll_frames_held cb (frames : list (list (option Gamepad))) : forall prev,
  prev_A prev = true ->
  Forall (fun f => holds_A f = true) frames ->
  ~ In Call_onConfirm (poll_frames cb frames prev).1 /\
  prev_A (poll_frames cb frames prev).2 = true.
Proof.
  induction frames as [|f rest IH]; intros prev Hp Hall.
  - split; [intros []|exact Hp].
  - apply Forall_cons in Hall as [Hf Hall]. cbn [poll_frames].
    destruct (pollGamepad cb f prev) as [a p1] eqn:E.
    assert (~ In Call_onConfirm a /\ prev_A p1 = true) as [Ha Hp1].
    { unfold pollGamepad in E. unfold holds_A in Hf.
      destruct (first_connected f) as [gp|]; [|discriminate].
      injection E as <- <-. cbn [prev_A]. split; [|exact Hf].
      rewrite Hp, Hf. cbn [negb andb]. rewrite !in_app_iff.
      unfold navigate, back.
      intros [H|[H|[H|H]]];
        repeat match type of H with
               | In _ (if ?b then _ else _) => destruct b
               end; cbn in H; intuition discriminate. }
    destruct (IH p1 Hp1 Hall) as [Hb Hp2].
    destruct (poll_frames cb rest p1) as [b p2]. cbn [fst snd] in *.
    split; [|exact Hp2]. rewrite in_app_iff. tauto.
Qed.

(** X26. A held gamepad button acts once.  When the A button of the
    gamepad in use goes down, [pollGamepad] calls [onConfirm] in that
    frame, and in no later frame for as long as the button stays down,
    however many frames are polled. *)
Theorem gamepad_button_acts_once
    (cb : Callbacks) (first : list (option Gamepad))
    (later : list (list (option Gamepad))) (prev : Previous) :
  _onConfirm cb = true -> prev_A prev = false ->
  holds_A first = true ->
  Forall (fun f => holds_A f = true) later ->
  let r := pollGamepad cb first prev in
  In Call_onConfirm r.1 /\
  ~ In Call_onConfirm (poll_frames cb later r.2).1.
Proof.
  intros Hcb Hp Hf Hall. cbv zeta. unfold pollGamepad, holds_A in *.
  destruct (first_connected first) as [gp|]; [|discriminate].
  cbn [fst snd]. split.
  - rewrite Hf, Hp. cbn [negb andb]. unfold confirm. rewrite Hcb.
    rewrite !in_app_iff. right. right. left. left. reflexivity.
  - apply poll_frames_held; [exact Hf|exact Hall].
Qed.

Lemma gamepad_button_acts_once_witness :
  let r := pollGamepad all_callbacks [None; Some pad_A_down]
             {| prev_up := false; prev_down := false;
                prev_A := false; prev_B := false |} in
  In Call_onConfirm r.1 /\
  ~ In Call_onConfirm
      (poll_frames all_callbacks [[None; Some pad_A_down]; [Some pad_A_down]] r.2).1.
Proof.
  apply (gamepad_button_acts_once all_callbacks [None; Some pad_A_down]
           [[None; Some pad_A_down]; [Some pad_A_down]]
           {| prev_up := false; prev_down := false;
              prev_A := false; prev_B := false |});
    try reflexivity.
  repeat constructor.
Defined.

End KeyRepeat.

(* ------------------------------------------------------------------ *)
(** ** After a disconnect                                              *)
(* ------------------------------------------------------------------ *)

Section AfterDisconnect.
Import Net Link.

Lemma filter_length_Permutation {A} (f : A -> bool) (l k : list A) :
  l ≡ₚ k -> length (List.filter f l) = length (List.filter f k).
Proof.
  induction 1 as [|x l k _ IH|x y l|l k k' _ IH1 _ IH2].
  - reflexivity.
  - cbn [List.filter]. destruct (f x); cbn [length]; rewrite IH; reflexivity.
  - cbn [List.filter]. destruct (f x), (f y); reflexivity.
  - rewrite IH1. exact IH2.
Qed.

(** X27. A peer that disconnected is never sent anything again, and
    the others are not affected: after [_handlePeerDisconnect(peerId)]
    neither [broadcast] nor [sendToPeer] puts a frame on that peer's
    channel, every other open peer still gets the broadcast, and
    [getConnectedPeerCount()] has gone down by one exactly when the
    peer's channel was open. *)
Theorem disconnected_peer_gets_nothing
    (m : NetworkManager) (peerId : jsstring) (p : PeerRecord)
    (msg : value) (frame : jsstring) :
  peers m !! peerId = Some p ->
  frame_of msg = Ret frame ->
  let m' := final (_handlePeerDisconnect peerId m) in
  (forall data, ~ In (PeerChannelSend peerId data) (effects (broadcast msg m'))) /\
  sendToPeer peerId msg m' = Run (Ret tt) m' [] /\
  (forall id q, id <> peerId -> peers m !! id = Some q -> channel_open (ch q) = true ->
                In (PeerChannelSend id frame) (effects (broadcast msg m'))) /\
  getConnectedPeerCount m
  = (getConnectedPeerCount m' + if channel_open (ch p) then 1 else 0)%nat.
Proof.
  intros Hp Hf. cbv zeta. rewrite (handlePeerDisconnect_present _ _ _ Hp).
  cbn [final]. set (m' := set_peers (delete peerId) m).
  assert (peers m' !! peerId = None) as Hgone by apply lookup_delete_eq.
  rewrite (broadcast_run _ _ _ Hf). cbn [effects].
  split; [|split; [|split]].
  - intros data Hin. apply in_map_iff in Hin as ([i q] & E & Hin).
    injection E as -> _. apply open_peers_spec in Hin as [Hq _]. congruence.
  - apply sendToPeer_absent, Hgone.
  - intros i q Hi Hq Ho. apply in_map_iff. exists (i, q). split; [reflexivity|].
    apply open_peers_spec. split; [|exact Ho].
    subst m'. cbn [peers set_peers]. rewrite lookup_delete_ne by congruence. exact Hq.
  - unfold getConnectedPeerCount. subst m'. cbn [peers set_peers].
    rewrite <- (filter_length_Permutation _ _ _ (map_to_list_delete (peers m) peerId p Hp)).
    cbn [List.filter snd]. destruct (channel_open (ch p)); cbn [length]; lia.
Qed.

Lemma disconnected_peer_gets_nothing_witness :
  exists frame,
    frame_of Wire.sample_message = Ret frame /\
    let m' := final (_handlePeerDisconnect Sample.idA App.sample_host) in
    (forall data, ~ In (PeerChannelSend Sample.idA data)
                       (effects (broadcast Wire.sample_message m'))) /\
    sendToPeer Sample.idA Wire.sample_message m' = Run (Ret tt) m' [] /\
    (forall id q, id <> Sample.idA -> peers App.sample_host !! id = Some q ->
                  channel_open (ch q) = true ->
                  In (PeerChannelSend id frame)
                     (effects (broadcast Wire.sample_message m'))) /\
    getConnectedPeerCount App.sample_host
    = (getConnectedPeerCount m'
       + if channel_open (ch (App.sample_peer "Bob")) then 1 else 0)%nat.
Proof.
  eexists. split; [vm_compute; reflexivity|].
  apply (disconnected_peer_gets_nothing App.sample_host Sample.idA
           (App.sample_peer "Bob") Wire.sample_message).
  - vm_compute. reflexivity.
  - vm_compute. reflexivity.
Defined.

End AfterDisconnect.

(* ------------------------------------------------------------------ *)
(** ** utils.js: every order can come out of the shuffle               *)
(* ------------------------------------------------------------------ *)

Section ShuffleReach.
Import Display.
Context {A : Type}.

Lemma swap_with_last (u : list A) (y : A) (suf : list A) (j : nat) (x : A) :
  u !! j = Some x ->
  swap (length u) j (u ++ y :: suf) = Some (<[j := y]> u ++ x :: suf).
Proof.
  intros Hj. pose proof (lookup_lt_Some _ _ _ Hj) as Lj. unfold swap.
  rewrite (list_lookup_middle u suf y (length u)) by reflexivity. cbn [mbind option_bind].
  rewrite lookup_app_l, Hj by exact Lj. cbn [mbind option_bind]. f_equal.
  rewrite (insert_app_r_alt u _ (length u)) by lia.
  rewrite Nat.sub_diag. cbn [insert list_insert].
  apply insert_app_l, Lj.
Qed.

Lemma swap_last_itself (u : list A) (y : A) (suf : list A) :
  swap (length u) (length u) (u ++ y :: suf) = Some (u ++ y :: suf).
Proof.
  unfold swap. rewrite (list_lookup_middle u suf y (length u)) by reflexivity.
  cbn [mbind option_bind]. f_equal.
  rewrite !(insert_app_r_alt u _ (length u)) by lia.
  rewrite Nat.sub_diag. reflexivity.
Qed.

Lemma shuffle_from_reach (i : nat) : forall (pre target suf : list A),
  length pre = S i -> pre ≡ₚ target ->
  exists picks,
    picks_ok i picks = true /\
    shuffle_from i picks (pre ++ suf) = Some (target ++ suf).
Proof.
  induction i as [|i IH]; intros pre target suf Hlen Hperm.
  - exists []. split; [reflexivity|]. cbn [shuffle_from].
    destruct pre as [|x [|? ?]]; try discriminate.
    apply Permutation_singleton_l in Hperm. subst. reflexivity.
  - destruct (exists_last (l := target)) as (q & x & ->).
    { intros ->. apply Permutation_nil_r in Hperm. subst. discriminate. }
    destruct (exists_last (l := pre)) as (u & y & ->).
    { intros ->. discriminate. }
    rewrite length_app in Hlen. cbn [length] in Hlen.
    assert (length u = S i) as Hu by lia.
    assert (x ∈ u ++ [y]) as Hx.
    { rewrite Hperm. apply elem_of_app. right. left. }
    apply elem_of_app in Hx as [Hx|Hx].
    + apply list_elem_of_lookup_1 in Hx as [j Hj].
      pose proof (lookup_lt_Some _ _ _ Hj) as Lj.
      assert (<[j := y]> u ≡ₚ q) as Hq.
      { apply (Permutation_app_inv_r [x]).
        rewrite <- Hperm.
        assert (swap (length u) j (u ++ [y]) = Some (<[j := y]> u ++ [x])) as Hs
          by (apply swap_with_last, Hj).
        symmetry. apply (swap_Permutation _ _ _ _ Hs). }
      destruct (IH (<[j := y]> u) q (x :: suf)) as (picks & Hok & Hrun);
        [rewrite length_insert; exact Hu|exact Hq|].
      exists (j :: picks). split.
      * cbn [picks_ok]. rewrite Hok, andb_true_r. apply Nat.leb_le. lia.
      * cbn [shuffle_from]. rewrite (proj2 (Nat.leb_le j (S i))) by lia.
        rewrite <- !app_assoc. cbn [app]. rewrite <- Hu.
        rewrite (swap_with_last u y suf j x Hj). cbn [mbind option_bind].
        exact Hrun.
    + apply list_elem_of_singleton in Hx. subst y.
      apply Permutation_app_inv_r in Hperm.
      destruct (IH u q (x :: suf) Hu Hperm) as (picks & Hok & Hrun).
      exists (S i :: picks). split.
      * cbn [picks_ok]. rewrite Hok, andb_true_r. apply Nat.leb_le. lia.
      * cbn [shuffle_from]. rewrite Nat.leb_refl.
        rewrite <- !app_assoc. cbn [app]. rewrite <- Hu at 1 2.
        rewrite swap_last_itself. cbn [mbind option_bind].
        exact Hrun.
Qed.

(** X28. The shuffle is complete: every rearrangement of the input is
    the result of [shuffleArray] for some run of the random draws, each
    within its range. *)
Theorem shuffleArray_reaches_every_order (arr target : list A) :
  arr ≡ₚ target ->
  exists picks,
    picks_ok (length arr - 1) picks = true /\
    shuffleArray picks arr = Some target.
Proof.
  intros Hperm. unfold shuffleArray. destruct arr as [|x arr].
  - apply Permutation_nil_l in Hperm. subst. exists []. split; reflexivity.
  - destruct (shuffle_from_reach (length arr) (x :: arr) target [] eq_refl Hperm)
      as (picks & Hok & Hrun).
    rewrite !app_nil_r in Hrun. exists picks.
    change (length (x :: arr) - 1)%nat with (length arr - 0)%nat.
    rewrite Nat.sub_0_r. split; assumption.
Qed.

End ShuffleReach.

Section ShuffleReachExample.
Import Display.

Lemma shuffleArray_reaches_every_order_witness :
  exists picks,
    picks_ok (length [js "Ada"; js "Bob"; js "Cy"] - 1) picks = true /\
    shuffleArray picks [js "Ada"; js "Bob"; js "Cy"]
    = Some [js "Cy"; js "Ada"; js "Bob"].
Proof.
  apply (shuffleArray_reaches_every_order
           [js "Ada"; js "Bob"; js "Cy"] [js "Cy"; js "Ada"; js "Bob"]).
  symmetry. apply (Permutation_cons_append [js "Ada"; js "Bob"] (js "Cy")).
Defined.

End ShuffleReachExample.

(* ------------------------------------------------------------------ *)
(** ** game.js: another round of clues, and the stopwatch              *)
(* ------------------------------------------------------------------ *)

Section NextRound.
Import Game Play.

(** X29. Another round of clues keeps the secret: [nextRoundSameWord]
    changes neither the word nor the imposter nor the roster, counts the
    round up by one, and the clue phase that follows again lets everybody
    speak exactly once, starting from the newly drawn player. *)
Theorem nextRoundSameWord_keeps_secret (k : nat) (st : State) :
  (k < length (players st))%nat ->
  Z.of_nat (length (players st)) < 2 ^ 52 ->
  round st < 2 ^ 53 ->
  exists st0 st',
    nextRoundSameWord k st = Ret st0 /\
    currentWord st0 = currentWord st /\ imposterIndex st0 = imposterIndex st /\
    players st0 = players st /\ usedWords st0 = usedWords st /\
    round st0 = round st + 1 /\ currentPhase st0 = CLUES /\
    timerSeconds st0 = 0 /\ timerRunning st0 = false /\
    clue_sequence (length (players st)) st0
    = (map (fun name => Ret (Some name)) (drop k (players st) ++ take k (players st)),
       st') /\
    currentWord st' = currentWord st /\ imposterIndex st' = imposterIndex st.
Proof.
  intros Hk Hsafe Hround. unfold nextRoundSameWord.
  assert (drawn (length (players st)) k = true) as Hdrawn.
  { unfold drawn. apply orb_true_iff. left. apply Nat.ltb_lt, Hk. }
  rewrite Hdrawn, incr_below by exact Hround.
  set (st0 := set_timerRunning false _).
  destruct (clue_rotation k st0) as (st1 & st' & Hstart & Hseq & _ & _ & _).
  { exact Hk. } { exact Hsafe. }
  assert (st1 = st0) as ->.
  { unfold startCluePhase in Hstart. change (players st0) with (players st) in Hstart.
    rewrite Hdrawn in Hstart. injection Hstart as <-. reflexivity. }
  exists st0, st'. split; [reflexivity|]. repeat (split; [reflexivity|]).
  split; [exact Hseq|].
  assert (forall n s t l,
            clue_sequence n s = (l, t) ->
            currentWord t = currentWord s /\ imposterIndex t = imposterIndex s) as Hkeep.
  { induction n as [|n IH]; intros s t l E.
    - cbn in E. injection E as _ <-. split; reflexivity.
    - rewrite clue_sequence_S in E. cbv zeta in E.
      destruct (nextClueTurn s) as [more s1] eqn:E1.
      assert (currentWord s1 = currentWord s /\ imposterIndex s1 = imposterIndex s)
        as [H1 H2].
      { unfold nextClueTurn in E1. injection E1 as _ <-. split; reflexivity. }
      destruct more.
      + destruct (clue_sequence n s1) as [rest s2] eqn:E2.
        injection E as _ <-. destruct (IH _ _ _ E2) as [H3 H4].
        split; congruence.
      + injection E as _ <-. split; assumption. }
  apply (Hkeep _ _ _ _ Hseq).
Qed.

Lemma nextRoundSameWord_keeps_secret_witness :
  exists st0 st',
    nextRoundSameWord 2 App.sample_game = Ret st0 /\
    currentWord st0 = currentWord App.sample_game /\
    imposterIndex st0 = imposterIndex App.sample_game /\
    players st0 = players App.sample_game /\
    usedWords st0 = usedWords App.sample_game /\
    round st0 = round App.sample_game + 1 /\ currentPhase st0 = CLUES /\
    timerSeconds st0 = 0 /\ timerRunning st0 = false /\
    clue_sequence (length (players App.sample_game)) st0
    = (map (fun name => Ret (Some name))
           (drop 2 (players App.sample_game) ++ take 2 (players App.sample_game)),
       st') /\
    currentWord st' = currentWord App.sample_game /\
    imposterIndex st' = imposterIndex App.sample_game.
Proof.
  apply (nextRoundSameWord_keeps_secret 2 App.sample_game); cbn; lia.
Defined.

Lemma ticks_running (n : nat) : forall st,
  timerRunning st = true -> timerSeconds st + Z.of_nat n <= 2 ^ 53 ->
  Nat.iter n tickTimerSecond st
  = set_timerSeconds (timerSeconds st + Z.of_nat n) st.
Proof.
  induction n as [|n IH]; intros st Hr Hs.
  - cbn [Nat.iter nat_rect]. rewrite Z.add_0_r. destruct st. reflexivity.
  - rewrite Nat.iter_succ, IH by (try assumption; lia).
    unfold tickTimerSecond. cbn [timerRunning timerSeconds set_timerSeconds].
    rewrite Hr, incr_below by lia.
    replace (timerSeconds st + Z.of_nat n + 1) with (timerSeconds st + Z.of_nat (S n))
      by lia.
    reflexivity.
Qed.

Lemma ticks_paused (n : nat) st :
  timerRunning st = false -> Nat.iter n tickTimerSecond st = st.
Proof.
  intros Hr. induction n as [|n IH]; [reflexivity|].
  rewrite Nat.iter_succ, IH. unfold tickTimerSecond. rewrite Hr. reflexivity.
Qed.

(** X30. The stopwatch.  Started from a reset, [n] ticks of one second
    make the timer read [n]; once it is paused, further ticks change
    nothing; starting it again goes on from the same reading; and
    [resetTimer] stops it at zero. *)
Theorem stopwatch_counts (n k more : nat) (st : State) :
  Z.of_nat (n + more) <= 2 ^ 53 ->
  let started := (toggleTimer (resetTimer st)).2 in
  let ran := Nat.iter n tickTimerSecond started in
  let paused := (toggleTimer ran).2 in
  let waited := Nat.iter k tickTimerSecond paused in
  let resumed := Nat.iter more tickTimerSecond (toggleTimer waited).2 in
  (toggleTimer (resetTimer st)).1 = true /\
  timerSeconds ran = Z.of_nat n /\ timerRunning ran = true /\
  (toggleTimer ran).1 = false /\
  waited = paused /\ timerSeconds waited = Z.of_nat n /\
  timerSeconds resumed = Z.of_nat (n + more) /\
  timerSeconds (resetTimer resumed) = 0 /\ timerRunning (resetTimer resumed) = false /\
  set_timerRunning false (set_timerSeconds 0 resumed)
  = set_timerRunning false (set_timerSeconds 0 st).
Proof.
  intros Hsafe. cbv zeta.
  set (started := (toggleTimer (resetTimer st)).2).
  assert (Nat.iter n tickTimerSecond started
          = set_timerSeconds (Z.of_nat n) started) as Hran.
  { rewrite ticks_running; [reflexivity|reflexivity|cbn; lia]. }
  rewrite Hran.
  set (paused := (toggleTimer (set_timerSeconds (Z.of_nat n) started)).2).
  rewrite (ticks_paused k paused eq_refl).
  rewrite ticks_running; [|reflexivity|cbn; lia].
  cbn [timerSeconds timerRunning toggleTimer resetTimer set_timerSeconds
       set_timerRunning fst snd paused started negb].
  repeat split; lia.
Qed.

Lemma stopwatch_counts_witness :
  let st := App.sample_game in
  let started := (toggleTimer (resetTimer st)).2 in
  let ran := Nat.iter 75 tickTimerSecond started in
  let paused := (toggleTimer ran).2 in
  let waited := Nat.iter 10 tickTimerSecond paused in
  let resumed := Nat.iter 5 tickTimerSecond (toggleTimer waited).2 in
  (toggleTimer (resetTimer st)).1 = true /\
  timerSeconds ran = Z.of_nat 75 /\ timerRunning ran = true /\
  (toggleTimer ran).1 = false /\
  waited = paused /\ timerSeconds waited = Z.of_nat 75 /\
  timerSeconds resumed = Z.of_nat (75 + 5) /\
  timerSeconds (resetTimer resumed) = 0 /\ timerRunning (resetTimer resumed) = false /\
  set_timerRunning false (set_timerSeconds 0 resumed)
  = set_timerRunning false (set_timerSeconds 0 st).
Proof.
  apply (stopwatch_counts 75 10 5 App.sample_game). cbn. lia.
Defined.

End NextRound.
